(** * player/command.c: property/command dispatch core of mpv

    Shallow embedding of the hook manager, the change-notification name
    matching, the property bridge, the cycle-values command and the command
    pipeline of [player/command.c], with the properties of the specification
    stated and settled against these definitions. *)

From Stdlib Require Import ZArith Lia Bool Ascii String List.
From stdpp Require Import base tactics option list strings sorting gmap.

Local Open Scope string_scope.
Local Open Scope Z_scope.
Local Open Scope list_scope.

(** ** C strings

    A [char *] is modelled by its contents, a [string]: the characters before
    the terminating NUL (so no character of the contents is NUL, and the end
    of the [string] stands for the terminator).  Lengths and indices of names
    are [nat] (names are far shorter than [INT_MAX]). *)
Module CStr.

Definition code (c : ascii) : Z := Z.of_nat (nat_of_ascii c).

(** [strlen(p)] *)
Fixpoint strlen (p : string) : nat :=
  match p with
  | EmptyString => 0%nat
  | String _ p' => S (strlen p')
  end.

(** [strchr(p, c)]: offset of the first [c], or [None] for [NULL]. *)
Fixpoint strchr (p : string) (c : ascii) : option nat :=
  match p with
  | EmptyString => None
  | String d p' =>
      if Ascii.eqb d c then Some 0%nat
      else match strchr p' c with
           | Some i => Some (S i)
           | None => None
           end
  end.

(** The sign of the first differing pair of characters, compared as
    [unsigned char]; C fixes only the sign of the result. *)
Definition char_diff (c d : ascii) : Z :=
  if code c <? code d then -1 else 1.

(** [strncmp(a, b, n)]: compares at most [n] characters and stops at the
    terminator. *)
Fixpoint strncmp (a b : string) (n : nat) {struct n} : Z :=
  match n with
  | O => 0
  | S n' =>
      match a, b with
      | EmptyString, EmptyString => 0
      | EmptyString, String _ _ => -1
      | String _ _, EmptyString => 1
      | String c a', String d b' =>
          if Ascii.eqb c d then strncmp a' b' n' else char_diff c d
      end
  end.

(** [strcmp(a, b)] *)
Fixpoint strcmp (a b : string) : Z :=
  match a, b with
  | EmptyString, EmptyString => 0
  | EmptyString, String _ _ => -1
  | String _ _, EmptyString => 1
  | String c a', String d b' =>
      if Ascii.eqb c d then strcmp a' b' else char_diff c d
  end.

(** [p + n] for [n <= strlen(p)] *)
Fixpoint advance (p : string) (n : nat) : string :=
  match n, p with
  | S n', String _ p' => advance p' n'
  | _, _ => p
  end.

(** the first [n] characters of [p] (all of [p] when it is shorter) *)
Fixpoint first_chars (n : nat) (p : string) : string :=
  match n, p with
  | S n', String c p' => String c (first_chars n' p')
  | _, _ => EmptyString
  end.

End CStr.

(** ** Change notification: matching of property names *)
Module Notify.
Import CStr.

(** If there is no prefix, return length+1 (avoids matching full name as
    prefix). *)
Definition prefix_len (p : string) : nat :=
  match strchr p "/"%char with
  | Some e => e
  | None => (strlen p + 1)%nat
  end.

Definition match_property (a b : string) : bool :=
  if strcmp a "*" =? 0 then true
  else
    let a := if strncmp a "options/" 8 =? 0 then advance a 8 else a in
    let b := if strncmp b "options/" 8 =? 0 then advance b 8 else b in
    let len_a := prefix_len a in
    let len_b := prefix_len b in
    strncmp a b (Nat.min len_a len_b) =? 0.

(** The specification's wording: the name up to its first '/', or the whole
    name when it has none. *)
Definition strip_options (a : string) : string :=
  if String.prefix "options/" a then advance a 8 else a.

Definition first_component (a : string) : string :=
  match strchr a "/"%char with
  | Some e => first_chars e a
  | None => a
  end.

Definition spec_match (a b : string) : bool :=
  String.eqb a "*" ||
  String.eqb (first_component (strip_options a))
             (first_component (strip_options b)).

End Notify.

(** ** Machine integers *)
Module CInt.

(** value of a [w]-bit two's complement integer after wrap-around *)
Definition wrap_signed (w : Z) (z : Z) : Z :=
  (z + 2 ^ (w - 1)) mod 2 ^ w - 2 ^ (w - 1).

Definition to_int (z : Z) : Z := wrap_signed 32 z.
Definition to_int64 (z : Z) : Z := wrap_signed 64 z.
Definition to_uint64 (z : Z) : Z := z mod 2 ^ 64.

End CInt.

(** ** Hook manager *)
Module Hooks.
Import CStr CInt.

Record hook_handler := mk_hook_handler {
  client : string;   (* client API user name *)
  type : string;     (* kind of hook, e.g. "on_load" *)
  user_id : Z;       (* user-chosen ID (uint64_t) *)
  priority : Z;      (* priority for global hook order (int) *)
  seq : Z;           (* unique ID, != 0, also for fixed order on equal priorities (int64_t) *)
  legacy : bool;     (* old cmd based hook API *)
  active : bool;     (* hook is currently in progress (only 1 at a time for now) *)
}.

Definition set_active (b : bool) (h : hook_handler) : hook_handler :=
  {| client := client h; type := type h; user_id := user_id h;
     priority := priority h; seq := seq h; legacy := legacy h; active := b |}.

(** The event handed to [mp_client_send_event]: either the legacy client
    message ["hook_run", user_id, seq] (the two numbers printed with %llu) or
    an [mpv_event_hook] with the hook's name and id. *)
Inductive hook_event :=
  | MPV_EVENT_CLIENT_MESSAGE (user_id seq : Z)
  | MPV_EVENT_HOOK (name : string) (id : Z).

(** The client API (player/client.c) is an external collaborator: its state
    is abstract, [mp_client_exists] reads it and [mp_client_send_event]
    returns the new state and the result, negative on failure. *)
Class ClientApi := {
  clients : Type;
  mp_client_exists : clients -> string -> bool;
  mp_client_send_event : clients -> string -> Z -> hook_event -> clients * Z;
  MPV_ERROR_INVALID_PARAMETER : Z;
}.

(** One call of [mp_client_send_event] with its result. *)
Record sent_event := mk_sent {
  sent_to : string;
  sent_reply_id : Z;
  sent_data : hook_event;
  sent_result : Z;
}.

Section WithClientApi.
Context `{ClientApi}.

(** The part of [struct MPContext] the hook manager touches: the hook array
    and sequence counter of [command_ctx], the client API, and as trace the
    events handed to clients and the number of [mp_wakeup_core] calls. *)
Record MPContext := mk_MPContext {
  hooks : list hook_handler;
  hook_seq : Z;
  client_api : clients;
  sent : list sent_event;
  wakeups : nat;
}.

Definition with_hooks (st : MPContext) (hs : list hook_handler) : MPContext :=
  {| hooks := hs; hook_seq := hook_seq st; client_api := client_api st;
     sent := sent st; wakeups := wakeups st |}.

Definition mp_wakeup_core (st : MPContext) : MPContext :=
  {| hooks := hooks st; hook_seq := hook_seq st; client_api := client_api st;
     sent := sent st; wakeups := S (wakeups st) |}.

(** [for (int n = index; n < cmd->num_hooks; n++)] leaving at the first
    [hooks[n]] that satisfies [cond]: that [n] and handler, if any. *)
Fixpoint first_from (cond : hook_handler -> bool) (hs : list hook_handler)
    (index : nat) : option (nat * hook_handler) :=
  match hs, index with
  | [], _ => None
  | h :: hs', O =>
      if cond h then Some (O, h)
      else match first_from cond hs' O with
           | Some (n, h') => Some (S n, h')
           | None => None
           end
  | _ :: hs', S index' =>
      match first_from cond hs' index' with
      | Some (n, h') => Some (S n, h')
      | None => None
      end
  end.

(** [hook_remove(mpctx, h)] for the handler [h = cmd->hooks[n]].  The entries
    of the array are distinct allocations, so the scan for the pointer [h]
    stops at [n], and [MP_TARRAY_REMOVE_AT] closes the gap. *)
Definition hook_remove (st : MPContext) (n : nat) : MPContext :=
  with_hooks st (delete n (hooks st)).

Definition is_type (ty : string) (h : hook_handler) : bool :=
  strcmp (type h) ty =? 0.

Definition mp_hook_test_completion (st : MPContext) (ty : string)
    : bool * MPContext :=
  match first_from (fun h => active h && is_type ty h) (hooks st) 0 with
  | Some (n, h) =>
      if negb (mp_client_exists (client_api st) (client h))
      then (true, hook_remove st n)
      else (false, st)
  | None => (true, st)
  end.

(** [h] is [cmd->hooks[n]]. *)
Definition invoke_hook_handler (st : MPContext) (n : nat) (h : hook_handler)
    : Z * MPContext :=
  let st := with_hooks st (<[n := set_active true h]> (hooks st)) in
  let '(reply_id, data) :=
    if legacy h
    then (0, MPV_EVENT_CLIENT_MESSAGE (user_id h) (to_uint64 (seq h)))
    else (user_id h, MPV_EVENT_HOOK (type h) (to_uint64 (seq h))) in
  let '(cl, r) := mp_client_send_event (client_api st) (client h) reply_id data in
  let st :=
    {| hooks := hooks st; hook_seq := hook_seq st; client_api := cl;
       sent := sent st ++ [mk_sent (client h) reply_id data r];
       wakeups := wakeups st |} in
  if r <? 0
  then (r, mp_wakeup_core (hook_remove st n))   (* repeat next iteration to finish *)
  else (r, st).

Definition run_next_hook_handler (st : MPContext) (ty : string) (index : nat)
    : Z * MPContext :=
  match first_from (is_type ty) (hooks st) index with
  | Some (n, h) => invoke_hook_handler st n h
  | None => (0, mp_wakeup_core st)   (* finished hook *)
  end.

(** The [while] loop of [mp_hook_start], unrolled at most [fuel] times. *)
Fixpoint mp_hook_start_loop (fuel : nat) (st : MPContext) (ty : string)
    : option MPContext :=
  match fuel with
  | O => None
  | S fuel' =>
      let '(r, st') := run_next_hook_handler st ty 0 in
      if r <? 0 then mp_hook_start_loop fuel' st' ty else Some st'
  end.

(** Each repetition of the loop removes a handler, so one more round than
    there are handlers is enough. *)
Definition mp_hook_start (st : MPContext) (ty : string) : option MPContext :=
  mp_hook_start_loop (S (length (hooks st))) st ty.

Definition mp_hook_continue (st : MPContext) (cl : string) (id : Z)
    : Z * MPContext :=
  match first_from
          (fun h => (strcmp (client h) cl =? 0) && (to_uint64 (seq h) =? id))
          (hooks st) 0 with
  | Some (n, h) =>
      if negb (active h) then (MPV_ERROR_INVALID_PARAMETER, st)
      else
        let st := with_hooks st (<[n := set_active false h]> (hooks st)) in
        run_next_hook_handler st (type h) (n + 1)
  | None => (MPV_ERROR_INVALID_PARAMETER, st)
  end.

(** The [int] that [compare_hook] returns: the differences wrap around, the
    one of the [int64_t] sequence numbers is cut to [int]. *)
Definition compare_hook (h1 h2 : hook_handler) : Z :=
  if negb (priority h1 =? priority h2)
  then to_int (priority h1 - priority h2)
  else to_int (to_int64 (seq h1 - seq h2)).

(** [qsort(base, nmemb, size, compar)].  The C library leaves the algorithm
    open; this is the insertion sort.  Where [compar] is a strict total order
    on the elements of the array the sorted array is unique, whatever the
    algorithm (see [qsort_unique]). *)
Fixpoint qsort_insert {A} (compar : A -> A -> Z) (x : A) (l : list A) : list A :=
  match l with
  | [] => [x]
  | y :: l' =>
      if compar x y <=? 0 then x :: y :: l' else y :: qsort_insert compar x l'
  end.

Fixpoint qsort {A} (compar : A -> A -> Z) (l : list A) : list A :=
  match l with
  | [] => []
  | x :: l' => qsort_insert compar x (qsort compar l')
  end.

Definition mp_hook_add (st : MPContext) (cl name : string) (uid : Z)
    (pri : Z) (leg : bool) : MPContext :=
  let s := to_int64 (hook_seq st + 1) in
  let h := {| client := cl; type := name; user_id := uid; priority := pri;
              seq := s; legacy := leg; active := false |} in
  {| hooks := qsort compare_hook (hooks st ++ [h]);
     hook_seq := s; client_api := client_api st;
     sent := sent st; wakeups := wakeups st |}.

(** *** Vocabulary of the hook properties *)

(** ascending (priority, sequence number) order *)
Definition hook_lt (h1 h2 : hook_handler) : Prop :=
  priority h1 < priority h2 \/ (priority h1 = priority h2 /\ seq h1 < seq h2).

(** the handlers of type [ty], in array order, and the other ones *)
Definition of_type (ty : string) (hs : list hook_handler) : list hook_handler :=
  filter (fun h => is_type ty h = true) hs.

Definition not_of_type (ty : string) (hs : list hook_handler) : list hook_handler :=
  filter (fun h => is_type ty h = false) hs.

(** the handlers of type [ty] that are in progress *)
Definition active_of (ty : string) (hs : list hook_handler) : list hook_handler :=
  filter (fun h => active h && is_type ty h = true) hs.

Definition at_most_one_active (st : MPContext) : Prop :=
  forall ty, (length (active_of ty (hooks st)) <= 1)%nat.

(** [mp_hook_continue(client, id)] names the handler [h] *)
Definition acknowledges (cl : string) (id : Z) (h : hook_handler) : Prop :=
  client h = cl /\ to_uint64 (seq h) = id.

(** What a call of [mp_hook_start] on [st] has done when it returns [st']:
    [failed] are the handlers of the type whose client could not be reached,
    in array order, [rest] the handlers of the type after them.  The events
    went to the clients of [failed] and, if there is one, of the first of
    [rest]; that one is now active, and without one the end of the hook was
    signalled. *)
Definition start_outcome (st st' : MPContext) (ty : string)
    (failed rest : list hook_handler) : Prop :=
  of_type ty (hooks st) = failed ++ rest /\
  not_of_type ty (hooks st') = not_of_type ty (hooks st) /\
  (exists evs,
      sent st' = sent st ++ evs /\
      map sent_to evs = map client failed ++ map client (take 1 rest) /\
      Forall (fun e => sent_result e < 0) (take (length failed) evs) /\
      Forall (fun e => 0 <= sent_result e) (drop (length failed) evs)) /\
  match rest with
  | [] =>
      of_type ty (hooks st') = [] /\
      (wakeups st < wakeups st')%nat /\
      mp_hook_test_completion st' ty = (true, st')
  | h :: rest' =>
      of_type ty (hooks st') = set_active true h :: rest'
  end.

(** *** Sequences of hook operations *)

Inductive hook_op :=
  | Register (cl name : string) (uid pri : Z) (leg : bool)   (* mp_hook_add *)
  | Start (ty : string)                                      (* mp_hook_start *)
  | Acknowledge (cl : string) (id : Z)                       (* mp_hook_continue *)
  | Poll (ty : string)                                       (* mp_hook_test_completion *)
  | ClientsChange (c : clients).            (* clients connect, disconnect, choke *)

Definition run_op (st : MPContext) (op : hook_op) : option MPContext :=
  match op with
  | Register cl name uid pri leg => Some (mp_hook_add st cl name uid pri leg)
  | Start ty => mp_hook_start st ty
  | Acknowledge cl id => Some (snd (mp_hook_continue st cl id))
  | Poll ty => Some (snd (mp_hook_test_completion st ty))
  | ClientsChange c =>
      Some {| hooks := hooks st; hook_seq := hook_seq st; client_api := c;
              sent := sent st; wakeups := wakeups st |}
  end.

Fixpoint run_ops (st : MPContext) (ops : list hook_op) : option MPContext :=
  match ops with
  | [] => Some st
  | op :: ops' =>
      match run_op st op with
      | Some st' => run_ops st' ops'
      | None => None
      end
  end.

(** the state of a fresh [command_ctx] *)
Definition initial (c : clients) : MPContext :=
  {| hooks := []; hook_seq := 0; client_api := c; sent := []; wakeups := 0 |}.

(** The use the player makes of the hook manager: a hook type is started
    only while none of its handlers is in progress (the caller polls
    [mp_hook_test_completion] until the hook is done).  Priorities and the
    sequence counter stay where the subtractions of [compare_hook] do not
    overflow. *)
Definition in_protocol (st : MPContext) (op : hook_op) : Prop :=
  match op with
  | Register _ _ _ pri _ =>
      - 2 ^ 30 <= pri < 2 ^ 30 /\ hook_seq st < 2 ^ 31 - 1
  | Start ty => active_of ty (hooks st) = []
  | _ => True
  end.

Fixpoint follows_protocol (st : MPContext) (ops : list hook_op) : Prop :=
  match ops with
  | [] => True
  | op :: ops' =>
      in_protocol st op /\
      forall st', run_op st op = Some st' -> follows_protocol st' ops'
  end.

(** The two halves of the protocol, each along a sequence of operations:
    a hook type is started only while none of its handlers is in progress;
    priorities and the sequence counter stay where [compare_hook] does not
    overflow. *)
Definition starts_when_idle (st : MPContext) (op : hook_op) : Prop :=
  match op with
  | Start ty => active_of ty (hooks st) = []
  | _ => True
  end.

Definition within_range (st : MPContext) (op : hook_op) : Prop :=
  match op with
  | Register _ _ _ pri _ =>
      - 2 ^ 30 <= pri < 2 ^ 30 /\ hook_seq st < 2 ^ 31 - 1
  | _ => True
  end.

Fixpoint along (P : MPContext -> hook_op -> Prop) (st : MPContext)
    (ops : list hook_op) : Prop :=
  match ops with
  | [] => True
  | op :: ops' =>
      P st op /\ forall st', run_op st op = Some st' -> along P st' ops'
  end.

(** [g] is the registration [h], whatever its progress *)
Definition same_registration (h g : hook_handler) : Prop :=
  client g = client h /\ type g = type h /\ user_id g = user_id h /\
  priority g = priority h /\ seq g = seq h /\ legacy g = legacy h.

(** [g] is the first handler of type [ty] in (priority, sequence number)
    order *)
Definition least_of_type (ty : string) (hs : list hook_handler)
    (g : hook_handler) : Prop :=
  g ∈ hs /\ type g = ty /\
  forall g', g' ∈ hs -> type g' = ty -> g' = g \/ hook_lt g g'.

(** [g] is the handler of the type of [h] that follows [h] in that order *)
Definition next_of_type (hs : list hook_handler) (h g : hook_handler) : Prop :=
  g ∈ hs /\ type g = type h /\ hook_lt h g /\
  forall g', g' ∈ hs -> type g' = type h -> hook_lt h g' ->
             g' = g \/ hook_lt g g'.

(** *** The invariant of the hook array *)

(** priorities and sequence numbers on which [compare_hook] does not
    overflow *)
Definition in_range (h : hook_handler) : Prop :=
  - 2 ^ 30 <= priority h < 2 ^ 30 /\ 1 <= seq h < 2 ^ 31.

(** 1 if [h] counts as a handler of type [ty] in progress, else 0 *)
Definition cnt (ty : string) (h : hook_handler) : nat :=
  if active h && is_type ty h then 1 else 0.

(** the array is sorted by (priority, sequence number), and the sequence
    numbers are distinct and were handed out by the counter [s] *)
Definition hooks_inv (hs : list hook_handler) (s : Z) : Prop :=
  StronglySorted hook_lt hs /\
  Forall (fun h => - 2 ^ 30 <= priority h < 2 ^ 30 /\ 1 <= seq h <= s) hs /\
  NoDup (seq <$> hs) /\
  0 <= s < 2 ^ 31.

Definition state_inv (st : MPContext) : Prop :=
  at_most_one_active st /\ hooks_inv (hooks st) (hook_seq st).

End WithClientApi.

(** A client API for examples: the state is the list of connected clients,
    and an event reaches exactly those. *)
Definition list_client_api : ClientApi := {|
  clients := list string;
  mp_client_exists cs c := existsb (String.eqb c) cs;
  mp_client_send_event cs c _ _ :=
    (cs, if existsb (String.eqb c) cs then 0 else -1);
  MPV_ERROR_INVALID_PARAMETER := -4;
|}.

(** Example: clients A (priority 0) and B (priority 10) hook "on_load". *)
Definition example_ops : list (@hook_op list_client_api) :=
  [Register "A" "on_load" 7 0 false; Register "B" "on_load" 8 10 false;
   Start "on_load"; Acknowledge "A" 1].

(** Example: the hook is started again while B is still in progress. *)
Definition restart_ops : list (@hook_op list_client_api) :=
  example_ops ++ [Start "on_load"].

Definition example_initial : @MPContext list_client_api :=
  @initial list_client_api ["A"; "B"].

(** Example: A is in progress, B waits. *)
Definition example_in_progress : @MPContext list_client_api :=
  {| hooks := [mk_hook_handler "A" "on_load" 7 0 1 false true;
               mk_hook_handler "B" "on_load" 8 10 2 false false];
     hook_seq := 2; client_api := (["A"; "B"] : @clients list_client_api);
     sent := []; wakeups := 0 |}.

(** Example: A and B register and the hook starts. *)
Definition example_started_ops : list (@hook_op list_client_api) :=
  [Register "A" "on_load" 7 0 false; Register "B" "on_load" 8 10 false;
   Start "on_load"].

(** Example: A and B are registered, nothing is in progress, and A has
    disconnected. *)
Definition example_registered : @MPContext list_client_api :=
  {| hooks := [mk_hook_handler "A" "on_load" 7 0 1 false false;
               mk_hook_handler "B" "on_load" 8 10 2 false false];
     hook_seq := 2; client_api := (["B"] : @clients list_client_api);
     sent := []; wakeups := 0 |}.

(** Example: A is in progress and has disconnected. *)
Definition example_dead_client : @MPContext list_client_api :=
  {| hooks := [mk_hook_handler "A" "on_load" 7 0 1 false true];
     hook_seq := 1; client_api := ([] : @clients list_client_api);
     sent := []; wakeups := 0 |}.

End Hooks.

(** ** Property layer: notification of changes, option bridge, cycle-values *)
Module Property.
Import CStr CInt.

(** the actions of [enum mp_property_action] that command.c names *)
Inductive mp_property_action :=
  | M_PROPERTY_GET
  | M_PROPERTY_PRINT
  | M_PROPERTY_SET
  | M_PROPERTY_SWITCH
  | M_PROPERTY_GET_TYPE
  | M_PROPERTY_GET_CONSTRICTED_TYPE
  | M_PROPERTY_SET_STRING
  | M_PROPERTY_SET_NODE
  | M_PROPERTY_MULTIPLY
  | M_PROPERTY_KEY_ACTION
  | M_PROPERTY_other (action : Z).

(** [struct m_property]: the fields this file reads here *)
Record m_property := mk_m_property {
  prop_name : string;
  is_option : bool;
}.

(** what the player does that an observer can see *)
Inductive event :=
  | mp_client_property_change (name : string)
  | verbose_set_property (name : string) (t : option string) (r : Z)
  | verbose_picking_default
  | err_no_value_arguments
  | osd_unknown_property (name : string)
  | osd_failed_to_set_property (name : string).

Section Types.
(** [struct m_option], [union m_option_value] and the rest of the player
    state belong to other modules and stay abstract. *)
Context {m_option m_option_value player : Type}.

(** The [void *] argument of a property action, by what it points to. *)
Inductive prop_arg :=
  | arg_null
  | arg_type (t : m_option)             (* struct m_option * *)
  | arg_value (v : m_option_value)      (* union m_option_value * *)
  | arg_string (s : string)             (* char * *)
  | arg_key_action (key : string) (action : mp_property_action)
                   (arg : prop_arg).    (* struct m_property_action_arg * *)

(** [struct m_config_option] *)
Record m_config_option := mk_m_config_option {
  co_name : string;
  co_opt : m_option;
}.

(** The part of [struct MPContext] (with its [command_ctx]) that the
    property layer of this file reads and writes. *)
Record MPContext := mk_MPContext {
  properties : list m_property;
  silence_option_deprecations : Z;
  msgl_v : bool;                 (* mp_msg_test(ctx->log, MSGL_V) *)
  rest : player;
}.

Definition with_silence (st : MPContext) (z : Z) : MPContext :=
  {| properties := properties st; silence_option_deprecations := z;
     msgl_v := msgl_v st; rest := rest st |}.

(** Code of the player: a state transformer that also emits events, or
    stops the process ([None]: a failed [assert], a read outside an array). *)
Definition M (A : Type) : Type := MPContext -> option (A * MPContext * list event).

Definition ret {A} (a : A) : M A := fun st => Some (a, st, []).

Definition bind {A B} (f : A -> M B) (m : M A) : M B :=
  fun st =>
    match m st with
    | Some (a, st1, w1) =>
        match f a st1 with
        | Some (b, st2, w2) => Some (b, st2, w1 ++ w2)
        | None => None
        end
    | None => None
    end.

#[global] Instance M_ret : MRet M := @ret.
#[global] Instance M_bind : MBind M := @bind.

Definition emit (e : event) : M unit := fun st => Some (tt, st, [e]).
Definition abort {A} : M A := fun _ => None.
Definition get : M MPContext := fun st => Some (st, st, []).
Definition put (st : MPContext) : M unit := fun _ => Some (tt, st, []).
(** a call into another module *)
Definition call {A} (f : MPContext -> A * MPContext * list event) : M A :=
  fun st => Some (f st).

(** the outcome [o] of a computation, after the events [w] *)
Definition after_events {A} (w : list event)
    (o : option (A * MPContext * list event)) : option (A * MPContext * list event) :=
  match o with
  | Some (a, st, w') => Some (a, st, w ++ w')
  | None => None
  end.

(** The collaborators of the property layer (options/m_property.c,
    options/m_option.c, options/m_config.c) and the constants of their
    headers. *)
Class PropertyApi := {
  M_PROPERTY_OK : Z;
  M_PROPERTY_UNAVAILABLE : Z;
  M_PROPERTY_UNKNOWN : Z;
  M_OPT_INVALID : Z;
  (* struct m_option x = {0}, and {0} with .type = &m_option_type_node or
     &m_option_type_string *)
  m_option_zero : m_option;
  m_option_node : m_option;
  m_option_string : m_option;
  (* union m_option_value x = {0} *)
  m_option_value_zero : m_option_value;
  (* type.type == opt->type, type.max == opt->max, type.min == opt->min *)
  same_type_and_range : m_option -> m_option -> bool;
  (* the result and what the action left behind its pointer argument *)
  m_property_do : string -> mp_property_action -> prop_arg ->
                  MPContext -> (Z * prop_arg) * MPContext * list event;
  m_property_list_find : list m_property -> string -> option m_property;
  (* NULL on failure *)
  m_option_print : m_option -> prop_arg -> option string;
  (* the result and the parsed value *)
  m_option_parse : m_option -> string -> string -> Z * m_option_value;
  m_config_set_option_raw_direct :
    m_config_option -> prop_arg -> Z -> MPContext -> Z * MPContext * list event;
  m_config_mark_co_flags : m_config_option -> Z -> MPContext -> MPContext;
}.

End Types.

Arguments prop_arg : clear implicits.
Arguments m_config_option : clear implicits.
Arguments MPContext : clear implicits.
Arguments M : clear implicits.
Arguments PropertyApi : clear implicits.

Section WithPropertyApi.
Context {m_option m_option_value player : Type}.
Context `{PropertyApi m_option m_option_value player}.

Abbreviation M := (M player).
Abbreviation MPContext := (MPContext player).
Abbreviation prop_arg := (prop_arg m_option m_option_value).

Definition mp_notify_property (property : string) : M unit :=
  emit (mp_client_property_change property).

(** [val] is what the pointer argument points to. *)
Fixpoint is_property_set (action : mp_property_action) (val : prop_arg) : bool :=
  match action with
  | M_PROPERTY_SET
  | M_PROPERTY_SWITCH
  | M_PROPERTY_SET_STRING
  | M_PROPERTY_SET_NODE
  | M_PROPERTY_MULTIPLY => true
  | M_PROPERTY_KEY_ACTION =>
      match val with
      | arg_key_action _ action' arg' => is_property_set action' arg'
      | _ => false
      end
  | _ => false
  end.

Definition mp_property_do_silent (name : string) (action : mp_property_action)
    (val : prop_arg) : M (Z * prop_arg) :=
  st ← get ;
  put (with_silence st (to_int (silence_option_deprecations st + 1))) ;;
  '(r, val) ← call (m_property_do name action val) ;
  st ← get ;
  put (with_silence st (to_int (silence_option_deprecations st - 1))) ;;
  (if (r =? M_PROPERTY_OK) && is_property_set action val
   then mp_notify_property name else ret tt) ;;
  ret (r, val).

Definition mp_property_do (name : string) (action : mp_property_action)
    (val : prop_arg) : M (Z * prop_arg) :=
  '(r, val) ← mp_property_do_silent name action val ;
  st ← get ;
  (if msgl_v st && is_property_set action val
   then
     let t :=
       match action with
       | M_PROPERTY_SET_NODE => m_option_print m_option_node val
       | M_PROPERTY_SET_STRING => m_option_print m_option_string val
       | _ => None
       end in
     emit (verbose_set_property name t r)
   else ret tt) ;;
  ret (r, val).

(** What [m_property_do] left in a [struct m_option] or a
    [union m_option_value] of the caller; the callee cannot turn the object
    into one of another kind, so the other cases keep the initial [{0}]. *)
Definition as_type (a : prop_arg) : m_option :=
  match a with arg_type t => t | _ => m_option_zero end.

Definition as_value (a : prop_arg) : m_option_value :=
  match a with arg_value v => v | _ => m_option_value_zero end.

(** Option-property bridge *)
Definition mp_on_set_option (co : m_config_option m_option) (data : prop_arg)
    (flags : Z) : M Z :=
  let name := co_name co in
  let direct_option : M Z :=
    mp_notify_property name ;;
    call (m_config_set_option_raw_direct co data flags) in
  st ← get ;
  match m_property_list_find (properties st) name with
  | Some (mk_m_property _ true) => direct_option
  | _ =>
      '(r, type) ← mp_property_do_silent name M_PROPERTY_GET_TYPE
                                         (arg_type m_option_zero) ;
      if r =? M_PROPERTY_UNKNOWN then direct_option   (* not mapped as property *)
      else if negb (r =? M_PROPERTY_OK) then ret M_OPT_INVALID   (* shouldn't happen *)
      else if negb (same_type_and_range (as_type type) (co_opt co)) then abort
      else
        '(r, _) ← mp_property_do_silent name M_PROPERTY_SET data ;
        if negb (r =? M_PROPERTY_OK) then ret M_OPT_INVALID
        else
          (* The flags can't be passed through the property layer correctly. *)
          st ← get ;
          put (m_config_mark_co_flags co flags st) ;;
          ret 0
  end.

(** *** The cycle-values command *)

(** [struct mp_cmd_ctx] of a command whose arguments are all strings:
    [args[n].v.s]; [num_args] is the length of [args]. *)
Record mp_cmd_ctx := mk_mp_cmd_ctx {
  args : list string;
  success : bool;
}.

Definition num_args (cmd : mp_cmd_ctx) : Z := Z.of_nat (length (args cmd)).

Definition failed (cmd : mp_cmd_ctx) : mp_cmd_ctx :=
  {| args := args cmd; success := false |}.

(** [cmd->args[n].v.s]; reading outside the array stops the model *)
Definition arg_s (cmd : mp_cmd_ctx) (n : Z) : M string :=
  if n <? 0 then abort
  else match args cmd !! Z.to_nat n with
       | Some s => ret s
       | None => abort
       end.

Definition show_property_status (cmd : mp_cmd_ctx) (name : string) (r : Z)
    : M mp_cmd_ctx :=
  if (r =? M_PROPERTY_OK) || (r =? M_PROPERTY_UNAVAILABLE) then
    if r =? M_PROPERTY_UNAVAILABLE then ret (failed cmd) else ret cmd
  else if r =? M_PROPERTY_UNKNOWN then
    emit (osd_unknown_property name) ;; ret (failed cmd)
  else if r <=? 0 then
    emit (osd_failed_to_set_property name) ;; ret (failed cmd)
  else ret cmd.

Definition change_property_cmd (cmd : mp_cmd_ctx) (name : string)
    (action : mp_property_action) (arg : prop_arg) : M mp_cmd_ctx :=
  '(r, _) ← mp_property_do name action arg ;
  show_property_status cmd name r.

(** Since there is no m_option_equals() or anything similar, we convert all
    values to a common, unambiguous representation - strings. *)
Definition compare_values (type : m_option) (a b : m_option_value) : bool :=
  let as_ := m_option_print type (arg_value a) in
  let bs := m_option_print type (arg_value b) in
  String.eqb (default "" as_) (default "" bs).   (* treat as "" on failure *)

(** The loop that finds the current value: [n] runs over the value arguments
    [values = args[n], args[n+1], ...]; the result is [current]. *)
Fixpoint find_current (prop : m_option) (name : string)
    (curval : m_option_value) (values : list string) (n : Z) : Z :=
  match values with
  | [] => -1
  | s :: values' =>
      let '(r, val) := m_option_parse prop name s in
      if r <? 0 then find_current prop name curval values' (n + 1)
      else if compare_values prop curval val then n
      else find_current prop name curval values' (n + 1)
  end.

Definition cmd_cycle_values (cmd : mp_cmd_ctx) : M mp_cmd_ctx :=
  a0 ← arg_s cmd 0 ;
  let '(first, dir) :=
    if strcmp a0 "!reverse" =? 0 then (1, -1) else (0, 1) in
  name ← arg_s cmd first ;
  let first := first + 1 in
  if first >=? num_args cmd then
    emit err_no_value_arguments ;; ret (failed cmd)
  else
    '(r, prop) ← mp_property_do name M_PROPERTY_GET_TYPE (arg_type m_option_zero) ;
    let prop := as_type prop in
    if r <=? 0 then show_property_status cmd name r
    else
      '(r, curval) ← mp_property_do name M_PROPERTY_GET
                                    (arg_value m_option_value_zero) ;
      let curval := as_value curval in
      if r <=? 0 then show_property_status cmd name r
      else
        let current :=
          find_current prop name curval (drop (Z.to_nat first) (args cmd)) first in
        current ←
          (if current >=? 0 then
             let current := current + dir in
             let current := if current <? first then num_args cmd - 1 else current in
             let current := if current >=? num_args cmd then first else current in
             ret current
           else
             emit verbose_picking_default ;;
             ret (if dir >? 0 then first else num_args cmd - 1)) ;
        s ← arg_s cmd current ;
        change_property_cmd cmd name M_PROPERTY_SET_STRING (arg_string s).

(** *** The same in the words of the specification *)

(** a candidate literal, normalized through the property's own parser *)
Definition normalized (prop : m_option) (name literal : string) : option string :=
  let '(r, val) := m_option_parse prop name literal in
  if r <? 0 then None
  else Some (default "" (m_option_print prop (arg_value val))).

(** the position of the current value among the candidates *)
Fixpoint current_position (prop : m_option) (name : string)
    (curval : m_option_value) (candidates : list string) : option nat :=
  match candidates with
  | [] => None
  | c :: candidates' =>
      if decide (normalized prop name c =
                 Some (default "" (m_option_print prop (arg_value curval))))
      then Some 0%nat
      else S <$> current_position prop name curval candidates'
  end.

(** The set class in the words of the specification: set, switch,
    multiply, set-string, set-node, or a key action around one of these. *)
Inductive set_class : mp_property_action -> prop_arg -> Prop :=
  | set_class_set val : set_class M_PROPERTY_SET val
  | set_class_switch val : set_class M_PROPERTY_SWITCH val
  | set_class_multiply val : set_class M_PROPERTY_MULTIPLY val
  | set_class_set_string val : set_class M_PROPERTY_SET_STRING val
  | set_class_set_node val : set_class M_PROPERTY_SET_NODE val
  | set_class_key_action key action arg :
      set_class action arg ->
      set_class M_PROPERTY_KEY_ACTION (arg_key_action key action arg).

(** the argument list of the command *)
Definition cycle_args (reverse : bool) (name : string) (candidates : list string)
    : list string :=
  (if reverse then ["!reverse"] else []) ++ name :: candidates.

(** the candidate next to position [pos] in the direction of the command,
    wrapping around; without a position the first one in that direction *)
Definition adjacent (n : nat) (pos : option nat) (reverse : bool) : nat :=
  match pos with
  | Some i => if reverse then (i + n - 1) mod n else (i + 1) mod n
  | None => if reverse then (n - 1)%nat else 0%nat
  end.

End WithPropertyApi.

(** An example: one integer property "volume", kept in the player state;
    values are written 1, 2, 3, and 1 also 01. *)
Definition example_print (v : Z) : string :=
  if v =? 1 then "1" else if v =? 2 then "2" else if v =? 3 then "3" else "?".

Definition example_parse (s : string) : Z * Z :=
  if String.eqb s "1" || String.eqb s "01" then (0, 1)
  else if String.eqb s "2" then (0, 2)
  else if String.eqb s "3" then (0, 3)
  else (-1, 0).

Definition example_api : PropertyApi unit Z Z := {|
  M_PROPERTY_OK := 1;
  M_PROPERTY_UNAVAILABLE := -1;
  M_PROPERTY_UNKNOWN := -3;
  M_OPT_INVALID := -3;
  m_option_zero := tt;
  m_option_node := tt;
  m_option_string := tt;
  m_option_value_zero := 0;
  same_type_and_range _ _ := true;
  m_property_do name action arg st :=
    if negb (String.eqb name "volume") then ((-3, arg), st, [])
    else
      match action, arg with
      | M_PROPERTY_GET_TYPE, _ => ((1, arg_type tt), st, [])
      | M_PROPERTY_GET, _ => ((1, arg_value (rest st)), st, [])
      | M_PROPERTY_SET, arg_value v =>
          ((1, arg),
           {| properties := properties st;
              silence_option_deprecations := silence_option_deprecations st;
              msgl_v := msgl_v st; rest := v |}, [])
      | M_PROPERTY_SET_STRING, arg_string s =>
          let '(r, v) := example_parse s in
          if r <? 0 then ((0, arg), st, [])
          else
            ((1, arg),
             {| properties := properties st;
                silence_option_deprecations := silence_option_deprecations st;
                msgl_v := msgl_v st; rest := v |}, [])
      | _, _ => ((-2, arg), st, [])
      end;
  m_property_list_find ps name :=
    List.find (fun p => String.eqb (prop_name p) name) ps;
  m_option_print _ arg :=
    match arg with
    | arg_value v => Some (example_print v)
    | arg_string s => Some s
    | _ => None
    end;
  m_option_parse _ _ s := example_parse s;
  m_config_set_option_raw_direct _ _ _ st := (0, st, []);
  m_config_mark_co_flags _ _ st := st;
|}.

Definition example_state : MPContext Z :=
  {| properties := [mk_m_property "volume" false];
     silence_option_deprecations := 0; msgl_v := false; rest := 1 |}.

(** An example with sub-keys: the property "volume" takes every action on
    every key and leaves the state as it is. *)
Definition example_key_api : PropertyApi unit Z Z := {|
  M_PROPERTY_OK := 1;
  M_PROPERTY_UNAVAILABLE := -1;
  M_PROPERTY_UNKNOWN := -3;
  M_OPT_INVALID := -3;
  m_option_zero := tt;
  m_option_node := tt;
  m_option_string := tt;
  m_option_value_zero := 0;
  same_type_and_range _ _ := true;
  m_property_do name action arg st :=
    if String.eqb name "volume" then ((1, arg), st, []) else ((-3, arg), st, []);
  m_property_list_find ps name :=
    List.find (fun p => String.eqb (prop_name p) name) ps;
  m_option_print _ arg :=
    match arg with
    | arg_string s => Some s
    | _ => None
    end;
  m_option_parse _ _ s := example_parse s;
  m_config_set_option_raw_direct _ _ _ st := (0, st, []);
  m_config_mark_co_flags _ _ st := st;
|}.

End Property.

(** ** Command pipeline: run_command, completion, the list command *)
Module Command.
Import CInt.

(** Addresses of talloc allocations, and thread identities. *)
Definition ptr := nat.
Definition pthread_t := nat.

(** [cmd->def->handler]: [cmd_list], or the handler of another command,
    known by the name of the command. *)
Inductive handler_fn :=
  | handler_cmd_list
  | handler_of (name : string).

(** [struct mp_cmd_def], the fields [run_command] reads *)
Record mp_cmd_def := mk_mp_cmd_def {
  name : string;
  handler : handler_fn;
  exec_async : bool;
  spawn_thread : bool;
  can_abort : bool;
  abort_on_playback_end : bool;
}.

Definition mp_cmd_list : mp_cmd_def :=
  {| name := "list"; handler := handler_cmd_list; exec_async := true;
     spawn_thread := false; can_abort := false; abort_on_playback_end := false |}.

(** [struct mp_cmd] and its arguments: a string ([v.s], of type
    CONF_TYPE_STRING), the sub-commands of a list command ([v.p], the chain
    linked by [queue_next]) or another value. *)
Inductive mp_cmd :=
  | mk_mp_cmd (def : mp_cmd_def) (flags : Z) (args : list mp_cmd_arg)
with mp_cmd_arg :=
  | arg_s (s : string)
  | arg_p (p : list mp_cmd)
  | arg_v (v : Z).

Definition def (cmd : mp_cmd) : mp_cmd_def := let '(mk_mp_cmd d _ _) := cmd in d.
Definition flags (cmd : mp_cmd) : Z := let '(mk_mp_cmd _ f _) := cmd in f.
Definition cmd_args (cmd : mp_cmd) : list mp_cmd_arg := let '(mk_mp_cmd _ _ a) := cmd in a.

(** [struct mp_abort_entry] *)
Record mp_abort_entry := mk_mp_abort_entry {
  coupled_to_playback : bool;
}.

(** The completion callbacks: the one of this file, or one of a caller in
    another module. *)
Inductive completion_fn :=
  | callback_on_cmd_list_sub_completion
  | callback_of (f : string).

Section Types.
(** [mpv_node] and the rest of the player state are abstract. *)
Context {mpv_node player : Type}.

(** [struct mp_cmd_ctx]; [args] is the array shared with [cmd]. *)
Record mp_cmd_ctx := mk_mp_cmd_ctx {
  cmd : mp_cmd_def * Z;            (* cmd->def and cmd->flags *)
  args : list mp_cmd_arg;
  abort : option mp_abort_entry;
  success : bool;
  completed : bool;
  result : option mpv_node;
  on_completion : option completion_fn;
  on_completion_priv : option ptr;
}.

Record cmd_list_ctx := mk_cmd_list_ctx {
  parent : ptr;                    (* actual list command *)
  current_valid : bool;
  current : pthread_t;
  completed_recursive : bool;
}.

Inductive event :=
  | ev_handler (ctx : ptr) (name : string)     (* cmd->def->handler(ctx) *)
  | ev_on_completion (ctx : ptr) (f : completion_fn) (success : bool)
                                               (* cmd->on_completion(cmd) *)
  | ev_free (ctx : ptr)                        (* talloc_free(cmd) *)
  | ev_wakeup_core.

(** The part of [struct MPContext] the pipeline works on, the heap of
    command and list contexts, the jobs queued on the thread pool, and the
    trace of what happened. *)
Record MPContext := mk_MPContext {
  rest : player;
  ctxs : gmap ptr mp_cmd_ctx;
  lists : gmap ptr cmd_list_ctx;
  next_ptr : ptr;
  thread_pool : list ptr;          (* run_command_on_worker_thread(ctx) *)
  outstanding_async : Z;
  abort_list : list ptr;           (* mp_abort_add: by owning context *)
  trace : list event;
}.

(** What the code of this file calls in other modules, and the two flag
    bits of input/input.h. *)
Class CommandApi := {
  MP_ASYNC_CMD : Z;
  MP_EXPAND_PROPERTIES : Z;
  (* NULL on a malformed string *)
  mp_property_expand_string : player -> string -> option string;
  (* does the pool take one more job? *)
  mp_thread_pool_queue : player -> list ptr -> bool;
  mp_is_shutting_down : player -> bool;
  (* the handler of the command of that name, run on the arguments: the new
     player state, cmd->success and cmd->result *)
  handler_body : string -> list mp_cmd_arg -> player -> player * bool * option mpv_node;
}.

(** How a call ends: normally, in undefined behaviour (a context that was
    freed or never allocated, a failed assert), or not within the fuel. *)
Inductive outcome (A : Type) :=
  | Ok (a : A)
  | Fault
  | OutOfFuel.
#[global] Arguments Ok {A} a.
#[global] Arguments Fault {A}.
#[global] Arguments OutOfFuel {A}.

End Types.

Arguments mp_cmd_ctx : clear implicits.
Arguments MPContext : clear implicits.
Arguments CommandApi : clear implicits.

Section WithCommandApi.
Context {mpv_node player : Type}.
Context `{CommandApi mpv_node player}.

Abbreviation mp_cmd_ctx := (mp_cmd_ctx mpv_node).
Abbreviation MPContext := (MPContext mpv_node player).

Definition set_rest (st : MPContext) (p : player) : MPContext :=
  {| rest := p; ctxs := ctxs st; lists := lists st; next_ptr := next_ptr st;
     thread_pool := thread_pool st; outstanding_async := outstanding_async st;
     abort_list := abort_list st; trace := trace st |}.

Definition set_ctxs (st : MPContext) (m : gmap ptr mp_cmd_ctx) : MPContext :=
  {| rest := rest st; ctxs := m; lists := lists st; next_ptr := next_ptr st;
     thread_pool := thread_pool st; outstanding_async := outstanding_async st;
     abort_list := abort_list st; trace := trace st |}.

Definition set_lists (st : MPContext) (m : gmap ptr cmd_list_ctx) : MPContext :=
  {| rest := rest st; ctxs := ctxs st; lists := m; next_ptr := next_ptr st;
     thread_pool := thread_pool st; outstanding_async := outstanding_async st;
     abort_list := abort_list st; trace := trace st |}.

Definition set_next_ptr (st : MPContext) (n : ptr) : MPContext :=
  {| rest := rest st; ctxs := ctxs st; lists := lists st; next_ptr := n;
     thread_pool := thread_pool st; outstanding_async := outstanding_async st;
     abort_list := abort_list st; trace := trace st |}.

Definition set_thread_pool (st : MPContext) (q : list ptr) : MPContext :=
  {| rest := rest st; ctxs := ctxs st; lists := lists st; next_ptr := next_ptr st;
     thread_pool := q; outstanding_async := outstanding_async st;
     abort_list := abort_list st; trace := trace st |}.

Definition set_outstanding_async (st : MPContext) (z : Z) : MPContext :=
  {| rest := rest st; ctxs := ctxs st; lists := lists st; next_ptr := next_ptr st;
     thread_pool := thread_pool st; outstanding_async := z;
     abort_list := abort_list st; trace := trace st |}.

Definition set_abort_list (st : MPContext) (l : list ptr) : MPContext :=
  {| rest := rest st; ctxs := ctxs st; lists := lists st; next_ptr := next_ptr st;
     thread_pool := thread_pool st; outstanding_async := outstanding_async st;
     abort_list := l; trace := trace st |}.

Definition log (st : MPContext) (e : event) : MPContext :=
  {| rest := rest st; ctxs := ctxs st; lists := lists st; next_ptr := next_ptr st;
     thread_pool := thread_pool st; outstanding_async := outstanding_async st;
     abort_list := abort_list st; trace := trace st ++ [e] |}.

Definition set_success (b : bool) (c : mp_cmd_ctx) : mp_cmd_ctx :=
  {| cmd := cmd c; args := args c; abort := abort c; success := b;
     completed := completed c; result := result c;
     on_completion := on_completion c; on_completion_priv := on_completion_priv c |}.

Definition set_completed (b : bool) (c : mp_cmd_ctx) : mp_cmd_ctx :=
  {| cmd := cmd c; args := args c; abort := abort c; success := success c;
     completed := b; result := result c;
     on_completion := on_completion c; on_completion_priv := on_completion_priv c |}.

Definition set_result (r : option mpv_node) (c : mp_cmd_ctx) : mp_cmd_ctx :=
  {| cmd := cmd c; args := args c; abort := abort c; success := success c;
     completed := completed c; result := r;
     on_completion := on_completion c; on_completion_priv := on_completion_priv c |}.

Definition set_args (a : list mp_cmd_arg) (c : mp_cmd_ctx) : mp_cmd_ctx :=
  {| cmd := cmd c; args := a; abort := abort c; success := success c;
     completed := completed c; result := result c;
     on_completion := on_completion c; on_completion_priv := on_completion_priv c |}.

Definition mp_wakeup_core (st : MPContext) : MPContext := log st ev_wakeup_core.

(** [mp_abort_add] and [mp_abort_remove], for the entry owned by [ctx] *)
Definition mp_abort_add (st : MPContext) (ctx : ptr) : MPContext :=
  set_abort_list st (ctx :: abort_list st).

Definition mp_abort_remove (st : MPContext) (ctx : ptr) : MPContext :=
  set_abort_list st (filter (fun c => c <> ctx) (abort_list st)).

(** The loop of [run_command] that expands the string arguments: the array
    as the loop leaves it, and whether every expansion succeeded. *)
Fixpoint expand_args (p : player) (a : list mp_cmd_arg) : list mp_cmd_arg * bool :=
  match a with
  | [] => ([], true)
  | arg_s s :: a' =>
      match mp_property_expand_string p s with
      | None => (arg_s s :: a', false)
      | Some s' => let '(a'', ok) := expand_args p a' in (arg_s s' :: a'', ok)
      end
  | x :: a' => let '(a'', ok) := expand_args p a' in (x :: a'', ok)
  end.


Definition update_ctx (st : MPContext) (ctx : ptr) (c : mp_cmd_ctx) : MPContext :=
  set_ctxs st (<[ctx := c]> (ctxs st)).

Definition update_list (st : MPContext) (list : ptr) (l : cmd_list_ctx) : MPContext :=
  set_lists st (<[list := l]> (lists st)).

(** The functions of the pipeline call each other, also through the
    function pointers [handler] and [on_completion].  Each body below is
    written over the functions it calls; [run_command] and the others then tie
    them together, with a bound on the depth of the calls and the number of
    loop rounds. *)
Section Bodies.
Variable self : pthread_t.                               (* pthread_self() *)
Variable run_command :
  MPContext -> mp_cmd -> option mp_abort_entry ->
  option completion_fn -> option ptr -> outcome MPContext.
Variables call_handler cmd_list continue_cmd_list
          on_cmd_list_sub_completion mp_cmd_ctx_complete :
  MPContext -> ptr -> outcome MPContext.

Definition run_command_body (st : MPContext) (cmd : mp_cmd)
    (abort : option mp_abort_entry) (on_completion : option completion_fn)
    (on_completion_priv : option ptr) : outcome MPContext :=
  let ctx := next_ptr st in
  let abort :=
    match abort with
    | Some a => Some a
    | None => if can_abort (def cmd) then Some (mk_mp_abort_entry false) else None
    end in
  (* assert(cmd->def->can_abort == !!ctx->abort) *)
  if negb (Bool.eqb (can_abort (def cmd)) (if abort is Some _ then true else false))
  then Fault
  else
    let abort :=
      (fun a => mk_mp_abort_entry
                  (coupled_to_playback a || abort_on_playback_end (def cmd)))
        <$> abort in
    let c := {| cmd := (def cmd, flags cmd); args := cmd_args cmd;
                abort := abort; success := true; completed := true;
                result := None; on_completion := on_completion;
                on_completion_priv := on_completion_priv |} in
    let st := set_next_ptr (update_ctx st ctx c) (S ctx) in
    let st := if abort is Some _ then mp_abort_add st ctx else st in
    let '(args', ok) :=
      if negb (Z.land (flags cmd) MP_EXPAND_PROPERTIES =? 0)
      then expand_args (rest st) (cmd_args cmd)
      else (cmd_args cmd, true) in
    let c := set_args args' c in
    let st := update_ctx st ctx c in
    if negb ok then
      mp_cmd_ctx_complete (update_ctx st ctx (set_success false c)) ctx
    else if spawn_thread (def cmd) then
      (* prevent that core disappears *)
      let st := set_outstanding_async st (to_int (outstanding_async st + 1)) in
      if mp_thread_pool_queue (rest st) (thread_pool st)
      then Ok (set_thread_pool st (thread_pool st ++ [ctx]))
      else
        let st := set_outstanding_async st (to_int (outstanding_async st - 1)) in
        mp_cmd_ctx_complete (update_ctx st ctx (set_success false c)) ctx
    else
      let exec_async := exec_async (def cmd) in
      match call_handler st ctx with
      | Ok st => if negb exec_async then mp_cmd_ctx_complete st ctx else Ok st
      | Fault => Fault
      | OutOfFuel => OutOfFuel
      end.

(** [ctx->cmd->def->handler(ctx)] *)
Definition call_handler_body (st : MPContext) (ctx : ptr) : outcome MPContext :=
  match ctxs st !! ctx with
  | None => Fault
  | Some c =>
      let st := log st (ev_handler ctx (name (fst (cmd c)))) in
      match handler (fst (cmd c)) with
      | handler_cmd_list => cmd_list st ctx
      | handler_of n =>
          let '(p, ok, res) := handler_body n (args c) (rest st) in
          Ok (set_rest (update_ctx st ctx (set_result res (set_success ok c))) p)
      end
  end.

Definition cmd_list_body (st : MPContext) (p : ptr) : outcome MPContext :=
  match ctxs st !! p with
  | None => Fault
  | Some c =>
      let st := update_ctx st p (set_completed false c) in
      let list := next_ptr st in
      let l := {| parent := p; current_valid := false; current := 0%nat;
                  completed_recursive := false |} in
      let st := set_next_ptr (update_list st list l) (S list) in
      continue_cmd_list st list
  end.

(** One round of the [while] loop; [continue_cmd_list] at the end of a
    round is the next round. *)
Definition continue_cmd_list_body (st : MPContext) (list : ptr) : outcome MPContext :=
  match lists st !! list with
  | None => Fault
  | Some l =>
      match ctxs st !! parent l with
      | None => Fault
      | Some p =>
          match args p with
          | arg_p (sub :: queue_next) :: a =>
              let st := update_ctx st (parent l) (set_args (arg_p queue_next :: a) p) in
              if negb (Z.land (flags sub) MP_ASYNC_CMD =? 0) then
                (* We run it "detached" (fire & forget) *)
                match run_command st sub None None None with
                | Ok st => continue_cmd_list st list
                | Fault => Fault
                | OutOfFuel => OutOfFuel
                end
              else
                (* Run the next command once this one completes. *)
                let l := {| parent := parent l; current_valid := true;
                            current := self; completed_recursive := false |} in
                let st := update_list st list l in
                match run_command st sub None
                        (Some callback_on_cmd_list_sub_completion) (Some list) with
                | Ok st =>
                    match lists st !! list with
                    | None => Fault
                    | Some l =>
                        let st :=
                          update_list st list
                            {| parent := parent l; current_valid := false;
                               current := current l;
                               completed_recursive := completed_recursive l |} in
                        if negb (completed_recursive l) then Ok st
                        else continue_cmd_list st list
                    end
                | Fault => Fault
                | OutOfFuel => OutOfFuel
                end
          | arg_p [] :: _ =>
              match mp_cmd_ctx_complete st (parent l) with
              | Ok st =>
                  match lists st !! list with
                  | None => Fault
                  | Some _ => Ok (set_lists st (delete list (lists st)))
                  end
              | Fault => Fault
              | OutOfFuel => OutOfFuel
              end
          | _ => Fault
          end
      end
  end.

Definition on_cmd_list_sub_completion_body (st : MPContext) (ctx : ptr)
    : outcome MPContext :=
  match ctxs st !! ctx with
  | None => Fault
  | Some c =>
      match on_completion_priv c with
      | None => Fault
      | Some list =>
          match lists st !! list with
          | None => Fault
          | Some l =>
              if current_valid l && Nat.eqb (current l) self then
                Ok (update_list st list
                      {| parent := parent l; current_valid := current_valid l;
                         current := current l; completed_recursive := true |})
              else continue_cmd_list st list
          end
      end
  end.

(** Signal that the command is complete now. This also deallocates cmd. *)
Definition mp_cmd_ctx_complete_body (st : MPContext) (ctx : ptr)
    : outcome MPContext :=
  match ctxs st !! ctx with
  | None => Fault
  | Some c =>
      let c := set_completed true c in
      let c := if success c then c else set_result None c in
      let st := update_ctx st ctx c in
      let called :=
        match on_completion c with
        | None => Ok st
        | Some f =>
            let st := log st (ev_on_completion ctx f (success c)) in
            match f with
            | callback_on_cmd_list_sub_completion =>
                on_cmd_list_sub_completion st ctx
            | callback_of _ => Ok st
            end
        end in
      match called with
      | Ok st =>
          match ctxs st !! ctx with
          | None => Fault
          | Some c =>
              let st := if abort c is Some _ then mp_abort_remove st ctx else st in
              Ok (log (set_ctxs st (delete ctx (ctxs st))) (ev_free ctx))
          end
      | Fault => Fault
      | OutOfFuel => OutOfFuel
      end
  end.

End Bodies.

Fixpoint run_command (fuel : nat) (self : pthread_t) (st : MPContext)
    (cmd : mp_cmd) (abort : option mp_abort_entry)
    (on_completion : option completion_fn) (on_completion_priv : option ptr)
    {struct fuel} : outcome MPContext :=
  match fuel with
  | O => OutOfFuel
  | S fuel =>
      run_command_body (call_handler fuel self) (mp_cmd_ctx_complete fuel self)
                       st cmd abort on_completion on_completion_priv
  end
with call_handler (fuel : nat) (self : pthread_t) (st : MPContext) (ctx : ptr)
    {struct fuel} : outcome MPContext :=
  match fuel with
  | O => OutOfFuel
  | S fuel => call_handler_body (cmd_list fuel self) st ctx
  end
with cmd_list (fuel : nat) (self : pthread_t) (st : MPContext) (p : ptr)
    {struct fuel} : outcome MPContext :=
  match fuel with
  | O => OutOfFuel
  | S fuel => cmd_list_body (continue_cmd_list fuel self) st p
  end
with continue_cmd_list (fuel : nat) (self : pthread_t) (st : MPContext)
    (list : ptr) {struct fuel} : outcome MPContext :=
  match fuel with
  | O => OutOfFuel
  | S fuel =>
      continue_cmd_list_body self (run_command fuel self)
        (continue_cmd_list fuel self) (mp_cmd_ctx_complete fuel self) st list
  end
with on_cmd_list_sub_completion (fuel : nat) (self : pthread_t) (st : MPContext)
    (ctx : ptr) {struct fuel} : outcome MPContext :=
  match fuel with
  | O => OutOfFuel
  | S fuel => on_cmd_list_sub_completion_body self (continue_cmd_list fuel self) st ctx
  end
with mp_cmd_ctx_complete (fuel : nat) (self : pthread_t) (st : MPContext)
    (ctx : ptr) {struct fuel} : outcome MPContext :=
  match fuel with
  | O => OutOfFuel
  | S fuel => mp_cmd_ctx_complete_body (on_cmd_list_sub_completion fuel self) st ctx
  end.

Definition run_command_on_worker_thread (fuel : nat) (self : pthread_t)
    (st : MPContext) (ctx : ptr) : outcome MPContext :=
  match ctxs st !! ctx with
  | None => Fault
  | Some c =>
      let exec_async := exec_async (fst (cmd c)) in
      match call_handler fuel self st ctx with
      | Ok st =>
          match (if negb exec_async then mp_cmd_ctx_complete fuel self st ctx
                 else Ok st) with
          | Ok st =>
              let st := set_outstanding_async st (to_int (outstanding_async st - 1)) in
              if (outstanding_async st =? 0) && mp_is_shutting_down (rest st)
              then Ok (mp_wakeup_core st)
              else Ok st
          | Fault => Fault
          | OutOfFuel => OutOfFuel
          end
      | Fault => Fault
      | OutOfFuel => OutOfFuel
      end
  end.

(** A worker thread takes the oldest job of the pool. *)
Definition worker_thread (fuel : nat) (self : pthread_t) (st : MPContext)
    : outcome MPContext :=
  match thread_pool st with
  | [] => Ok st
  | ctx :: q => run_command_on_worker_thread fuel self (set_thread_pool st q) ctx
  end.

(** *** Vocabulary of the pipeline properties *)

(** The callback returns without running anything else: there is none, it
    belongs to another module, or it is the one of a list that is waiting
    in [continue_cmd_list] on this thread. *)
Definition returns_at_once (st : MPContext) (self : pthread_t)
    (on_completion : option completion_fn) (priv : option ptr) : Prop :=
  match on_completion with
  | Some callback_on_cmd_list_sub_completion =>
      exists list l, priv = Some list /\ lists st !! list = Some l /\
                     current_valid l = true /\ current l = self
  | _ => True
  end.

(** the list contexts after such a callback *)
Definition lists_after (st : MPContext) (on_completion : option completion_fn)
    (priv : option ptr) : gmap ptr cmd_list_ctx :=
  match on_completion, priv with
  | Some callback_on_cmd_list_sub_completion, Some list =>
      match lists st !! list with
      | Some l => <[list := {| parent := parent l; current_valid := current_valid l;
                               current := current l; completed_recursive := true |}]>
                    (lists st)
      | None => lists st
      end
  | _, _ => lists st
  end.

(** What is seen of one completion of the context [ctx]: the callback, if
    there is one, is called once, and the context is freed right after. *)
Definition completion_events (ctx : ptr) (on_completion : option completion_fn)
    (success : bool) : list event :=
  match on_completion with
  | Some f => [ev_on_completion ctx f success; ev_free ctx]
  | None => [ev_free ctx]
  end.

(** the abort entry that [run_command] registers for the command *)
Definition registered_abort (cmd : mp_cmd) (abort : option mp_abort_entry)
    : option mp_abort_entry :=
  if can_abort (def cmd)
  then Some (mk_mp_abort_entry
               (match abort with
                | Some a => coupled_to_playback a
                | None => false
                end || abort_on_playback_end (def cmd)))
  else None.

(** "Must not be set if cmd->def->can_abort==false." *)
Definition abort_allowed (cmd : mp_cmd) (abort : option mp_abort_entry) : Prop :=
  abort <> None -> can_abort (def cmd) = true.

(** the arguments after the expansion of properties, and whether it
    succeeded *)
Definition expanded (st : MPContext) (cmd : mp_cmd) : list mp_cmd_arg * bool :=
  if negb (Z.land (flags cmd) MP_EXPAND_PROPERTIES =? 0)
  then expand_args (rest st) (cmd_args cmd)
  else (cmd_args cmd, true).

(** the context that [run_command] builds for the command *)
Definition new_ctx (cmd : mp_cmd) (abort : option mp_abort_entry)
    (oc : option completion_fn) (priv : option ptr)
    (a : list mp_cmd_arg) (ok : bool) : mp_cmd_ctx :=
  {| Command.cmd := (def cmd, flags cmd); args := a;
     Command.abort := registered_abort cmd abort; success := ok;
     completed := true; result := None;
     on_completion := oc; on_completion_priv := priv |}.

(** the state while the command is in progress: its context allocated at
    [next_ptr st], its abort entry registered *)
Definition submitted (st : MPContext) (cmd : mp_cmd) (c : mp_cmd_ctx)
    (p : player) (outstanding : Z) (new : list event) : MPContext :=
  {| rest := p;
     ctxs := <[next_ptr st := c]> (ctxs st);
     lists := lists st;
     next_ptr := S (next_ptr st);
     thread_pool := thread_pool st;
     outstanding_async := outstanding;
     abort_list := if can_abort (def cmd)
                   then next_ptr st :: abort_list st else abort_list st;
     trace := trace st ++ new |}.

(** the state when a command that was submitted in [st] is complete and its
    context is gone again *)
Definition completed_in (st : MPContext) (cmd : mp_cmd) (p : player)
    (on_completion : option completion_fn) (priv : option ptr)
    (outstanding : Z) (new : list event) : MPContext :=
  {| rest := p;
     ctxs := ctxs st;
     lists := lists_after st on_completion priv;
     next_ptr := S (next_ptr st);
     thread_pool := thread_pool st;
     outstanding_async := outstanding;
     abort_list := if can_abort (def cmd)
                   then filter (fun x => x <> next_ptr st) (abort_list st)
                   else abort_list st;
     trace := trace st ++ new |}.

(** no context was allocated at [next_ptr st] or beyond *)
Definition fresh_from (st : MPContext) : Prop :=
  forall i, (next_ptr st <= i)%nat -> ctxs st !! i = None /\ lists st !! i = None.





(** a list command with the sub-commands [subs] *)
Definition list_cmd (fl : Z) (subs : list mp_cmd) : mp_cmd :=
  mk_mp_cmd mp_cmd_list fl [arg_p subs].


(** how often the callback of context [ctx] was called *)
Fixpoint times_completed (ctx : ptr) (t : list event) : nat :=
  match t with
  | [] => 0
  | ev_on_completion c _ _ :: t' =>
      ((if Nat.eqb c ctx then 1 else 0) + times_completed ctx t')%nat
  | _ :: t' => times_completed ctx t'
  end.

End WithCommandApi.

(** An example: the player state is the list of the handlers that ran; the
    handler called "fail" fails; the pool takes one job at a time. *)
Definition example_api : CommandApi Z (list string) := {|
  MP_ASYNC_CMD := 32;
  MP_EXPAND_PROPERTIES := 8;
  mp_property_expand_string p s := if String.eqb s "${" then None else Some s;
  mp_thread_pool_queue p q := (length q <? 1)%nat;
  mp_is_shutting_down p := false;
  handler_body n a p := (p ++ [n], negb (String.eqb n "fail"), None);
|}.


Definition example_worker_cmd (n : string) : mp_cmd :=
  mk_mp_cmd (mk_mp_cmd_def n (handler_of n) false true true false) 0 [].

Definition example_state : MPContext Z (list string) :=
  {| rest := []; ctxs := ∅; lists := ∅; next_ptr := 1%nat; thread_pool := [];
     outstanding_async := 0; abort_list := []; trace := [] |}.

(** the same with a job waiting in the pool, which is then full *)
Definition example_busy_state : MPContext Z (list string) :=
  {| rest := []; ctxs := ∅; lists := ∅; next_ptr := 1%nat; thread_pool := [0%nat];
     outstanding_async := 1; abort_list := []; trace := [] |}.

End Command.

(** ** Vocabulary for the matching of property names *)
Module PropertyNames.
Import CStr CInt Notify.

(** [s] begins with [k] *)
Definition starts_with (s k : string) : Prop := exists t, s = (k ++ t)%string.

(** the name has a '/' *)
Definition has_slash (a : string) : Prop := strchr a "/"%char <> None.

End PropertyNames.

(** ** Property ids and event masks *)
Module PropertyId.
Import CStr CInt Notify.

(** The loop of [mp_get_property_id] over [ctx->properties[n]], from entry
    [n] on; the array ends with the entry whose name is NULL.  (The array has
    far fewer than [INT_MAX] entries.) *)
Fixpoint find_property (ps : list Property.m_property) (name : string) (n : Z) : Z :=
  match ps with
  | [] => -1
  | p :: ps' =>
      if match_property (Property.prop_name p) name then n
      else find_property ps' name (n + 1)
  end.

(** Return an ID for the property. It might not be unique, but is good
    enough for property change handling. Return -1 if property unknown. *)
Definition mp_get_property_id {player} (st : Property.MPContext player)
    (name : string) : Z :=
  find_property (Property.properties st) name 0.

(** The events that index [mp_event_property_change]. *)
Inductive mp_event :=
  | MPV_EVENT_START_FILE
  | MPV_EVENT_END_FILE
  | MPV_EVENT_FILE_LOADED
  | MP_EVENT_CHANGE_ALL
  | MPV_EVENT_TRACKS_CHANGED
  | MPV_EVENT_TRACK_SWITCHED
  | MPV_EVENT_IDLE
  | MPV_EVENT_PAUSE
  | MPV_EVENT_UNPAUSE
  | MPV_EVENT_TICK
  | MP_EVENT_DURATION_UPDATE
  | MPV_EVENT_VIDEO_RECONFIG
  | MPV_EVENT_AUDIO_RECONFIG
  | MPV_EVENT_SEEK
  | MPV_EVENT_PLAYBACK_RESTART
  | MPV_EVENT_METADATA_UPDATE
  | MPV_EVENT_CHAPTER_CHANGE
  | MP_EVENT_CACHE_UPDATE
  | MP_EVENT_WIN_RESIZE
  | MP_EVENT_WIN_STATE
  | MP_EVENT_CHANGE_PLAYLIST
  | MP_EVENT_CORE_IDLE.

#[global] Instance mp_event_eq_dec : EqDecision mp_event.
Proof. solve_decision. Defined.

(** Each entry describes which properties an event (possibly) changes. *)
Definition mp_event_property_change : list (mp_event * list string) :=
  [(MPV_EVENT_START_FILE, ["*"]);
   (MPV_EVENT_END_FILE, ["*"]);
   (MPV_EVENT_FILE_LOADED, ["*"]);
   (MP_EVENT_CHANGE_ALL, ["*"]);
   (MPV_EVENT_TRACKS_CHANGED, ["track-list"]);
   (MPV_EVENT_TRACK_SWITCHED,
    ["vid"; "video"; "aid"; "audio"; "sid"; "sub"; "secondary-sid"]);
   (MPV_EVENT_IDLE, ["*"]);
   (MPV_EVENT_PAUSE, ["pause"]);
   (MPV_EVENT_UNPAUSE, ["pause"]);
   (MPV_EVENT_TICK,
    ["time-pos"; "audio-pts"; "stream-pos"; "avsync";
     "percent-pos"; "time-remaining"; "playtime-remaining"; "playback-time";
     "estimated-vf-fps"; "drop-frame-count"; "vo-drop-frame-count";
     "total-avsync-change"; "audio-speed-correction"; "video-speed-correction";
     "vo-delayed-frame-count"; "mistimed-frame-count"; "vsync-ratio";
     "estimated-display-fps"; "vsync-jitter"; "sub-text"; "audio-bitrate";
     "video-bitrate"; "sub-bitrate"; "decoder-frame-drop-count";
     "frame-drop-count"; "video-frame-info"]);
   (MP_EVENT_DURATION_UPDATE, ["duration"]);
   (MPV_EVENT_VIDEO_RECONFIG,
    ["video-out-params"; "video-params";
     "video-format"; "video-codec"; "video-bitrate"; "dwidth"; "dheight";
     "width"; "height"; "fps"; "aspect"; "vo-configured"; "current-vo";
     "colormatrix"; "colormatrix-input-range"; "colormatrix-output-range";
     "colormatrix-primaries"; "video-aspect"; "video-dec-params";
     "hwdec"; "hwdec-current"; "hwdec-interop"]);
   (MPV_EVENT_AUDIO_RECONFIG,
    ["audio-format"; "audio-codec"; "audio-bitrate";
     "samplerate"; "channels"; "audio"; "volume"; "mute";
     "current-ao"; "audio-codec-name"; "audio-params";
     "audio-out-params"; "volume-max"; "mixer-active"]);
   (MPV_EVENT_SEEK, ["seeking"; "core-idle"; "eof-reached"]);
   (MPV_EVENT_PLAYBACK_RESTART, ["seeking"; "core-idle"; "eof-reached"]);
   (MPV_EVENT_METADATA_UPDATE, ["metadata"; "filtered-metadata"; "media-title"]);
   (MPV_EVENT_CHAPTER_CHANGE, ["chapter"; "chapter-metadata"]);
   (MP_EVENT_CACHE_UPDATE,
    ["cache"; "cache-free"; "cache-used"; "cache-idle";
     "demuxer-cache-duration"; "demuxer-cache-idle"; "paused-for-cache";
     "demuxer-cache-time"; "cache-buffering-state"; "cache-speed";
     "cache-percent"]);
   (MP_EVENT_WIN_RESIZE, ["window-scale"; "osd-width"; "osd-height"; "osd-par"]);
   (MP_EVENT_WIN_STATE,
    ["window-minimized"; "display-names"; "display-fps"; "fullscreen"]);
   (MP_EVENT_CHANGE_PLAYLIST,
    ["playlist"; "playlist-pos"; "playlist-pos-1";
     "playlist-count"; "playlist/count"]);
   (MP_EVENT_CORE_IDLE, ["core-idle"; "eof-reached"])].

Section WithEventNumbers.
(** The values of the enumeration constants, which libmpv/client.h and
    player/command.h give. *)
Variable event_number : mp_event -> nat.

(** The array the designated initializers build: entry [n] is the list of
    the event with number [n] (of the last such initializer), and NULL where
    there is none. *)
Fixpoint designated (t : list (mp_event * list string)) (n : nat)
    : option (list string) :=
  match t with
  | [] => None
  | (e, l) :: t' =>
      match designated t' n with
      | Some l' => Some l'
      | None => if Nat.eqb (event_number e) n then Some l else None
      end
  end.

(** [MP_ARRAY_SIZE]: one more than the largest index *)
Definition array_size (t : list (mp_event * list string)) : nat :=
  S (foldr (fun x m => Nat.max (event_number x.1) m) 0%nat t).

(** The inner loop over [list[i]].  [1ULL << n] is undefined from [n = 64]
    on ([None]). *)
Fixpoint mask_of_list (l : list string) (name : string) (n : nat) (mask : Z)
    : option Z :=
  match l with
  | [] => Some mask
  | e :: l' =>
      if match_property e name then
        if (n <? 64)%nat
        then mask_of_list l' name n (Z.lor mask (Z.shiftl 1 (Z.of_nat n)))
        else None
      else mask_of_list l' name n mask
  end.

(** The outer loop: [count] more rounds from [n] on. *)
Fixpoint mask_of_rows (t : list (mp_event * list string)) (count n : nat)
    (name : string) (mask : Z) : option Z :=
  match count with
  | O => Some mask
  | S count' =>
      match designated t n with
      | Some l =>
          match mask_of_list l name n mask with
          | Some mask' => mask_of_rows t count' (S n) name mask'
          | None => None
          end
      | None => mask_of_rows t count' (S n) name mask
      end
  end.

(** the entries of row [n] of the array *)
Definition row (t : list (mp_event * list string)) (n : nat) : list string :=
  default [] (designated t n).

(** Return a bitset of events which change the property. *)
Definition mp_get_property_event_mask (name : string) : option Z :=
  mask_of_rows mp_event_property_change (array_size mp_event_property_change)
               0 name 0.

End WithEventNumbers.

(** a mask with no bit from [w] on *)
Definition fits (w : Z) (mask : Z) : Prop :=
  0 <= mask /\ forall k, w <= k -> Z.testbit mask k = false.

(** An example of a numbering of the events. *)
Definition example_event_number (e : mp_event) : nat :=
  match e with
  | MPV_EVENT_START_FILE => 6
  | MPV_EVENT_END_FILE => 7
  | MPV_EVENT_FILE_LOADED => 8
  | MPV_EVENT_TRACKS_CHANGED => 9
  | MPV_EVENT_TRACK_SWITCHED => 10
  | MPV_EVENT_IDLE => 11
  | MPV_EVENT_PAUSE => 12
  | MPV_EVENT_UNPAUSE => 13
  | MPV_EVENT_TICK => 14
  | MPV_EVENT_VIDEO_RECONFIG => 17
  | MPV_EVENT_AUDIO_RECONFIG => 18
  | MPV_EVENT_METADATA_UPDATE => 19
  | MPV_EVENT_SEEK => 20
  | MPV_EVENT_PLAYBACK_RESTART => 21
  | MPV_EVENT_CHAPTER_CHANGE => 23
  | MP_EVENT_CHANGE_ALL => 27
  | MP_EVENT_CACHE_UPDATE => 28
  | MP_EVENT_WIN_RESIZE => 29
  | MP_EVENT_WIN_STATE => 30
  | MP_EVENT_CHANGE_PLAYLIST => 31
  | MP_EVENT_CORE_IDLE => 32
  | MP_EVENT_DURATION_UPDATE => 33
  end%nat.

(** An example of a property array. *)
Definition example_properties : Property.MPContext unit :=
  {| Property.properties :=
       [Property.mk_m_property "pause" false;
        Property.mk_m_property "volume" false;
        Property.mk_m_property "playlist" false;
        Property.mk_m_property "playlist-pos" false;
        Property.mk_m_property "audio-device" true];
     Property.silence_option_deprecations := 0;
     Property.msgl_v := false;
     Property.rest := tt |}.

End PropertyId.

(** ** Track switching: the next track in a direction *)
Module Tracks.

(** [struct track], the fields [track_next] reads; [type] is a value of
    [enum stream_type]. *)
Record track := mk_track {
  type : Z;
  selected : bool;
}.

(** The loop variables [prev], [next] and [seen]; a [struct track *] is NULL
    or the address of an entry of [mpctx->tracks], known by its index. *)
Record scan := mk_scan {
  prev : option nat;
  next : option nat;
  seen : bool;
}.

(** The body of the loop, for [cur = mpctx->tracks[n]]. *)
Definition track_next_step (ty : Z) (trk : option nat) (n : nat) (cur : track)
    (s : scan) : scan :=
  if type cur =? ty then
    if decide (trk = Some n) then
      {| prev := prev s; next := next s; seen := true |}
    else if negb (selected cur) then
      let next' := if seen s && negb (bool_decide (is_Some (next s)))
                   then Some n else next s in
      let prev' := if negb (seen s) || negb (bool_decide (is_Some trk))
                   then Some n else prev s in
      {| prev := prev'; next := next'; seen := seen s |}
    else s
  else s.

(** The loop from [tracks[n]] on. *)
Fixpoint track_next_loop (tracks : list track) (n : nat) (ty : Z)
    (trk : option nat) (s : scan) : scan :=
  match tracks with
  | [] => s
  | cur :: tracks' =>
      track_next_loop tracks' (S n) ty trk (track_next_step ty trk n cur s)
  end.

(** [track_next(mpctx, type, direction, track)]; [None] where the assertion
    on [direction] fails. *)
Definition track_next (tracks : list track) (ty : Z) (direction : Z)
    (trk : option nat) : option (option nat) :=
  if negb ((direction =? -1) || (direction =? 1)) then None
  else
    let s := track_next_loop tracks 0 ty trk
               {| prev := None; next := None;
                  seen := negb (bool_decide (is_Some trk)) |} in
    Some (if direction >? 0 then next s else prev s).

(** a track that [track_next] may return: of the type, not selected, and
    not the track it was asked about *)
Definition candidate (tracks : list track) (ty : Z) (trk : option nat)
    (j : nat) : Prop :=
  exists t, tracks !! j = Some t /\ type t = ty /\ selected t = false /\
            trk <> Some j.

(** the start of the search: NULL, or track [i] of the wanted type *)
Definition start_at (tracks : list track) (ty : Z) (trk : option nat)
    (after : nat) : Prop :=
  match trk with
  | None => after = 0%nat
  | Some i => after = S i /\ exists t, tracks !! i = Some t /\ type t = ty
  end.

(** the end of the search backwards: the end of the array for NULL, or
    track [i] of the wanted type *)
Definition end_at (tracks : list track) (ty : Z) (trk : option nat)
    (before : nat) : Prop :=
  match trk with
  | None => before = length tracks
  | Some i => before = i /\ exists t, tracks !! i = Some t /\ type t = ty
  end.

(** what the loop makes of [prev] over the tracks from [lo] up to [hi]: the
    last candidate among them, or [p] as it was if there is none *)
Definition last_candidate (tracks : list track) (ty : Z) (trk : option nat)
    (lo hi : nat) (p p' : option nat) : Prop :=
  (p' = p /\ forall k, (lo <= k < hi)%nat -> ~ candidate tracks ty trk k) \/
  (exists j, p' = Some j /\ (lo <= j < hi)%nat /\ candidate tracks ty trk j /\
             forall k, (j < k < hi)%nat -> ~ candidate tracks ty trk k).

(** Example: audio tracks 0 (selected), 2 and 3, a video track 1. *)
Definition example_tracks : list track :=
  [mk_track 1 true; mk_track 0 false; mk_track 1 false; mk_track 1 false].

End Tracks.

(** ** The hook commands, and more vocabulary of the hook manager *)
Module HookCommands.
Import CStr CInt Hooks.

Section WithClientApi.
Context `{ClientApi}.

(** [cmd_hook_add]: [sender] is [cmd->cmd->sender] (NULL for a command that
    does not come from a client), the arguments are [args[0].v.s],
    [args[1].v.i] and [args[2].v.i] (two [int]s, the first of which becomes
    the [uint64_t user_id]); the result is [cmd->success], given that it was
    [success] before, and the new state. *)
Definition cmd_hook_add (st : MPContext) (sender : option string)
    (arg0 : string) (arg1 arg2 : Z) (success : bool) : bool * MPContext :=
  match sender with
  | None => (false, st)          (* "Can be used from client API only." *)
  | Some s => (success, mp_hook_add st s arg0 (to_uint64 arg1) arg2 true)
  end.

(** [cmd_hook_ack]: the argument is [args[0].v.i], an [int] that becomes
    the [uint64_t id]; the result of [mp_hook_continue] is dropped. *)
Definition cmd_hook_ack (st : MPContext) (sender : option string)
    (arg0 : Z) (success : bool) : bool * MPContext :=
  match sender with
  | None => (false, st)          (* "Can be used from client API only." *)
  | Some s => (success, snd (mp_hook_continue st s (to_uint64 arg0)))
  end.


(** the sequence numbers of the handlers are distinct and were handed out
    by the counter [s] *)
Definition ids_inv (hs : list hook_handler) (s : Z) : Prop :=
  Forall (fun h => 1 <= seq h <= s) hs /\ NoDup (seq <$> hs) /\ 0 <= s.

(** the number of registrations among the operations *)
Fixpoint registrations (ops : list hook_op) : nat :=
  match ops with
  | [] => 0
  | Register _ _ _ _ _ :: ops' => S (registrations ops')
  | _ :: ops' => registrations ops'
  end.

End WithClientApi.

(** Example: A has acknowledged, B, the last handler, is in progress. *)
Definition example_last_in_progress : @MPContext list_client_api :=
  {| hooks := [mk_hook_handler "A" "on_load" 7 0 1 false false;
               mk_hook_handler "B" "on_load" 8 10 2 false true];
     hook_seq := 2; client_api := (["A"; "B"] : @clients list_client_api);
     sent := []; wakeups := 0 |}.

(** Example: A is in progress and has disconnected, B waits. *)
Definition example_dead_first : @MPContext list_client_api :=
  {| hooks := [mk_hook_handler "A" "on_load" 7 0 1 false true;
               mk_hook_handler "B" "on_load" 8 10 2 false false];
     hook_seq := 2; client_api := (["B"] : @clients list_client_api);
     sent := []; wakeups := 0 |}.

(** Example: two handlers of equal priority registered [2^31] apart. *)
Definition example_early : hook_handler :=
  mk_hook_handler "A" "on_load" 7 0 1 false false.

Definition example_late : hook_handler :=
  mk_hook_handler "B" "on_load" 8 0 (2 ^ 31 + 1) false false.

End HookCommands.

(** ** More vocabulary of the command pipeline *)
Module Pipeline.
Import CInt Command.

Section WithCommandApi.
Context {mpv_node player : Type}.
Context `{CommandApi mpv_node player}.



End WithCommandApi.



End Pipeline.

(** ** revert-seek: the remembered positions *)
Module RevertSeek.

(** The arithmetic of [double] belongs to the machine: the values, the
    constant [MP_NOPTS_VALUE] of common/common.h, the comparisons [==] and
    [<], the sum, and the literal [2.0]. *)
Class DoubleOps := {
  double : Type;
  MP_NOPTS_VALUE : double;
  dbl_eq : double -> double -> bool;
  dbl_lt : double -> double -> bool;
  dbl_add : double -> double -> double;
  dbl_two : double;
}.

(** the first arguments of [queue_seek] *)
Inductive seek_type := MPSEEK_ABSOLUTE | MPSEEK_RELATIVE | MPSEEK_FACTOR.
Inductive seek_precision := MPSEEK_DEFAULT | MPSEEK_KEYFRAME | MPSEEK_EXACT.
Inductive seek_flags := MPSEEK_FLAG_DELAY.

(** the events that [mp_notify] hands to [command_event], as far as it
    tells them apart *)
Inductive notified :=
  | MPV_EVENT_START_FILE
  | MPV_EVENT_IDLE
  | MPV_EVENT_END_FILE
  | MPV_EVENT_FILE_LOADED
  | other_event (n : Z).

Section WithDoubleOps.
Context `{DoubleOps}.

(** The fields of [struct command_ctx] that the seek commands keep. *)
Record seek_ctx := mk_seek_ctx {
  is_idle : bool;
  last_seek_time : double;
  last_seek_pts : double;
  marked_pts : double;
}.

(** calls into the player: what was asked of it *)
Inductive call :=
  | queue_seek (t : seek_type) (amount : double) (exact : seek_precision)
               (flags : seek_flags)
  | set_osd_function_REW.

Definition command_event (c : seek_ctx) (event : notified) : seek_ctx :=
  let c :=
    match event with
    | MPV_EVENT_START_FILE =>
        {| is_idle := is_idle c; last_seek_time := last_seek_time c;
           last_seek_pts := MP_NOPTS_VALUE; marked_pts := MP_NOPTS_VALUE |}
    | _ => c
    end in
  let c :=
    match event with
    | MPV_EVENT_IDLE =>
        {| is_idle := true; last_seek_time := last_seek_time c;
           last_seek_pts := last_seek_pts c; marked_pts := marked_pts c |}
    | _ => c
    end in
  match event with
  | MPV_EVENT_START_FILE =>
      {| is_idle := false; last_seek_time := last_seek_time c;
         last_seek_pts := last_seek_pts c; marked_pts := marked_pts c |}
  | _ => c
  end.

(** Call before a seek, in order to allow revert-seek to undo the seek.
    [now] is [mp_time_sec()], [cur] is [get_current_time(mpctx)]. *)
Definition mark_seek (c : seek_ctx) (now cur : double) : seek_ctx :=
  let pts :=
    if dbl_lt (dbl_add (last_seek_time c) dbl_two) now ||
       dbl_eq (last_seek_pts c) MP_NOPTS_VALUE
    then cur else last_seek_pts c in
  {| is_idle := is_idle c; last_seek_time := now;
     last_seek_pts := pts; marked_pts := marked_pts c |}.

(** [cmd_revert_seek]: [arg0] is [args[0].v.i], [cur] is
    [get_current_time(mpctx)]; the result is [cmd->success], given that it
    was [success] before, the new context and the calls made. *)
Definition cmd_revert_seek (playback_initialized : bool) (arg0 : Z)
    (cur : double) (c : seek_ctx) (success : bool)
    : bool * seek_ctx * list call :=
  if negb playback_initialized then (false, c, [])
  else
    let oldpts := last_seek_pts c in
    let oldpts :=
      if negb (dbl_eq (marked_pts c) MP_NOPTS_VALUE) then marked_pts c
      else oldpts in
    if arg0 =? 1 then
      (success,
       {| is_idle := is_idle c; last_seek_time := last_seek_time c;
          last_seek_pts := last_seek_pts c; marked_pts := cur |}, [])
    else if negb (dbl_eq oldpts MP_NOPTS_VALUE) then
      (success,
       {| is_idle := is_idle c; last_seek_time := last_seek_time c;
          last_seek_pts := cur; marked_pts := MP_NOPTS_VALUE |},
       [queue_seek MPSEEK_ABSOLUTE oldpts MPSEEK_EXACT MPSEEK_FLAG_DELAY;
        set_osd_function_REW])
    else (false, c, []).

End WithDoubleOps.

(** An example of the arithmetic: whole numbers of milliseconds. *)
Definition example_double_ops : DoubleOps := {|
  double := Z;
  MP_NOPTS_VALUE := - 2 ^ 63;
  dbl_eq := Z.eqb;
  dbl_lt := Z.ltb;
  dbl_add := Z.add;
  dbl_two := 2000;
|}.

(** Example: the context when a file has started. *)
Definition example_seek_ctx : @seek_ctx example_double_ops :=
  @mk_seek_ctx example_double_ops false 0 (- 2 ^ 63) (- 2 ^ 63).

End RevertSeek.

(** ** script-binding: the message to a script *)
Module ScriptBinding.
Import CStr.

(** [struct mp_cmd], the fields [cmd_script_binding] reads *)
Record mp_cmd_keys := mk_mp_cmd_keys {
  is_mouse_button : bool;
  is_up_down : bool;
  repeated : bool;
  is_up : bool;
  key_name : option string;
}.

Section WithClients.
(** [MAX_CLIENT_NAME] of player/client.h, the state of the client API and
    [mp_client_send_event_dup] for a client message with the given strings:
    the new state and the result, negative on failure. *)
Variable MAX_CLIENT_NAME : nat.
Variable clients : Type.
Variable mp_client_send_event_dup :
  clients -> option string -> list string -> clients * Z.

(** [snprintf(space, size, "%.*s", precision, s)]: at most [precision] and
    at most [size - 1] characters of [s] *)
Definition snprintf_prefix (size precision : nat) (s : string) : string :=
  first_chars (Nat.min precision (size - 1)) s.

(** [char state[3]] *)
Definition key_state (incmd : mp_cmd_keys) : string :=
  let s1 := if is_mouse_button incmd then "m"%char else "-"%char in
  let s0 :=
    if is_up_down incmd
    then if repeated incmd then "r"%char
         else if is_up incmd then "u"%char else "d"%char
    else "p"%char in
  String s0 (String s1 EmptyString).

(** [cmd_script_binding]: [name] is [args[0].v.s]; the result is
    [cmd->success], given that it was [success] before, the client API and
    the message handed to it (target and strings), if any. *)
Definition cmd_script_binding (cl : clients) (incmd : mp_cmd_keys)
    (name : option string) (success : bool)
    : bool * clients * option (option string * list string) :=
  match name with
  | None | Some EmptyString => (false, cl, None)
  | Some name =>
      let '(target, name) :=
        match strchr name "/"%char with
        | Some sep =>
            (Some (snprintf_prefix MAX_CLIENT_NAME sep name), advance name (sep + 1))
        | None => (None, name)
        end in
      let event := ["key-binding"; name; key_state incmd; default "" (key_name incmd)] in
      let '(cl, r) := mp_client_send_event_dup cl target event in
      (if r <? 0 then false else success, cl, Some (target, event))
  end.

End WithClients.

(** An example of a client API: the state is the list of the clients, a
    message reaches those in the list, and all of them without a target. *)
Definition example_send_dup (cs : list string) (target : option string)
    (args : list string) : list string * Z :=
  (cs, match target with
       | Some c => if existsb (String.eqb c) cs then 0 else -1
       | None => 0
       end).

End ScriptBinding.

(** ** command_init: the property table *)
Module CommandInit.
Import CStr.

(** [m_property.call]: the function of an entry of [mp_properties_base]
    (known by the name of its property), or one of the three that
    [command_init] puts in for options. *)
Inductive property_call :=
  | call_of_base (name : string)
  | mp_property_generic_option
  | mp_property_alias
  | mp_property_deprecated_alias.

(** [struct m_property] *)
Record m_property := mk_m_property {
  name : string;
  call : property_call;
  priv : option string;
  is_option : bool;
}.

(** [struct m_config_option] with what [command_init] reads of its
    [struct m_option]: the flag [M_OPT_NOPROP], whether the type is
    [m_option_type_alias], [priv], and whether there is a
    [deprecation_message]. *)
Record m_config_option := mk_m_config_option {
  co_name : string;
  noprop : bool;
  is_alias : bool;
  opt_priv : option string;
  has_deprecation_message : bool;
}.

Section WithPropertyList.
(** [m_property_list_find] of options/m_property.c: the entry of that name
    in the array, or NULL. *)
Variable m_property_list_find : list m_property -> string -> option m_property.

(** The loop over the options [m_config_get_co_index(mconfig, n)]:
    [properties] are the entries in use, the next one goes to
    [properties[count]] with [count] their number.  [None] is the failed
    [assert(co->name[0])]. *)
Fixpoint add_option_properties (properties : list m_property)
    (opts : list m_config_option) : option (list m_property) :=
  match opts with
  | [] => Some properties
  | co :: opts' =>
      if strlen (co_name co) =? 0 then None
      else if noprop co then add_option_properties properties opts'
      else
        let prop :=
          if is_alias co then
            {| name := co_name co;
               call := if has_deprecation_message co
                       then mp_property_deprecated_alias else mp_property_alias;
               priv := opt_priv co;
               is_option := true |}
          else
            {| name := co_name co; call := mp_property_generic_option;
               priv := None; is_option := true |} in
        (* The option might be covered by a manual property already. *)
        match m_property_list_find properties (name prop) with
        | Some _ => add_option_properties properties opts'
        | None => add_option_properties (properties ++ [prop]) opts'
        end
  end%nat.

(** [ctx->properties] after [command_init]: [mp_properties_base] and the
    properties of the options [opts]; the array was allocated for
    [num_base + num_opts + 1] entries. *)
Definition command_init (mp_properties_base : list m_property)
    (opts : list m_config_option) : option (list m_property) :=
  add_option_properties mp_properties_base opts.

(** what a correct [m_property_list_find] does *)
Definition finds_by_name : Prop :=
  forall (l : list m_property) (n : string),
    match m_property_list_find l n with
    | Some p => p ∈ l /\ name p = n
    | None => forall p, p ∈ l -> name p <> n
    end.

End WithPropertyList.

(** Example: the first entry of the array with that name. *)
Definition example_find (l : list m_property) (n : string) : option m_property :=
  List.find (fun p => String.eqb (name p) n) l.

Definition example_base : list m_property :=
  [mk_m_property "pause" (call_of_base "pause") None false;
   mk_m_property "volume" (call_of_base "volume") None false].

Definition example_options : list m_config_option :=
  [mk_m_config_option "volume" false false None false;
   mk_m_config_option "ao" false false None false;
   mk_m_config_option "include" true false None false].

End CommandInit.

(** ** playlist-clear *)
Module PlaylistClear.

(** [struct playlist], as [cmd_playlist_clear] sees it: the chain of
    entries [first], [first->next], ... (each entry known by its address),
    [current] (NULL or one of them) and [current_was_replaced]. *)
Record playlist := mk_playlist {
  entries : list nat;
  current : option nat;
  current_was_replaced : bool;
}.

(** what the command does besides *)
Inductive call :=
  | mp_notify_MP_EVENT_CHANGE_PLAYLIST
  | mp_wakeup_core.

Section WithPlaylist.
(** [playlist_remove] of common/playlist.c *)
Variable playlist_remove : playlist -> nat -> playlist.

(** The [while] loop, unrolled at most [fuel] times. *)
Fixpoint clear_loop (fuel : nat) (pl : playlist) : option playlist :=
  match fuel with
  | O => None
  | S fuel' =>
      match entries pl with
      | [] => Some pl
      | e :: rest =>
          if decide (Some e = current pl) then
            match rest with
            | [] => Some pl
            | e' :: _ => clear_loop fuel' (playlist_remove pl e')
            end
          else clear_loop fuel' (playlist_remove pl e)
      end
  end.

(** Supposed to clear the playlist, except the currently played item.  Each
    round removes an entry, so there are no more rounds than entries. *)
Definition cmd_playlist_clear (pl : playlist) : option (playlist * list call) :=
  let pl :=
    if current_was_replaced pl
    then {| entries := entries pl; current := None;
            current_was_replaced := current_was_replaced pl |}
    else pl in
  match clear_loop (S (length (entries pl))) pl with
  | Some pl' => Some (pl', [mp_notify_MP_EVENT_CHANGE_PLAYLIST; mp_wakeup_core])
  | None => None
  end.

(** what [playlist_remove] does with an entry of the playlist that is not
    the current one: it takes it out of the chain and leaves the rest *)
Definition removes_entry : Prop :=
  forall pl e, e ∈ entries pl -> current pl <> Some e ->
    entries (playlist_remove pl e) = filter (fun x => x <> e) (entries pl) /\
    current (playlist_remove pl e) = current pl.

End WithPlaylist.

(** An example of [playlist_remove]. *)
Definition example_playlist_remove (pl : playlist) (e : nat) : playlist :=
  {| entries := filter (fun x => x <> e) (entries pl);
     current := if decide (current pl = Some e) then None else current pl;
     current_was_replaced := current_was_replaced pl |}.

End PlaylistClear.

(** ** Completion of commands: every command, to the end *)
Module Completion.
Import CInt Command.

Section WithCommandApi.
Context {mpv_node player : Type}.
Context `{CommandApi mpv_node player}.

Abbreviation mp_cmd_ctx := (mp_cmd_ctx mpv_node).
Abbreviation MPContext := (MPContext mpv_node player).

(** the list waits for the sub-command: it is not flagged async *)
Definition waited (sub : mp_cmd) : bool :=
  Z.land (flags sub) MP_ASYNC_CMD =? 0.

(** Commands as the command table of this file has them: the list command
    [mp_cmd_list] with its sub-commands, or a command whose handler runs to
    completion (no [exec_async]). *)
Fixpoint wf_cmd (c : mp_cmd) : Prop :=
  match c with
  | mk_mp_cmd d _ a =>
      match handler d with
      | handler_of _ => exec_async d = false
      | handler_cmd_list =>
          d = mp_cmd_list /\
          match a with
          | [arg_p subs] =>
              (fix all (l : list mp_cmd) : Prop :=
                 match l with
                 | [] => True
                 | s :: l' => wf_cmd s /\ all l'
                 end) subs
          | _ => False
          end
      end
  end.

(** Counting with weights: [w_free] for each context, [w_cb] for each
    completion callback.  The weight of a command submitted with
    ([cb = true]) or without a callback counts its context, its callback
    and, for a list, the sub-commands with theirs: the list attaches its
    callback to the sub-commands it waits for. *)
Fixpoint cmd_weight (w_free w_cb : nat) (cb : bool) (c : mp_cmd) : nat :=
  match c with
  | mk_mp_cmd d _ a =>
      w_free + (if cb then w_cb else 0) +
      match handler d, a with
      | handler_cmd_list, arg_p subs :: _ =>
          (fix sum (l : list mp_cmd) : nat :=
             match l with
             | [] => 0
             | s :: l' => cmd_weight w_free w_cb (waited s) s + sum l'
             end) subs
      | _, _ => 0
      end
  end%nat.

Fixpoint subs_weight (w_free w_cb : nat) (subs : list mp_cmd) : nat :=
  match subs with
  | [] => 0
  | s :: subs' =>
      cmd_weight w_free w_cb (waited s) s + subs_weight w_free w_cb subs'
  end%nat.

(** the number of commands in the tree of [c], and the number of callbacks
    attached when it is submitted with the callback [oc] *)
Definition commands (c : mp_cmd) : nat := cmd_weight 1 0 false c.

Definition callbacks (oc : option completion_fn) (c : mp_cmd) : nat :=
  cmd_weight 0 1 (if oc is Some _ then true else false) c.

(** the weight of a context: itself, its callback, and the sub-commands a
    list has not submitted yet *)
Definition ctx_weight (w_free w_cb : nat) (c : mp_cmd_ctx) : nat :=
  (w_free + (if on_completion c is Some _ then w_cb else 0) +
   match handler (fst (cmd c)), args c with
   | handler_cmd_list, arg_p subs :: _ => subs_weight w_free w_cb subs
   | _, _ => 0
   end)%nat.

(** the weight of what is in progress or still to be submitted *)
Definition pot (w_free w_cb : nat) (st : MPContext) : nat :=
  map_fold (fun _ c acc => (ctx_weight w_free w_cb c + acc)%nat) 0%nat (ctxs st).

Definition ev_weight (w_free w_cb : nat) (e : event) : nat :=
  match e with
  | ev_free _ => w_free
  | ev_on_completion _ _ _ => w_cb
  | _ => 0%nat
  end.

Fixpoint trace_weight (w_free w_cb : nat) (t : list event) : nat :=
  match t with
  | [] => 0
  | e :: t' => ev_weight w_free w_cb e + trace_weight w_free w_cb t'
  end%nat.

(** how often the context [ctx] was freed *)
Fixpoint times_freed (ctx : ptr) (t : list event) : nat :=
  match t with
  | [] => 0
  | ev_free c :: t' => ((if Nat.eqb c ctx then 1 else 0) + times_freed ctx t')%nat
  | _ :: t' => times_freed ctx t'
  end.

(** Each call of a completion callback is followed by the end of its
    context: at once for a callback of another module; for the callback of a
    list, which goes on with the list, when that returns. *)
Fixpoint freed_after (t : list event) : Prop :=
  match t with
  | [] => True
  | e :: t' =>
      match e with
      | ev_on_completion x (callback_of _) _ => head t' = Some (ev_free x)
      | ev_on_completion x callback_on_cmd_list_sub_completion _ => ev_free x ∈ t'
      | _ => True
      end /\ freed_after t'
  end.

(** with enough fuel the call returns, in the state [st'] *)
Definition returns (f : nat -> outcome MPContext) (st' : MPContext) : Prop :=
  exists n, forall fuel, (n <= fuel)%nat -> f fuel = Ok st'.

(** with enough fuel the call [f] comes to the call [g], which has all the
    fuel but a bounded part *)
Definition reduces_to (f g : nat -> outcome MPContext) : Prop :=
  exists n, forall fuel, (n <= fuel)%nat ->
    exists fuel', (fuel <= fuel' + n)%nat /\ f fuel = g fuel'.

(** no context is freed and no callback called in [t] *)
Definition silent (t : list event) : Prop :=
  forall x : ptr, times_freed x t = 0%nat /\ times_completed x t = 0%nat.

(** *** The contexts between the calls *)

(** the context [r] has the callback of the list [q] *)
Definition reports (st : MPContext) (r q : ptr) : Prop :=
  exists c, ctxs st !! r = Some c /\
            on_completion c = Some callback_on_cmd_list_sub_completion /\
            on_completion_priv c = Some q.

(** the context of a list command, with the sub-commands not yet submitted *)
Definition list_shaped (c : mp_cmd_ctx) : Prop :=
  handler (fst (cmd c)) = handler_cmd_list /\
  exec_async (fst (cmd c)) = true /\
  exists subs a, args c = arg_p subs :: a /\ Forall wf_cmd subs.

(** the context of a command whose handler runs to completion *)
Definition plain (c : mp_cmd_ctx) : Prop :=
  (exists h, handler (fst (cmd c)) = handler_of h) /\
  exec_async (fst (cmd c)) = false.

(** What holds of the contexts and list contexts whenever one of the
    functions of the pipeline is entered or left.  [E] are the objects in the
    hands of the functions that are running (a context being completed, a
    list that is going on, its parent), which are let off the last clauses.
      A context with the callback of a list names a list allocated before it,
    and that list is there; a list has one such context at most.  A list
    context comes right after its parent.  The jobs of the pool are
    contexts of commands that run to completion.  A list that is not going
    on waits for one context, and a context that nobody holds is a job of
    the pool or the parent of a list that waits. *)
Record Inv (E : gset ptr) (st : MPContext) : Prop := {
  inv_fresh : fresh_from st;
  inv_held : forall e : ptr, e ∈ E -> (e < next_ptr st)%nat;
  inv_apart : forall (p : ptr) c, ctxs st !! p = Some c -> lists st !! p = None;
  inv_shape : forall (p : ptr) c, ctxs st !! p = Some c -> list_shaped c \/ plain c;
  inv_cb : forall (p : ptr) c,
    ctxs st !! p = Some c ->
    on_completion c = Some callback_on_cmd_list_sub_completion ->
    exists q : ptr, on_completion_priv c = Some q /\ (q < p)%nat;
  inv_rep : forall r q : ptr, r ∉ E -> reports st r q -> is_Some (lists st !! q);
  inv_rep1 : forall r r' q : ptr,
    r ∉ E -> r' ∉ E -> reports st r q -> reports st r' q -> r = r';
  inv_par : forall (q : ptr) l,
    lists st !! q = Some l ->
    q = S (parent l) /\
    (q ∉ E -> exists c, ctxs st !! parent l = Some c /\ list_shaped c);
  inv_pool :
    NoDup (thread_pool st) /\
    forall j : ptr, j ∈ thread_pool st ->
              (j ∉ E) /\ exists c, ctxs st !! j = Some c /\ plain c;
  inv_wait : forall (q : ptr) l,
    lists st !! q = Some l -> q ∉ E ->
    current_valid l = false /\ exists r : ptr, reports st r q;
  inv_back : forall (p : ptr) c,
    ctxs st !! p = Some c -> p ∉ E ->
    p ∈ thread_pool st \/ (is_Some (lists st !! S p) /\ S p ∉ E);
}.

(** nothing is running: between two calls into the pipeline *)
Definition quiescent (st : MPContext) : Prop := Inv ∅ st.

(** What a call does to the contexts, from [st] to [st'] with the events
    [new]: no context is freed or has its callback called twice; a context
    that is still there has not been freed nor its callback called; one that
    was gone stays gone; one that went was freed once and its callback, if it
    has one, called once; and each callback is followed by the end of its
    context. *)
Record step (st st' : MPContext) (new : list event) : Prop := {
  step_trace : trace st' = trace st ++ new;
  step_next : (next_ptr st <= next_ptr st')%nat;
  step_lt : forall (x : ptr) c, ctxs st !! x = Some c -> (x < next_ptr st)%nat;
  step_bound : forall x : ptr,
    (next_ptr st' <= x)%nat ->
    ctxs st' !! x = None /\ times_freed x new = 0%nat /\ times_completed x new = 0%nat;
  step_once : forall x : ptr,
    (times_freed x new <= 1)%nat /\ (times_completed x new <= 1)%nat;
  step_live : forall (x : ptr) c,
    ctxs st' !! x = Some c ->
    times_freed x new = 0%nat /\ times_completed x new = 0%nat;
  step_dead : forall x : ptr,
    (x < next_ptr st)%nat -> ctxs st !! x = None ->
    ctxs st' !! x = None /\ times_freed x new = 0%nat /\ times_completed x new = 0%nat;
  step_gone : forall (x : ptr) c,
    ctxs st !! x = Some c -> ctxs st' !! x = None ->
    times_freed x new = 1%nat /\
    times_completed x new = (if on_completion c is Some _ then 1 else 0)%nat;
  step_kept : forall (x : ptr) c c',
    ctxs st !! x = Some c -> ctxs st' !! x = Some c' ->
    on_completion c' = on_completion c;
  step_closed : freed_after new;
}.

(** the callback that [run_command] takes: none, one of another module, or
    the one of a list that is waiting in [continue_cmd_list] on this thread
    and has no sub-command open *)
Definition callback_ready (E : gset ptr) (st : MPContext) (self : pthread_t)
    (oc : option completion_fn) (priv : option ptr) : Prop :=
  match oc with
  | Some callback_on_cmd_list_sub_completion =>
      exists (q : ptr) l, priv = Some q /\ lists st !! q = Some l /\
                  current_valid l = true /\ current l = self /\
                  q ∈ E /\ forall r : ptr, r ∉ E -> ~ reports st r q
  | _ => True
  end.

(** What [run_command] does with the command [cmd], whatever is running
    around it: it returns; the command is then complete, its context gone
    and the list whose callback it had told of it, or it is in progress, its
    context in the hands of the pool or of a list that waits. *)
Definition run_command_spec (cmd : mp_cmd) : Prop :=
  forall (E : gset ptr) (self : pthread_t) (st : MPContext) abort oc priv,
    Inv E st -> abort_allowed cmd abort -> callback_ready E st self oc priv ->
    exists st' new,
      returns (fun fuel => run_command fuel self st cmd abort oc priv) st' /\
      step st st' new /\
      (forall w_free w_cb,
         (trace_weight w_free w_cb new + pot w_free w_cb st' =
          pot w_free w_cb st +
          cmd_weight w_free w_cb (if oc is Some _ then true else false) cmd)%nat) /\
      Inv E st' /\
      (forall x : ptr, (x < next_ptr st)%nat -> ctxs st' !! x = ctxs st !! x) /\
      (forall r q : ptr,
         (next_ptr st < r)%nat -> reports st' r q -> (next_ptr st < q)%nat) /\
      ((ctxs st' !! next_ptr st = None /\
        times_freed (next_ptr st) new = 1%nat /\
        times_completed (next_ptr st) new = (if oc is Some _ then 1 else 0)%nat /\
        forall x : ptr,
          (x < next_ptr st)%nat -> lists st' !! x = lists_after st oc priv !! x) \/
       (exists c,
          ctxs st' !! next_ptr st = Some c /\
          on_completion c = oc /\ on_completion_priv c = priv /\
          forall x : ptr, (x < next_ptr st)%nat -> lists st' !! x = lists st !! x)).

(** the context as [mp_cmd_ctx_complete] has it when it calls the callback *)
Definition completing (c : mp_cmd_ctx) : mp_cmd_ctx :=
  let c := set_completed true c in
  if success c then c else set_result None c.

(** A context that [mp_cmd_ctx_complete] is called on: that of a command
    whose handler has run, or that of a list command with every sub-command
    submitted, the context of the list still there. *)
Definition completable (E : gset ptr) (st : MPContext) (p : ptr)
    (c : mp_cmd_ctx) : Prop :=
  plain c \/
  (handler (fst (cmd c)) = handler_cmd_list /\
   (exists a, args c = arg_p [] :: a) /\
   is_Some (lists st !! S p) /\ S p ∈ E).

(** *** The worker threads *)

(** The pool hands its jobs to the worker threads in an order of its own
    (misc/thread_pool.c); each step of a schedule names the thread and the
    job it takes, by its place in the pool, counted around.  With no job
    queued the thread idles. *)
Definition take_job (st : MPContext) (k : nat) : option (ptr * MPContext) :=
  let i := (k mod length (thread_pool st))%nat in
  match thread_pool st !! i with
  | Some j => Some (j, set_thread_pool st (delete i (thread_pool st)))
  | None => None
  end.

Fixpoint run_workers (fuel : nat) (schedule : list (pthread_t * nat))
    (st : MPContext) : outcome MPContext :=
  match schedule with
  | [] => Ok st
  | (w, k) :: schedule' =>
      match take_job st k with
      | None => run_workers fuel schedule' st
      | Some (j, st) =>
          match run_command_on_worker_thread fuel w st j with
          | Ok st => run_workers fuel schedule' st
          | Fault => Fault
          | OutOfFuel => OutOfFuel
          end
      end
  end.

End WithCommandApi.

(** Example: a command for a worker thread that the list waits for. *)
Definition example_waited_worker_cmd (n : string) : mp_cmd :=
  mk_mp_cmd (mk_mp_cmd_def n (handler_of n) false true false false) 0 [].

(** Example: a list of a command for a worker thread, which the list waits
    for, and of a command flagged async (MP_ASYNC_CMD is 32 in
    [example_api]), which the list then runs detached. *)
Definition example_mixed_list : mp_cmd :=
  list_cmd 0
    [example_waited_worker_cmd "a";
     mk_mp_cmd (mk_mp_cmd_def "b" (handler_of "b") false false false false) 32 []].

End Completion.

(** * Properties *)

Module CStrFacts.
Import CStr.

Lemma char_diff_nonzero c d : char_diff c d <> 0.
Proof. unfold char_diff. destruct (code c <? code d); lia. Qed.

Lemma strcmp_eq a b : strcmp a b = 0 <-> a = b.
Proof.
  revert b. induction a as [|c a IH]; intros [|d b]; simpl; try done.
  destruct (Ascii.eqb_spec c d) as [->|N].
  - rewrite IH. split; congruence.
  - split; [|congruence]. intros E. by apply char_diff_nonzero in E.
Qed.

Lemma strcmp_eqb a b : (strcmp a b =? 0) = true <-> a = b.
Proof. rewrite Z.eqb_eq. apply strcmp_eq. Qed.

Lemma strcmp_refl a : (strcmp a a =? 0) = true.
Proof. by apply strcmp_eqb. Qed.

End CStrFacts.

Module NotifyFacts.
Import CStr Notify.

Lemma strchr_split p c e :
  strchr p c = Some e ->
  exists t, p = (first_chars e p ++ String c t)%string /\ strlen (first_chars e p) = e /\
            strchr (first_chars e p) c = None.
Proof.
  revert e. induction p as [|d p IH]; intros e; simpl; [done|].
  destruct (Ascii.eqb_spec d c) as [->|N].
  - intros [= <-]. by exists p.
  - destruct (strchr p c) as [i|] eqn:E; [|done]. intros [= <-].
    destruct (IH i eq_refl) as (t & Hp & Hl & Hn). exists t.
    split; [|split].
    + change (first_chars (S i) (String d p)) with (String d (first_chars i p)).
      change (String d p = String d (first_chars i p ++ String c t)%string).
      by rewrite <- Hp.
    + simpl. by rewrite Hl.
    + simpl. rewrite Hn. by destruct (Ascii.eqb_spec d c).
Qed.

(** two names that start with the same [k] are equal up to its length *)
Lemma strncmp_common_prefix k t1 t2 n :
  (n <= strlen k)%nat -> strncmp (k ++ t1)%string (k ++ t2)%string n = 0.
Proof.
  revert n. induction k as [|c k IH]; intros n Hn; simpl in *.
  - assert (n = 0%nat) as -> by lia. reflexivity.
  - destruct n as [|n]; [done|]. simpl. rewrite Ascii.eqb_refl. apply IH. lia.
Qed.

Lemma strncmp_common_prefix_l k t n :
  (n <= strlen k)%nat -> strncmp (k ++ t)%string k n = 0.
Proof.
  revert n. induction k as [|c k IH]; intros n Hn; simpl in *.
  - assert (n = 0%nat) as -> by lia. reflexivity.
  - destruct n as [|n]; [done|]. simpl. rewrite Ascii.eqb_refl. apply IH. lia.
Qed.

Lemma strncmp_common_prefix_r k t n :
  (n <= strlen k)%nat -> strncmp k (k ++ t)%string n = 0.
Proof.
  revert n. induction k as [|c k IH]; intros n Hn; simpl in *.
  - assert (n = 0%nat) as -> by lia. reflexivity.
  - destruct n as [|n]; [done|]. simpl. rewrite Ascii.eqb_refl. apply IH. lia.
Qed.

Lemma strncmp_refl a n : strncmp a a n = 0.
Proof.
  revert n. induction a as [|c a IH]; intros [|n]; simpl; try done.
  by rewrite Ascii.eqb_refl.
Qed.

Lemma strncmp_prefix p : forall a,
  (strncmp a p (strlen p) =? 0) = String.prefix p a.
Proof.
  induction p as [|d p IH]; intros [|c a]; simpl; try done.
  destruct (Ascii.eqb_spec c d) as [E1|N]; destruct (ascii_dec d c) as [E|E];
    try congruence; first [apply IH | apply Z.eqb_neq, CStrFacts.char_diff_nonzero].
Qed.

Lemma strncmp_options a :
  (strncmp a "options/" 8 =? 0) = String.prefix "options/" a.
Proof. apply (strncmp_prefix "options/"). Qed.

(** the first component of a name and the length that [prefix_len] takes *)
Lemma name_shape a :
  (exists t, a = (first_component a ++ String "/" t)%string /\
             prefix_len a = strlen (first_component a)) \/
  (a = first_component a /\ prefix_len a = (strlen a + 1)%nat).
Proof.
  unfold first_component, prefix_len. destruct (strchr a "/") as [e|] eqn:E.
  - left. destruct (strchr_split _ _ _ E) as (t & Hp & Hl & _). by exists t.
  - by right.
Qed.

(** The "if" half of the claim C7 holds: names that agree on the part up to
    the first '/', and every name against "*", match. *)
Lemma spec_match_match_property a b :
  spec_match a b = true -> match_property a b = true.
Proof.
  unfold spec_match, match_property. intros Hs.
  destruct (Z.eqb_spec (strcmp a "*") 0) as [|Na]; [done|].
  apply orb_true_iff in Hs as [Hs|Hs].
  { apply String.eqb_eq in Hs. subst a. by destruct Na. }
  apply String.eqb_eq in Hs. unfold strip_options in Hs.
  rewrite !strncmp_options.
  set (a' := if String.prefix "options/" a then advance a 8 else a) in *.
  set (b' := if String.prefix "options/" b then advance b 8 else b) in *.
  apply Z.eqb_eq.
  destruct (name_shape a') as [(ta & Ha & La)|[Ha La]];
    destruct (name_shape b') as [(tb & Hb & Lb)|[Hb Lb]];
    rewrite La, Lb; clear La Lb;
    remember (first_component a') as ka; rewrite <- Hs in *.
  - rewrite Ha, Hb. apply strncmp_common_prefix. lia.
  - rewrite Ha, Hb. apply strncmp_common_prefix_l. lia.
  - rewrite Ha, Hb. apply strncmp_common_prefix_r. lia.
  - rewrite Ha, Hb. apply strncmp_refl.
Qed.

(** C7 does not hold: a name whose part before the first '/' is a proper
    prefix of the other name's first part matches it, although the two first
    parts differ; in particular a name without '/' is matched through a proper
    prefix of it. *)
Theorem match_property_shorter_prefix :
  match_property "ab/x" "abc" = true /\ spec_match "ab/x" "abc" = false /\
  match_property "abc" "ab/x" = true /\ spec_match "abc" "ab/x" = false /\
  match_property "playlist/count" "playlist-pos" = true /\
  spec_match "playlist/count" "playlist-pos" = false.
Proof. repeat split; reflexivity. Qed.

End NotifyFacts.

Module HookFacts.
Import CStr CInt Hooks CStrFacts.

Section WithClientApi.
Context `{ClientApi}.

Lemma delete_insert_same {A} (l : list A) i x : delete i (<[i:=x]> l) = delete i l.
Proof. revert i. induction l as [|y l IH]; intros [|i]; simpl; f_equal; auto. Qed.

Lemma is_type_true ty h : is_type ty h = true <-> type h = ty.
Proof. apply strcmp_eqb. Qed.

Lemma first_from_Some cond hs i n h :
  first_from cond hs i = Some (n, h) ->
  (i <= n)%nat /\ hs !! n = Some h /\ cond h = true /\
  forall j g, (i <= j < n)%nat -> hs !! j = Some g -> cond g = false.
Proof.
  revert i n. induction hs as [|x hs IH]; intros i n; simpl; [by destruct i|].
  destruct i as [|i].
  - destruct (cond x) eqn:Ex.
    + intros [= <- <-]. repeat split; try done. intros j g ?; lia.
    + destruct (first_from cond hs 0) as [[m g]|] eqn:E; [|done].
      intros [= <- <-]. destruct (IH _ _ E) as (_ & L & C & F).
      repeat split; try done; [lia|]. intros [|j] g' Hj; simpl.
      * congruence.
      * apply F. lia.
  - destruct (first_from cond hs i) as [[m g]|] eqn:E; [|done].
    intros [= <- <-]. destruct (IH _ _ E) as (Hi & L & C & F).
    repeat split; try done; [lia|]. intros [|j] g' Hj; simpl; [lia|].
    apply F. lia.
Qed.

Lemma first_from_None cond hs i :
  first_from cond hs i = None ->
  forall j g, (i <= j)%nat -> hs !! j = Some g -> cond g = false.
Proof.
  revert i. induction hs as [|x hs IH]; intros i; simpl.
  - intros _ j g _. by rewrite lookup_nil.
  - destruct i as [|i].
    + destruct (cond x) eqn:Ex; [done|].
      destruct (first_from cond hs 0) as [[m g]|] eqn:E; [done|].
      intros _ [|j] g' _; simpl; [congruence|]. apply (IH _ E). lia.
    + destruct (first_from cond hs i) as [[m g]|] eqn:E; [done|].
      intros _ [|j] g' Hj; simpl; [lia|]. apply (IH _ E). lia.
Qed.

(** the converse: the first index from [i] on that satisfies [cond] *)
Lemma first_from_intro cond hs i n h :
  (i <= n)%nat -> hs !! n = Some h -> cond h = true ->
  (forall j g, (i <= j < n)%nat -> hs !! j = Some g -> cond g = false) ->
  first_from cond hs i = Some (n, h).
Proof.
  intros Hi L C F.
  destruct (first_from cond hs i) as [[m g]|] eqn:E.
  - destruct (first_from_Some _ _ _ _ _ E) as (Hm & Lm & Cm & Fm).
    destruct (Nat.lt_trichotomy m n) as [Lt|[->|Gt]].
    + rewrite (F m g) in Cm; [done|lia|done].
    + congruence.
    + rewrite (Fm n h) in C; [done|lia|done].
  - rewrite (first_from_None _ _ _ E n h) in C; done.
Qed.

Lemma first_from_none_intro cond hs i :
  (forall j g, (i <= j)%nat -> hs !! j = Some g -> cond g = false) ->
  first_from cond hs i = None.
Proof.
  intros F. destruct (first_from cond hs i) as [[m g]|] eqn:E; [|done].
  destruct (first_from_Some _ _ _ _ _ E) as (Hm & Lm & Cm & _).
  rewrite (F m g) in Cm; done.
Qed.

(** the array around the first hit of a scan from the start *)
Lemma first_from_0_split cond hs n h :
  first_from cond hs 0 = Some (n, h) ->
  exists l1 l2, hs = l1 ++ h :: l2 /\ length l1 = n /\ cond h = true /\
                Forall (fun g => cond g = false) l1.
Proof.
  intros E. destruct (first_from_Some _ _ _ _ _ E) as (_ & L & C & F).
  exists (take n hs), (drop (S n) hs). repeat split; try done.
  - by rewrite <- (take_drop_middle _ _ _ L) at 1.
  - apply length_take_le. apply lookup_lt_Some in L. lia.
  - apply Forall_lookup_2. intros j g Hj.
    rewrite lookup_take_Some in Hj. destruct Hj as [Hj Lt]. apply (F j); [lia|done].
Qed.


Lemma acknowledges_cond cl id h :
  ((strcmp (client h) cl =? 0) && (to_uint64 (seq h) =? id)) = true <->
  acknowledges cl id h.
Proof.
  unfold acknowledges. rewrite andb_true_iff, strcmp_eqb, Z.eqb_eq. done.
Qed.

Lemma acknowledges_cond_false cl id h :
  ((strcmp (client h) cl =? 0) && (to_uint64 (seq h) =? id)) = false <->
  ~ acknowledges cl id h.
Proof. rewrite <- acknowledges_cond. by destruct (_ && _). Qed.

(** C10: [mp_hook_continue(client, id)] returns MPV_ERROR_INVALID_PARAMETER
    and leaves the state as it is when no handler has that client name and
    sequence id, or when the handler that has them (the first in the array)
    is not in progress; otherwise it clears the active flag of that handler
    and invokes the next handler of the same type behind it: the event goes
    to its client and it becomes active, or is removed when the event cannot
    be sent; without a next handler the end of the hook is signalled. *)
Theorem mp_hook_continue_spec (st : MPContext) (cl : string) (id : Z) :
  ((forall h, h ∈ hooks st -> ~ acknowledges cl id h) ->
     mp_hook_continue st cl id = (MPV_ERROR_INVALID_PARAMETER, st)) /\
  (forall n h,
     hooks st !! n = Some h -> acknowledges cl id h ->
     (forall j g, (j < n)%nat -> hooks st !! j = Some g -> ~ acknowledges cl id g) ->
     (active h = false ->
        mp_hook_continue st cl id = (MPV_ERROR_INVALID_PARAMETER, st)) /\
     (active h = true ->
        let cleared := <[n := set_active false h]> (hooks st) in
        cleared !! n = Some (set_active false h) /\
        match first_from (is_type (type h)) cleared (n + 1) with
        | Some (m, g) =>
            (n < m)%nat /\ type g = type h /\
            exists r st',
              mp_hook_continue st cl id = (r, st') /\
              (exists e, sent st' = sent st ++ [e] /\
                         sent_to e = client g /\ sent_result e = r) /\
              (0 <= r -> hooks st' = <[m := set_active true g]> cleared) /\
              (r < 0 -> hooks st' = delete m cleared)
        | None =>
            mp_hook_continue st cl id =
              (0, mp_wakeup_core (with_hooks st cleared))
        end)).
Proof.
  split.
  - intros None_. unfold mp_hook_continue.
    rewrite first_from_none_intro; [done|].
    intros j g _ L. apply acknowledges_cond_false, None_.
    by apply list_elem_of_lookup_2 in L.
  - intros n h L A F.
    assert (first_from
              (fun h => (strcmp (client h) cl =? 0) && (to_uint64 (seq h) =? id))
              (hooks st) 0 = Some (n, h)) as E.
    { apply first_from_intro; [lia|done|by apply acknowledges_cond|].
      intros j g Hj Lj. apply acknowledges_cond_false. apply (F j); [lia|done]. }
    unfold mp_hook_continue. rewrite E. split; intros Act; rewrite Act; simpl; [done|].
    split.
    { apply list_lookup_insert_eq. by apply lookup_lt_Some in L. }
    unfold run_next_hook_handler. simpl.
    destruct (first_from _ _ (n + 1)) as [[m g]|] eqn:E2; [|done].
    destruct (first_from_Some _ _ _ _ _ E2) as (Hm & Lm & Cm & _).
    split; [lia|]. split; [by apply is_type_true|].
    unfold invoke_hook_handler. simpl.
    destruct (legacy g); simpl;
      destruct (mp_client_send_event _ _ _ _) as [cl' r] eqn:Es; simpl;
      destruct (r <? 0) eqn:Er; simpl;
      (eexists _, _; split; [done|]); simpl;
      (split; [eexists; split; [done|done]|]);
      (split; intros; try lia; try done).
    all: unfold hook_remove; simpl; by rewrite delete_insert_same.
Qed.

Lemma of_type_none ty l :
  Forall (fun g => is_type ty g = false) l -> of_type ty l = [].
Proof.
  induction 1 as [|g l Hg _ IH]; [done|].
  unfold of_type in *. rewrite filter_cons_False; [done|congruence].
Qed.

Lemma not_of_type_all ty l :
  Forall (fun g => is_type ty g = false) l -> not_of_type ty l = l.
Proof.
  induction 1 as [|g l Hg _ IH]; [done|].
  unfold not_of_type in *. rewrite filter_cons_True; [|done]. by f_equal.
Qed.

Lemma of_type_split ty l1 h l2 :
  Forall (fun g => is_type ty g = false) l1 -> is_type ty h = true ->
  of_type ty (l1 ++ h :: l2) = h :: of_type ty l2.
Proof.
  intros F T. unfold of_type. rewrite filter_app, filter_cons_True by done.
  fold (of_type ty l1). by rewrite of_type_none.
Qed.

Lemma not_of_type_split ty l1 h l2 :
  is_type ty h = true ->
  not_of_type ty (l1 ++ h :: l2) = not_of_type ty (l1 ++ l2).
Proof.
  intros T. unfold not_of_type. rewrite !filter_app, filter_cons_False; [done|].
  congruence.
Qed.

Lemma no_type_no_active ty hs :
  of_type ty hs = [] ->
  first_from (fun h => active h && is_type ty h) hs 0 = None.
Proof.
  intros E. apply first_from_none_intro. intros j g _ L.
  destruct (is_type ty g) eqn:T; [|by rewrite andb_false_r].
  apply list_elem_of_lookup_2 in L.
  assert (g ∈ of_type ty hs) as X by (by apply list_elem_of_filter).
  rewrite E in X. by apply not_elem_of_nil in X.
Qed.

Lemma mp_hook_start_loop_spec fuel : forall (st : MPContext) ty,
  (length (hooks st) < fuel)%nat ->
  exists st' failed rest,
    mp_hook_start_loop fuel st ty = Some st' /\ start_outcome st st' ty failed rest.
Proof.
  induction fuel as [|fuel IH]; intros st ty Hf; [lia|].
  simpl. unfold run_next_hook_handler.
  destruct (first_from (is_type ty) (hooks st) 0) as [[n h]|] eqn:E.
  - destruct (first_from_0_split _ _ _ _ E) as (l1 & l2 & Hs & Hn & T & F).
    unfold invoke_hook_handler. simpl.
    set (rd := if legacy h then _ else _). destruct rd as [reply_id data].
    destruct (mp_client_send_event _ _ _ _) as [cl r] eqn:Es. simpl.
    rewrite Hs, <- Hn, insert_app_r_alt, Nat.sub_diag by lia. simpl.
    destruct (r <? 0) eqn:Er; simpl; rewrite Er.
    + apply Z.ltb_lt in Er. unfold hook_remove. simpl.
      rewrite (delete_middle l1 l2).
      match goal with |- context [mp_hook_start_loop fuel ?s ty] => set (st1 := s) end.
      destruct (IH st1 ty) as (st' & failed & rest & Hl & O1 & O2 & (evs & O3 & O4 & O5 & O6) & O7).
      { simpl. rewrite Hs in Hf. rewrite length_app in *. simpl in Hf. lia. }
      exists st', (h :: failed), rest. split; [done|]. simpl in *.
      split; [|split; [|split]].
      * rewrite Hs, of_type_split by done. simpl. f_equal. rewrite <- O1.
        unfold of_type. rewrite filter_app. fold (of_type ty l1).
        by rewrite of_type_none.
      * rewrite O2, Hs. by rewrite not_of_type_split.
      * eexists (_ :: evs). rewrite O3, <- app_assoc. simpl. split; [done|].
        rewrite O4. split; [done|]. split; [|done]. by constructor.
      * destruct rest; [|done]. destruct O7 as (? & ? & ?). repeat split; try done. lia.
    + apply Z.ltb_ge in Er.
      eexists _, [], (h :: of_type ty l2). split; [done|].
      split; [|split; [|split]]; simpl.
      * rewrite Hs. by rewrite of_type_split.
      * rewrite Hs. rewrite !not_of_type_split; try done.
      * eexists [_]. split; [done|]. simpl. split; [done|]. split; [done|].
        by constructor.
      * by rewrite of_type_split.
  - eexists _, [], []. split; [done|].
    assert (of_type ty (hooks st) = []) as N.
    { apply of_type_none, Forall_lookup_2. intros j g L.
      apply (first_from_None _ _ _ E j); [lia|done]. }
    split; [done|]. split; [done|]. split.
    + exists []. rewrite app_nil_r. simpl. repeat split; constructor.
    + simpl. split; [done|]. split; [lia|].
      unfold mp_hook_test_completion. simpl. by rewrite no_type_no_active.
Qed.


(** *** Sorting *)

Lemma qsort_insert_perm {A} (c : A -> A -> Z) x l : qsort_insert c x l ≡ₚ x :: l.
Proof.
  induction l as [|y l IH]; simpl; [done|].
  destruct (c x y <=? 0); [done|]. rewrite IH. apply Permutation_swap.
Qed.

Lemma qsort_perm {A} (c : A -> A -> Z) l : qsort c l ≡ₚ l.
Proof.
  induction l as [|x l IH]; simpl; [done|]. by rewrite qsort_insert_perm, IH.
Qed.


Lemma to_int_small z : - 2 ^ 31 <= z < 2 ^ 31 -> to_int z = z.
Proof. intros Hz. unfold to_int, wrap_signed. rewrite Z.mod_small; lia. Qed.

Lemma to_int64_small z : - 2 ^ 63 <= z < 2 ^ 63 -> to_int64 z = z.
Proof. intros Hz. unfold to_int64, wrap_signed. rewrite Z.mod_small; lia. Qed.

Lemma to_uint64_small z : 0 <= z < 2 ^ 64 -> to_uint64 z = z.
Proof. intros Hz. unfold to_uint64. rewrite Z.mod_small; lia. Qed.

Lemma compare_hook_le h1 h2 :
  in_range h1 -> in_range h2 ->
  compare_hook h1 h2 <= 0 <->
  hook_lt h1 h2 \/ (priority h1 = priority h2 /\ seq h1 = seq h2).
Proof.
  intros [P1 S1] [P2 S2]. unfold compare_hook, hook_lt.
  destruct (Z.eqb_spec (priority h1) (priority h2)) as [E|N]; simpl.
  - rewrite to_int64_small, to_int_small by lia. lia.
  - rewrite to_int_small by lia. lia.
Qed.

Lemma hook_lt_trans h1 h2 h3 : hook_lt h1 h2 -> hook_lt h2 h3 -> hook_lt h1 h3.
Proof. unfold hook_lt. lia. Qed.

Lemma hook_lt_irrefl h : ~ hook_lt h h.
Proof. unfold hook_lt. lia. Qed.

Lemma hook_lt_asym h1 h2 : hook_lt h1 h2 -> ~ hook_lt h2 h1.
Proof. unfold hook_lt. lia. Qed.

Lemma hook_lt_set_active_l b h g : hook_lt (set_active b h) g <-> hook_lt h g.
Proof. done. Qed.

Lemma hook_lt_set_active_r b h g : hook_lt g (set_active b h) <-> hook_lt g h.
Proof. done. Qed.

Lemma qsort_insert_sorted x l :
  in_range x -> Forall in_range l -> seq x ∉ seq <$> l ->
  StronglySorted hook_lt l ->
  StronglySorted hook_lt (qsort_insert compare_hook x l).
Proof.
  intros Rx Rl Nx Sl. induction Sl as [|y l Sl IH Fy]; simpl.
  - repeat constructor.
  - apply Forall_cons in Rl as [Ry Rl].
    rewrite fmap_cons, not_elem_of_cons in Nx. destruct Nx as [Nxy Nx].
    pose proof (compare_hook_le x y Rx Ry) as C.
    destruct (Z.leb_spec (compare_hook x y) 0) as [Le|Gt].
    + assert (hook_lt x y) as Lxy by (destruct C as [[?|[_ ?]] _]; done).
      constructor; [by constructor|].
      constructor; [done|].
      eapply Forall_impl; [exact Fy|]. intros z. by apply hook_lt_trans.
    + assert (hook_lt y x) as Lyx.
      { unfold hook_lt in *. lia. }
      constructor; [by apply IH|].
      rewrite qsort_insert_perm. by constructor.
Qed.

Lemma qsort_sorted l :
  Forall in_range l -> NoDup (seq <$> l) ->
  StronglySorted hook_lt (qsort compare_hook l).
Proof.
  induction l as [|x l IH]; intros Rl Nl; [constructor|].
  apply Forall_cons in Rl as [Rx Rl]. rewrite fmap_cons in Nl.
  apply NoDup_cons in Nl as [Nx Nl]. simpl.
  apply qsort_insert_sorted; auto.
  - by rewrite qsort_perm.
  - by rewrite qsort_perm.
Qed.

Lemma StronglySorted_lookup {A} (R : relation A) l i j a b :
  StronglySorted R l -> (i < j)%nat -> l !! i = Some a -> l !! j = Some b -> R a b.
Proof.
  intros Sl. revert i j. induction Sl as [|x l Sl IH Fx]; intros i j Hij Li Lj.
  - by rewrite lookup_nil in Li.
  - destruct j as [|j]; [lia|]. simpl in Lj. destruct i as [|i]; simpl in Li.
    + injection Li as ->. rewrite Forall_forall in Fx. apply Fx.
      by apply list_elem_of_lookup_2 in Lj.
    + apply (IH i j); [lia|done..].
Qed.

Lemma StronglySorted_sublist {A} (R : relation A) l1 l2 :
  l1 `sublist_of` l2 -> StronglySorted R l2 -> StronglySorted R l1.
Proof.
  induction 1 as [|x l1 l2 Hs IH|x l1 l2 Hs IH]; intros S2; [done|..].
  - apply StronglySorted_inv in S2 as [S2 F2]. constructor; [by apply IH|].
    rewrite Forall_forall in *. intros y Hy. apply F2.
    by eapply elem_of_sublist.
  - apply StronglySorted_inv in S2 as [S2 _]. by apply IH.
Qed.

Lemma sorted_set_active b l n h :
  StronglySorted hook_lt l -> l !! n = Some h ->
  StronglySorted hook_lt (<[n := set_active b h]> l).
Proof.
  intros Sl. revert n. induction Sl as [|x l Sl IH Fx]; intros n L; [done|].
  destruct n as [|n]; simpl in *.
  - injection L as ->. constructor; [done|].
    eapply Forall_impl; [exact Fx|]. intros z. by rewrite hook_lt_set_active_l.
  - constructor; [by apply IH|].
    apply Forall_insert; [done|]. rewrite hook_lt_set_active_r.
    rewrite Forall_forall in Fx. apply Fx.
    by apply list_elem_of_lookup_2 in L.
Qed.


Lemma active_of_cons ty h l :
  length (active_of ty (h :: l)) = (cnt ty h + length (active_of ty l))%nat.
Proof.
  unfold active_of, cnt. rewrite filter_cons.
  destruct (decide _) as [E|E].
  - by rewrite E.
  - by apply not_true_is_false in E; rewrite E.
Qed.

Lemma count_active_insert ty l n h x :
  l !! n = Some h ->
  (length (active_of ty (<[n:=x]> l)) + cnt ty h =
   length (active_of ty l) + cnt ty x)%nat.
Proof.
  revert n. induction l as [|y l IH]; intros [|n] L; simplify_eq/=.
  - rewrite !active_of_cons. lia.
  - rewrite !active_of_cons. specialize (IH n L). lia.
Qed.

Lemma count_active_delete ty l n h :
  l !! n = Some h ->
  (length (active_of ty (delete n l)) + cnt ty h = length (active_of ty l))%nat.
Proof.
  revert n. induction l as [|y l IH]; intros [|n] L; simplify_eq/=.
  - rewrite !active_of_cons. lia.
  - rewrite !active_of_cons. specialize (IH n L). lia.
Qed.

Lemma cnt_le ty h : (cnt ty h <= 1)%nat.
Proof. unfold cnt. destruct (_ && _); lia. Qed.

Lemma cnt_other ty ty' b h : type h = ty -> ty' <> ty -> cnt ty' (set_active b h) = 0%nat.
Proof.
  intros T N. unfold cnt. destruct (is_type ty' (set_active b h)) eqn:E.
  - apply is_type_true in E. simpl in E. congruence.
  - by rewrite andb_false_r.
Qed.

Lemma cnt_inactive ty h : cnt ty (set_active false h) = 0%nat.
Proof. done. Qed.

Lemma cnt_active_same h : active h = true -> cnt (type h) h = 1%nat.
Proof.
  intros A. unfold cnt. rewrite A. simpl.
  by rewrite (proj2 (is_type_true (type h) h)).
Qed.

(** [run_next_hook_handler] puts at most one more handler in progress, of
    the type it was called for, and none when it fails. *)
Lemma run_next_count (st st' : MPContext) ty index r ty' :
  run_next_hook_handler st ty index = (r, st') ->
  (ty' <> ty -> (length (active_of ty' (hooks st')) <= length (active_of ty' (hooks st)))%nat) /\
  (r < 0 -> (length (active_of ty' (hooks st')) <= length (active_of ty' (hooks st)))%nat) /\
  (length (active_of ty' (hooks st')) <= length (active_of ty' (hooks st)) + 1)%nat.
Proof.
  unfold run_next_hook_handler.
  destruct (first_from _ _ _) as [[n g]|] eqn:E.
  - destruct (first_from_Some _ _ _ _ _ E) as (_ & L & T & _).
    apply is_type_true in T.
    unfold invoke_hook_handler. simpl.
    set (rd := if legacy g then _ else _). destruct rd as [reply_id data].
    destruct (mp_client_send_event _ _ _ _) as [cl r0]. simpl.
    pose proof (count_active_insert ty' _ _ _ (set_active true g) L) as Ci.
    pose proof (count_active_delete ty' _ _ _ L) as Cd.
    pose proof (cnt_le ty' (set_active true g)).
    destruct (r0 <? 0) eqn:Er; intros [= <- <-]; simpl.
    + rewrite delete_insert_same. repeat split; intros; lia.
    + apply Z.ltb_ge in Er. repeat split; intros; try lia.
      rewrite (cnt_other ty ty' true g) in Ci by done. lia.
  - intros [= <- <-]. simpl. repeat split; intros; lia.
Qed.


Lemma hooks_inv_delete hs s n : hooks_inv hs s -> hooks_inv (delete n hs) s.
Proof.
  intros (S1 & F1 & N1 & R1). repeat split; try lia.
  - eapply StronglySorted_sublist; [apply sublist_delete|done].
  - by apply Forall_delete.
  - rewrite list_fmap_delete. eapply sublist_NoDup; [done|apply sublist_delete].
Qed.

Lemma hooks_inv_set_active hs s n h b :
  hs !! n = Some h -> hooks_inv hs s -> hooks_inv (<[n := set_active b h]> hs) s.
Proof.
  intros L (S1 & F1 & N1 & R1). repeat split; try lia.
  - by apply sorted_set_active.
  - apply Forall_insert; [done|]. rewrite Forall_lookup in F1. apply (F1 n h L).
  - rewrite list_fmap_insert. simpl. rewrite list_insert_id; [done|].
    by rewrite list_lookup_fmap, L.
Qed.

Lemma hooks_inv_run_next (st st' : MPContext) ty index r :
  run_next_hook_handler st ty index = (r, st') ->
  hooks_inv (hooks st) (hook_seq st) ->
  hooks_inv (hooks st') (hook_seq st').
Proof.
  unfold run_next_hook_handler.
  destruct (first_from _ _ _) as [[n g]|] eqn:E.
  - destruct (first_from_Some _ _ _ _ _ E) as (_ & L & T & _).
    unfold invoke_hook_handler. simpl.
    set (rd := if legacy g then _ else _). destruct rd as [reply_id data].
    destruct (mp_client_send_event _ _ _ _) as [cl r0]. simpl.
    destruct (r0 <? 0) eqn:Er; intros [= <- <-] I; simpl.
    + by apply hooks_inv_delete, hooks_inv_set_active.
    + by apply hooks_inv_set_active.
  - by intros [= <- <-].
Qed.

Lemma hooks_inv_add (st : MPContext) cl name uid pri leg :
  - 2 ^ 30 <= pri < 2 ^ 30 -> hook_seq st < 2 ^ 31 - 1 ->
  hooks_inv (hooks st) (hook_seq st) ->
  hooks_inv (hooks (mp_hook_add st cl name uid pri leg))
            (hook_seq (mp_hook_add st cl name uid pri leg)).
Proof.
  intros Hp Hs (S1 & F1 & N1 & R1). simpl.
  rewrite to_int64_small by lia.
  set (h := mk_hook_handler _ _ _ _ _ _ _).
  assert (Forall (fun h => - 2 ^ 30 <= priority h < 2 ^ 30 /\ 1 <= seq h <= hook_seq st + 1)
                 (hooks st ++ [h])) as F2.
  { apply Forall_app. split.
    - eapply Forall_impl; [exact F1|]. simpl. intros; lia.
    - repeat constructor; simpl; lia. }
  assert (NoDup (seq <$> (hooks st ++ [h]))) as N2.
  { rewrite fmap_app. apply NoDup_app. split; [done|]. split.
    - intros x Hx. simpl. rewrite list_elem_of_singleton. intros ->.
      apply list_elem_of_fmap in Hx as (g & Eg & Hg).
      rewrite Forall_forall in F1. specialize (F1 g Hg). lia.
    - simpl. apply NoDup_singleton. }
  repeat split; try lia.
  - apply qsort_sorted; [|done].
    eapply Forall_impl; [exact F2|]. unfold in_range. simpl. intros; lia.
  - by rewrite qsort_perm.
  - by rewrite qsort_perm.
Qed.


Lemma start_loop_inv fuel : forall (st st' : MPContext) ty,
  mp_hook_start_loop fuel st ty = Some st' ->
  active_of ty (hooks st) = [] ->
  state_inv st -> state_inv st'.
Proof.
  induction fuel as [|fuel IH]; intros st st' ty; simpl; [done|].
  destruct (run_next_hook_handler st ty 0) as [r st1] eqn:E.
  intros Hl N [A I].
  pose proof (hooks_inv_run_next _ _ _ _ _ E I) as I1.
  destruct (r <? 0) eqn:Er.
  - apply Z.ltb_lt in Er. apply (IH st1 st' ty Hl).
    + destruct (run_next_count _ _ _ _ _ ty E) as (_ & C & _).
      specialize (C Er). rewrite N in C. simpl in C.
      by destruct (active_of ty (hooks st1)); [|simpl in C; lia].
    + split; [|done]. intros ty'.
      destruct (run_next_count _ _ _ _ _ ty' E) as (_ & C & _).
      specialize (C Er). specialize (A ty'). lia.
  - injection Hl as <-. split; [|done]. intros ty'.
    destruct (run_next_count _ _ _ _ _ ty' E) as (C1 & _ & C2).
    destruct (decide (ty' = ty)) as [->|Ne].
    + rewrite N in C2. simpl in C2. lia.
    + specialize (C1 Ne). specialize (A ty'). lia.
Qed.

Lemma poll_inv (st : MPContext) ty :
  state_inv st -> state_inv (snd (mp_hook_test_completion st ty)).
Proof.
  intros [A I]. unfold mp_hook_test_completion.
  destruct (first_from _ _ _) as [[n h]|] eqn:E; [|done].
  destruct (first_from_Some _ _ _ _ _ E) as (_ & L & _).
  destruct (negb _); [|done]. simpl. split.
  - intros ty'. simpl. pose proof (count_active_delete ty' _ _ _ L).
    specialize (A ty'). lia.
  - by apply hooks_inv_delete.
Qed.

(** an acknowledgment leaves no handler of the type in progress before the
    next one is invoked *)
Lemma clear_active_none (st : MPContext) n h :
  at_most_one_active st -> hooks st !! n = Some h -> active h = true ->
  active_of (type h) (<[n := set_active false h]> (hooks st)) = [].
Proof.
  intros A L Act.
  pose proof (count_active_insert (type h) _ _ _ (set_active false h) L) as C.
  rewrite cnt_inactive, cnt_active_same in C by done.
  specialize (A (type h)).
  by destruct (active_of _ (<[n:=_]> _)); [|simpl in C; lia].
Qed.

Lemma continue_inv (st : MPContext) cl id :
  state_inv st -> state_inv (snd (mp_hook_continue st cl id)).
Proof.
  intros [A I]. unfold mp_hook_continue.
  destruct (first_from _ _ _) as [[n h]|] eqn:E; [|done].
  destruct (first_from_Some _ _ _ _ _ E) as (_ & L & _).
  destruct (active h) eqn:Act; [|done]. simpl.
  destruct (run_next_hook_handler _ _ _) as [r st1] eqn:E1. simpl.
  split.
  - intros ty'.
    destruct (run_next_count _ _ _ _ _ ty' E1) as (C1 & _ & C2). simpl in *.
    destruct (decide (ty' = type h)) as [->|Ne].
    + rewrite (clear_active_none st n h A L Act) in C2. simpl in C2. lia.
    + specialize (C1 Ne).
      pose proof (count_active_insert ty' _ _ _ (set_active false h) L) as C.
      rewrite cnt_inactive in C. specialize (A ty'). lia.
  - apply (hooks_inv_run_next _ _ _ _ _ E1). simpl.
    by apply hooks_inv_set_active.
Qed.

Lemma run_op_inv (st st' : MPContext) op :
  in_protocol st op -> run_op st op = Some st' -> state_inv st -> state_inv st'.
Proof.
  destruct op as [cl name uid pri leg|ty|cl id|ty|c]; simpl.
  - intros [Hp Hs] [= <-] [A I]. split.
    + intros ty. simpl.
      assert (active_of ty (qsort compare_hook (hooks st ++ [mk_hook_handler cl name uid pri
                 (to_int64 (hook_seq st + 1)) leg false]))
              ≡ₚ active_of ty (hooks st)) as P.
      { unfold active_of. rewrite qsort_perm, filter_app.
        rewrite filter_cons_False, filter_nil, app_nil_r; [done|]. simpl. done. }
      rewrite P. apply A.
    + by apply hooks_inv_add.
  - intros N Hs. by apply (start_loop_inv _ _ _ _ Hs N).
  - intros _ [= <-]. apply continue_inv.
  - intros _ [= <-]. apply poll_inv.
  - by intros _ [= <-].
Qed.

Lemma run_op_total (st : MPContext) op : is_Some (run_op st op).
Proof.
  destruct op; simpl; try done.
  destruct (mp_hook_start_loop_spec (S (length (hooks st))) st ty)
    as (st' & ? & ? & E & _); [lia|].
  unfold mp_hook_start. by rewrite E.
Qed.

Lemma run_ops_inv ops : forall st : MPContext,
  follows_protocol st ops -> state_inv st ->
  exists st', run_ops st ops = Some st' /\ state_inv st'.
Proof.
  induction ops as [|op ops IH]; intros st; simpl.
  - intros _ I. by exists st.
  - intros [P F] I. destruct (run_op_total st op) as [st1 E]. rewrite E.
    apply IH; [by apply F|]. by apply (run_op_inv st st1 op).
Qed.

Lemma initial_inv c : state_inv (initial c).
Proof.
  split.
  - intros ty. simpl. lia.
  - repeat split; simpl; try lia; constructor.
Qed.


(** *** The order of invocation *)

Lemma active_of_elem ty g hs :
  g ∈ active_of ty hs <-> g ∈ hs /\ active g = true /\ type g = ty.
Proof.
  unfold active_of. rewrite list_elem_of_filter, andb_true_iff, is_type_true.
  tauto.
Qed.

Lemma of_type_elem ty g hs : g ∈ of_type ty hs <-> g ∈ hs /\ type g = ty.
Proof. unfold of_type. rewrite list_elem_of_filter, is_type_true. tauto. Qed.

Lemma short_list_eq {A} (l : list A) x y :
  (length l <= 1)%nat -> x ∈ l -> y ∈ l -> x = y.
Proof.
  destruct l as [|a [|b l]]; simpl; intros Hl Hx Hy; [by apply not_elem_of_nil in Hx| |lia].
  apply list_elem_of_singleton in Hx, Hy. congruence.
Qed.

Lemma start_order (st st' : MPContext) ty g g' :
  state_inv st -> active_of ty (hooks st) = [] ->
  mp_hook_start st ty = Some st' ->
  g ∈ active_of ty (hooks st') -> g' ∈ hooks st' -> type g' = ty ->
  g' = g \/ hook_lt g g'.
Proof.
  intros I N Hs Hg Hg' Tg'.
  destruct (start_loop_inv _ _ _ _ Hs N I) as [A' (S' & _)].
  destruct (mp_hook_start_loop_spec (S (length (hooks st))) st ty)
    as (st1 & failed & rest & Hs1 & _ & _ & _ & O); [lia|].
  unfold mp_hook_start in Hs. rewrite Hs in Hs1. injection Hs1 as <-.
  assert (g ∈ of_type ty (hooks st')) as Hgt.
  { apply of_type_elem. apply active_of_elem in Hg. tauto. }
  assert (g' ∈ of_type ty (hooks st')) as Hgt' by (by apply of_type_elem).
  destruct rest as [|h rest].
  - destruct O as (O & _). rewrite O in Hgt. by apply not_elem_of_nil in Hgt.
  - assert (set_active true h ∈ active_of ty (hooks st')) as Hh.
    { assert (set_active true h ∈ of_type ty (hooks st')) as X
        by (rewrite O; apply list_elem_of_here).
      apply of_type_elem in X as [X1 X2]. by apply active_of_elem. }
    assert (g = set_active true h) as ->
      by (by apply (short_list_eq (active_of ty (hooks st')))).
    assert (StronglySorted hook_lt (of_type ty (hooks st'))) as So.
    { eapply StronglySorted_sublist; [apply sublist_filter|done]. }
    rewrite O in So, Hgt'. apply StronglySorted_inv in So as [_ F].
    apply elem_of_cons in Hgt' as [->|Hr]; [by left|right].
    rewrite Forall_forall in F. by apply F.
Qed.

Lemma NoDup_seq_lookup (hs : list hook_handler) i j a b :
  NoDup (seq <$> hs) -> hs !! i = Some a -> hs !! j = Some b ->
  seq a = seq b -> i = j.
Proof.
  intros N La Lb E. eapply NoDup_lookup; [exact N| |].
  - by rewrite list_lookup_fmap, La.
  - by rewrite list_lookup_fmap, Lb, E.
Qed.

Lemma continue_order (st st' : MPContext) cl id r h g :
  state_inv st -> mp_hook_continue st cl id = (r, st') ->
  h ∈ hooks st -> acknowledges cl id h -> active h = true ->
  g ∈ active_of (type h) (hooks st') ->
  hook_lt h g /\
  forall g', g' ∈ hooks st' -> type g' = type h -> hook_lt h g' ->
             g' = g \/ hook_lt g g'.
Proof.
  intros [A (So & Fr & Nd & Rs)] Hc Hh Ack Act Hg.
  unfold mp_hook_continue in Hc.
  destruct (first_from _ _ _) as [[n h0]|] eqn:E.
  2:{ apply list_elem_of_lookup_1 in Hh as [i Li].
      pose proof (first_from_None _ _ _ E i h ltac:(lia) Li) as X.
      apply acknowledges_cond_false in X. done. }
  destruct (first_from_Some _ _ _ _ _ E) as (_ & L & C0 & _).
  apply acknowledges_cond in C0.
  assert (h0 = h) as ->.
  { apply list_elem_of_lookup_1 in Hh as [i Li].
    assert (seq h0 = seq h) as Es.
    { destruct C0 as [_ C0], Ack as [_ Ack]. rewrite <- Ack in C0.
      rewrite Forall_forall in Fr.
      pose proof (Fr h0 (list_elem_of_lookup_2 _ _ _ L)).
      pose proof (Fr h (list_elem_of_lookup_2 _ _ _ Li)).
      rewrite !to_uint64_small in C0 by lia. done. }
    pose proof (NoDup_seq_lookup _ _ _ _ _ Nd L Li Es) as ->. congruence. }
  rewrite Act in Hc. simpl in Hc.
  pose proof (clear_active_none st n h A L Act) as Nc.
  set (cleared := <[n := set_active false h]> (hooks st)) in *.
  unfold run_next_hook_handler in Hc. simpl in Hc.
  destruct (first_from (is_type (type h)) cleared (n + 1)) as [[m g0]|] eqn:E2.
  2:{ injection Hc as _ <-. simpl in Hg. rewrite Nc in Hg.
      by apply not_elem_of_nil in Hg. }
  destruct (first_from_Some _ _ _ _ _ E2) as (Hm & Lm & Tm & Fm).
  assert (hooks st !! m = Some g0) as Lm0.
  { unfold cleared in Lm. rewrite list_lookup_insert_ne in Lm by lia. done. }
  unfold invoke_hook_handler in Hc. simpl in Hc.
  set (rd := if legacy g0 then _ else _) in Hc. destruct rd as [reply_id data].
  destruct (mp_client_send_event _ _ _ _) as [cl' r0]. simpl in Hc.
  destruct (r0 <? 0) eqn:Er; injection Hc as _ <-; simpl in *.
  { rewrite delete_insert_same in Hg.
    pose proof (count_active_delete (type h) _ _ _ Lm) as Cd.
    rewrite Nc in Cd. simpl in Cd.
    destruct (active_of (type h) (delete m cleared)); [|simpl in Cd; lia].
    by apply not_elem_of_nil in Hg. }
  assert (forall j x, <[m := set_active true g0]> cleared !! j = Some x ->
            (j = m /\ x = set_active true g0) \/
            (j = n /\ x = set_active false h) \/
            (j <> m /\ j <> n /\ hooks st !! j = Some x)) as Cases.
  { intros j x Lj. destruct (decide (j = m)) as [->|Nm].
    - left. rewrite list_lookup_insert_eq in Lj.
      + split; congruence.
      + by apply lookup_lt_Some in Lm.
    - right. rewrite list_lookup_insert_ne in Lj by done. unfold cleared in Lj.
      destruct (decide (j = n)) as [->|Nn].
      + left. rewrite list_lookup_insert_eq in Lj.
        * split; congruence.
        * by apply lookup_lt_Some in L.
      + right. rewrite list_lookup_insert_ne in Lj by done. done. }
  assert (g = set_active true g0) as ->.
  { apply active_of_elem in Hg as (Hg & Ag & Tg).
    apply list_elem_of_lookup_1 in Hg as [j Lj].
    destruct (Cases j g Lj) as [[_ ->]|[[_ ->]|(Nm & Nn & Lj0)]]; [done|done|].
    assert (g ∈ active_of (type h) cleared) as X.
    { apply active_of_elem. split; [|done].
      apply (list_elem_of_lookup_2 _ j). unfold cleared.
      by rewrite list_lookup_insert_ne. }
    rewrite Nc in X. by apply not_elem_of_nil in X. }
  split.
  - apply hook_lt_set_active_r.
    apply (StronglySorted_lookup _ _ n m _ _ So); [lia|done..].
  - intros g' Hg' Tg' Lt. apply list_elem_of_lookup_1 in Hg' as [j Lj].
    destruct (Cases j g' Lj) as [[_ ->]|[[_ ->]|(Nm & Nn & Lj0)]]; [by left| |].
    + apply hook_lt_set_active_r in Lt. by apply hook_lt_irrefl in Lt.
    + right. apply hook_lt_set_active_l.
      destruct (Nat.lt_trichotomy j n) as [Ljn|[->|Gjn]]; [|done|].
      * pose proof (StronglySorted_lookup _ _ j n _ _ So Ljn Lj0 L) as X.
        by apply hook_lt_asym in X.
      * destruct (Nat.lt_trichotomy j m) as [Ljm|[->|Gjm]]; [|done|].
        -- assert (is_type (type h) g' = false) as X.
           { apply (Fm j); [lia|]. unfold cleared. by rewrite list_lookup_insert_ne. }
           apply is_type_true in Tg'. congruence.
        -- apply (StronglySorted_lookup _ _ m j _ _ So); [lia|done..].
Qed.


Lemma no_active_no_hit ty (hs : list hook_handler) :
  active_of ty hs = [] ->
  first_from (fun h => active h && is_type ty h) hs 0 = None.
Proof.
  intros E. apply first_from_none_intro. intros j g _ L.
  destruct (active g && is_type ty g) eqn:C; [|done].
  assert (g ∈ active_of ty hs) as X.
  { unfold active_of. apply list_elem_of_filter. split; [done|].
    by apply list_elem_of_lookup_2 in L. }
  rewrite E in X. by apply not_elem_of_nil in X.
Qed.

(** C6: when the client of the handler in progress is gone, the poll
    removes that handler and reports completion; if it was the only handler
    of the type none is left, and (no other handler of the type being in
    progress) every later poll reports completion as well. *)
Theorem dead_client_completes (st : MPContext) (ty : string) (n : nat)
    (h : hook_handler) :
  hooks st !! n = Some h -> active h = true -> type h = ty ->
  (forall j g, (j < n)%nat -> hooks st !! j = Some g ->
               ~ (active g = true /\ type g = ty)) ->
  mp_client_exists (client_api st) (client h) = false ->
  exists st',
    mp_hook_test_completion st ty = (true, st') /\
    hooks st' = delete n (hooks st) /\
    (of_type ty (hooks st) = [h] -> of_type ty (hooks st') = []) /\
    ((length (active_of ty (hooks st)) <= 1)%nat ->
     mp_hook_test_completion st' ty = (true, st')).
Proof.
  intros L Act Ty F Dead.
  assert (first_from (fun h => active h && is_type ty h) (hooks st) 0 = Some (n, h)) as E.
  { apply first_from_intro; [lia|done| |].
    - rewrite Act. simpl. by apply is_type_true.
    - intros j g Hj Lj. destruct (active g && is_type ty g) eqn:C; [|done].
      apply andb_true_iff in C as [C1 C2]. apply is_type_true in C2.
      destruct (F j g); [lia|done|done]. }
  exists (hook_remove st n). unfold mp_hook_test_completion at 1.
  rewrite E, Dead. simpl. split; [done|]. split; [done|]. split.
  - intros One. rewrite <- (take_drop_middle _ _ _ L) in One.
    rewrite delete_take_drop. unfold of_type in *.
    rewrite filter_app in *. rewrite filter_cons_True in One by (by apply is_type_true).
    destruct (filter _ (take n (hooks st))) as [|x l1]; simpl in *.
    + by injection One as ->.
    + injection One as _ One. by destruct l1.
  - intros One. unfold mp_hook_test_completion.
    rewrite no_active_no_hit; [done|]. simpl.
    pose proof (count_active_delete ty _ _ _ L) as C.
    assert (cnt ty h = 1%nat) as Ch.
    { unfold cnt. rewrite Act. simpl. by rewrite (proj2 (is_type_true ty h)). }
    destruct (active_of ty (delete n (hooks st))); [done|]. simpl in C. lia.
Qed.

(** the array around the first handler of a type *)
Lemma of_type_head ty hs g r :
  of_type ty hs = g :: r ->
  exists l1 l2, hs = l1 ++ g :: l2 /\ is_type ty g = true /\
                Forall (fun x => is_type ty x = false) l1.
Proof.
  induction hs as [|x hs IH]; [done|]. unfold of_type in *.
  rewrite filter_cons. destruct (decide (is_type ty x = true)) as [T|T].
  - intros [= -> _]. exists [], hs. by repeat split.
  - intros E. destruct (IH E) as (l1 & l2 & -> & Tg & F).
    exists (x :: l1), l2. repeat split; [done|].
    constructor; [|done]. by apply not_true_is_false.
Qed.

(** while the first handler of the type is in progress and its client is
    there, the poll does not report completion *)
Lemma poll_waits (st : MPContext) ty g r :
  of_type ty (hooks st) = g :: r -> active g = true ->
  mp_client_exists (client_api st) (client g) = true ->
  mp_hook_test_completion st ty = (false, st).
Proof.
  intros E Act Ex. destruct (of_type_head _ _ _ _ E) as (l1 & l2 & Hs & T & F).
  unfold mp_hook_test_completion.
  rewrite (first_from_intro _ _ 0 (length l1) g).
  - by rewrite Ex.
  - lia.
  - rewrite Hs. by apply list_lookup_middle.
  - by rewrite Act, T.
  - intros j x Hj L. rewrite Hs, lookup_app_l in L by lia.
    rewrite Forall_lookup in F. rewrite (F j x L). apply andb_false_r.
Qed.

Lemma active_of_sub_of_type ty hs : of_type ty hs = [] -> active_of ty hs = [].
Proof.
  intros E. destruct (active_of ty hs) as [|x l] eqn:Ea; [done|].
  assert (x ∈ active_of ty hs) as Hx by (rewrite Ea; apply list_elem_of_here).
  apply active_of_elem in Hx as (Hx & _ & Tx).
  assert (x ∈ of_type ty hs) as X by (by apply of_type_elem).
  rewrite E in X. by apply not_elem_of_nil in X.
Qed.

(** C5: [mp_hook_start] returns (the loop ends), and when it does, every
    handler of the type whose client could not be notified was removed, in
    array order, and either the first handler behind them got its event and
    is now the first handler of the type, with its active flag set (so that
    the poll does not report completion while its client is there), or no
    handler of the type is left, none is active, and the end of the hook was
    signalled ([mp_wakeup_core], and the poll reports completion). *)
Theorem mp_hook_start_spec (st : MPContext) (ty : string) :
  exists st' failed rest,
    mp_hook_start st ty = Some st' /\ start_outcome st st' ty failed rest /\
    match rest with
    | [] => active_of ty (hooks st') = []
    | h :: _ =>
        exists g,
          head (of_type ty (hooks st')) = Some g /\
          same_registration h g /\ active g = true /\
          (mp_client_exists (client_api st') (client h) = true ->
           mp_hook_test_completion st' ty = (false, st'))
    end.
Proof.
  destruct (mp_hook_start_loop_spec (S (length (hooks st))) st ty)
    as (st' & failed & rest & E & O); [lia|].
  exists st', failed, rest. split; [done|]. split; [done|].
  destruct O as (_ & _ & _ & O). destruct rest as [|h rest'].
  - destruct O as (O & _). by apply active_of_sub_of_type.
  - exists (set_active true h). rewrite O. split; [done|]. split; [done|].
    split; [done|]. intros Ex. by apply (poll_waits st' ty _ _ O).
Qed.

(** *** One handler at a time, without the range *)

Lemma add_amo (st : MPContext) cl name uid pri leg :
  at_most_one_active st -> at_most_one_active (mp_hook_add st cl name uid pri leg).
Proof.
  intros A ty. simpl.
  assert (active_of ty (qsort compare_hook (hooks st ++ [mk_hook_handler cl name uid pri
             (to_int64 (hook_seq st + 1)) leg false]))
          ≡ₚ active_of ty (hooks st)) as P.
  { unfold active_of. rewrite qsort_perm, filter_app.
    rewrite filter_cons_False, filter_nil, app_nil_r; [done|]. simpl. done. }
  rewrite P. apply A.
Qed.

Lemma start_loop_amo fuel : forall (st st' : MPContext) ty,
  mp_hook_start_loop fuel st ty = Some st' ->
  active_of ty (hooks st) = [] ->
  at_most_one_active st -> at_most_one_active st'.
Proof.
  induction fuel as [|fuel IH]; intros st st' ty; simpl; [done|].
  destruct (run_next_hook_handler st ty 0) as [r st1] eqn:E.
  intros Hl N A.
  destruct (r <? 0) eqn:Er.
  - apply Z.ltb_lt in Er. apply (IH st1 st' ty Hl).
    + destruct (run_next_count _ _ _ _ _ ty E) as (_ & C & _).
      specialize (C Er). rewrite N in C. simpl in C.
      by destruct (active_of ty (hooks st1)); [|simpl in C; lia].
    + intros ty'.
      destruct (run_next_count _ _ _ _ _ ty' E) as (_ & C & _).
      specialize (C Er). specialize (A ty'). lia.
  - injection Hl as <-. intros ty'.
    destruct (run_next_count _ _ _ _ _ ty' E) as (C1 & _ & C2).
    destruct (decide (ty' = ty)) as [->|Ne].
    + rewrite N in C2. simpl in C2. lia.
    + specialize (C1 Ne). specialize (A ty'). lia.
Qed.

Lemma poll_amo (st : MPContext) ty :
  at_most_one_active st -> at_most_one_active (snd (mp_hook_test_completion st ty)).
Proof.
  intros A. unfold mp_hook_test_completion.
  destruct (first_from _ _ _) as [[n h]|] eqn:E; [|done].
  destruct (first_from_Some _ _ _ _ _ E) as (_ & L & _).
  destruct (negb _); [|done]. simpl.
  intros ty'. simpl. pose proof (count_active_delete ty' _ _ _ L).
  specialize (A ty'). lia.
Qed.

Lemma continue_amo (st : MPContext) cl id :
  at_most_one_active st -> at_most_one_active (snd (mp_hook_continue st cl id)).
Proof.
  intros A. unfold mp_hook_continue.
  destruct (first_from _ _ _) as [[n h]|] eqn:E; [|done].
  destruct (first_from_Some _ _ _ _ _ E) as (_ & L & _).
  destruct (active h) eqn:Act; [|done]. simpl.
  destruct (run_next_hook_handler _ _ _) as [r st1] eqn:E1. simpl.
  intros ty'.
  destruct (run_next_count _ _ _ _ _ ty' E1) as (C1 & _ & C2). simpl in *.
  destruct (decide (ty' = type h)) as [->|Ne].
  - rewrite (clear_active_none st n h A L Act) in C2. simpl in C2. lia.
  - specialize (C1 Ne).
    pose proof (count_active_insert ty' _ _ _ (set_active false h) L) as C.
    rewrite cnt_inactive in C. specialize (A ty'). lia.
Qed.

Lemma run_op_amo (st st' : MPContext) op :
  starts_when_idle st op -> run_op st op = Some st' ->
  at_most_one_active st -> at_most_one_active st'.
Proof.
  destruct op as [cl name uid pri leg|ty|cl id|ty|c]; simpl.
  - intros _ [= <-]. apply add_amo.
  - intros N Hs. by apply (start_loop_amo _ _ _ _ Hs N).
  - intros _ [= <-]. apply continue_amo.
  - intros _ [= <-]. apply poll_amo.
  - by intros _ [= <-].
Qed.

Lemma run_ops_amo ops : forall st : MPContext,
  along starts_when_idle st ops -> at_most_one_active st ->
  exists st', run_ops st ops = Some st' /\ at_most_one_active st'.
Proof.
  induction ops as [|op ops IH]; intros st; simpl.
  - intros _ I. by exists st.
  - intros [P F] I. destruct (run_op_total st op) as [st1 E]. rewrite E.
    apply IH; [by apply F|]. by apply (run_op_amo st st1 op).
Qed.

Lemma along_protocol ops : forall st : MPContext,
  along starts_when_idle st ops -> along within_range st ops ->
  follows_protocol st ops.
Proof.
  induction ops as [|op ops IH]; intros st; simpl; [done|].
  intros [P1 F1] [P2 F2]. split.
  - destruct op; simpl in *; done.
  - intros st' E. apply IH; [by apply F1|by apply F2].
Qed.

(** *** What a start and an acknowledgment put in progress *)

Lemma one_active ty (hs : list hook_handler) g :
  (length (active_of ty hs) <= 1)%nat -> g ∈ hs -> active g = true -> type g = ty ->
  active_of ty hs = [g].
Proof.
  intros Le Hg Act Ty.
  assert (g ∈ active_of ty hs) as X by (by apply active_of_elem).
  destruct (active_of ty hs) as [|x [|y l]]; simpl in Le; [|..|lia].
  - by apply not_elem_of_nil in X.
  - apply list_elem_of_singleton in X. by subst.
Qed.

Lemma start_activates (st : MPContext) ty :
  state_inv st -> active_of ty (hooks st) = [] ->
  exists st' failed rest,
    mp_hook_start st ty = Some st' /\
    start_outcome st st' ty failed rest /\
    (forall f x, f ∈ failed -> x ∈ rest -> hook_lt f x) /\
    match rest with
    | [] => active_of ty (hooks st') = []
    | h :: _ =>
        exists g,
          same_registration h g /\ active g = true /\
          active_of ty (hooks st') = [g] /\
          least_of_type ty (hooks st') g
    end.
Proof.
  intros I N.
  destruct (mp_hook_start_loop_spec (S (length (hooks st))) st ty)
    as (st' & failed & rest & E & O); [lia|].
  exists st', failed, rest. split; [done|]. split; [done|].
  destruct (start_loop_inv _ _ _ _ E N I) as [A' (S' & _)].
  destruct O as (O1 & _ & _ & O). split.
  - assert (StronglySorted hook_lt (of_type ty (hooks st))) as So.
    { eapply StronglySorted_sublist; [apply sublist_filter|apply I]. }
    rewrite O1 in So. intros f x. by apply StronglySorted_app_1_elem_of.
  - destruct rest as [|h rest'].
    + destruct O as (O & _). by apply active_of_sub_of_type.
    + exists (set_active true h). split; [done|]. split; [done|].
      assert (set_active true h ∈ of_type ty (hooks st')) as X
        by (rewrite O; apply list_elem_of_here).
      apply of_type_elem in X as [X1 X2]. split.
      * by apply one_active.
      * split; [done|]. split; [done|]. intros g' Hg' Tg'.
        assert (g' ∈ of_type ty (hooks st')) as Y by (by apply of_type_elem).
        assert (StronglySorted hook_lt (of_type ty (hooks st'))) as So.
        { eapply StronglySorted_sublist; [apply sublist_filter|done]. }
        rewrite O in So, Y. apply StronglySorted_inv in So as [_ F].
        apply elem_of_cons in Y as [->|Hr]; [by left|right].
        rewrite Forall_forall in F. by apply F.
Qed.

Lemma continue_activates (st : MPContext) cl id h :
  state_inv st ->
  h ∈ hooks st -> acknowledges cl id h -> active h = true ->
  exists r st' h',
    mp_hook_continue st cl id = (r, st') /\
    h' ∈ hooks st' /\ same_registration h h' /\ active h' = false /\
    ((forall g, ~ next_of_type (hooks st) h g) ->
     r = 0 /\ sent st' = sent st /\ wakeups st' = S (wakeups st) /\
     active_of (type h) (hooks st') = []) /\
    (forall g,
       next_of_type (hooks st) h g ->
       (exists e, sent st' = sent st ++ [e] /\
                  sent_to e = client g /\ sent_result e = r) /\
       (0 <= r ->
        exists g', same_registration g g' /\ active g' = true /\
                   active_of (type h) (hooks st') = [g']) /\
       (r < 0 ->
        active_of (type h) (hooks st') = [] /\
        (forall x, x ∈ hooks st' -> seq x <> seq g) /\
        wakeups st' = S (wakeups st))).
Proof.
  intros [A (So & Fr & Nd & Rs)] Hh Ack Act.
  unfold mp_hook_continue.
  destruct (first_from _ _ _) as [[n h0]|] eqn:E.
  2:{ apply list_elem_of_lookup_1 in Hh as [i Li].
      pose proof (first_from_None _ _ _ E i h ltac:(lia) Li) as X.
      apply acknowledges_cond_false in X. done. }
  destruct (first_from_Some _ _ _ _ _ E) as (_ & L & C0 & _).
  apply acknowledges_cond in C0.
  assert (h0 = h) as ->.
  { apply list_elem_of_lookup_1 in Hh as [i Li].
    assert (seq h0 = seq h) as Es.
    { destruct C0 as [_ C0], Ack as [_ Ack]. rewrite <- Ack in C0.
      rewrite Forall_forall in Fr.
      pose proof (Fr h0 (list_elem_of_lookup_2 _ _ _ L)).
      pose proof (Fr h (list_elem_of_lookup_2 _ _ _ Li)).
      rewrite !to_uint64_small in C0 by lia. done. }
    pose proof (NoDup_seq_lookup _ _ _ _ _ Nd L Li Es) as ->. congruence. }
  rewrite Act. simpl.
  pose proof (clear_active_none st n h A L Act) as Nc.
  set (cleared := <[n := set_active false h]> (hooks st)) in *.
  assert (cleared !! n = Some (set_active false h)) as Ln.
  { apply list_lookup_insert_eq. by apply lookup_lt_Some in L. }
  (* the handlers behind [h] in the order are those behind it in the array *)
  assert (forall g, g ∈ hooks st -> hook_lt h g ->
            exists j, (n < j)%nat /\ hooks st !! j = Some g /\ cleared !! j = Some g) as Behind.
  { intros g Hg Lt. apply list_elem_of_lookup_1 in Hg as [j Lj]. exists j.
    destruct (Nat.lt_trichotomy j n) as [Ljn|[->|Gjn]].
    - pose proof (StronglySorted_lookup _ _ j n _ _ So Ljn Lj L) as X.
      by apply hook_lt_asym in X.
    - rewrite L in Lj. injection Lj as <-. by apply hook_lt_irrefl in Lt.
    - split; [done|]. split; [done|]. unfold cleared.
      rewrite list_lookup_insert_ne by lia. done. }
  unfold run_next_hook_handler. simpl. fold cleared.
  destruct (first_from (is_type (type h)) cleared (n + 1)) as [[m g0]|] eqn:E2.
  - destruct (first_from_Some _ _ _ _ _ E2) as (Hm & Lm & Tm & Fm).
    apply is_type_true in Tm.
    assert (hooks st !! m = Some g0) as Lm0.
    { unfold cleared in Lm. rewrite list_lookup_insert_ne in Lm by lia. done. }
    assert (next_of_type (hooks st) h g0) as Nx.
    { split; [by apply (list_elem_of_lookup_2 _ m)|]. split; [done|]. split.
      - apply (StronglySorted_lookup _ _ n m _ _ So); [lia|done..].
      - intros g' Hg' Tg' Lt. destruct (Behind g' Hg' Lt) as (j & Hj & Lj & Lcj).
        destruct (Nat.lt_trichotomy j m) as [Ljm|[->|Gjm]].
        + assert (is_type (type h) g' = false) as X by (apply (Fm j); [lia|done]).
          apply is_type_true in Tg'. congruence.
        + left. congruence.
        + right. apply (StronglySorted_lookup _ _ m j _ _ So); [lia|done..]. }
    assert (forall g, next_of_type (hooks st) h g -> g = g0) as Uniq.
    { intros g (Hg & Tg & Lg & Fg). destruct Nx as (Hg0 & Tg0 & Lg0 & Fg0).
      destruct (Fg g0 Hg0 Tg0 Lg0) as [->|X]; [done|].
      destruct (Fg0 g Hg Tg Lg) as [->|Y]; [done|].
      by apply hook_lt_asym in X. }
    unfold invoke_hook_handler. simpl.
    set (rd := if legacy g0 then _ else _). destruct rd as [reply_id data].
    destruct (mp_client_send_event _ _ _ _) as [cl' r0]. simpl.
    destruct (r0 <? 0) eqn:Er; simpl.
    + apply Z.ltb_lt in Er.
      exists r0. eexists. exists (set_active false h). split; [done|]. simpl.
      rewrite delete_insert_same. split.
      { apply (list_elem_of_lookup_2 _ n). rewrite list_lookup_delete_lt by lia. done. }
      split; [done|]. split; [done|]. split.
      { intros No. destruct (No g0 Nx). }
      intros g Hg. rewrite (Uniq g Hg). split.
      { eexists. split; [done|]. done. }
      split; [lia|]. intros _.
      pose proof (count_active_delete (type h) _ _ _ Lm) as Cd.
      rewrite Nc in Cd. simpl in Cd. split.
      { by destruct (active_of (type h) (delete m cleared)); [|simpl in Cd; lia]. }
      split; [|done].
      intros x Hx Es. apply list_elem_of_lookup_1 in Hx as [j Lj].
      assert (NoDup (seq <$> cleared)) as Ndc.
      { unfold cleared. rewrite list_fmap_insert. simpl. rewrite list_insert_id; [done|].
        by rewrite list_lookup_fmap, L. }
      destruct (decide (j < m)%nat) as [Lt|Ge].
      * rewrite list_lookup_delete_lt in Lj by done.
        pose proof (NoDup_seq_lookup _ _ _ _ _ Ndc Lj Lm Es). lia.
      * rewrite list_lookup_delete_ge in Lj by lia.
        pose proof (NoDup_seq_lookup _ _ _ _ _ Ndc Lj Lm Es). lia.
    + apply Z.ltb_ge in Er.
      exists r0. eexists. exists (set_active false h). split; [done|]. simpl.
      split.
      { apply (list_elem_of_lookup_2 _ n). rewrite list_lookup_insert_ne by lia. done. }
      split; [done|]. split; [done|]. split.
      { intros No. destruct (No g0 Nx). }
      intros g Hg. rewrite (Uniq g Hg). split.
      { eexists. split; [done|]. done. }
      split; [|lia]. intros _.
      exists (set_active true g0). split; [done|]. split; [done|].
      apply one_active; [| |done|done].
      * pose proof (count_active_insert (type h) _ _ _ (set_active true g0) Lm) as Ci.
        rewrite Nc in Ci. simpl in Ci.
        pose proof (cnt_le (type h) (set_active true g0)). lia.
      * apply (list_elem_of_lookup_2 _ m). apply list_lookup_insert_eq.
        by apply lookup_lt_Some in Lm.
  - exists 0. eexists. exists (set_active false h). split; [done|]. simpl.
    split; [by apply (list_elem_of_lookup_2 _ n)|].
    split; [done|]. split; [done|]. split; [done|].
    intros g (Hg & Tg & Lg & _). exfalso.
    destruct (Behind g Hg Lg) as (j & Hj & Lj & Lcj).
    assert (is_type (type h) g = false) as X
      by (apply (first_from_None _ _ _ E2 j); [lia|done]).
    apply is_type_true in Tg. congruence.
Qed.

(** C1 (amended): from a fresh state, along every sequence of registrations,
    starts, acknowledgments, polls and changes of the clients in which a hook
    type is started only while none of its handlers is in progress, at most
    one handler per type is active.  If also priorities and the sequence
    counter stay within the range of [compare_hook], the array is sorted by
    (priority, sequence number) and the handlers of a type are invoked one
    at a time in that order.  A start removes the handlers of the type whose
    client cannot be notified, which come first in the order, and makes the
    least handler left the one active handler of the type; if none is left,
    none is active.  An acknowledgment of the active handler clears its flag
    and sends the event to the next handler of the type in the order: that
    one becomes the one active handler if the event is sent; if it cannot be
    sent the handler is removed, no handler of the type is active and the
    core is woken up, without an event to the handlers behind it; and
    without a next handler none is active and the core is woken up. *)
Theorem hooks_run_one_at_a_time (c : clients) (ops : list hook_op) :
  along starts_when_idle (initial c) ops ->
  exists st,
    run_ops (initial c) ops = Some st /\
    at_most_one_active st /\
    (along within_range (initial c) ops ->
     StronglySorted hook_lt (hooks st) /\
     (forall ty,
        active_of ty (hooks st) = [] ->
        exists st' failed rest,
          mp_hook_start st ty = Some st' /\
          start_outcome st st' ty failed rest /\
          (forall f x, f ∈ failed -> x ∈ rest -> hook_lt f x) /\
          match rest with
          | [] => active_of ty (hooks st') = []
          | h :: _ =>
              exists g,
                same_registration h g /\ active g = true /\
                active_of ty (hooks st') = [g] /\
                least_of_type ty (hooks st') g
          end) /\
     (forall cl id h,
        h ∈ hooks st -> acknowledges cl id h -> active h = true ->
        exists r st' h',
          mp_hook_continue st cl id = (r, st') /\
          h' ∈ hooks st' /\ same_registration h h' /\ active h' = false /\
          ((forall g, ~ next_of_type (hooks st) h g) ->
           r = 0 /\ sent st' = sent st /\ wakeups st' = S (wakeups st) /\
           active_of (type h) (hooks st') = []) /\
          (forall g,
             next_of_type (hooks st) h g ->
             (exists e, sent st' = sent st ++ [e] /\
                        sent_to e = client g /\ sent_result e = r) /\
             (0 <= r ->
              exists g', same_registration g g' /\ active g' = true /\
                         active_of (type h) (hooks st') = [g']) /\
             (r < 0 ->
              active_of (type h) (hooks st') = [] /\
              (forall x, x ∈ hooks st' -> seq x <> seq g) /\
              wakeups st' = S (wakeups st))))).
Proof.
  intros P.
  destruct (run_ops_amo ops (initial c) P (proj1 (initial_inv c))) as (st & R & A).
  exists st. split; [done|]. split; [done|]. intros Q.
  destruct (run_ops_inv ops (initial c) (along_protocol _ _ P Q) (initial_inv c))
    as (st1 & R1 & I).
  rewrite R in R1. injection R1 as <-.
  split; [apply I|]. split.
  - intros ty. by apply start_activates.
  - intros cl id h. by apply continue_activates.
Qed.

End WithClientApi.

(** C10, on the example: A is in progress and acknowledges. *)
Lemma mp_hook_continue_spec_witness :
  exists r st',
    @mp_hook_continue list_client_api example_in_progress "A" 1 = (r, st') /\
    0 <= r /\
    hooks st' = [mk_hook_handler "A" "on_load" 7 0 1 false false;
                 mk_hook_handler "B" "on_load" 8 10 2 false true].
Proof.
  destruct (proj2 (@mp_hook_continue_spec list_client_api example_in_progress "A" 1)
              0%nat (mk_hook_handler "A" "on_load" 7 0 1 false true))
    as [_ Hact].
  - reflexivity.
  - split; reflexivity.
  - intros j g Hj. lia.
  - destruct (Hact eq_refl) as (_ & _ & _ & r & st' & E & _ & Hok & _).
    exists r, st'. split; [exact E|].
    vm_compute in E. injection E as <- <-. split; [lia|reflexivity].
Defined.

(** C6, on the example: the only handler is in progress, its client gone. *)
Lemma dead_client_completes_witness :
  exists st',
    @mp_hook_test_completion list_client_api example_dead_client "on_load" = (true, st') /\
    hooks st' = [].
Proof.
  destruct (@dead_client_completes list_client_api example_dead_client "on_load" 0%nat
              (mk_hook_handler "A" "on_load" 7 0 1 false true))
    as (st' & E & Hh & _).
  - reflexivity.
  - reflexivity.
  - reflexivity.
  - intros j g Hj. lia.
  - reflexivity.
  - exists st'. split; [exact E|]. rewrite Hh. reflexivity.
Defined.

(** C5, on the example: A has disconnected; it is removed and B is put
    in progress. *)
Lemma mp_hook_start_spec_witness :
  exists st',
    @mp_hook_start list_client_api example_registered "on_load" = Some st' /\
    hooks st' = [mk_hook_handler "B" "on_load" 8 10 2 false true] /\
    @mp_hook_test_completion list_client_api st' "on_load" = (false, st').
Proof.
  destruct (@mp_hook_start_spec list_client_api example_registered "on_load")
    as (st' & failed & rest & E & _ & _).
  exists st'. split; [exact E|].
  vm_compute in E. injection E as <-. split; reflexivity.
Defined.

(** C1 (amended), on the example: A and B register, the hook starts, and
    the acknowledgment of A puts B in progress. *)
Lemma hooks_run_one_at_a_time_witness :
  exists st r st',
    @run_ops list_client_api example_initial example_started_ops = Some st /\
    at_most_one_active st /\
    StronglySorted hook_lt (hooks st) /\
    @mp_hook_continue list_client_api st "A" 1 = (r, st') /\
    0 <= r /\
    active_of "on_load" (hooks st') =
      [mk_hook_handler "B" "on_load" 8 10 2 false true].
Proof.
  destruct (@hooks_run_one_at_a_time list_client_api ["A"; "B"] example_started_ops)
    as (st & R & A & Rest).
  - unfold example_started_ops.
    repeat (split; [vm_compute; first [done | split; congruence]|];
            intros ? E; vm_compute in E; injection E as <-).
    exact I.
  - destruct Rest as (S & _ & Ack).
    + unfold example_started_ops.
      repeat (split; [vm_compute; first [done | split; congruence]|];
              intros ? E; vm_compute in E; injection E as <-).
      exact I.
    + pose proof R as R'. vm_compute in R'. injection R' as <-.
      destruct (Ack "A" 1 (mk_hook_handler "A" "on_load" 7 0 1 false true))
        as (r & st' & h' & E & _).
      * apply list_elem_of_here.
      * split; reflexivity.
      * reflexivity.
      * eexists _, r, st'. split; [exact R|]. split; [exact A|]. split; [exact S|].
        split; [exact E|]. vm_compute in E. injection E as <- <-.
        split; [lia|reflexivity].
Defined.

(** C1 as stated fails: the hook is started again after A acknowledged and
    while B is in progress; then A and B are both active. *)
Lemma restart_makes_two_active :
  exists st,
    @run_ops list_client_api example_initial restart_ops = Some st /\
    ~ at_most_one_active st.
Proof.
  eexists. split; [vm_compute; reflexivity|].
  intros A. specialize (A "on_load"). vm_compute in A. lia.
Qed.

End HookFacts.

Module PropertyFacts.
Import CStr CInt Property.

Section WithPropertyApi.
Context {m_option m_option_value player : Type}.
Context `{PropertyApi m_option m_option_value player}.

Abbreviation M := (M player).
Abbreviation MPContext := (MPContext player).
Abbreviation prop_arg := (prop_arg m_option m_option_value).

Lemma bind_Some {A B} (m : M A) (f : A -> M B) st b st' w :
  (x ← m; f x) st = Some (b, st', w) ->
  exists a st1 w1 w2,
    m st = Some (a, st1, w1) /\ f a st1 = Some (b, st', w2) /\ w = w1 ++ w2.
Proof.
  unfold mbind, M_bind, bind. destruct (m st) as [[[a st1] w1]|] eqn:Em; [|done].
  destruct (f a st1) as [[[b' st2] w2]|] eqn:Ef; [|done].
  intros [= <- <- <-]. by exists a, st1, w1, w2.
Qed.

(** what [mp_property_do_silent] does, by what [m_property_do] did *)
Lemma mp_property_do_silent_eq name action (val : prop_arg) (st : MPContext)
    r val' st0 w0 :
  m_property_do name action val
    (with_silence st (to_int (silence_option_deprecations st + 1))) =
    ((r, val'), st0, w0) ->
  mp_property_do_silent name action val st =
  Some ((r, val'),
        with_silence st0 (to_int (silence_option_deprecations st0 - 1)),
        w0 ++ (if (r =? M_PROPERTY_OK) && is_property_set action val'
               then [mp_client_property_change name] else [])).
Proof.
  intros E.
  unfold mp_property_do_silent, mbind, M_bind, bind, get, put, call, mret, M_ret, ret.
  simpl. rewrite E. simpl.
  destruct ((r =? M_PROPERTY_OK) && is_property_set action val'); simpl;
    by rewrite ?app_nil_r.
Qed.

Lemma silent_notifies name action val (st : MPContext) r val' st' w :
  mp_property_do_silent name action val st = Some ((r, val'), st', w) ->
  r = M_PROPERTY_OK -> is_property_set action val' = true ->
  exists w0, w = w0 ++ [mp_client_property_change name].
Proof.
  unfold mp_property_do_silent, mbind, M_bind, bind, get, put, call, mret, M_ret, ret.
  simpl. destruct (m_property_do name action val _) as [[[r0 v0] st0] w0] eqn:E.
  simpl. intros Hs Hr Hset.
  destruct ((r0 =? M_PROPERTY_OK) && is_property_set action v0) eqn:C; simpl in Hs;
    injection Hs as E1 E2 E3 E4; subst r0 v0 st' w.
  - by exists w0.
  - rewrite Hr, Z.eqb_refl, Hset in C. done.
Qed.

Lemma do_notifies name action val (st : MPContext) r val' st' w :
  mp_property_do name action val st = Some ((r, val'), st', w) ->
  r = M_PROPERTY_OK -> is_property_set action val' = true ->
  mp_client_property_change name ∈ w.
Proof.
  unfold mp_property_do. intros Hb Hr Hset.
  apply bind_Some in Hb as ([r0 v0] & st1 & w1 & w2 & Hs & Hk & ->).
  unfold mbind, M_bind, bind, get, mret, M_ret, ret, emit in Hk. simpl in Hk.
  assert (r0 = r /\ v0 = val') as [-> ->].
  { destruct (msgl_v st1 && is_property_set action v0); simpl in Hk;
      by injection Hk as -> -> _ _. }
  destruct (silent_notifies _ _ _ _ _ _ _ _ Hs Hr Hset) as [w0 ->].
  rewrite !elem_of_app, list_elem_of_singleton. auto.
Qed.


Lemma is_property_set_SET (val : prop_arg) :
  is_property_set M_PROPERTY_SET val = true.
Proof. by destruct val. Qed.

Lemma direct_option_notifies (co : m_config_option m_option) (data : prop_arg)
    flags (st : MPContext) r st' w :
  (mp_notify_property (co_name co) ;;
   call (m_config_set_option_raw_direct co data flags)) st = Some (r, st', w) ->
  mp_client_property_change (co_name co) ∈ w.
Proof.
  intros Hb. apply bind_Some in Hb as (? & st1 & w1 & w2 & Hn & _ & ->).
  unfold mp_notify_property, emit in Hn. injection Hn as _ _ <-.
  apply elem_of_app. left. apply list_elem_of_here.
Qed.

Lemma on_set_option_notifies (co : m_config_option m_option) (data : prop_arg)
    flags (st : MPContext) r st' w :
  mp_on_set_option co data flags st = Some (r, st', w) ->
  r <> M_OPT_INVALID ->
  mp_client_property_change (co_name co) ∈ w.
Proof.
  unfold mp_on_set_option. intros Hb Hr.
  apply bind_Some in Hb as (st0 & st1 & w1 & w2 & Hg & Hk & ->).
  unfold get in Hg. injection Hg as <- <- <-. simpl.
  assert (forall st r st' w,
    ('(r, type) ← mp_property_do_silent (co_name co) M_PROPERTY_GET_TYPE
                     (arg_type m_option_zero) ;
     if r =? M_PROPERTY_UNKNOWN
     then mp_notify_property (co_name co) ;;
          call (m_config_set_option_raw_direct co data flags)
     else if negb (r =? M_PROPERTY_OK) then mret M_OPT_INVALID
     else if negb (same_type_and_range (as_type type) (co_opt co)) then abort
     else
       '(r, _) ← mp_property_do_silent (co_name co) M_PROPERTY_SET data ;
       if negb (r =? M_PROPERTY_OK) then mret M_OPT_INVALID
       else st ← get ; put (m_config_mark_co_flags co flags st) ;; mret 0)
      st = Some (r, st', w) ->
    r <> M_OPT_INVALID -> mp_client_property_change (co_name co) ∈ w) as Via.
  { clear. intros st r st' w Hb Hr.
    apply bind_Some in Hb as ([r1 ty] & st1 & w1 & w2 & _ & Hk & ->).
    apply elem_of_app. right.
    destruct (r1 =? M_PROPERTY_UNKNOWN); [by eapply direct_option_notifies|].
    destruct (r1 =? M_PROPERTY_OK); simpl in Hk;
      [|by injection Hk as <- _ _].
    destruct (same_type_and_range _ _); simpl in Hk; [|done].
    apply bind_Some in Hk as ([r2 v2] & st2 & w3 & w4 & Hs & Hk & ->).
    destruct (Z.eqb_spec r2 M_PROPERTY_OK) as [E|N]; simpl in Hk;
      [|by injection Hk as <- _ _].
    destruct (silent_notifies _ _ _ _ _ _ _ _ Hs E (is_property_set_SET v2)) as [w0 ->].
    rewrite !elem_of_app, list_elem_of_singleton. auto. }
  destruct (m_property_list_find _ _) as [[pn [|]]|];
    [by eapply direct_option_notifies|by eapply Via..].
Qed.

(** the classifier of the code decides the set class *)
Lemma is_property_set_iff action (val : prop_arg) :
  is_property_set action val = true <-> set_class action val.
Proof.
  split.
  - revert action. induction val as [|t|v|s|key action' arg IH]; intros action Hs;
      destruct action; simpl in Hs; try discriminate Hs; try constructor.
    by apply IH.
  - induction 1; simpl; try done; by destruct val.
Qed.

Lemma do_after_silent name action val (st : MPContext) r val' st' w :
  mp_property_do_silent name action val st = Some ((r, val'), st', w) ->
  exists v,
    mp_property_do name action val st = Some ((r, val'), st', w ++ v) /\
    (v = [] \/ exists t, v = [verbose_set_property name t r]).
Proof.
  intros Hs. unfold mp_property_do.
  unfold mbind, M_bind, bind at 1. rewrite Hs.
  unfold mbind, M_bind, bind, get, mret, M_ret, ret, emit. simpl.
  destruct (msgl_v st' && is_property_set action val'); simpl.
  - eexists. split; [done|]. right. by eexists.
  - exists []. split; [done|]. by left.
Qed.

(** C2 (amended): a set-class operation (set, switch, multiply, set-string,
    set-node, or a key action around one of these) that returns
    M_PROPERTY_OK emits the change notification for the property name,
    through [mp_property_do_silent] (as the last event of the call) as well
    as through [mp_property_do]; the two differ by the verbose log line of
    [mp_property_do] only; and [mp_on_set_option], unless it returns
    M_OPT_INVALID, has emitted the notification for the name of the
    option. *)
Theorem set_class_operations_notify (name : string) (action : mp_property_action)
    (val : prop_arg) (st : MPContext) :
  (forall r val' st' w,
     mp_property_do_silent name action val st = Some ((r, val'), st', w) ->
     r = M_PROPERTY_OK -> set_class action val' ->
     exists w0, w = w0 ++ [mp_client_property_change name]) /\
  (forall r val' st' w,
     mp_property_do name action val st = Some ((r, val'), st', w) ->
     r = M_PROPERTY_OK -> set_class action val' ->
     mp_client_property_change name ∈ w) /\
  (forall r val' st' w,
     mp_property_do_silent name action val st = Some ((r, val'), st', w) ->
     exists v,
       mp_property_do name action val st = Some ((r, val'), st', w ++ v) /\
       (v = [] \/ exists t, v = [verbose_set_property name t r])) /\
  (forall co flags r st' w,
     co_name co = name ->
     mp_on_set_option co val flags st = Some (r, st', w) ->
     r <> M_OPT_INVALID ->
     mp_client_property_change name ∈ w).
Proof.
  split; [|split; [|split]].
  - intros r val' st' w Hs Hr Hset. apply is_property_set_iff in Hset.
    by apply (silent_notifies _ _ _ _ _ _ _ _ Hs Hr Hset).
  - intros r val' st' w Hd Hr Hset. apply is_property_set_iff in Hset.
    by apply (do_notifies _ _ _ _ _ _ _ _ Hd).
  - intros r val' st' w. apply do_after_silent.
  - intros co flags r st' w <-. apply on_set_option_notifies.
Qed.


(** *** cycle-values *)

#[local] Arguments mp_property_do : simpl never.
#[local] Arguments change_property_cmd : simpl never.
#[local] Arguments show_property_status : simpl never.


Lemma find_current_position prop name curval values n :
  find_current prop name curval values n =
  match current_position prop name curval values with
  | Some i => n + Z.of_nat i
  | None => -1
  end.
Proof.
  revert n. induction values as [|s values IH]; intros n; simpl; [done|].
  unfold normalized, compare_values.
  destruct (m_option_parse prop name s) as [r val].
  destruct (r <? 0).
  - rewrite decide_False by done. rewrite IH.
    destruct (current_position _ _ _ _); simpl; lia.
  - destruct (String.eqb_spec (default "" (m_option_print prop (arg_value curval)))
                              (default "" (m_option_print prop (arg_value val)))) as [E|N].
    + rewrite decide_True by congruence. simpl. lia.
    + rewrite decide_False by congruence. rewrite IH.
      destruct (current_position _ _ _ _); simpl; lia.
Qed.

Lemma current_position_lt prop name curval values i :
  current_position prop name curval values = Some i -> (i < length values)%nat.
Proof.
  revert i. induction values as [|s values IH]; intros i; simpl; [done|].
  destruct (decide _); [intros [= <-]; lia|].
  destruct (current_position _ _ _ _) as [j|]; [|done].
  intros [= <-]. specialize (IH j eq_refl). lia.
Qed.

Lemma arg_s_lookup (cmd : mp_cmd_ctx) (n : nat) s (st : MPContext) :
  args cmd !! n = Some s -> arg_s cmd (Z.of_nat n) st = Some (s, st, []).
Proof.
  intros L. unfold arg_s. destruct (Z.ltb_spec (Z.of_nat n) 0); [lia|].
  by rewrite Nat2Z.id, L.
Qed.


Lemma bind_eq {A B} (m : M A) (f : A -> M B) (st : MPContext) a st1 w1 :
  m st = Some (a, st1, w1) -> (m ≫= f) st = after_events w1 (f a st1).
Proof. intros E. unfold mbind, M_bind, bind, after_events. by rewrite E. Qed.

Lemma after_events_nil {A} (o : option (A * MPContext * list event)) :
  after_events [] o = o.
Proof. by destruct o as [[[? ?] ?]|]. Qed.

Lemma after_events_app {A} w1 w2 (o : option (A * MPContext * list event)) :
  after_events w1 (after_events w2 o) = after_events (w1 ++ w2) o.
Proof. destruct o as [[[? ?] ?]|]; simpl; [|done]. by rewrite app_assoc. Qed.

Lemma adjacent_lt n pos reverse : (0 < n)%nat -> (adjacent n pos reverse < n)%nat.
Proof.
  intros Hn. unfold adjacent.
  destruct pos; destruct reverse; try lia; apply Nat.mod_upper_bound; lia.
Qed.

(** what [cmd_cycle_values] does once the current value was looked up *)
Lemma cycle_values_pick (cmd : mp_cmd_ctx) (reverse : bool) name candidates
    prop curval target (k : string -> M mp_cmd_ctx) (st : MPContext) :
  args cmd = cycle_args reverse name candidates ->
  candidates <> [] ->
  let first := if reverse then 2 else 1 in
  let dir := if reverse then -1 else 1 in
  let pos := current_position prop name curval candidates in
  candidates !! adjacent (length candidates) pos reverse = Some target ->
  let current := find_current prop name curval candidates first in
  (current ←
     (if current >=? 0 then
        let current := current + dir in
        let current := if current <? first then num_args cmd - 1 else current in
        let current := if current >=? num_args cmd then first else current in
        ret current
      else
        emit verbose_picking_default ;;
        ret (if dir >? 0 then first else num_args cmd - 1)) ;
   s ← arg_s cmd current ; k s) st =
  after_events (if pos is Some _ then [] else [verbose_picking_default])
               (k target st).
Proof.
  intros Ha Hc first dir pos Ht current.
  assert (0 < length candidates)%nat as Hlen by (destruct candidates; simpl; [done|lia]).
  assert (num_args cmd = first + Z.of_nat (length candidates)) as Hnum.
  { unfold num_args, first. rewrite Ha. unfold cycle_args.
    destruct reverse; simpl length; lia. }
  assert (forall i t, candidates !! i = Some t ->
            arg_s cmd (first + Z.of_nat i) st = Some (t, st, [])) as Harg.
  { intros i t Li. unfold first. destruct reverse.
    - replace (2 + Z.of_nat i) with (Z.of_nat (S (S i))) by lia.
      apply arg_s_lookup. by rewrite Ha.
    - replace (1 + Z.of_nat i) with (Z.of_nat (S i)) by lia.
      apply arg_s_lookup. by rewrite Ha. }
  unfold current. rewrite find_current_position. fold pos.
  pose proof (current_position_lt prop name curval candidates) as Hp. fold pos in Hp.
  unfold adjacent in Ht. destruct pos as [i|].
  - specialize (Hp i eq_refl).
    destruct (Z.geb_spec (first + Z.of_nat i) 0) as [_|G]; [|unfold first in G; destruct reverse; lia].
    cbv zeta.
    match goal with |- context [ret ?c] => set (cur := c) end.
    assert (cur = first + Z.of_nat (if reverse then (i + length candidates - 1) mod length candidates
                                    else (i + 1) mod length candidates)) as Hcur.
    { assert (((i + length candidates - 1) mod length candidates)%nat =
              if Nat.eq_dec i 0%nat then (length candidates - 1)%nat else (i - 1)%nat) as Er.
      { destruct (Nat.eq_dec i 0%nat) as [->|Ni].
        - replace (0 + length candidates - 1)%nat with (length candidates - 1)%nat by lia.
          apply Nat.mod_small. lia.
        - replace (i + length candidates - 1)%nat
            with ((i - 1) + 1 * length candidates)%nat by lia.
          rewrite Nat.Div0.mod_add. apply Nat.mod_small. lia. }
      assert (((i + 1) mod length candidates)%nat =
              if Nat.eq_dec (i + 1)%nat (length candidates) then 0%nat else (i + 1)%nat) as Ef.
      { destruct (Nat.eq_dec (i + 1)%nat (length candidates)) as [->|Ni].
        - apply Nat.Div0.mod_same.
        - apply Nat.mod_small. lia. }
      rewrite Er, Ef. unfold cur, dir, first. rewrite Hnum. unfold first.
      destruct (Nat.eq_dec i 0%nat);
        destruct (Nat.eq_dec (i + 1)%nat (length candidates)); destruct reverse;
        repeat match goal with
               | |- context [Z.ltb ?a ?b] => destruct (Z.ltb_spec a b)
               | |- context [Z.geb ?a ?b] => destruct (Z.geb_spec a b)
               end; lia. }
    rewrite Hcur.
    erewrite bind_eq; [|reflexivity]. rewrite after_events_nil.
    erewrite bind_eq; [|by apply Harg; destruct reverse]. done.
  - change (-1 >=? 0) with false. cbv iota.
    erewrite bind_eq.
    2:{ erewrite bind_eq; [|reflexivity]. reflexivity. }
    simpl app. f_equal.
    assert ((if dir >? 0 then first else num_args cmd - 1) =
            first + Z.of_nat (if reverse then (length candidates - 1)%nat else 0%nat)) as ->.
    { rewrite Hnum. unfold dir, first. destruct reverse; simpl; lia. }
    erewrite bind_eq; [|by apply Harg; destruct reverse]. by rewrite after_events_nil.
Qed.

Lemma is_property_set_SET_STRING (val : prop_arg) :
  is_property_set M_PROPERTY_SET_STRING val = true.
Proof. by destruct val. Qed.

(** what [change_property_cmd] with set-string does, by what
    [m_property_do] did *)
Lemma change_property_cmd_set_string (cmd : mp_cmd_ctx) name (arg : prop_arg)
    (st : MPContext) r v st3 w3 :
  m_property_do name M_PROPERTY_SET_STRING arg
    (with_silence st (to_int (silence_option_deprecations st + 1))) =
    ((r, v), st3, w3) ->
  change_property_cmd cmd name M_PROPERTY_SET_STRING arg st =
  after_events
    (w3 ++ (if r =? M_PROPERTY_OK then [mp_client_property_change name] else []) ++
     (if msgl_v st3
      then [verbose_set_property name (m_option_print m_option_string v) r]
      else []))
    (show_property_status cmd name r
       (with_silence st3 (to_int (silence_option_deprecations st3 - 1)))).
Proof.
  intros E. unfold change_property_cmd, mp_property_do.
  pose proof (mp_property_do_silent_eq _ _ _ _ _ _ _ _ E) as S.
  rewrite is_property_set_SET_STRING, andb_true_r in S.
  unfold mbind, M_bind, bind at 1. unfold mbind, M_bind, bind at 1. rewrite S.
  unfold mbind, M_bind, bind, get, mret, M_ret, ret, emit, after_events. simpl.
  rewrite is_property_set_SET_STRING, andb_true_r.
  destruct (msgl_v st3); simpl;
    destruct (show_property_status cmd name r _) as [[[c' s'] e']|]; simpl;
    rewrite ?app_nil_r, <- ?app_assoc; done.
Qed.

(** C8: with the type and the current value of the property read, the
    command looks for the first candidate whose literal, parsed with the
    type of the property and printed again, equals the printed current
    value, and sets the property to the candidate next to it in the
    direction of the command, wrapping around in the candidate list (the
    first one in that direction when no candidate is the current value):
    [m_property_do] is called once more, with set-string and that
    candidate, and the command ends in the state this call leaves, with its
    events, the change notification when it returned M_PROPERTY_OK, and the
    status of the command by its result. *)
Theorem cmd_cycle_values_spec (cmd : mp_cmd_ctx) (reverse : bool)
    (name : string) (candidates : list string)
    (st st1 st2 : MPContext) (r1 r2 : Z) (prop : m_option)
    (curval : m_option_value) (w1 w2 : list event) :
  args cmd = cycle_args reverse name candidates ->
  candidates <> [] ->
  (reverse = false -> name <> "!reverse") ->
  mp_property_do name M_PROPERTY_GET_TYPE (arg_type m_option_zero) st =
    Some ((r1, arg_type prop), st1, w1) ->
  0 < r1 ->
  mp_property_do name M_PROPERTY_GET (arg_value m_option_value_zero) st1 =
    Some ((r2, arg_value curval), st2, w2) ->
  0 < r2 ->
  let pos := current_position prop name curval candidates in
  exists target,
    candidates !! adjacent (length candidates) pos reverse = Some target /\
    forall r v st3 w3,
      m_property_do name M_PROPERTY_SET_STRING (arg_string target)
        (with_silence st2 (to_int (silence_option_deprecations st2 + 1))) =
        ((r, v), st3, w3) ->
      let st' := with_silence st3 (to_int (silence_option_deprecations st3 - 1)) in
      let evs :=
        w1 ++ w2 ++ (if pos is Some _ then [] else [verbose_picking_default]) ++
        w3 ++ (if r =? M_PROPERTY_OK then [mp_client_property_change name] else []) ++
        (if msgl_v st3
         then [verbose_set_property name (m_option_print m_option_string v) r]
         else []) in
      cmd_cycle_values cmd st =
        after_events evs (show_property_status cmd name r st') /\
      (r = M_PROPERTY_OK -> M_PROPERTY_OK <> M_PROPERTY_UNAVAILABLE ->
       cmd_cycle_values cmd st = Some (cmd, st', evs)) /\
      (r <= 0 -> r <> M_PROPERTY_OK ->
       exists evs', cmd_cycle_values cmd st = Some (failed cmd, st', evs ++ evs')).
Proof.
  intros Ha Hc Hn H1 Hr1 H2 Hr2 pos.
  assert (0 < length candidates)%nat as Hlen by (destruct candidates; simpl; [done|lia]).
  destruct (lookup_lt_is_Some_2 _ _ (adjacent_lt (length candidates) pos reverse Hlen))
    as [target Ht].
  exists target. split; [done|].
  intros r v st3 w3 E3 st' evs.
  pose proof (cycle_values_pick cmd reverse name candidates prop curval target
                (fun s => change_property_cmd cmd name M_PROPERTY_SET_STRING (arg_string s))
                st2 Ha Hc Ht) as Pick.
  cbv beta zeta in Pick.
  rewrite (change_property_cmd_set_string _ _ _ _ _ _ _ _ E3) in Pick. fold st' in Pick.
  assert (num_args cmd = (if reverse then 2 else 1) + Z.of_nat (length candidates)) as Hnum.
  { unfold num_args. rewrite Ha. unfold cycle_args.
    destruct reverse; simpl length; lia. }
  assert (cmd_cycle_values cmd st =
          after_events evs (show_property_status cmd name r st')) as Eq.
  { unfold cmd_cycle_values.
    destruct reverse.
    - erewrite bind_eq; [|apply (arg_s_lookup _ 0%nat); by rewrite Ha].
      rewrite after_events_nil.
      change (strcmp "!reverse" "!reverse" =? 0) with true. cbv iota beta.
      erewrite bind_eq; [|apply (arg_s_lookup _ 1%nat); by rewrite Ha].
      rewrite after_events_nil.
      destruct (Z.geb_spec (1 + 1) (num_args cmd)) as [G|_]; [lia|].
      erewrite bind_eq; [|exact H1]. cbv iota beta zeta.
      destruct (Z.leb_spec r1 0) as [G|_]; [lia|].
      erewrite bind_eq; [|exact H2]. cbv iota beta zeta.
      destruct (Z.leb_spec r2 0) as [G|_]; [lia|].
      unfold as_type, as_value.
      replace (drop (Z.to_nat (1 + 1)) (args cmd)) with candidates by (by rewrite Ha).
      change (1 + 1) with 2. rewrite Pick.
      rewrite !after_events_app. unfold evs. by rewrite <- !app_assoc.
    - specialize (Hn eq_refl).
      erewrite bind_eq; [|apply (arg_s_lookup _ 0%nat); by rewrite Ha].
      rewrite after_events_nil.
      destruct (Z.eqb_spec (strcmp name "!reverse") 0) as [E|_].
      { by apply CStrFacts.strcmp_eq in E. }
      cbv iota beta.
      erewrite bind_eq; [|apply (arg_s_lookup _ 0%nat); by rewrite Ha].
      rewrite after_events_nil.
      destruct (Z.geb_spec (0 + 1) (num_args cmd)) as [G|_]; [lia|].
      erewrite bind_eq; [|exact H1]. cbv iota beta zeta.
      destruct (Z.leb_spec r1 0) as [G|_]; [lia|].
      erewrite bind_eq; [|exact H2]. cbv iota beta zeta.
      destruct (Z.leb_spec r2 0) as [G|_]; [lia|].
      unfold as_type, as_value.
      replace (drop (Z.to_nat (0 + 1)) (args cmd)) with candidates by (by rewrite Ha).
      change (0 + 1) with 1. rewrite Pick.
      rewrite !after_events_app. unfold evs. by rewrite <- !app_assoc. }
  split; [done|]. rewrite Eq. unfold show_property_status. split.
  - intros -> Ne. rewrite Z.eqb_refl. simpl.
    rewrite (proj2 (Z.eqb_neq _ _) Ne).
    unfold mret, M_ret, ret. simpl. by rewrite app_nil_r.
  - intros Le Ne. rewrite (proj2 (Z.eqb_neq _ _) Ne). simpl.
    destruct (r =? M_PROPERTY_UNAVAILABLE).
    { exists []. done. }
    destruct (r =? M_PROPERTY_UNKNOWN).
    { eexists. unfold mbind, M_bind, bind, emit, mret, M_ret, ret. simpl. done. }
    destruct (Z.leb_spec r 0) as [_|G]; [|lia].
    eexists. unfold mbind, M_bind, bind, emit, mret, M_ret, ret. simpl. done.
Qed.

End WithPropertyApi.

(** C2 (amended), on the example: a key action around a switch, through
    the silent variant. *)
Lemma set_class_operations_notify_witness :
  exists w0,
    @mp_property_do_silent _ _ _ example_key_api "volume" M_PROPERTY_KEY_ACTION
      (arg_key_action "left" M_PROPERTY_SWITCH arg_null) example_state =
    Some ((1, arg_key_action "left" M_PROPERTY_SWITCH arg_null), example_state,
          w0 ++ [mp_client_property_change "volume"]).
Proof.
  destruct (proj1 (@set_class_operations_notify _ _ _ example_key_api "volume"
                     M_PROPERTY_KEY_ACTION
                     (arg_key_action "left" M_PROPERTY_SWITCH arg_null) example_state)
              1 (arg_key_action "left" M_PROPERTY_SWITCH arg_null) example_state
              [mp_client_property_change "volume"])
    as [w0 E].
  - vm_compute. reflexivity.
  - reflexivity.
  - apply set_class_key_action, set_class_switch.
  - exists w0. rewrite <- E. vm_compute. reflexivity.
Defined.

(** C2 as stated fails: the silent variant emits the notification. *)
Lemma silent_variant_emits_notification :
  exists st',
    @mp_property_do_silent _ _ _ example_api "volume" M_PROPERTY_SET (arg_value 2)
      example_state =
    Some ((1, arg_value 2), st', [mp_client_property_change "volume"]).
Proof. eexists. vm_compute. reflexivity. Qed.

(** C8, on the example: "volume" is 1, written 01 in the command; it
    becomes 2. *)
Lemma cmd_cycle_values_spec_witness :
  @cmd_cycle_values _ _ _ example_api
    (mk_mp_cmd_ctx ["volume"; "01"; "2"; "3"] true) example_state =
  Some (mk_mp_cmd_ctx ["volume"; "01"; "2"; "3"] true,
        {| properties := [mk_m_property "volume" false];
           silence_option_deprecations := 0; msgl_v := false; rest := 2 |},
        [mp_client_property_change "volume"]).
Proof.
  destruct (@cmd_cycle_values_spec _ _ _ example_api
              (mk_mp_cmd_ctx ["volume"; "01"; "2"; "3"] true) false "volume"
              ["01"; "2"; "3"] example_state example_state example_state
              1 1 tt 1 [] [])
    as (target & Ht & E).
  - reflexivity.
  - discriminate.
  - discriminate.
  - vm_compute. reflexivity.
  - lia.
  - vm_compute. reflexivity.
  - lia.
  - vm_compute in Ht. injection Ht as <-.
    destruct (E 1 (arg_string "2")
                {| properties := [mk_m_property "volume" false];
                   silence_option_deprecations := 1; msgl_v := false; rest := 2 |}
                [] eq_refl) as (_ & Ok & _).
    exact (Ok eq_refl ltac:(discriminate)).
Defined.

End PropertyFacts.

Module CommandFacts.
Import CInt Command.

Section WithCommandApi.
Context {mpv_node player : Type}.
Context `{CommandApi mpv_node player}.

Abbreviation mp_cmd_ctx := (mp_cmd_ctx mpv_node).
Abbreviation MPContext := (MPContext mpv_node player).


#[local] Arguments run_command : simpl never.
#[local] Arguments call_handler : simpl never.
#[local] Arguments cmd_list : simpl never.
#[local] Arguments continue_cmd_list : simpl never.
#[local] Arguments on_cmd_list_sub_completion : simpl never.
#[local] Arguments mp_cmd_ctx_complete : simpl never.

Lemma run_command_S fuel self (st : MPContext) cmd abort oc priv :
  run_command (S fuel) self st cmd abort oc priv =
  run_command_body (call_handler fuel self) (mp_cmd_ctx_complete fuel self)
                   st cmd abort oc priv.
Proof. reflexivity. Qed.

Lemma call_handler_S fuel self (st : MPContext) ctx :
  call_handler (S fuel) self st ctx = call_handler_body (cmd_list fuel self) st ctx.
Proof. reflexivity. Qed.

Lemma cmd_list_S fuel self (st : MPContext) p :
  cmd_list (S fuel) self st p = cmd_list_body (continue_cmd_list fuel self) st p.
Proof. reflexivity. Qed.

Lemma continue_cmd_list_S fuel self (st : MPContext) list :
  continue_cmd_list (S fuel) self st list =
  continue_cmd_list_body self (run_command fuel self)
    (continue_cmd_list fuel self) (mp_cmd_ctx_complete fuel self) st list.
Proof. reflexivity. Qed.

Lemma on_cmd_list_sub_completion_S fuel self (st : MPContext) ctx :
  on_cmd_list_sub_completion (S fuel) self st ctx =
  on_cmd_list_sub_completion_body self (continue_cmd_list fuel self) st ctx.
Proof. reflexivity. Qed.

Lemma mp_cmd_ctx_complete_S fuel self (st : MPContext) ctx :
  mp_cmd_ctx_complete (S fuel) self st ctx =
  mp_cmd_ctx_complete_body (on_cmd_list_sub_completion fuel self) st ctx.
Proof. reflexivity. Qed.

Lemma mp_cmd_ctx_complete_at_once fuel self (st : MPContext) ctx (c : mp_cmd_ctx) :
  (2 <= fuel)%nat ->
  ctxs st !! ctx = Some c ->
  returns_at_once st self (on_completion c) (on_completion_priv c) ->
  mp_cmd_ctx_complete fuel self st ctx =
  Ok {| rest := rest st;
        ctxs := delete ctx (ctxs st);
        lists := lists_after st (on_completion c) (on_completion_priv c);
        next_ptr := next_ptr st;
        thread_pool := thread_pool st;
        outstanding_async := outstanding_async st;
        abort_list := if abort c is Some _
                      then filter (fun x => x <> ctx) (abort_list st)
                      else abort_list st;
        trace := trace st ++ completion_events ctx (on_completion c) (success c) |}.
Proof.
  intros Hf L R. destruct fuel as [|[|fuel]]; [lia|lia|].
  rewrite mp_cmd_ctx_complete_S. unfold mp_cmd_ctx_complete_body. rewrite L.
  destruct c as [cm a ab su co re oc op]. simpl in *.
  destruct oc as [[|f]|].
  - destruct R as (list & l & -> & Ll & Cv & Cs).
    destruct su; simpl; rewrite on_cmd_list_sub_completion_S;
      unfold on_cmd_list_sub_completion_body; simpl;
      rewrite lookup_insert_eq; simpl; rewrite Ll, Cv, Cs, Nat.eqb_refl; simpl;
      rewrite lookup_insert_eq; destruct ab; simpl;
      unfold log, set_ctxs, mp_abort_remove, set_abort_list; simpl;
      rewrite delete_insert_eq, <- app_assoc; reflexivity.
  - destruct su; simpl; rewrite lookup_insert_eq; destruct ab; simpl;
      unfold log, set_ctxs, mp_abort_remove, set_abort_list; simpl;
      rewrite delete_insert_eq, <- app_assoc; reflexivity.
  - destruct su; simpl; rewrite lookup_insert_eq; destruct ab; simpl;
      unfold log, set_ctxs, mp_abort_remove, set_abort_list; simpl;
      rewrite delete_insert_eq; reflexivity.
Qed.


Lemma run_command_unfold fuel self (st : MPContext) cmd abort oc priv :
  abort_allowed cmd abort ->
  run_command (S fuel) self st cmd abort oc priv =
  let ctx := next_ptr st in
  let '(a, ok) := expanded st cmd in
  if negb ok then
    mp_cmd_ctx_complete fuel self
      (submitted st cmd (new_ctx cmd abort oc priv a false) (rest st)
                 (outstanding_async st) []) ctx
  else if spawn_thread (def cmd) then
    if mp_thread_pool_queue (rest st) (thread_pool st) then
      Ok (set_thread_pool
            (submitted st cmd (new_ctx cmd abort oc priv a true) (rest st)
                       (to_int (outstanding_async st + 1)) [])
            (thread_pool st ++ [ctx]))
    else
      mp_cmd_ctx_complete fuel self
        (submitted st cmd (new_ctx cmd abort oc priv a false) (rest st)
                   (to_int (to_int (outstanding_async st + 1) - 1)) []) ctx
  else
    match call_handler fuel self
            (submitted st cmd (new_ctx cmd abort oc priv a true) (rest st)
                       (outstanding_async st) [])
            ctx with
    | Ok st' =>
        if negb (exec_async (def cmd)) then mp_cmd_ctx_complete fuel self st' ctx
        else Ok st'
    | Fault => Fault
    | OutOfFuel => OutOfFuel
    end.
Proof.
  intros Ab. rewrite run_command_S. unfold run_command_body, abort_allowed in *.
  unfold expanded, submitted, new_ctx, registered_abort.
  destruct (can_abort (def cmd)) eqn:Ca; destruct abort as [ab|];
    try (by specialize (Ab ltac:(done))); simpl;
    destruct (if negb _ then _ else _) as [a ok]; destruct ok; simpl;
    unfold update_ctx, set_ctxs, set_outstanding_async, set_thread_pool; simpl;
    rewrite ?insert_insert_eq, ?app_nil_r; reflexivity.
Qed.

Lemma complete_submitted fuel self (st : MPContext) cmd abort (c : mp_cmd_ctx)
    p out new :
  (2 <= fuel)%nat ->
  ctxs st !! next_ptr st = None ->
  returns_at_once st self (on_completion c) (on_completion_priv c) ->
  Command.abort c = registered_abort cmd abort ->
  mp_cmd_ctx_complete fuel self (submitted st cmd c p out new) (next_ptr st) =
  Ok (completed_in st cmd p (on_completion c) (on_completion_priv c) out
        (new ++ completion_events (next_ptr st) (on_completion c) (success c))).
Proof.
  intros Hf Fr R Ha.
  rewrite (mp_cmd_ctx_complete_at_once fuel self _ _ c Hf).
  - unfold completed_in, submitted. simpl. f_equal. f_equal.
    + rewrite delete_insert_eq. by apply delete_id.
    + rewrite Ha. unfold registered_abort.
      destruct (can_abort (def cmd)); [|done]. simpl.
      rewrite filter_cons_False; [done|]. intros X. by apply X.
    + by rewrite app_assoc.
  - apply lookup_insert_eq.
  - done.
Qed.

Lemma run_command_expansion_fails fuel self (st : MPContext) cmd abort oc priv :
  (3 <= fuel)%nat ->
  ctxs st !! next_ptr st = None ->
  abort_allowed cmd abort ->
  returns_at_once st self oc priv ->
  snd (expanded st cmd) = false ->
  run_command fuel self st cmd abort oc priv =
  Ok (completed_in st cmd (rest st) oc priv (outstanding_async st)
        (completion_events (next_ptr st) oc false)).
Proof.
  intros Hf Fr Ab R Ex. destruct fuel as [|fuel]; [lia|].
  rewrite run_command_unfold by done. cbv zeta.
  destruct (expanded st cmd) as [a ok]. simpl in Ex. subst ok. simpl negb. cbv iota.
  by rewrite (complete_submitted _ _ _ _ abort) by (done || lia).
Qed.

Lemma run_command_pool_refuses fuel self (st : MPContext) cmd abort oc priv :
  (3 <= fuel)%nat ->
  ctxs st !! next_ptr st = None ->
  abort_allowed cmd abort ->
  returns_at_once st self oc priv ->
  snd (expanded st cmd) = true ->
  spawn_thread (def cmd) = true ->
  mp_thread_pool_queue (rest st) (thread_pool st) = false ->
  run_command fuel self st cmd abort oc priv =
  Ok (completed_in st cmd (rest st) oc priv
        (to_int (to_int (outstanding_async st + 1) - 1))
        (completion_events (next_ptr st) oc false)).
Proof.
  intros Hf Fr Ab R Ex Sp Q. destruct fuel as [|fuel]; [lia|].
  rewrite run_command_unfold by done. cbv zeta.
  destruct (expanded st cmd) as [a ok]. simpl in Ex. subst ok. simpl negb. cbv iota.
  rewrite Sp, Q.
  by rewrite (complete_submitted _ _ _ _ abort) by (done || lia).
Qed.

Lemma run_command_queued fuel self (st : MPContext) cmd abort oc priv :
  (1 <= fuel)%nat ->
  abort_allowed cmd abort ->
  snd (expanded st cmd) = true ->
  spawn_thread (def cmd) = true ->
  mp_thread_pool_queue (rest st) (thread_pool st) = true ->
  run_command fuel self st cmd abort oc priv =
  Ok (set_thread_pool
        (submitted st cmd (new_ctx cmd abort oc priv (fst (expanded st cmd)) true)
                   (rest st) (to_int (outstanding_async st + 1)) [])
        (thread_pool st ++ [next_ptr st])).
Proof.
  intros Hf Ab Ex Sp Q. destruct fuel as [|fuel]; [lia|].
  rewrite run_command_unfold by done. cbv zeta.
  destruct (expanded st cmd) as [a ok]. simpl in Ex. subst ok. simpl negb. cbv iota.
  by rewrite Sp, Q.
Qed.


Lemma call_handler_of fuel self (st : MPContext) cmd (c : mp_cmd_ctx) h p out new :
  (1 <= fuel)%nat ->
  handler (fst (Command.cmd c)) = handler_of h ->
  call_handler fuel self (submitted st cmd c p out new) (next_ptr st) =
  let '(p', ok, res) := handler_body h (args c) p in
  Ok (submitted st cmd (set_result res (set_success ok c)) p' out
                (new ++ [ev_handler (next_ptr st) (name (fst (Command.cmd c)))])).
Proof.
  intros Hf Hh. destruct fuel as [|fuel]; [lia|].
  rewrite call_handler_S. unfold call_handler_body.
  simpl. rewrite lookup_insert_eq, Hh. simpl.
  destruct (handler_body h (args c) p) as [[p' ok] res].
  unfold submitted, set_rest, update_ctx, set_ctxs. simpl.
  by rewrite insert_insert_eq, app_assoc.
Qed.

Lemma run_command_inline fuel self (st : MPContext) cmd abort oc priv h :
  (3 <= fuel)%nat ->
  ctxs st !! next_ptr st = None ->
  abort_allowed cmd abort ->
  returns_at_once st self oc priv ->
  snd (expanded st cmd) = true ->
  spawn_thread (def cmd) = false ->
  exec_async (def cmd) = false ->
  handler (def cmd) = handler_of h ->
  run_command fuel self st cmd abort oc priv =
  let '(p', ok, res) := handler_body h (fst (expanded st cmd)) (rest st) in
  Ok (completed_in st cmd p' oc priv (outstanding_async st)
        ([ev_handler (next_ptr st) (name (def cmd))] ++
         completion_events (next_ptr st) oc ok)).
Proof.
  intros Hf Fr Ab R Ex Sp Ea Hh. destruct fuel as [|fuel]; [lia|].
  rewrite run_command_unfold by done. cbv zeta.
  destruct (expanded st cmd) as [a ok]. simpl in Ex. subst ok. simpl negb. cbv iota.
  rewrite Sp, Ea. rewrite (call_handler_of _ _ _ _ _ h) by (done || lia). simpl.
  destruct (handler_body h a (rest st)) as [[p' ok] res]. simpl.
  by rewrite (complete_submitted _ _ _ _ abort) by (done || lia).
Qed.


Lemma call_handler_of_any fuel self (st : MPContext) ctx (c : mp_cmd_ctx) h :
  (1 <= fuel)%nat ->
  ctxs st !! ctx = Some c ->
  handler (fst (Command.cmd c)) = handler_of h ->
  call_handler fuel self st ctx =
  let '(p', ok, res) := handler_body h (args c) (rest st) in
  Ok (set_rest (update_ctx (log st (ev_handler ctx (name (fst (Command.cmd c)))))
                           ctx (set_result res (set_success ok c))) p').
Proof.
  intros Hf L Hh. destruct fuel as [|fuel]; [lia|].
  rewrite call_handler_S. unfold call_handler_body. by rewrite L, Hh.
Qed.

Lemma worker_runs fuel w (st : MPContext) ctx (c : mp_cmd_ctx) h :
  (3 <= fuel)%nat ->
  ctxs st !! ctx = Some c ->
  handler (fst (Command.cmd c)) = handler_of h ->
  exec_async (fst (Command.cmd c)) = false ->
  returns_at_once st w (on_completion c) (on_completion_priv c) ->
  exists st',
    run_command_on_worker_thread fuel w st ctx = Ok st' /\
    rest st' = fst (fst (handler_body h (args c) (rest st))) /\
    ctxs st' = delete ctx (ctxs st) /\
    trace st' =
      trace st ++ [ev_handler ctx (name (fst (Command.cmd c)))] ++
      completion_events ctx (on_completion c)
                        (snd (fst (handler_body h (args c) (rest st)))) ++
      (if (to_int (outstanding_async st - 1) =? 0) &&
          mp_is_shutting_down (fst (fst (handler_body h (args c) (rest st))))
       then [ev_wakeup_core] else []).
Proof.
  intros Hf L Hh Ea R. unfold run_command_on_worker_thread.
  rewrite L, Ea, (call_handler_of_any _ _ _ _ c h) by (done || lia).
  destruct (handler_body h (args c) (rest st)) as [[p' ok] res]. simpl.
  erewrite mp_cmd_ctx_complete_at_once; [|lia| |].
  2:{ simpl. apply lookup_insert_eq. }
  2:{ simpl. done. }
  simpl. destruct (_ && _); eexists; (split; [reflexivity|]); simpl;
    rewrite delete_insert_eq, <- ?app_assoc; simpl; rewrite ?app_nil_r; done.
Qed.







Lemma times_completed_app ctx (t1 t2 : list event) :
  times_completed ctx (t1 ++ t2) = (times_completed ctx t1 + times_completed ctx t2)%nat.
Proof.
  induction t1 as [|e t1 IH]; simpl; [done|]. destruct e; simpl; rewrite IH; lia.
Qed.


(** C9: when the command asks for a worker thread and the pool does not
    take the job, [run_command] returns with the command completed as
    failed: the callback was called with success false, the context was
    freed right after, and the handler did not run (nothing else was seen). *)
Theorem spawn_failure_completes_failed fuel self (st : MPContext) cmd abort oc priv :
  (3 <= fuel)%nat ->
  ctxs st !! next_ptr st = None ->
  abort_allowed cmd abort ->
  returns_at_once st self oc priv ->
  spawn_thread (def cmd) = true ->
  mp_thread_pool_queue (rest st) (thread_pool st) = false ->
  exists st',
    run_command fuel self st cmd abort oc priv = Ok st' /\
    trace st' = trace st ++ completion_events (next_ptr st) oc false /\
    ctxs st' = ctxs st /\
    rest st' = rest st /\
    thread_pool st' = thread_pool st.
Proof.
  intros Hf Fr Ab R Sp Q.
  destruct (snd (expanded st cmd)) eqn:Ex.
  - rewrite run_command_pool_refuses by done. by eexists.
  - rewrite run_command_expansion_fails by done. by eexists.
Qed.


End WithCommandApi.



(** C9, on the example: the pool is full. *)
Lemma spawn_failure_completes_failed_witness :
  exists st',
    @run_command _ _ example_api 3 0%nat example_busy_state (example_worker_cmd "w")
      None (Some (callback_of "done")) None = Ok st' /\
    trace st' = [ev_on_completion 1%nat (callback_of "done") false; ev_free 1%nat].
Proof.
  destruct (@spawn_failure_completes_failed _ _ example_api 3 0%nat example_busy_state
              (example_worker_cmd "w") None (Some (callback_of "done")) None)
    as (st' & E & T & _).
  - lia.
  - reflexivity.
  - intros X. reflexivity.
  - exact I.
  - reflexivity.
  - reflexivity.
  - exists st'. split; [exact E|exact T].
Defined.



End CommandFacts.

Module PropertyNamesFacts.
Import CStr CInt Notify PropertyNames CStrFacts NotifyFacts.

(** [strncmp] compares the first [n] characters of both strings *)
Lemma strncmp_first_chars a : forall b n,
  strncmp a b n = 0 <-> first_chars n a = first_chars n b.
Proof.
  induction a as [|c a IH]; intros [|d b] [|n]; simpl; try done.
  destruct (Ascii.eqb_spec c d) as [->|N].
  - rewrite IH. split; congruence.
  - split; [|congruence]. intros E. by apply char_diff_nonzero in E.
Qed.

Lemma strncmp_sym a b n : (strncmp a b n =? 0) = (strncmp b a n =? 0).
Proof.
  destruct (Z.eqb_spec (strncmp a b n) 0) as [E|E];
    destruct (Z.eqb_spec (strncmp b a n) 0) as [F|F]; try done.
  - apply strncmp_first_chars in E. symmetry in E. by apply strncmp_first_chars in E.
  - apply strncmp_first_chars in F. symmetry in F. by apply strncmp_first_chars in F.
Qed.

Lemma append_cons c k t : (String c k ++ t)%string = String c (k ++ t).
Proof. reflexivity. Qed.

Lemma append_nil t : ("" ++ t)%string = t.
Proof. reflexivity. Qed.

Lemma first_chars_app k t : first_chars (strlen k) (k ++ t) = k.
Proof.
  induction k as [|c k IH]; [by destruct t|].
  rewrite append_cons. simpl. by rewrite IH.
Qed.

Lemma first_chars_all a n : (strlen a <= n)%nat -> first_chars n a = a.
Proof.
  revert n. induction a as [|c a IH]; intros [|n] L; simpl in *; try done; try lia.
  rewrite IH; [done|lia].
Qed.

Lemma first_chars_split a n : exists t, a = (first_chars n a ++ t)%string.
Proof.
  revert n. induction a as [|c a IH]; intros [|n]; simpl.
  - by exists "".
  - by exists "".
  - by exists (String c a).
  - destruct (IH n) as [t Ht]. exists t. rewrite append_cons. by f_equal.
Qed.

Lemma first_chars_le k t n :
  (n <= strlen k)%nat -> first_chars n (k ++ t) = first_chars n k.
Proof.
  revert n. induction k as [|c k IH]; intros [|n] L; simpl in L; try lia.
  - by destruct t.
  - by destruct (String c k ++ t)%string.
  - rewrite append_cons. simpl. rewrite IH; [done|lia].
Qed.

Lemma strlen_app a b : strlen (a ++ b) = (strlen a + strlen b)%nat.
Proof.
  induction a as [|c a IH]; [done|]. rewrite append_cons. simpl. by rewrite IH.
Qed.

Lemma strlen_first_chars a n : (n <= strlen a)%nat -> strlen (first_chars n a) = n.
Proof.
  revert n. induction a as [|c a IH]; intros [|n] L; simpl in *; try done; try lia.
  rewrite IH; [done|lia].
Qed.

Lemma starts_with_first_chars s k :
  starts_with s k <-> first_chars (strlen k) s = k.
Proof.
  split.
  - intros [t ->]. apply first_chars_app.
  - intros E. destruct (first_chars_split s (strlen k)) as [t Ht].
    exists t. by rewrite E in Ht.
Qed.

Lemma starts_with_length s k : starts_with s k -> (strlen k <= strlen s)%nat.
Proof. intros [t ->]. rewrite strlen_app. lia. Qed.

Lemma starts_with_same_length s k :
  starts_with s k -> strlen s = strlen k -> s = k.
Proof.
  intros [t ->]. rewrite strlen_app. intros L.
  destruct t; [|simpl in L; lia].
  clear L. induction k as [|c k IH]; [done|]. rewrite append_cons. by rewrite IH.
Qed.

Lemma app_empty_r (k : string) : (k ++ "")%string = k.
Proof. induction k as [|c k IH]; [done|]. rewrite append_cons. by rewrite IH. Qed.

Lemma first_component_no_slash a : strchr (first_component a) "/" = None.
Proof.
  unfold first_component. destruct (strchr a "/") as [e|] eqn:E; [|done].
  by destruct (strchr_split _ _ _ E) as (t & _ & _ & Hn).
Qed.

(** what [strncmp] over the shorter of the two lengths decides *)
Lemma match_stripped a b :
  (strncmp a b (Nat.min (prefix_len a) (prefix_len b)) =? 0) = true <->
  a = b \/
  (has_slash a /\ starts_with (first_component b) (first_component a)) \/
  (has_slash b /\ starts_with (first_component a) (first_component b)).
Proof.
  rewrite Z.eqb_eq, strncmp_first_chars. unfold has_slash.
  destruct (name_shape a) as [(ta & Ha & La)|[Ha La]];
    destruct (name_shape b) as [(tb & Hb & Lb)|[Hb Lb]]; rewrite La, Lb.
  - (* both have a '/' *)
    assert (strchr a "/" <> None) as Sa.
    { intros E. unfold first_component in Ha. rewrite E in Ha.
      pose proof (f_equal strlen Ha) as L. rewrite strlen_app in L. simpl in L. lia. }
    assert (strchr b "/" <> None) as Sb.
    { intros E. unfold first_component in Hb. rewrite E in Hb.
      pose proof (f_equal strlen Hb) as L. rewrite strlen_app in L. simpl in L. lia. }
    set (ka := first_component a) in *. set (kb := first_component b) in *.
    destruct (Nat.le_ge_cases (strlen ka) (strlen kb)) as [L|L].
    + rewrite Nat.min_l by done.
      rewrite Ha at 1. rewrite first_chars_app.
      rewrite Hb at 1. rewrite first_chars_le by done.
      split.
      * intros E. right. left. split; [done|].
        apply starts_with_first_chars. done.
      * intros [E|[[_ S]|[_ S]]].
        -- assert (ka = kb) as -> by (subst ka kb; by rewrite E).
           symmetry. apply first_chars_all. lia.
        -- symmetry. by apply starts_with_first_chars.
        -- assert (ka = kb) as ->.
           { apply starts_with_same_length; [done|].
             apply starts_with_length in S. lia. }
           symmetry. apply first_chars_all. lia.
    + rewrite Nat.min_r by done.
      rewrite Hb at 1. rewrite first_chars_app.
      rewrite Ha at 1. rewrite first_chars_le by done.
      split.
      * intros E. right. right. split; [done|].
        apply starts_with_first_chars. done.
      * intros [E|[[_ S]|[_ S]]].
        -- assert (ka = kb) as -> by (subst ka kb; by rewrite E).
           apply first_chars_all. lia.
        -- assert (kb = ka) as ->.
           { apply starts_with_same_length; [done|].
             apply starts_with_length in S. lia. }
           apply first_chars_all. lia.
        -- by apply starts_with_first_chars.
  - (* only [a] has a '/' *)
    assert (strchr a "/" <> None) as Sa.
    { intros E. unfold first_component in Ha. rewrite E in Ha.
      pose proof (f_equal strlen Ha) as L. rewrite strlen_app in L. simpl in L. lia. }
    assert (strchr b "/" = None) as Sb.
    { rewrite Hb. apply first_component_no_slash. }
    rewrite <- Hb.
    set (ka := first_component a) in *.
    destruct (Nat.le_gt_cases (strlen ka) (strlen b)) as [L|L].
    + rewrite Nat.min_l by lia.
      rewrite Ha at 1. rewrite first_chars_app.
      split.
      * intros E. right. left. split; [done|].
        apply starts_with_first_chars. done.
      * intros [E|[[_ S]|[S _]]]; [| |done].
        -- by rewrite E, Sb in Sa.
        -- symmetry. by apply starts_with_first_chars.
    + rewrite Nat.min_r by lia.
      rewrite (first_chars_all b) by lia.
      split.
      * intros E. exfalso.
        assert (strlen (first_chars (strlen b + 1) a) = (strlen b + 1)%nat) as X.
        { apply strlen_first_chars. rewrite Ha, strlen_app. lia. }
        rewrite E in X. lia.
      * intros [E|[[_ S]|[S _]]]; [| |done].
        -- by rewrite E, Sb in Sa.
        -- apply starts_with_length in S. lia.
  - (* only [b] has a '/' *)
    assert (strchr b "/" <> None) as Sb.
    { intros E. unfold first_component in Hb. rewrite E in Hb.
      pose proof (f_equal strlen Hb) as L. rewrite strlen_app in L. simpl in L. lia. }
    assert (strchr a "/" = None) as Sa.
    { rewrite Ha. apply first_component_no_slash. }
    rewrite <- Ha.
    set (kb := first_component b) in *.
    destruct (Nat.le_gt_cases (strlen kb) (strlen a)) as [L|L].
    + rewrite Nat.min_r by lia.
      rewrite Hb at 1. rewrite first_chars_app.
      split.
      * intros E. right. right. split; [done|].
        apply starts_with_first_chars. done.
      * intros [E|[[S _]|[_ S]]]; [|done|].
        -- by rewrite <- E, Sa in Sb.
        -- by apply starts_with_first_chars.
    + rewrite Nat.min_l by lia.
      rewrite (first_chars_all a) by lia.
      split.
      * intros E. exfalso.
        assert (strlen (first_chars (strlen a + 1) b) = (strlen a + 1)%nat) as X.
        { apply strlen_first_chars. rewrite Hb, strlen_app. lia. }
        rewrite <- E in X. lia.
      * intros [E|[[S _]|[_ S]]]; [|done|].
        -- by rewrite <- E, Sa in Sb.
        -- apply starts_with_length in S. lia.
  - (* neither has a '/' *)
    assert (strchr a "/" = None) as Sa.
    { rewrite Ha. apply first_component_no_slash. }
    assert (strchr b "/" = None) as Sb.
    { rewrite Hb. apply first_component_no_slash. }
    split.
    + intros E. left.
      destruct (Nat.le_ge_cases (strlen a) (strlen b)) as [L|L].
      * rewrite Nat.min_l in E by lia. rewrite (first_chars_all a) in E by lia.
        destruct (Nat.eq_dec (strlen a) (strlen b)) as [Q|Q].
        -- rewrite (first_chars_all b) in E by lia. done.
        -- exfalso.
           assert (strlen (first_chars (strlen a + 1) b) = (strlen a + 1)%nat) as X.
           { apply strlen_first_chars. lia. }
           rewrite <- E in X. lia.
      * rewrite Nat.min_r in E by lia. rewrite (first_chars_all b) in E by lia.
        destruct (Nat.eq_dec (strlen a) (strlen b)) as [Q|Q].
        -- rewrite (first_chars_all a) in E by lia. done.
        -- exfalso.
           assert (strlen (first_chars (strlen b + 1) a) = (strlen b + 1)%nat) as X.
           { apply strlen_first_chars. lia. }
           rewrite E in X. lia.
    + intros [E|[[S _]|[S _]]]; [|done|done]. by rewrite E.
Qed.

Lemma strip_options_eq a :
  (if strncmp a "options/" 8 =? 0 then advance a 8 else a) = strip_options a.
Proof. unfold strip_options. by rewrite strncmp_options. Qed.

(** X1: [match_property a b] holds exactly if [a] is "*", or, with a leading
    "options/" taken off both names, the names are equal or the part before
    the first '/' of one of them is the beginning of the first part (the
    whole name, if it has no '/') of the other. *)
Theorem match_property_iff (a b : string) :
  match_property a b = true <->
  a = "*" \/
  strip_options a = strip_options b \/
  (has_slash (strip_options a) /\
   starts_with (first_component (strip_options b))
               (first_component (strip_options a))) \/
  (has_slash (strip_options b) /\
   starts_with (first_component (strip_options a))
               (first_component (strip_options b))).
Proof.
  unfold match_property.
  destruct (Z.eqb_spec (strcmp a "*") 0) as [E|E].
  - apply strcmp_eq in E. tauto.
  - rewrite !strip_options_eq. rewrite match_stripped.
    split; [tauto|]. intros [->|X]; [|done]. by destruct E.
Qed.

Lemma match_property_iff_witness : match_property "volume" "options/volume" = true.
Proof. apply match_property_iff. right. left. reflexivity. Defined.

(** X2: apart from the wildcard "*", matching does not depend on which of
    the two names is the table entry and which the property asked for. *)
Theorem match_property_sym (a b : string) :
  a <> "*" -> b <> "*" -> match_property a b = match_property b a.
Proof.
  intros Na Nb. unfold match_property.
  destruct (Z.eqb_spec (strcmp a "*") 0) as [E|_]; [by apply strcmp_eq in E|].
  destruct (Z.eqb_spec (strcmp b "*") 0) as [E|_]; [by apply strcmp_eq in E|].
  rewrite Nat.min_comm. apply strncmp_sym.
Qed.

Lemma match_property_sym_witness :
  match_property "options/volume" "volume/x" =
  match_property "volume/x" "options/volume".
Proof. apply match_property_sym; discriminate. Defined.

Lemma options_prefix a : String.prefix "options/" ("options/" ++ a) = true.
Proof. destruct a; reflexivity. Qed.

Lemma options_advance a : advance ("options/" ++ a) 8 = a.
Proof. destruct a; reflexivity. Qed.

Lemma options_not_star a : (strcmp ("options/" ++ a) "*" =? 0) = false.
Proof. reflexivity. Qed.

(** X3: an option and the property of the same name are one: putting
    "options/" before a name (that is not "*" and does not begin with
    "options/" already) changes nothing for the matching, on either side. *)
Theorem match_property_options (a b : string) :
  String.prefix "options/" a = false -> String.prefix "options/" b = false ->
  a <> "*" ->
  match_property ("options/" ++ a) b = match_property a b /\
  match_property a ("options/" ++ b) = match_property a b /\
  match_property ("options/" ++ a) ("options/" ++ b) = match_property a b.
Proof.
  intros Pa Pb Na. unfold match_property.
  destruct (Z.eqb_spec (strcmp a "*") 0) as [E|_]; [by apply strcmp_eq in E|].
  rewrite !strncmp_options, Pa, Pb, !options_prefix, !options_advance,
    options_not_star.
  done.
Qed.

Lemma match_property_options_witness :
  match_property "options/volume" "volume" = match_property "volume" "volume" /\
  match_property "volume" "options/volume" = match_property "volume" "volume" /\
  match_property "options/volume" "options/volume" = match_property "volume" "volume".
Proof. apply match_property_options; [reflexivity|reflexivity|discriminate]. Defined.

End PropertyNamesFacts.

Module PropertyIdFacts.
Import CStr CInt Notify PropertyNames PropertyId CStrFacts NotifyFacts.

Lemma match_property_refl a : match_property a a = true.
Proof.
  unfold match_property. destruct (strcmp a "*" =? 0); [done|].
  apply Z.eqb_eq, strncmp_refl.
Qed.

Lemma find_property_spec ps name : forall n,
  match list_find (fun p => match_property (Property.prop_name p) name = true) ps with
  | Some (i, _) => find_property ps name n = n + Z.of_nat i
  | None => find_property ps name n = -1
  end.
Proof.
  induction ps as [|p ps IH]; intros n; simpl; [done|].
  destruct (decide (match_property (Property.prop_name p) name = true)) as [E|E].
  - rewrite E. simpl. lia.
  - apply not_true_is_false in E. rewrite E. specialize (IH (n + 1)).
    destruct (list_find _ ps) as [[i q]|]; simpl; [|done]. lia.
Qed.

(** X4: [mp_get_property_id] returns the index of the first entry of the
    property array that matches the name, and -1 exactly if no entry
    matches; a name that is itself in the array always has an id, which is at
    most its own index. *)
Theorem mp_get_property_id_first_match {player}
    (st : Property.MPContext player) (name : string) :
  let ps := Property.properties st in
  let id := mp_get_property_id st name in
  (id = -1 <->
   forall p, p ∈ ps -> match_property (Property.prop_name p) name = false) /\
  (id <> -1 ->
   exists i p, id = Z.of_nat i /\ ps !! i = Some p /\
     match_property (Property.prop_name p) name = true /\
     forall j q, (j < i)%nat -> ps !! j = Some q ->
       match_property (Property.prop_name q) name = false) /\
  (forall k p, ps !! k = Some p -> Property.prop_name p = name ->
     0 <= id <= Z.of_nat k).
Proof.
  intros ps id. subst id. unfold mp_get_property_id. fold ps.
  pose proof (find_property_spec ps name 0) as S.
  destruct (list_find _ ps) as [[i p]|] eqn:F.
  - apply list_find_Some in F as (L & M & B).
    split; [|split].
    + split; [lia|]. intros A. rewrite (A p) in M; [done|].
      by apply list_elem_of_lookup_2 in L.
    + intros _. exists i, p. split; [lia|]. split; [done|]. split; [done|].
      intros j q Lt Lj. apply not_true_is_false. by apply (B j q).
    + intros k q Lk Nq. split; [lia|].
      destruct (Nat.le_gt_cases i k) as [?|Lt]; [lia|].
      exfalso. apply (B k q Lk Lt). rewrite Nq. apply match_property_refl.
  - rewrite list_find_None in F.
    split; [|split].
    + split; [|done]. intros _ p Hp. apply not_true_is_false.
      rewrite Forall_forall in F. by apply F.
    + done.
    + intros k q Lk Nq. exfalso. rewrite Forall_forall in F.
      apply (F q); [by apply list_elem_of_lookup_2 in Lk|].
      rewrite Nq. apply match_property_refl.
Qed.

Lemma match_property_options_r a b :
  String.prefix "options/" b = false ->
  match_property a ("options/" ++ b) = match_property a b.
Proof.
  intros Pb. unfold match_property.
  rewrite !strncmp_options, Pb, PropertyNamesFacts.options_prefix,
    PropertyNamesFacts.options_advance. done.
Qed.

Lemma find_property_options ps name n :
  String.prefix "options/" name = false ->
  find_property ps ("options/" ++ name) n = find_property ps name n.
Proof.
  intros P. revert n. induction ps as [|p ps IH]; intros n; simpl; [done|].
  rewrite match_property_options_r by done. by rewrite IH.
Qed.

Section WithEventNumbers.
Variable event_number : mp_event -> nat.

Lemma mask_of_list_options l name n mask :
  String.prefix "options/" name = false ->
  mask_of_list l ("options/" ++ name) n mask = mask_of_list l name n mask.
Proof.
  intros P. revert mask. induction l as [|e l IH]; intros mask; simpl; [done|].
  rewrite match_property_options_r by done.
  destruct (match_property e name); [|done]. destruct (n <? 64)%nat; [|done].
  apply IH.
Qed.

Lemma mask_of_rows_options t count name : forall n mask,
  String.prefix "options/" name = false ->
  mask_of_rows event_number t count n ("options/" ++ name) mask =
  mask_of_rows event_number t count n name mask.
Proof.
  induction count as [|count IH]; intros n mask P; simpl; [done|].
  destruct (designated event_number t n) as [l|]; [|by apply IH].
  rewrite mask_of_list_options by done.
  destruct (mask_of_list l name n mask); [by apply IH|done].
Qed.

(** X5: an option and the property of the same name have the same id and
    the same event mask ("Give options and properties the same ID each, so
    change notifications work both way"). *)
Theorem options_prefix_same_id_and_mask {player}
    (st : Property.MPContext player) (name : string) :
  String.prefix "options/" name = false ->
  mp_get_property_id st ("options/" ++ name) = mp_get_property_id st name /\
  mp_get_property_event_mask event_number ("options/" ++ name) =
  mp_get_property_event_mask event_number name.
Proof.
  intros P. split.
  - by apply find_property_options.
  - by apply mask_of_rows_options.
Qed.

Lemma fits_bound w mask : 0 <= w -> fits w mask -> 0 <= mask < 2 ^ w.
Proof.
  intros Hw [H0 Hb]. split; [done|].
  destruct (Z.eq_dec mask 0) as [->|N]; [by apply Z.pow_pos_nonneg|].
  apply Z.log2_lt_pow2; [lia|].
  destruct (Z.lt_ge_cases (Z.log2 mask) w) as [|G]; [done|].
  specialize (Hb _ G). rewrite Z.bit_log2 in Hb by lia. done.
Qed.

Lemma mask_of_list_spec l name n : forall mask,
  (existsb (fun e => match_property e name) l = true -> (n < 64)%nat) ->
  fits 64 mask ->
  exists mask',
    mask_of_list l name n mask = Some mask' /\ fits 64 mask' /\
    forall k, 0 <= k ->
      Z.testbit mask' k =
      Z.testbit mask k ||
      ((k =? Z.of_nat n) && existsb (fun e => match_property e name) l).
Proof.
  induction l as [|e l IH]; intros mask Hn Hf; simpl.
  - exists mask. split; [done|]. split; [done|]. intros k _.
    by rewrite andb_false_r, orb_false_r.
  - simpl in Hn. destruct (match_property e name) eqn:M; simpl in *.
    + specialize (Hn eq_refl). apply Nat.ltb_lt in Hn as Hn'. rewrite Hn'.
      destruct (IH (Z.lor mask (Z.shiftl 1 (Z.of_nat n)))) as (m' & E & F & B).
      * done.
      * destruct Hf as [H0 Hb]. split.
        -- apply Z.lor_nonneg. split; [done|]. apply Z.shiftl_nonneg. lia.
        -- intros k Hk. rewrite Z.lor_spec, Hb by done. simpl.
           rewrite Z.shiftl_spec by lia.
           apply Z.bits_above_log2; simpl; lia.
      * exists m'. split; [done|]. split; [done|]. intros k Hk.
        rewrite B by done. rewrite Z.lor_spec, Z.shiftl_spec by done.
        rewrite andb_true_r.
        destruct (Z.eqb_spec k (Z.of_nat n)) as [->|Nk].
        -- rewrite Z.sub_diag. simpl. by destruct (Z.testbit mask _), (existsb _ l).
        -- assert (Z.testbit 1 (k - Z.of_nat n) = false) as ->.
           { destruct (Z.lt_ge_cases (k - Z.of_nat n) 0) as [Lt|Ge].
             - by apply Z.testbit_neg_r.
             - apply Z.bits_above_log2; simpl; lia. }
           simpl. by rewrite orb_false_r.
    + destruct (IH mask Hn Hf) as (m' & E & F & B). by exists m'.
Qed.

Lemma designated_Some t n l :
  designated event_number t n = Some l ->
  exists e, (e, l) ∈ t /\ event_number e = n.
Proof.
  induction t as [|[e l'] t IH]; simpl; [done|].
  destruct (designated event_number t n) as [l''|] eqn:D.
  - intros [= <-]. destruct (IH eq_refl) as (e' & I & N).
    exists e'. split; [by apply list_elem_of_further|done].
  - destruct (Nat.eqb_spec (event_number e) n) as [<-|]; [|done].
    intros [= <-]. exists e. split; [apply list_elem_of_here|done].
Qed.

Lemma designated_lookup t e l :
  NoDup ((fun x => event_number x.1) <$> t) -> (e, l) ∈ t ->
  designated event_number t (event_number e) = Some l.
Proof.
  induction t as [|[e' l'] t IH]; simpl; intros ND I.
  - by apply not_elem_of_nil in I.
  - apply NoDup_cons in ND as [Ni ND]. apply elem_of_cons in I as [[= <- <-]|I].
    + destruct (designated event_number t (event_number e)) as [l''|] eqn:D.
      * exfalso. apply designated_Some in D as (e'' & I & N).
        apply Ni. rewrite <- N.
        apply (list_elem_of_fmap_2 (fun x => event_number x.1) t (e'', l'')). done.
      * by rewrite Nat.eqb_refl.
    + by rewrite (IH ND I).
Qed.

Lemma array_size_gt t e l :
  (e, l) ∈ t -> (event_number e < array_size event_number t)%nat.
Proof.
  unfold array_size. induction t as [|[e' l'] t IH]; simpl; intros I.
  - by apply not_elem_of_nil in I.
  - apply elem_of_cons in I as [[= <- <-]|I]; [lia|]. specialize (IH I). lia.
Qed.

Ltac cases_on_comparisons :=
  repeat match goal with
         | |- context [Z.leb ?a ?b] => destruct (Z.leb_spec a b)
         | |- context [Z.ltb ?a ?b] => destruct (Z.ltb_spec a b)
         end; simpl; try lia.

Lemma mask_of_rows_spec t count name : forall n mask,
  (forall e l, (e, l) ∈ t -> (event_number e < 64)%nat) ->
  fits 64 mask ->
  exists mask',
    mask_of_rows event_number t count n name mask = Some mask' /\ fits 64 mask' /\
    forall k, 0 <= k ->
      Z.testbit mask' k =
      Z.testbit mask k ||
      ((Z.of_nat n <=? k) && (k <? Z.of_nat (n + count)) &&
       existsb (fun e => match_property e name) (row event_number t (Z.to_nat k))).
Proof.
  induction count as [|count IH]; intros n mask Hn Hf; simpl.
  - exists mask. split; [done|]. split; [done|]. intros k Hk.
    cases_on_comparisons; by rewrite orb_false_r.
  - destruct (designated event_number t n) as [l|] eqn:D.
    + destruct (mask_of_list_spec l name n mask) as (m1 & E1 & F1 & B1); [|done|].
      { intros _. apply designated_Some in D as (e & I & <-). by apply (Hn e l). }
      rewrite E1. destruct (IH (S n) m1 Hn F1) as (m2 & E2 & F2 & B2).
      exists m2. split; [done|]. split; [done|]. intros k Hk.
      rewrite B2, B1 by done. rewrite <- orb_assoc. f_equal.
      destruct (Z.eqb_spec k (Z.of_nat n)) as [->|Nk].
      * rewrite Nat2Z.id. unfold row. rewrite D. simpl.
        cases_on_comparisons. by rewrite orb_false_r.
      * simpl. cases_on_comparisons; done.
    + destruct (IH (S n) mask Hn Hf) as (m2 & E2 & F2 & B2).
      exists m2. split; [done|]. split; [done|]. intros k Hk.
      rewrite B2 by done. f_equal.
      destruct (Z.eqb_spec k (Z.of_nat n)) as [->|Nk].
      * rewrite Nat2Z.id. unfold row. rewrite D. simpl.
        cases_on_comparisons; by rewrite ?andb_false_r.
      * cases_on_comparisons; done.
Qed.

Lemma table_numbers_distinct :
  (forall e1 e2 : mp_event, event_number e1 = event_number e2 -> e1 = e2) ->
  NoDup ((fun x => event_number x.1) <$> mp_event_property_change).
Proof.
  intros Inj.
  change (NoDup ((event_number ∘ fst) <$> mp_event_property_change)).
  rewrite list_fmap_compose. apply NoDup_fmap_2; [exact Inj|].
  apply (bool_decide_unpack _). by vm_compute.
Qed.

(** X6: where the events have distinct numbers below 64, the event mask of a
    name is a 64-bit set in which the bit of an event of the table is set
    exactly if one of the names listed for the event matches the name, and no
    other bit is set. *)
Theorem mp_get_property_event_mask_bits (name : string) :
  (forall e1 e2 : mp_event, event_number e1 = event_number e2 -> e1 = e2) ->
  (forall e : mp_event, (event_number e < 64)%nat) ->
  exists mask,
    mp_get_property_event_mask event_number name = Some mask /\
    0 <= mask < 2 ^ 64 /\
    (forall e l, (e, l) ∈ mp_event_property_change ->
       Z.testbit mask (Z.of_nat (event_number e)) =
       existsb (fun x => match_property x name) l) /\
    (forall n, (forall e l, (e, l) ∈ mp_event_property_change ->
                            event_number e <> n) ->
       Z.testbit mask (Z.of_nat n) = false).
Proof.
  intros Inj Lt. unfold mp_get_property_event_mask.
  destruct (mask_of_rows_spec mp_event_property_change
              (array_size event_number mp_event_property_change) name 0 0)
    as (mask & E & F & B).
  { intros e l _. apply Lt. }
  { split; [done|]. intros k _. apply Z.bits_0. }
  exists mask. split; [done|]. split; [by apply fits_bound|]. split.
  - intros e l I. rewrite B by lia. rewrite Z.bits_0. simpl.
    rewrite Nat2Z.id. unfold row.
    rewrite (designated_lookup _ e l) by (by apply table_numbers_distinct || done).
    pose proof (array_size_gt _ e l I). cases_on_comparisons. done.
  - intros n Hn. rewrite B by lia. rewrite Z.bits_0. simpl.
    rewrite Nat2Z.id. unfold row.
    destruct (designated event_number mp_event_property_change n) as [l|] eqn:D.
    + apply designated_Some in D as (e & I & N). by destruct (Hn e l I).
    + simpl. by rewrite andb_false_r.
Qed.

(** X7: the events that list "*" (a file starts, ends or is loaded, the
    player goes idle, and "change all") are in the mask of every name. *)
Theorem wildcard_events_in_every_mask (name : string) (e : mp_event) :
  (forall e1 e2 : mp_event, event_number e1 = event_number e2 -> e1 = e2) ->
  (forall e : mp_event, (event_number e < 64)%nat) ->
  e ∈ [MPV_EVENT_START_FILE; MPV_EVENT_END_FILE; MPV_EVENT_FILE_LOADED;
       MP_EVENT_CHANGE_ALL; MPV_EVENT_IDLE] ->
  exists mask,
    mp_get_property_event_mask event_number name = Some mask /\
    Z.testbit mask (Z.of_nat (event_number e)) = true.
Proof.
  intros Inj Lt I. unfold mp_get_property_event_mask.
  destruct (mask_of_rows_spec mp_event_property_change
              (array_size event_number mp_event_property_change) name 0 0)
    as (mask & E & F & B).
  { intros e' l _. apply Lt. }
  { split; [done|]. intros k _. apply Z.bits_0. }
  exists mask. split; [done|].
  assert ((e, ["*"]) ∈ mp_event_property_change) as T.
  { unfold mp_event_property_change.
    repeat (apply elem_of_cons in I as [->|I]; [set_solver|]).
    by apply not_elem_of_nil in I. }
  rewrite B by lia. rewrite Z.bits_0. simpl. rewrite Nat2Z.id. unfold row.
  rewrite (designated_lookup _ e ["*"]) by (by apply table_numbers_distinct || done).
  pose proof (array_size_gt _ _ _ T). cases_on_comparisons.
Qed.

End WithEventNumbers.

Lemma example_event_number_inj e1 e2 :
  example_event_number e1 = example_event_number e2 -> e1 = e2.
Proof. destruct e1, e2; simpl; intros E; try done; discriminate E. Qed.

Lemma example_event_number_lt e : (example_event_number e < 64)%nat.
Proof. destruct e; simpl; lia. Qed.

Lemma mp_get_property_id_first_match_witness :
  0 <= mp_get_property_id example_properties "volume" <= 1.
Proof.
  apply (proj2 (proj2 (mp_get_property_id_first_match example_properties "volume"))
           1%nat (Property.mk_m_property "volume" false)); reflexivity.
Defined.

Lemma options_prefix_same_id_and_mask_witness :
  mp_get_property_id example_properties "options/audio-device" =
  mp_get_property_id example_properties "audio-device" /\
  mp_get_property_event_mask example_event_number "options/audio-device" =
  mp_get_property_event_mask example_event_number "audio-device".
Proof. apply options_prefix_same_id_and_mask. reflexivity. Defined.

Lemma mp_get_property_event_mask_bits_witness :
  exists mask,
    mp_get_property_event_mask example_event_number "pause" = Some mask /\
    0 <= mask < 2 ^ 64 /\ Z.testbit mask 12 = true.
Proof.
  destruct (mp_get_property_event_mask_bits example_event_number "pause"
              example_event_number_inj example_event_number_lt)
    as (mask & E & R & B & _).
  exists mask. split; [exact E|]. split; [exact R|].
  apply (B MPV_EVENT_PAUSE ["pause"]).
  repeat first [apply list_elem_of_here | apply list_elem_of_further].
Defined.

Lemma wildcard_events_in_every_mask_witness :
  exists mask,
    mp_get_property_event_mask example_event_number "volume" = Some mask /\
    Z.testbit mask 6 = true.
Proof.
  apply (wildcard_events_in_every_mask example_event_number "volume"
           MPV_EVENT_START_FILE example_event_number_inj example_event_number_lt).
  apply list_elem_of_here.
Defined.

End PropertyIdFacts.

Module TrackFacts.
Import Tracks.

Lemma step_next_fixed ty trk n cur s x :
  next s = Some x -> next (track_next_step ty trk n cur s) = Some x.
Proof.
  intros E. unfold track_next_step.
  destruct (type cur =? ty); [|done]. destruct (decide (trk = Some n)); [done|].
  destruct (negb (selected cur)); [|done]. simpl. rewrite E.
  rewrite bool_decide_true by done. by rewrite andb_false_r.
Qed.

Lemma loop_next_fixed l : forall n ty trk s x,
  next s = Some x -> next (track_next_loop l n ty trk s) = Some x.
Proof.
  induction l as [|cur l IH]; intros n ty trk s x E; simpl; [done|].
  apply IH. by apply step_next_fixed.
Qed.

Lemma step_seen ty trk n cur s :
  seen s = true -> seen (track_next_step ty trk n cur s) = true.
Proof.
  intros E. unfold track_next_step.
  destruct (type cur =? ty); [|done]. destruct (decide (trk = Some n)); [done|].
  by destruct (negb (selected cur)).
Qed.

Lemma candidate_cons_0 cur l ty trk pre :
  candidate (pre ++ cur :: l) ty trk (length pre) <->
  type cur = ty /\ selected cur = false /\ trk <> Some (length pre).
Proof.
  unfold candidate. rewrite list_lookup_middle by done. split.
  - by intros (t & [= <-] & ?).
  - intros ?. by exists cur.
Qed.

Lemma snoc_cons {A} (pre : list A) x l : (pre ++ [x]) ++ l = pre ++ x :: l.
Proof. by rewrite <- app_assoc. Qed.

(** once the track has been seen and while nothing was found, [next]
    becomes the first candidate *)
Lemma loop_next_seen ty trk l : forall pre s,
  seen s = true -> next s = None ->
  match next (track_next_loop l (length pre) ty trk s) with
  | Some j =>
      (length pre <= j)%nat /\ candidate (pre ++ l) ty trk j /\
      forall k, (length pre <= k < j)%nat -> ~ candidate (pre ++ l) ty trk k
  | None => forall k, (length pre <= k)%nat -> ~ candidate (pre ++ l) ty trk k
  end.
Proof.
  induction l as [|cur l IH]; intros pre s Hs Hn; simpl.
  - rewrite Hn. intros k Hk (t & L & _). rewrite app_nil_r in L.
    apply lookup_lt_Some in L. lia.
  - destruct (decide (type cur = ty /\ selected cur = false /\
                      trk <> Some (length pre))) as [C|C];
      rewrite <- (candidate_cons_0 cur l) in C.
    + assert (next (track_next_step ty trk (length pre) cur s) = Some (length pre)) as E.
      { apply candidate_cons_0 in C as (Ty & Se & Nt). unfold track_next_step.
        rewrite (proj2 (Z.eqb_eq _ _) Ty). rewrite decide_False by done.
        rewrite Se. simpl. rewrite Hs, Hn.
        by rewrite bool_decide_false by (by intros [? ?]). }
      rewrite (loop_next_fixed _ _ _ _ _ _ E).
      split; [done|]. split; [done|]. intros k Hk. lia.
    + assert (next (track_next_step ty trk (length pre) cur s) = None) as E.
      { unfold track_next_step. destruct (Z.eqb_spec (type cur) ty) as [Ty|]; [|done].
        destruct (decide (trk = Some (length pre))) as [|Nt]; [done|].
        destruct (selected cur) eqn:Se; [done|]. exfalso. apply C.
        by apply candidate_cons_0. }
      specialize (IH (pre ++ [cur]) _ (step_seen ty trk (length pre) cur s Hs) E).
      rewrite length_app in IH. simpl in IH. rewrite Nat.add_1_r in IH.
      rewrite snoc_cons in IH.
      destruct (next (track_next_loop l (S (length pre)) ty trk _)) as [j|].
      * destruct IH as (Lj & Cj & Fj). split; [lia|]. split; [done|].
        intros k Hk. destruct (decide (k = length pre)) as [->|]; [done|].
        apply Fj. lia.
      * intros k Hk. destruct (decide (k = length pre)) as [->|]; [done|].
        apply IH. lia.
Qed.

(** before the track is seen, [next] stays empty *)
Lemma loop_next_unseen ty i l : forall pre s t,
  seen s = false -> next s = None ->
  (length pre <= i)%nat -> (pre ++ l) !! i = Some t -> type t = ty ->
  match next (track_next_loop l (length pre) ty (Some i) s) with
  | Some j =>
      (i < j)%nat /\ candidate (pre ++ l) ty (Some i) j /\
      forall k, (i < k < j)%nat -> ~ candidate (pre ++ l) ty (Some i) k
  | None => forall k, (i < k)%nat -> ~ candidate (pre ++ l) ty (Some i) k
  end.
Proof.
  induction l as [|cur l IH]; intros pre s t Hs Hn Hi L Ty; simpl.
  - rewrite app_nil_r in L. apply lookup_lt_Some in L. lia.
  - destruct (decide (i = length pre)) as [->|Ni].
    + rewrite list_lookup_middle in L by done. injection L as ->.
      assert (track_next_step ty (Some (length pre)) (length pre) t s =
              {| prev := prev s; next := next s; seen := true |}) as E.
      { unfold track_next_step. rewrite (proj2 (Z.eqb_eq _ _) Ty).
        by rewrite decide_True. }
      rewrite E.
      pose proof (loop_next_seen ty (Some (length pre)) l (pre ++ [t])
                    {| prev := prev s; next := next s; seen := true |} eq_refl Hn) as X.
      rewrite length_app in X. simpl in X. rewrite Nat.add_1_r in X.
      rewrite snoc_cons in X.
      destruct (next (track_next_loop l (S (length pre)) ty _ _)) as [j|].
      * destruct X as (Lj & Cj & Fj). split; [lia|]. split; [done|].
        intros k Hk. apply Fj. lia.
      * intros k Hk. apply X. lia.
    + assert (seen (track_next_step ty (Some i) (length pre) cur s) = false /\
              next (track_next_step ty (Some i) (length pre) cur s) = None) as [E1 E2].
      { unfold track_next_step. destruct (type cur =? ty); [|done].
        rewrite decide_False by congruence.
        destruct (negb (selected cur)); [|done]. simpl. by rewrite Hs. }
      specialize (IH (pre ++ [cur]) _ t E1 E2).
      rewrite length_app in IH. simpl in IH. rewrite Nat.add_1_r in IH.
      rewrite snoc_cons in IH. apply IH; [lia|done|done].
Qed.

Lemma next_from_track (tracks : list track) (ty : Z) (i : nat) (t : track) :
  tracks !! i = Some t -> type t = ty ->
  exists r,
    track_next tracks ty 1 (Some i) = Some r /\
    match r with
    | Some j =>
        (i < j)%nat /\ candidate tracks ty (Some i) j /\
        forall k, (i < k < j)%nat -> ~ candidate tracks ty (Some i) k
    | None => forall k, (i < k)%nat -> ~ candidate tracks ty (Some i) k
    end.
Proof.
  intros L Ty. unfold track_next. simpl. eexists. split; [done|].
  exact (loop_next_unseen ty i tracks [] (mk_scan None None false) t
           eq_refl eq_refl (Nat.le_0_l _) L Ty).
Qed.

Lemma step_prev_frozen ty i n cur s :
  seen s = true ->
  prev (track_next_step ty (Some i) n cur s) = prev s /\
  seen (track_next_step ty (Some i) n cur s) = true.
Proof.
  intros E. unfold track_next_step.
  destruct (type cur =? ty); [|done]. destruct (decide (Some i = Some n)); [done|].
  destruct (negb (selected cur)); [|done]. simpl. by rewrite E.
Qed.

Lemma loop_prev_frozen ty i l : forall n s,
  seen s = true -> prev (track_next_loop l n ty (Some i) s) = prev s.
Proof.
  induction l as [|cur l IH]; intros n s E; simpl; [done|].
  destruct (step_prev_frozen ty i n cur s E) as [P S]. by rewrite IH.
Qed.

(** while [prev] follows the scan (no track given, or not seen yet) *)
Lemma step_prev_follows ty trk cur l pre s :
  (trk = None \/ (seen s = false /\ trk <> Some (length pre))) ->
  last_candidate (pre ++ cur :: l) ty trk (length pre) (S (length pre)) (prev s)
    (prev (track_next_step ty trk (length pre) cur s)) /\
  (seen s = false -> seen (track_next_step ty trk (length pre) cur s) = false).
Proof.
  intros H.
  assert (trk <> Some (length pre)) as Nt by (destruct H as [->|[_ ?]]; done).
  destruct (decide (type cur = ty /\ selected cur = false /\
                    trk <> Some (length pre))) as [C|C].
  - destruct C as (Ty & Se & _). unfold track_next_step.
    rewrite (proj2 (Z.eqb_eq _ _) Ty), decide_False, Se by done. simpl.
    assert (negb (seen s) || negb (bool_decide (is_Some trk)) = true) as ->.
    { destruct H as [->|[-> _]]; [|done].
      rewrite bool_decide_false by (by intros [? ?]). by rewrite orb_true_r. }
    split; [|done]. right. exists (length pre). split; [done|]. split; [lia|].
    split; [by apply candidate_cons_0|]. intros k Hk. lia.
  - split.
    + left. split.
      * unfold track_next_step. destruct (Z.eqb_spec (type cur) ty) as [Ty|]; [|done].
        rewrite decide_False by done. destruct (selected cur) eqn:Se; [done|].
        destruct C. done.
      * intros k Hk. assert (k = length pre) as -> by lia.
        by rewrite candidate_cons_0.
    + intros Hs. unfold track_next_step. destruct (type cur =? ty); [|done].
      rewrite decide_False by done. by destruct (negb (selected cur)).
Qed.

Lemma last_candidate_empty tracks ty trk lo p : last_candidate tracks ty trk lo lo p p.
Proof. left. split; [done|]. intros k Hk. lia. Qed.

Lemma loop_prev_none ty l : forall pre s,
  last_candidate (pre ++ l) ty None (length pre) (length (pre ++ l)) (prev s)
    (prev (track_next_loop l (length pre) ty None s)).
Proof.
  induction l as [|cur l IH]; intros pre s; simpl.
  - rewrite app_nil_r. apply last_candidate_empty.
  - destruct (step_prev_follows ty None cur l pre s (or_introl eq_refl)) as [S1 _].
    specialize (IH (pre ++ [cur]) (track_next_step ty None (length pre) cur s)).
    rewrite snoc_cons in IH. rewrite length_app in IH. simpl in IH.
    rewrite Nat.add_1_r in IH.
    destruct S1 as [[E1 N1]|(j1 & E1 & R1 & C1 & F1)];
      destruct IH as [[E2 N2]|(j2 & E2 & R2 & C2 & F2)].
    + left. split; [congruence|]. intros k Hk.
      destruct (decide (k = length pre)) as [->|]; [apply N1; lia|apply N2; lia].
    + right. exists j2. split; [done|]. split; [lia|]. done.
    + right. exists j1. split; [congruence|]. split.
      { rewrite length_app. simpl. lia. }
      split; [done|]. intros k Hk. apply N2. lia.
    + right. exists j2. split; [done|]. split; [lia|]. done.
Qed.

Lemma loop_prev_unseen ty i l : forall pre s t,
  seen s = false ->
  (length pre <= i)%nat -> (pre ++ l) !! i = Some t -> type t = ty ->
  last_candidate (pre ++ l) ty (Some i) (length pre) i (prev s)
    (prev (track_next_loop l (length pre) ty (Some i) s)).
Proof.
  induction l as [|cur l IH]; intros pre s t Hs Hi L Ty; simpl.
  - rewrite app_nil_r in L. apply lookup_lt_Some in L. lia.
  - destruct (decide (i = length pre)) as [->|Ni].
    + rewrite list_lookup_middle in L by done. injection L as ->.
      assert (track_next_step ty (Some (length pre)) (length pre) t s =
              {| prev := prev s; next := next s; seen := true |}) as E.
      { unfold track_next_step. rewrite (proj2 (Z.eqb_eq _ _) Ty).
        by rewrite decide_True. }
      rewrite E, loop_prev_frozen by done. simpl. apply last_candidate_empty.
    + destruct (step_prev_follows ty (Some i) cur l pre s) as [S1 S2].
      { right. split; [done|]. congruence. }
      specialize (IH (pre ++ [cur]) (track_next_step ty (Some i) (length pre) cur s) t
                     (S2 Hs)).
      rewrite snoc_cons in IH. rewrite length_app in IH. simpl in IH.
      rewrite Nat.add_1_r in IH. specialize (IH ltac:(lia) L Ty).
      destruct S1 as [[E1 N1]|(j1 & E1 & R1 & C1 & F1)];
        destruct IH as [[E2 N2]|(j2 & E2 & R2 & C2 & F2)].
      * left. split; [congruence|]. intros k Hk.
        destruct (decide (k = length pre)) as [->|]; [apply N1; lia|apply N2; lia].
      * right. exists j2. split; [done|]. split; [lia|]. done.
      * right. exists j1. split; [congruence|]. split; [lia|].
        split; [done|]. intros k Hk. apply N2. lia.
      * right. exists j2. split; [done|]. split; [lia|]. done.
Qed.

Lemma prev_from_track (tracks : list track) (ty : Z) (i : nat) (t : track) :
  tracks !! i = Some t -> type t = ty ->
  exists r,
    track_next tracks ty (-1) (Some i) = Some r /\
    match r with
    | Some j =>
        (j < i)%nat /\ candidate tracks ty (Some i) j /\
        forall k, (j < k < i)%nat -> ~ candidate tracks ty (Some i) k
    | None => forall k, (k < i)%nat -> ~ candidate tracks ty (Some i) k
    end.
Proof.
  intros L Ty. unfold track_next. simpl. eexists. split; [done|].
  pose proof (loop_prev_unseen ty i tracks [] (mk_scan None None false) t
                eq_refl (Nat.le_0_l _) L Ty) as X.
  simpl in X. destruct X as [[E N]|(j & E & R & C & F)]; rewrite E.
  - intros k Hk. apply N. lia.
  - split; [lia|]. done.
Qed.

(** a given track that is not of the wanted type is never seen, and [next]
    stays empty *)
Lemma loop_next_foreign ty i l : forall n s,
  seen s = false -> next s = None ->
  (forall k t, l !! k = Some t -> (n + k)%nat = i -> type t <> ty) ->
  next (track_next_loop l n ty (Some i) s) = None.
Proof.
  induction l as [|cur l IH]; intros n s Hs Hn F; simpl; [done|].
  apply IH.
  - unfold track_next_step. destruct (Z.eqb_spec (type cur) ty) as [Ty|]; [|done].
    destruct (decide (Some i = Some n)) as [[= ->]|].
    + destruct (F 0%nat cur eq_refl ltac:(lia)). done.
    + by destruct (negb (selected cur)).
  - unfold track_next_step. destruct (type cur =? ty); [|done].
    destruct (decide (Some i = Some n)); [done|].
    destruct (negb (selected cur)); [|done]. simpl. by rewrite Hs.
  - intros k t L E. apply (F (S k) t); [done|lia].
Qed.

(** and [prev] follows the scan to the end of the array *)
Lemma loop_prev_foreign ty i l : forall pre s,
  seen s = false ->
  (forall t, (pre ++ l) !! i = Some t -> type t <> ty) ->
  last_candidate (pre ++ l) ty (Some i) (length pre) (length (pre ++ l)) (prev s)
    (prev (track_next_loop l (length pre) ty (Some i) s)).
Proof.
  induction l as [|cur l IH]; intros pre s Hs F; simpl.
  - rewrite app_nil_r. apply last_candidate_empty.
  - assert (last_candidate (pre ++ cur :: l) ty (Some i) (length pre) (S (length pre))
              (prev s) (prev (track_next_step ty (Some i) (length pre) cur s)) /\
            seen (track_next_step ty (Some i) (length pre) cur s) = false) as [S1 S2].
    { destruct (decide (i = length pre)) as [->|Ni].
      - assert (type cur <> ty) as Nt.
        { apply F. by rewrite list_lookup_middle. }
        unfold track_next_step. rewrite (proj2 (Z.eqb_neq _ _) Nt).
        split; [|done]. left. split; [done|]. intros k Hk.
        assert (k = length pre) as -> by lia.
        rewrite candidate_cons_0. tauto.
      - destruct (step_prev_follows ty (Some i) cur l pre s) as [S1 S2].
        { right. split; [done|]. congruence. }
        split; [done|]. by apply S2. }
    specialize (IH (pre ++ [cur]) (track_next_step ty (Some i) (length pre) cur s) S2).
    rewrite snoc_cons in IH. rewrite length_app in IH. simpl in IH.
    rewrite Nat.add_1_r in IH. specialize (IH F).
    destruct S1 as [[E1 N1]|(j1 & E1 & R1 & C1 & F1)];
      destruct IH as [[E2 N2]|(j2 & E2 & R2 & C2 & F2)].
    + left. split; [congruence|]. intros k Hk.
      destruct (decide (k = length pre)) as [->|]; [apply N1; lia|apply N2; lia].
    + right. exists j2. split; [done|]. split; [lia|]. done.
    + right. exists j1. split; [congruence|]. split.
      { rewrite length_app. simpl. lia. }
      split; [done|]. intros k Hk. apply N2. lia.
    + right. exists j2. split; [done|]. split; [lia|]. done.
Qed.

(** X8: forwards, [track_next] returns the first track behind the given
    one (from the start of the array for NULL) that has the wanted type, is
    not selected and is not the given track, and NULL if there is none,
    provided the given track is NULL or has the wanted type itself; given a
    track of another type it returns NULL, whatever the other tracks are. *)
Theorem track_next_forward (tracks : list track) (ty : Z) (trk : option nat) :
  (forall after,
     start_at tracks ty trk after ->
     exists r,
       track_next tracks ty 1 trk = Some r /\
       match r with
       | Some j =>
           (after <= j)%nat /\ candidate tracks ty trk j /\
           forall k, (after <= k < j)%nat -> ~ candidate tracks ty trk k
       | None => forall k, (after <= k)%nat -> ~ candidate tracks ty trk k
       end) /\
  (forall i,
     trk = Some i -> (forall t, tracks !! i = Some t -> type t <> ty) ->
     track_next tracks ty 1 trk = Some None).
Proof.
  split.
  - intros after St. destruct trk as [i|]; simpl in St.
    + destruct St as (-> & t & L & Ty).
      destruct (next_from_track tracks ty i t L Ty) as (r & E & R).
      exists r. split; [done|]. destruct r as [j|].
      * destruct R as (Lj & Cj & Fj). split; [lia|]. split; [done|].
        intros k Hk. apply Fj. lia.
      * intros k Hk. apply R. lia.
    + subst after. unfold track_next. simpl. eexists. split; [done|].
      rewrite ?bool_decide_false by (by intros [? ?]). simpl.
      exact (loop_next_seen ty None tracks [] (mk_scan None None true) eq_refl eq_refl).
  - intros i -> F. unfold track_next. simpl. f_equal.
    apply loop_next_foreign; [done|done|]. intros k t L <-. by apply F.
Qed.

(** X9: backwards, [track_next] returns the last track before the given
    one (before the end of the array for NULL) that has the wanted type, is
    not selected and is not the given track, and NULL if there is none,
    provided the given track is NULL or has the wanted type itself; given a
    track of another type it returns the last such track of the whole array,
    also when that one lies behind the given track. *)
Theorem track_next_backward (tracks : list track) (ty : Z) (trk : option nat) :
  (forall before,
     end_at tracks ty trk before ->
     exists r,
       track_next tracks ty (-1) trk = Some r /\
       match r with
       | Some j =>
           (j < before)%nat /\ candidate tracks ty trk j /\
           forall k, (j < k < before)%nat -> ~ candidate tracks ty trk k
       | None => forall k, (k < before)%nat -> ~ candidate tracks ty trk k
       end) /\
  (forall i,
     trk = Some i -> (forall t, tracks !! i = Some t -> type t <> ty) ->
     exists r,
       track_next tracks ty (-1) trk = Some r /\
       match r with
       | Some j =>
           candidate tracks ty trk j /\
           forall k, (j < k)%nat -> ~ candidate tracks ty trk k
       | None => forall k, ~ candidate tracks ty trk k
       end).
Proof.
  split.
  - intros before En. destruct trk as [i|]; simpl in En.
    + destruct En as (-> & t & L & Ty). by apply (prev_from_track tracks ty i t).
    + subst before. unfold track_next. simpl. eexists. split; [done|].
      rewrite ?bool_decide_false by (by intros [? ?]). simpl.
      pose proof (loop_prev_none ty tracks [] (mk_scan None None true)) as X.
      simpl in X. destruct X as [[E N]|(j & E & R & C & F)]; rewrite E.
      * intros k Hk. apply N. lia.
      * split; [lia|]. done.
  - intros i -> F. unfold track_next. simpl. eexists. split; [done|].
    pose proof (loop_prev_foreign ty i tracks [] (mk_scan None None false) eq_refl F) as X.
    simpl in X.
    assert (forall k, (length tracks <= k)%nat -> ~ candidate tracks ty (Some i) k) as Out.
    { intros k Hk (t & L & _). apply lookup_lt_Some in L. lia. }
    destruct X as [[E N]|(j & E & R & C & Fj)]; rewrite E.
    + intros k. destruct (Nat.lt_ge_cases k (length tracks)); [apply N; lia|by apply Out].
    + split; [done|]. intros k Hk.
      destruct (Nat.lt_ge_cases k (length tracks)); [apply Fj; lia|by apply Out].
Qed.

(** X10: from a track that is not selected, one step forwards and one step
    backwards lead back to it, and so do one step backwards and one
    forwards. *)
Theorem track_next_there_and_back (tracks : list track) (ty : Z) (i j : nat)
    (t : track) :
  tracks !! i = Some t -> type t = ty -> selected t = false ->
  (track_next tracks ty 1 (Some i) = Some (Some j) ->
   track_next tracks ty (-1) (Some j) = Some (Some i)) /\
  (track_next tracks ty (-1) (Some i) = Some (Some j) ->
   track_next tracks ty 1 (Some j) = Some (Some i)).
Proof.
  intros L Ty Se. split; intros E.
  - destruct (next_from_track tracks ty i t L Ty) as (r & E' & R).
    rewrite E in E'. injection E' as <-.
    destruct R as (Lj & (u & Lu & Tu & Su & _) & Fj).
    destruct (prev_from_track tracks ty j u Lu Tu) as (r & E' & R).
    rewrite E'. f_equal.
    assert (candidate tracks ty (Some j) i) as Ci.
    { exists t. repeat split; try done. intros [= ->]. lia. }
    destruct r as [j'|].
    + destruct R as (Lj' & (v & Lv & Tv & Sv & _) & Fj'). f_equal.
      destruct (Nat.lt_trichotomy j' i) as [Lt|[->|Gt]]; [|done|].
      * exfalso. apply (Fj' i); [lia|done].
      * exfalso. apply (Fj j'); [lia|]. exists v. repeat split; try done.
        intros [= ->]. lia.
    + exfalso. apply (R i); [lia|done].
  - destruct (prev_from_track tracks ty i t L Ty) as (r & E' & R).
    rewrite E in E'. injection E' as <-.
    destruct R as (Lj & (u & Lu & Tu & Su & _) & Fj).
    destruct (next_from_track tracks ty j u Lu Tu) as (r & E' & R).
    rewrite E'. f_equal.
    assert (candidate tracks ty (Some j) i) as Ci.
    { exists t. repeat split; try done. intros [= ->]. lia. }
    destruct r as [j'|].
    + destruct R as (Lj' & (v & Lv & Tv & Sv & _) & Fj'). f_equal.
      destruct (Nat.lt_trichotomy j' i) as [Lt|[->|Gt]]; [|done|].
      * exfalso. apply (Fj j'); [lia|]. exists v. repeat split; try done.
        intros [= ->]. lia.
      * exfalso. apply (Fj' i); [lia|done].
    + exfalso. apply (R i); [lia|done].
Qed.

(** X8, on the example: from the selected audio track 0, and from the
    video track 1. *)
Lemma track_next_forward_witness :
  (exists r, track_next example_tracks 1 1 (Some 0%nat) = Some r /\ r = Some 2%nat) /\
  track_next example_tracks 1 1 (Some 1%nat) = Some None.
Proof.
  split.
  - destruct (proj1 (track_next_forward example_tracks 1 (Some 0%nat)) 1%nat)
      as (r & E & _).
    { split; [reflexivity|]. exists (mk_track 1 true). split; reflexivity. }
    exists r. split; [exact E|]. vm_compute in E. congruence.
  - apply (proj2 (track_next_forward example_tracks 1 (Some 1%nat)) 1%nat eq_refl).
    intros t [= <-]. discriminate.
Defined.

(** X9, on the example: from the audio track 3, and from the video
    track 1. *)
Lemma track_next_backward_witness :
  (exists r, track_next example_tracks 1 (-1) (Some 3%nat) = Some r /\ r = Some 2%nat) /\
  (exists r, track_next example_tracks 1 (-1) (Some 1%nat) = Some r /\ r = Some 3%nat).
Proof.
  split.
  - destruct (proj1 (track_next_backward example_tracks 1 (Some 3%nat)) 3%nat)
      as (r & E & _).
    { split; [reflexivity|]. exists (mk_track 1 false). split; reflexivity. }
    exists r. split; [exact E|]. vm_compute in E. congruence.
  - destruct (proj2 (track_next_backward example_tracks 1 (Some 1%nat)) 1%nat eq_refl)
      as (r & E & _).
    { intros t [= <-]. discriminate. }
    exists r. split; [exact E|]. vm_compute in E. congruence.
Defined.

Lemma track_next_there_and_back_witness :
  track_next example_tracks 1 (-1) (Some 3%nat) = Some (Some 2%nat).
Proof.
  apply (track_next_there_and_back example_tracks 1 2 3 (mk_track 1 false));
    reflexivity.
Defined.

End TrackFacts.

Module HookCommandFacts.
Import CStr CInt Hooks HookCommands CStrFacts HookFacts.

Section WithClientApi.
Context `{ClientApi}.

(** X11: within the range in which its subtractions do not overflow,
    [compare_hook] is negative, zero or positive exactly as the pair
    (priority, sequence number) of the first handler is less than, equal to
    or greater than that of the second. *)
Theorem compare_hook_order (h1 h2 : hook_handler) :
  in_range h1 -> in_range h2 ->
  (compare_hook h1 h2 < 0 <-> hook_lt h1 h2) /\
  (compare_hook h1 h2 = 0 <-> priority h1 = priority h2 /\ seq h1 = seq h2) /\
  (0 < compare_hook h1 h2 <-> hook_lt h2 h1).
Proof.
  intros [P1 S1] [P2 S2]. unfold compare_hook, hook_lt.
  destruct (Z.eqb_spec (priority h1) (priority h2)) as [E|N]; simpl.
  - rewrite (to_int64_small (seq h1 - seq h2)) by lia.
    rewrite to_int_small by lia. lia.
  - rewrite to_int_small by lia. lia.
Qed.

(** X12: the difference of the sequence numbers is cut to [int]: of two
    handlers of equal priority whose sequence numbers are [2^31] or more
    (and less than [2^32]) apart, the one registered later compares as the
    smaller one, and at a distance of exactly [2^32] the two compare as
    equal. *)
Theorem compare_hook_seq_truncated (h1 h2 : hook_handler) :
  priority h1 = priority h2 ->
  1 <= seq h2 -> seq h1 < 2 ^ 63 ->
  (2 ^ 31 <= seq h1 - seq h2 < 2 ^ 32 -> compare_hook h1 h2 < 0) /\
  (seq h1 - seq h2 = 2 ^ 32 -> compare_hook h1 h2 = 0).
Proof.
  intros E S2 S1. unfold compare_hook.
  rewrite (proj2 (Z.eqb_eq _ _) E). simpl. split; intros D.
  - rewrite to_int64_small by lia. unfold to_int, wrap_signed.
    replace (seq h1 - seq h2 + 2 ^ (32 - 1)) with
      ((seq h1 - seq h2 - 2 ^ 31) + 1 * 2 ^ 32) by lia.
    rewrite Z.mod_add by lia. rewrite Z.mod_small by lia. lia.
  - rewrite to_int64_small by lia. rewrite D. reflexivity.
Qed.



Lemma ids_inv_delete hs s n : ids_inv hs s -> ids_inv (delete n hs) s.
Proof.
  intros (F1 & N1 & R1). repeat split; try lia.
  - by apply Forall_delete.
  - rewrite list_fmap_delete. eapply sublist_NoDup; [done|apply sublist_delete].
Qed.

Lemma ids_inv_set_active hs s n h b :
  hs !! n = Some h -> ids_inv hs s -> ids_inv (<[n := set_active b h]> hs) s.
Proof.
  intros L (F1 & N1 & R1). repeat split; try lia.
  - apply Forall_insert; [done|]. rewrite Forall_lookup in F1. apply (F1 n h L).
  - rewrite list_fmap_insert. simpl. rewrite list_insert_id; [done|].
    by rewrite list_lookup_fmap, L.
Qed.

Lemma run_next_cases (st st' : MPContext) ty index r :
  run_next_hook_handler st ty index = (r, st') ->
  hook_seq st' = hook_seq st /\
  ((hooks st' = hooks st /\ r = 0 /\ sent st' = sent st /\
    wakeups st' = S (wakeups st) /\
    first_from (is_type ty) (hooks st) index = None) \/
   exists m g e,
     first_from (is_type ty) (hooks st) index = Some (m, g) /\
     sent st' = sent st ++ [e] /\ sent_result e = r /\ sent_to e = client g /\
     sent_data e = (if legacy g
                    then MPV_EVENT_CLIENT_MESSAGE (user_id g) (to_uint64 (seq g))
                    else MPV_EVENT_HOOK (type g) (to_uint64 (seq g))) /\
     sent_reply_id e = (if legacy g then 0 else user_id g) /\
     (r, client_api st') =
       (let '(c, r) := mp_client_send_event (client_api st) (client g)
                         (sent_reply_id e) (sent_data e) in (r, c)) /\
     ((0 <= r /\ hooks st' = <[m := set_active true g]> (hooks st) /\
       wakeups st' = wakeups st) \/
      (r < 0 /\ hooks st' = delete m (hooks st) /\
       wakeups st' = S (wakeups st)))).
Proof.
  unfold run_next_hook_handler.
  destruct (first_from _ _ _) as [[m g]|] eqn:E.
  - unfold invoke_hook_handler. simpl.
    destruct (legacy g) eqn:Lg;
      destruct (mp_client_send_event _ _ _ _) as [c r0] eqn:Es; simpl;
      destruct (r0 <? 0) eqn:Er; intros [= <- <-]; simpl;
      (split; [done|]); right; eexists m, g, _;
      (split; [done|]); (split; [reflexivity|]); simpl; rewrite ?Lg;
      repeat (split; [try done; by rewrite ?Es|]); rewrite ?Es.
    all: try (left; split; [lia|done]).
    all: try (right; split; [lia|]; split; [apply delete_insert_same|done]).
  - intros [= <- <-]. split; [done|]. left. done.
Qed.

Lemma ids_inv_run_next (st st' : MPContext) ty index r :
  run_next_hook_handler st ty index = (r, st') ->
  ids_inv (hooks st) (hook_seq st) -> ids_inv (hooks st') (hook_seq st').
Proof.
  intros E I. destruct (run_next_cases _ _ _ _ _ E) as [-> C].
  destruct C as [(-> & _)|(m & g & e & F & _ & _ & _ & _ & _ & _ & C)]; [done|].
  destruct (first_from_Some _ _ _ _ _ F) as (_ & L & _).
  destruct C as [(_ & -> & _)|(_ & -> & _)].
  - by apply ids_inv_set_active.
  - by apply ids_inv_delete.
Qed.

Lemma ids_inv_start_loop fuel : forall (st st' : MPContext) ty,
  mp_hook_start_loop fuel st ty = Some st' ->
  ids_inv (hooks st) (hook_seq st) ->
  ids_inv (hooks st') (hook_seq st').
Proof.
  induction fuel as [|fuel IH]; intros st st' ty; simpl; [done|].
  destruct (run_next_hook_handler st ty 0) as [r st1] eqn:E.
  intros E' I. pose proof (ids_inv_run_next _ _ _ _ _ E I) as I1.
  destruct (r <? 0); [by apply (IH st1 st' ty)|]. by injection E' as <-.
Qed.

Lemma start_loop_seq fuel : forall (st st' : MPContext) ty,
  mp_hook_start_loop fuel st ty = Some st' -> hook_seq st' = hook_seq st.
Proof.
  induction fuel as [|fuel IH]; intros st st' ty; simpl; [done|].
  destruct (run_next_hook_handler st ty 0) as [r st1] eqn:E1.
  destruct (run_next_cases _ _ _ _ _ E1) as [Q _].
  destruct (r <? 0).
  - intros E. rewrite (IH _ _ _ E). lia.
  - intros [= <-]. lia.
Qed.

Lemma ids_inv_add (st : MPContext) cl name uid pri leg :
  hook_seq st + 1 < 2 ^ 63 ->
  ids_inv (hooks st) (hook_seq st) ->
  ids_inv (hooks (mp_hook_add st cl name uid pri leg))
          (hook_seq (mp_hook_add st cl name uid pri leg)) /\
  hook_seq (mp_hook_add st cl name uid pri leg) = hook_seq st + 1.
Proof.
  intros Hs (F1 & N1 & R1). simpl. rewrite to_int64_small by lia.
  split; [|done]. set (h := mk_hook_handler _ _ _ _ _ _ _).
  repeat split; try lia.
  - rewrite qsort_perm. apply Forall_app. split.
    + eapply Forall_impl; [exact F1|]. simpl. intros; lia.
    + repeat constructor; simpl; lia.
  - rewrite qsort_perm. rewrite fmap_app. apply NoDup_app. split; [done|]. split.
    + intros x Hx. simpl. rewrite list_elem_of_singleton. intros ->.
      apply list_elem_of_fmap in Hx as (g & Eg & Hg).
      rewrite Forall_forall in F1. specialize (F1 g Hg). lia.
    + simpl. apply NoDup_singleton.
Qed.

Lemma ids_run_op (st st' : MPContext) op :
  run_op st op = Some st' ->
  hook_seq st + Z.of_nat (registrations [op]) < 2 ^ 63 ->
  ids_inv (hooks st) (hook_seq st) ->
  ids_inv (hooks st') (hook_seq st') /\
  hook_seq st' = hook_seq st + Z.of_nat (registrations [op]).
Proof.
  destruct op as [cl name uid pri leg|ty|cl id|ty|c]; simpl; intros E B I.
  - injection E as <-. apply ids_inv_add; [lia|done].
  - unfold mp_hook_start in E. split; [by apply (ids_inv_start_loop _ _ _ _ E)|].
    rewrite (start_loop_seq _ _ _ _ E). lia.
  - injection E as <-. unfold mp_hook_continue.
    destruct (first_from _ _ _) as [[n h]|] eqn:F; [|split; [done|simpl; lia]].
    destruct (negb (active h)); [split; [done|simpl; lia]|].
    destruct (first_from_Some _ _ _ _ _ F) as (_ & L & _).
    destruct (run_next_hook_handler _ _ _) as [r st1] eqn:E1. simpl.
    split.
    + apply (ids_inv_run_next _ _ _ _ _ E1). simpl. by apply ids_inv_set_active.
    + destruct (run_next_cases _ _ _ _ _ E1) as [Q _]. simpl in Q. lia.
  - injection E as <-. unfold mp_hook_test_completion.
    destruct (first_from _ _ _) as [[n h]|] eqn:F; [|split; [done|simpl; lia]].
    destruct (negb _); simpl; (split; [|lia]); [|done].
    by apply ids_inv_delete.
  - injection E as <-. simpl. split; [done|lia].
Qed.

Lemma registrations_cons op ops :
  registrations (op :: ops) = (registrations [op] + registrations ops)%nat.
Proof. by destruct op. Qed.

Lemma ids_run_ops ops : forall st st' : MPContext,
  run_ops st ops = Some st' ->
  hook_seq st + Z.of_nat (registrations ops) < 2 ^ 63 ->
  ids_inv (hooks st) (hook_seq st) ->
  ids_inv (hooks st') (hook_seq st') /\
  hook_seq st' = hook_seq st + Z.of_nat (registrations ops).
Proof.
  induction ops as [|op ops IH]; intros st st'; simpl run_ops.
  - intros [= <-] _ I. split; [done|]. simpl. lia.
  - destruct (run_op st op) as [st1|] eqn:E; [|done]. intros E' B I.
    rewrite registrations_cons in B |- *.
    destruct (ids_run_op _ _ _ E ltac:(lia) I) as [I1 Q1].
    destruct (IH _ _ E' ltac:(lia) I1) as [I2 Q2]. split; [done|lia].
Qed.

(** X14: along any sequence of operations from a fresh state (as long as
    fewer than [2^63] handlers were registered) the counter is the number of
    registrations so far, every handler in the array has a sequence number
    between 1 and the counter, and no two handlers have the same number: the
    id of an acknowledgment names at most one handler. *)
Theorem hook_ids_unique (c : clients) (ops : list hook_op) (st : MPContext) :
  run_ops (initial c) ops = Some st ->
  Z.of_nat (registrations ops) < 2 ^ 63 ->
  hook_seq st = Z.of_nat (registrations ops) /\
  (forall h, h ∈ hooks st -> 1 <= seq h <= hook_seq st) /\
  (forall i j h g, hooks st !! i = Some h -> hooks st !! j = Some g ->
                   to_uint64 (seq h) = to_uint64 (seq g) -> i = j).
Proof.
  intros E B.
  destruct (ids_run_ops ops (initial c) st E) as [(F & N & R) Q].
  { simpl. lia. }
  { repeat split; simpl; [constructor|constructor|lia]. }
  simpl in Q. split; [lia|]. rewrite Forall_forall in F. split; [done|].
  intros i j h g Li Lj Eq.
  apply (NoDup_seq_lookup (hooks st) i j h g); try done.
  pose proof (F h (list_elem_of_lookup_2 _ _ _ Li)).
  pose proof (F g (list_elem_of_lookup_2 _ _ _ Lj)).
  rewrite !to_uint64_small in Eq by lia. done.
Qed.

Lemma run_next_prefix (st st' : MPContext) ty index r :
  run_next_hook_handler st ty index = (r, st') ->
  forall j, (j < index)%nat -> hooks st' !! j = hooks st !! j.
Proof.
  intros E j Lt. destruct (run_next_cases _ _ _ _ _ E) as [_ C].
  destruct C as [(-> & _)|(m & g & e & F & _ & _ & _ & _ & _ & _ & C)]; [done|].
  destruct (first_from_Some _ _ _ _ _ F) as (Le & L & _).
  destruct C as [(_ & -> & _)|(_ & -> & _)].
  - apply list_lookup_insert_ne. lia.
  - apply list_lookup_delete_lt. lia.
Qed.

Lemma first_acknowledged (st : MPContext) cl id n h :
  hooks st !! n = Some h -> acknowledges cl id h ->
  (forall j g, (j < n)%nat -> hooks st !! j = Some g -> ~ acknowledges cl id g) ->
  first_from (fun h => (strcmp (client h) cl =? 0) && (to_uint64 (seq h) =? id))
             (hooks st) 0 = Some (n, h).
Proof.
  intros L A F. apply first_from_intro; [lia|done|by apply acknowledges_cond|].
  intros j g Hj Lj. apply acknowledges_cond_false. apply (F j g); [lia|done].
Qed.

(** X15: an acknowledgment is accepted once: after [mp_hook_continue] has
    taken the acknowledgment of the handler in progress, the same call again
    is rejected with [MPV_ERROR_INVALID_PARAMETER] and changes nothing. *)
Theorem second_acknowledgment_rejected (st : MPContext) (cl : string) (id : Z)
    (n : nat) (h : hook_handler) :
  hooks st !! n = Some h -> acknowledges cl id h ->
  (forall j g, (j < n)%nat -> hooks st !! j = Some g -> ~ acknowledges cl id g) ->
  active h = true ->
  let st' := snd (mp_hook_continue st cl id) in
  mp_hook_continue st' cl id = (MPV_ERROR_INVALID_PARAMETER, st').
Proof.
  intros L A F Act st'.
  assert (n < length (hooks st))%nat as Ln by (by apply lookup_lt_Some in L).
  assert (hooks st' !! n = Some (set_active false h) /\
          forall j, (j < n)%nat -> hooks st' !! j = hooks st !! j) as [L' F'].
  { subst st'. unfold mp_hook_continue.
    rewrite (first_acknowledged st cl id n h L A F), Act. simpl.
    destruct (run_next_hook_handler _ _ _) as [r st1] eqn:E. simpl.
    pose proof (run_next_prefix _ _ _ _ _ E) as P. simpl in P. split.
    - rewrite P by lia. by apply list_lookup_insert_eq.
    - intros j Lt. rewrite P by lia. apply list_lookup_insert_ne. lia. }
  unfold mp_hook_continue.
  rewrite (first_acknowledged st' cl id n (set_active false h)); [done|done|done|].
  intros j g Lt Lj. rewrite F' in Lj by done. by apply (F j g).
Qed.

(** X16: when the handler that acknowledges is the last one of its type in
    the array, the acknowledgment sends nothing, wakes the core, returns 0,
    and the hook is complete: the poll reports completion from then on. *)
Theorem last_acknowledgment_completes (st : MPContext) (cl : string) (id : Z)
    (n : nat) (h : hook_handler) :
  hooks st !! n = Some h -> acknowledges cl id h ->
  (forall j g, (j < n)%nat -> hooks st !! j = Some g -> ~ acknowledges cl id g) ->
  active h = true ->
  (forall j g, (n < j)%nat -> hooks st !! j = Some g -> type g <> type h) ->
  at_most_one_active st ->
  exists st',
    mp_hook_continue st cl id = (0, st') /\
    hooks st' = <[n := set_active false h]> (hooks st) /\
    sent st' = sent st /\
    wakeups st' = S (wakeups st) /\
    mp_hook_test_completion st' (type h) = (true, st').
Proof.
  intros L A F Act Last One.
  unfold mp_hook_continue.
  rewrite (first_acknowledged st cl id n h L A F), Act. simpl.
  unfold run_next_hook_handler. simpl.
  rewrite first_from_none_intro.
  - eexists. split; [done|]. simpl. repeat split.
    unfold mp_hook_test_completion. simpl.
    rewrite no_active_no_hit; [done|]. by apply clear_active_none.
  - intros j g Lt Lj. rewrite list_lookup_insert_ne in Lj by lia.
    destruct (is_type (type h) g) eqn:T; [|done].
    apply is_type_true in T. by destruct (Last j g ltac:(lia) Lj).
Qed.

(** X17: when the client of the handler in progress is gone, the poll
    removes that handler and reports completion at once, whatever comes after
    it: a later handler of the same type stays registered as it was, gets no
    event, and the core is not woken. *)
Theorem dead_client_skips_later_handlers (st : MPContext) (ty : string)
    (n m : nat) (h g : hook_handler) :
  hooks st !! n = Some h -> active h = true -> type h = ty ->
  (forall j g, (j < n)%nat -> hooks st !! j = Some g ->
               ~ (active g = true /\ type g = ty)) ->
  mp_client_exists (client_api st) (client h) = false ->
  (n < m)%nat -> hooks st !! m = Some g -> type g = ty ->
  exists st',
    mp_hook_test_completion st ty = (true, st') /\
    sent st' = sent st /\ wakeups st' = wakeups st /\
    hooks st' !! (m - 1)%nat = Some g /\
    of_type ty (hooks st') <> [].
Proof.
  intros L Act Ty F Dead Lt Lm Tg.
  unfold mp_hook_test_completion.
  rewrite (first_from_intro _ _ 0 n h); [|lia|done| |].
  - rewrite Dead. simpl. eexists. split; [done|]. simpl.
    assert (delete n (hooks st) !! (m - 1)%nat = Some g) as Lg.
    { rewrite list_lookup_delete_ge by lia. by replace (S (m - 1)) with m by lia. }
    repeat split; [done|].
    intros E. assert (g ∈ of_type ty (delete n (hooks st))) as I.
    { apply of_type_elem. split; [|done]. by apply list_elem_of_lookup_2 in Lg. }
    rewrite E in I. by apply not_elem_of_nil in I.
  - rewrite Act. simpl. by apply is_type_true.
  - intros j g' Hj Lj. destruct (active g' && is_type ty g') eqn:C; [|done].
    apply andb_true_iff in C as [C1 C2]. apply is_type_true in C2.
    destruct (F j g' ltac:(lia) Lj). done.
Qed.

(** X18: the old hook API end to end.  A client registers a handler with
    the command hook-add for a hook type that has no handler yet; when the
    hook is started, the client gets the message "hook_run" with its id and
    the sequence number of the handler; and when it answers with the command
    hook-ack and that number, the hook is complete: the core is woken and the
    poll reports completion. *)
Theorem hook_add_start_ack (st : MPContext) (cl name : string) (uid pri : Z)
    (c1 : clients) (r : Z) :
  ids_inv (hooks st) (hook_seq st) -> hook_seq st < 2 ^ 31 - 1 ->
  of_type name (hooks st) = [] ->
  let s := hook_seq st + 1 in
  let ev := MPV_EVENT_CLIENT_MESSAGE (to_uint64 uid) s in
  mp_client_send_event (client_api st) cl 0 ev = (c1, r) -> 0 <= r ->
  exists st1 st2 st3,
    cmd_hook_add st (Some cl) name uid pri true = (true, st1) /\
    mp_hook_start st1 name = Some st2 /\
    sent st2 = sent st ++ [mk_sent cl 0 ev r] /\
    cmd_hook_ack st2 (Some cl) s true = (true, st3) /\
    sent st3 = sent st2 /\ wakeups st3 = S (wakeups st) /\
    mp_hook_test_completion st3 name = (true, st3).
Proof.
  intros I Hs No s ev Send Hr.
  set (st1 := mp_hook_add st cl name (to_uint64 uid) pri true).
  destruct (ids_inv_add st cl name (to_uint64 uid) pri true ltac:(lia) I) as [I1 Q1].
  fold st1 in I1, Q1. fold s in Q1.
  set (h := mk_hook_handler cl name (to_uint64 uid) pri s true false).
  assert (hooks st1 ≡ₚ hooks st ++ [h]) as P.
  { subst st1 h s. simpl. rewrite to_int64_small by (destruct I as (_ & _ & ?); lia).
    apply qsort_perm. }
  destruct I as (F0 & N0 & R0). destruct I1 as (F1 & N1 & R1).
  assert (to_uint64 s = s) as Us by (apply to_uint64_small; subst s; lia).
  (* the handlers of the type: only the new one *)
  assert (forall j g, hooks st1 !! j = Some g -> is_type name g = true -> g = h) as Only.
  { intros j g Lj T. apply list_elem_of_lookup_2 in Lj. rewrite P in Lj.
    apply elem_of_app in Lj as [Lj|Lj]; [|by apply list_elem_of_singleton in Lj].
    exfalso. assert (g ∈ of_type name (hooks st)) as X.
    { apply of_type_elem. split; [done|]. by apply is_type_true. }
    rewrite No in X. by apply not_elem_of_nil in X. }
  assert (exists n, hooks st1 !! n = Some h) as [n Ln].
  { apply list_elem_of_lookup_1. rewrite P. apply elem_of_app. right.
    by apply list_elem_of_singleton. }
  assert (forall j g, hooks st1 !! j = Some g -> seq g = s -> j = n) as At.
  { intros j g Lj Q. by apply (NoDup_seq_lookup (hooks st1) j n g h). }
  assert (first_from (is_type name) (hooks st1) 0 = Some (n, h)) as First.
  { apply first_from_intro; [lia|done|by apply is_type_true|].
    intros j g Hj Lj. destruct (is_type name g) eqn:T; [|done].
    rewrite (Only j g Lj T) in Lj. pose proof (At j h Lj eq_refl). lia. }
  (* the start *)
  destruct (run_next_hook_handler st1 name 0) as [r' st2] eqn:E.
  destruct (run_next_cases _ _ _ _ _ E) as [Q2 C].
  destruct C as [(_ & _ & _ & _ & X)|(m & g & e & X & Se & Er & Et & Ed & Ei & Ec & C)];
    rewrite First in X; [done|]. injection X as <- <-.
  simpl in Ed, Ei, Et. rewrite Us in Ed. rewrite Ei, Ed in Ec.
  change (client_api st1) with (client_api st) in Ec. fold ev in Ec, Ed.
  change (client h) with cl in Ec. rewrite Send in Ec. injection Ec as -> Ec.
  destruct C as [(_ & H2 & W2)|(Neg & _)]; [|lia].
  assert (e = mk_sent cl 0 ev r) as ->.
  { destruct e; simpl in *. by subst. }
  assert (mp_hook_start st1 name = Some st2) as Start.
  { unfold mp_hook_start. simpl. rewrite E.
    destruct (Z.ltb_spec r 0); [lia|done]. }
  assert (n < length (hooks st1))%nat as Len by (by apply lookup_lt_Some in Ln).
  (* the acknowledgment *)
  assert (first_from (fun h => (strcmp (client h) cl =? 0) && (to_uint64 (seq h) =? s))
                     (hooks st2) 0 = Some (n, set_active true h)) as Ack.
  { apply first_acknowledged.
    - rewrite H2. by apply list_lookup_insert_eq.
    - split; [done|]. simpl. done.
    - intros j g Lt Lj [_ Q]. rewrite H2, list_lookup_insert_ne in Lj by lia.
      rewrite Forall_forall in F1.
      pose proof (F1 g (list_elem_of_lookup_2 _ _ _ Lj)).
      rewrite to_uint64_small in Q by lia.
      pose proof (At j g Lj Q). lia. }
  set (cleared := <[n := set_active false (set_active true h)]> (hooks st2)).
  assert (forall j g, cleared !! j = Some g -> j <> n -> is_type name g = false) as Rest.
  { intros j g Lj Nj. subst cleared.
    rewrite list_lookup_insert_ne, H2, list_lookup_insert_ne in Lj by lia.
    destruct (is_type name g) eqn:T; [|done].
    rewrite (Only j g Lj T) in Lj. by destruct (Nj (At j h Lj eq_refl)). }
  exists st1, st2, (mp_wakeup_core (with_hooks st2 cleared)).
  split; [done|]. split; [done|]. split; [by rewrite Se|].
  split; [|split; [done|split]].
  - unfold cmd_hook_ack, mp_hook_continue. rewrite Us, Ack. simpl.
    unfold run_next_hook_handler. simpl. fold cleared.
    rewrite first_from_none_intro; [done|].
    intros j g Lt Lj. apply (Rest j g Lj). lia.
  - simpl. by rewrite W2.
  - unfold mp_hook_test_completion. simpl.
    rewrite first_from_none_intro; [done|].
    intros j g _ Lj. destruct (decide (j = n)) as [->|Nj].
    + subst cleared. rewrite list_lookup_insert_eq in Lj.
      * by injection Lj as <-.
      * rewrite H2, length_insert. done.
    + rewrite (Rest j g Lj Nj). apply andb_false_r.
Qed.

End WithClientApi.

Lemma compare_hook_order_witness :
  compare_hook example_early (mk_hook_handler "B" "on_load" 8 10 2 false false) < 0.
Proof.
  apply (compare_hook_order example_early
           (mk_hook_handler "B" "on_load" 8 10 2 false false)).
  - unfold in_range. simpl. lia.
  - unfold in_range. simpl. lia.
  - left. simpl. lia.
Defined.

Lemma compare_hook_seq_truncated_witness : compare_hook example_late example_early < 0.
Proof.
  apply (compare_hook_seq_truncated example_late example_early);
    [reflexivity|simpl; lia|simpl; lia|simpl; lia].
Defined.


Lemma hook_ids_unique_witness :
  exists st,
    @run_ops list_client_api example_initial example_ops = Some st /\
    hook_seq st = 2.
Proof.
  destruct (@run_ops list_client_api example_initial example_ops) as [st|] eqn:E;
    [|vm_compute in E; discriminate E].
  exists st. split; [reflexivity|].
  apply (@hook_ids_unique list_client_api ["A"; "B"] example_ops st E).
  vm_compute. reflexivity.
Defined.

Lemma second_acknowledgment_rejected_witness :
  let st' := snd (@mp_hook_continue list_client_api example_in_progress "A" 1) in
  @mp_hook_continue list_client_api st' "A" 1 = (-4, st').
Proof.
  apply (@second_acknowledgment_rejected list_client_api example_in_progress "A" 1
           0%nat (mk_hook_handler "A" "on_load" 7 0 1 false true)).
  - reflexivity.
  - split; reflexivity.
  - intros j g Lt. lia.
  - reflexivity.
Defined.

Lemma last_acknowledgment_completes_witness :
  exists st',
    @mp_hook_continue list_client_api example_last_in_progress "B" 2 = (0, st') /\
    wakeups st' = 1%nat.
Proof.
  destruct (@last_acknowledgment_completes list_client_api example_last_in_progress
              "B" 2 1%nat (mk_hook_handler "B" "on_load" 8 10 2 false true))
    as (st' & E & _ & _ & W & _).
  - reflexivity.
  - split; reflexivity.
  - intros j g Lt Lj. assert (j = 0%nat) as -> by lia.
    injection Lj as <-. intros [C _]. discriminate C.
  - reflexivity.
  - intros j g Lt Lj. apply lookup_lt_Some in Lj. simpl in Lj. lia.
  - intros ty. unfold active_of. simpl.
    repeat (rewrite filter_cons; destruct (decide _)); simpl; try lia;
      rewrite ?filter_nil; simpl; try lia; done.
  - exists st'. split; [exact E|exact W].
Defined.

Lemma dead_client_skips_later_handlers_witness :
  exists st',
    @mp_hook_test_completion list_client_api example_dead_first "on_load" = (true, st') /\
    sent st' = [] /\ of_type "on_load" (hooks st') <> [].
Proof.
  destruct (@dead_client_skips_later_handlers list_client_api example_dead_first
              "on_load" 0%nat 1%nat
              (mk_hook_handler "A" "on_load" 7 0 1 false true)
              (mk_hook_handler "B" "on_load" 8 10 2 false false))
    as (st' & E & Se & _ & _ & O); try reflexivity.
  - intros j g Lt. lia.
  - lia.
  - exists st'. split; [exact E|]. split; [exact Se|exact O].
Defined.

Lemma hook_add_start_ack_witness :
  exists st1 st2 st3,
    @cmd_hook_add list_client_api example_initial (Some "A") "on_load" 7 0 true =
      (true, st1) /\
    mp_hook_start st1 "on_load" = Some st2 /\
    sent st2 = [mk_sent "A" 0 (MPV_EVENT_CLIENT_MESSAGE 7 1) 0] /\
    @cmd_hook_ack list_client_api st2 (Some "A") 1 true = (true, st3) /\
    wakeups st3 = 1%nat.
Proof.
  destruct (@hook_add_start_ack list_client_api example_initial "A" "on_load" 7 0
              ["A"; "B"] 0)
    as (st1 & st2 & st3 & E1 & E2 & E3 & E4 & _ & E5 & _).
  - repeat split; simpl; [constructor|constructor|lia].
  - simpl. lia.
  - reflexivity.
  - reflexivity.
  - lia.
  - exists st1, st2, st3. repeat split; assumption.
Defined.

End HookCommandFacts.

Module PropertyLayerFacts.
Import CStr CInt Property PropertyFacts.

Section WithPropertyApi.
Context {m_option m_option_value player : Type}.
Context `{PropertyApi m_option m_option_value player}.

Abbreviation M := (M player).
Abbreviation MPContext := (MPContext player).
Abbreviation prop_arg := (prop_arg m_option m_option_value).

(** X19: the property layer notifies only after a successful set-class
    action: when [m_property_do] does not return [M_PROPERTY_OK], or the
    action is not of the set class (it is not set, switch, multiply,
    set-string or set-node, nor a key action around one of these), the
    events of [mp_property_do_silent] are those of [m_property_do] and
    nothing else, and [mp_property_do] adds no change notification either
    (only, with verbose logging, its log line). *)
Theorem no_notification_without_successful_set name action (val : prop_arg)
    (st : MPContext) r val' st0 w0 :
  m_property_do name action val
    (with_silence st (to_int (silence_option_deprecations st + 1))) =
    ((r, val'), st0, w0) ->
  r <> M_PROPERTY_OK \/ ~ set_class action val' ->
  let st' := with_silence st0 (to_int (silence_option_deprecations st0 - 1)) in
  mp_property_do_silent name action val st = Some ((r, val'), st', w0) /\
  exists w,
    mp_property_do name action val st = Some ((r, val'), st', w) /\
    forall n, mp_client_property_change n ∈ w -> mp_client_property_change n ∈ w0.
Proof.
  intros E C st'.
  assert ((r =? M_PROPERTY_OK) && is_property_set action val' = false) as C'.
  { destruct C as [C|C].
    - by rewrite (proj2 (Z.eqb_neq _ _) C).
    - rewrite <- is_property_set_iff in C.
      destruct (is_property_set action val'); [done|]. apply andb_false_r. }
  pose proof (mp_property_do_silent_eq _ _ _ _ _ _ _ _ E) as S.
  rewrite C', app_nil_r in S. fold st' in S. split; [done|].
  unfold mp_property_do. rewrite (bind_eq _ _ _ _ _ _ S).
  unfold mbind, M_bind, bind, get, mret, M_ret, ret, emit. simpl.
  destruct (msgl_v st0 && is_property_set action val'); simpl.
  - eexists. split; [done|]. intros n. rewrite elem_of_app.
    intros [?|X]; [done|]. apply list_elem_of_singleton in X. discriminate X.
  - eexists. split; [done|]. intros n. by rewrite app_nil_r.
Qed.

(** X20: the counter that silences option deprecation warnings is raised
    by one for the call of [m_property_do] and is back at its old value
    afterwards, if the call leaves it as it found it (as it does when it
    comes back here, by this very property). *)
Theorem deprecation_silence_balanced name action (val : prop_arg)
    (st : MPContext) x st0 w0 :
  - 2 ^ 31 <= silence_option_deprecations st < 2 ^ 31 - 1 ->
  let st_in := with_silence st (to_int (silence_option_deprecations st + 1)) in
  m_property_do name action val st_in = (x, st0, w0) ->
  silence_option_deprecations st0 = silence_option_deprecations st_in ->
  silence_option_deprecations st_in = silence_option_deprecations st + 1 /\
  exists st' w,
    mp_property_do_silent name action val st = Some (x, st', w) /\
    silence_option_deprecations st' = silence_option_deprecations st /\
    properties st' = properties st0 /\ msgl_v st' = msgl_v st0 /\
    rest st' = rest st0.
Proof.
  intros R st_in E K. destruct x as [r val'].
  assert (silence_option_deprecations st_in = silence_option_deprecations st + 1) as Q.
  { subst st_in. simpl. apply HookFacts.to_int_small. lia. }
  split; [done|].
  rewrite (mp_property_do_silent_eq _ _ _ _ _ _ _ _ E). eexists _, _.
  split; [done|]. simpl. repeat split.
  rewrite K, Q. rewrite HookFacts.to_int_small by lia. lia.
Qed.

#[local] Arguments mp_property_do : simpl never.
#[local] Arguments show_property_status : simpl never.

(** X21: cycle-values with a property name but no value fails: it reports
    the missing values, sets the command to failed, and does not touch any
    property, in either direction. *)
Theorem cmd_cycle_values_without_values (cmd : mp_cmd_ctx) (reverse : bool)
    (name : string) (st : MPContext) :
  args cmd = cycle_args reverse name [] ->
  (reverse = false -> name <> "!reverse") ->
  cmd_cycle_values cmd st = Some (failed cmd, st, [err_no_value_arguments]).
Proof.
  intros A N. unfold cmd_cycle_values.
  destruct reverse; simpl in A.
  - rewrite (bind_eq _ _ _ "!reverse" st []) by (by apply (arg_s_lookup cmd 0); rewrite A).
    rewrite after_events_nil. simpl.
    rewrite (bind_eq _ _ _ name st []) by (by apply (arg_s_lookup cmd 1); rewrite A).
    rewrite after_events_nil. unfold num_args. rewrite A. simpl. done.
  - rewrite (bind_eq _ _ _ name st []) by (by apply (arg_s_lookup cmd 0); rewrite A).
    rewrite after_events_nil.
    destruct (Z.eqb_spec (strcmp name "!reverse") 0) as [E|_].
    { apply CStrFacts.strcmp_eq in E. by destruct (N eq_refl). }
    rewrite (bind_eq _ _ _ name st []) by (by apply (arg_s_lookup cmd 0); rewrite A).
    rewrite after_events_nil. unfold num_args. rewrite A. simpl. done.
Qed.

End WithPropertyApi.

(** X19, on the example: a key action around a read of "volume". *)
Lemma no_notification_without_successful_set_witness :
  @mp_property_do_silent _ _ _ example_key_api "volume" M_PROPERTY_KEY_ACTION
    (arg_key_action "left" M_PROPERTY_GET arg_null) example_state =
  Some ((1, arg_key_action "left" M_PROPERTY_GET arg_null), example_state, []).
Proof.
  apply (@no_notification_without_successful_set _ _ _ example_key_api "volume"
           M_PROPERTY_KEY_ACTION (arg_key_action "left" M_PROPERTY_GET arg_null)
           example_state 1 (arg_key_action "left" M_PROPERTY_GET arg_null)
           (with_silence example_state 1) []).
  - reflexivity.
  - right. intros X. inversion X as [| | | | |k a g X']. inversion X'.
Defined.

Lemma deprecation_silence_balanced_witness :
  exists st' w,
    @mp_property_do_silent _ _ _ example_api "volume" M_PROPERTY_SET
      (arg_value 2) example_state = Some ((1, arg_value 2), st', w) /\
    silence_option_deprecations st' = 0.
Proof.
  destruct (@deprecation_silence_balanced _ _ _ example_api "volume" M_PROPERTY_SET
              (arg_value 2) example_state (1, arg_value 2)
              {| properties := properties example_state;
                 silence_option_deprecations := 1;
                 msgl_v := false; rest := 2 |} [])
    as (_ & st' & w & E & S & _).
  - simpl. lia.
  - reflexivity.
  - reflexivity.
  - exists st', w. split; [exact E|exact S].
Defined.

Lemma cmd_cycle_values_without_values_witness :
  @cmd_cycle_values _ _ _ example_api (mk_mp_cmd_ctx ["!reverse"; "volume"] true)
    example_state =
  Some (mk_mp_cmd_ctx ["!reverse"; "volume"] false, example_state,
        [err_no_value_arguments]).
Proof.
  apply (@cmd_cycle_values_without_values _ _ _ example_api
           (mk_mp_cmd_ctx ["!reverse"; "volume"] true) true "volume" example_state).
  - reflexivity.
  - discriminate.
Defined.

End PropertyLayerFacts.

Module PipelineFacts.
Import CInt Command CommandFacts Pipeline.

Section WithCommandApi.
Context {mpv_node player : Type}.
Context `{CommandApi mpv_node player}.

Abbreviation mp_cmd_ctx := (mp_cmd_ctx mpv_node).
Abbreviation MPContext := (MPContext mpv_node player).

#[local] Arguments run_command : simpl never.
#[local] Arguments call_handler : simpl never.
#[local] Arguments mp_cmd_ctx_complete : simpl never.
#[local] Arguments cmd_list : simpl never.
#[local] Arguments continue_cmd_list : simpl never.





(** X23: when the expansion of a string argument fails, the handler of the
    command never runs: [run_command] completes the command at once as
    failed (callback with success false, then the context is freed) and
    leaves the player, the thread pool and the counter of asynchronous
    commands as they were. *)
Theorem expansion_failure_completes_failed fuel self (st : MPContext) cmd abort
    oc priv :
  (3 <= fuel)%nat ->
  ctxs st !! next_ptr st = None ->
  abort_allowed cmd abort ->
  returns_at_once st self oc priv ->
  snd (expanded st cmd) = false ->
  exists st',
    run_command fuel self st cmd abort oc priv = Ok st' /\
    trace st' = trace st ++ completion_events (next_ptr st) oc false /\
    rest st' = rest st /\ ctxs st' = ctxs st /\
    thread_pool st' = thread_pool st /\
    outstanding_async st' = outstanding_async st.
Proof.
  intros Hf Fr Ab R E.
  rewrite (run_command_expansion_fails fuel self st cmd abort oc priv) by done.
  eexists. split; [reflexivity|]. simpl. done.
Qed.

Lemma worker_state fuel w (st : MPContext) ctx (c : mp_cmd_ctx) h :
  (3 <= fuel)%nat ->
  ctxs st !! ctx = Some c ->
  handler (fst (Command.cmd c)) = handler_of h ->
  exec_async (fst (Command.cmd c)) = false ->
  returns_at_once st w (on_completion c) (on_completion_priv c) ->
  exists st',
    run_command_on_worker_thread fuel w st ctx = Ok st' /\
    rest st' = fst (fst (handler_body h (args c) (rest st))) /\
    ctxs st' = delete ctx (ctxs st) /\
    outstanding_async st' = to_int (outstanding_async st - 1) /\
    thread_pool st' = thread_pool st /\
    trace st' =
      trace st ++ [ev_handler ctx (name (fst (Command.cmd c)))] ++
      completion_events ctx (on_completion c)
                        (snd (fst (handler_body h (args c) (rest st)))) ++
      (if (to_int (outstanding_async st - 1) =? 0) &&
          mp_is_shutting_down (fst (fst (handler_body h (args c) (rest st))))
       then [ev_wakeup_core] else []).
Proof.
  intros Hf L Hh Ea R. unfold run_command_on_worker_thread.
  rewrite L, Ea, (call_handler_of_any _ _ _ _ c h) by (done || lia).
  destruct (handler_body h (args c) (rest st)) as [[p' ok] res]. simpl.
  erewrite mp_cmd_ctx_complete_at_once; [|lia| |].
  2:{ simpl. apply lookup_insert_eq. }
  2:{ simpl. done. }
  simpl. destruct (_ && _); eexists; (split; [reflexivity|]); simpl;
    rewrite delete_insert_eq, <- ?app_assoc; simpl; rewrite ?app_nil_r; done.
Qed.

(** X24: a command for a worker thread, from submission to completion:
    [run_command] queues the job without running the handler and raises the
    counter of asynchronous commands by one; the worker thread that takes the
    job runs the handler, completes the command once, frees the context and
    lowers the counter again to where it was; the core is woken if the
    counter is at zero and the player is shutting down. *)
Theorem worker_job_balanced fuel self w (st : MPContext) cmd abort oc priv h :
  (3 <= fuel)%nat ->
  ctxs st !! next_ptr st = None ->
  abort_allowed cmd abort ->
  returns_at_once st w oc priv ->
  snd (expanded st cmd) = true ->
  spawn_thread (def cmd) = true ->
  mp_thread_pool_queue (rest st) (thread_pool st) = true ->
  thread_pool st = [] ->
  handler (def cmd) = handler_of h ->
  exec_async (def cmd) = false ->
  - 2 ^ 31 <= outstanding_async st < 2 ^ 31 - 1 ->
  let ctx := next_ptr st in
  let done := handler_body h (fst (expanded st cmd)) (rest st) in
  exists st1 st2,
    run_command fuel self st cmd abort oc priv = Ok st1 /\
    trace st1 = trace st /\ rest st1 = rest st /\
    thread_pool st1 = [ctx] /\
    outstanding_async st1 = outstanding_async st + 1 /\
    worker_thread fuel w st1 = Ok st2 /\
    rest st2 = fst (fst done) /\
    ctxs st2 = ctxs st /\
    thread_pool st2 = [] /\
    outstanding_async st2 = outstanding_async st /\
    trace st2 =
      trace st ++ [ev_handler ctx (name (def cmd))] ++
      completion_events ctx oc (snd (fst done)) ++
      (if (outstanding_async st =? 0) && mp_is_shutting_down (fst (fst done))
       then [ev_wakeup_core] else []).
Proof.
  intros Hf Fr Ab R E Sp Q Pool Hh Ea Rg ctx dn.
  pose proof (run_command_queued fuel self st cmd abort oc priv ltac:(lia) Ab E Sp Q)
    as E1.
  rewrite Pool in E1. simpl in E1.
  rewrite (HookFacts.to_int_small (outstanding_async st + 1)) in E1 by lia.
  set (c := new_ctx cmd abort oc priv (fst (expanded st cmd)) true) in *.
  set (st1 := set_thread_pool _ _) in E1.
  destruct (worker_state fuel w (set_thread_pool st1 []) (next_ptr st) c h)
    as (st2 & E2 & R2 & C2 & O2 & P2 & T2); try done.
  { subst st1. simpl. apply lookup_insert_eq. }
  exists st1, st2. split; [exact E1|].
  subst st1. simpl in *.
  replace (outstanding_async st + 1 - 1) with (outstanding_async st) in * by lia.
  rewrite HookFacts.to_int_small in * by lia.
  rewrite app_nil_r in *. unfold worker_thread. simpl.
  repeat split; try done.
  rewrite C2, delete_insert_eq. by apply delete_id.
Qed.

End WithCommandApi.


Lemma expansion_failure_completes_failed_witness :
  exists st',
    @run_command _ _ example_api 3 0%nat example_state
      (mk_mp_cmd (mk_mp_cmd_def "show" (handler_of "show") false false false false)
                 8 [arg_s "${"])
      None (Some (callback_of "done")) None = Ok st' /\
    trace st' = [ev_on_completion 1%nat (callback_of "done") false; ev_free 1%nat].
Proof.
  destruct (@expansion_failure_completes_failed _ _ example_api 3 0%nat example_state
              (mk_mp_cmd (mk_mp_cmd_def "show" (handler_of "show") false false false false)
                         8 [arg_s "${"])
              None (Some (callback_of "done")) None)
    as (st' & E & T & _).
  - lia.
  - reflexivity.
  - intros X. by destruct X.
  - exact I.
  - reflexivity.
  - exists st'. split; [exact E|exact T].
Defined.

Lemma worker_job_balanced_witness :
  exists st1 st2,
    @run_command _ _ example_api 3 0%nat example_state (example_worker_cmd "w")
      None (Some (callback_of "done")) None = Ok st1 /\
    @worker_thread _ _ example_api 3 5%nat st1 = Ok st2 /\
    outstanding_async st2 = 0 /\ rest st2 = ["w"].
Proof.
  destruct (@worker_job_balanced _ _ example_api 3 0%nat 5%nat example_state
              (example_worker_cmd "w") None (Some (callback_of "done")) None "w")
    as (st1 & st2 & E1 & _ & _ & _ & _ & E2 & R2 & _ & _ & O2 & _).
  - lia.
  - reflexivity.
  - intros _. reflexivity.
  - exact I.
  - reflexivity.
  - reflexivity.
  - reflexivity.
  - reflexivity.
  - reflexivity.
  - reflexivity.
  - simpl. lia.
  - exists st1, st2. repeat split; assumption.
Defined.


End PipelineFacts.

Module RevertSeekFacts.
Import RevertSeek.

Section WithDoubleOps.
Context `{DoubleOps}.

(** [MP_NOPTS_VALUE] is a number (not a NaN): it equals itself. *)
Hypothesis nopts_eq : dbl_eq MP_NOPTS_VALUE MP_NOPTS_VALUE = true.

(** X26: revert-seek with a mark.  "revert-seek mark" at position [p]
    remembers [p] as the mark.  If [p] is a time (not MP_NOPTS_VALUE), the
    next revert-seek seeks exactly to [p], forgets the mark and remembers the
    position [q] it was called at, and a second revert-seek then seeks back
    to [q] (and fails if [q] is MP_NOPTS_VALUE).  A mark taken while the
    current time is MP_NOPTS_VALUE counts as no mark: revert-seek goes to the
    position the last seek remembered, and fails if there is none. *)
Theorem revert_seek_toggles (c : seek_ctx) (p q q' : double) :
  let '(s1, c1, calls1) := cmd_revert_seek true 1 p c true in
  s1 = true /\ calls1 = [] /\
  marked_pts c1 = p /\ last_seek_pts c1 = last_seek_pts c /\
  (dbl_eq p MP_NOPTS_VALUE = false ->
   let '(s2, c2, calls2) := cmd_revert_seek true 0 q c1 true in
   s2 = true /\
   calls2 = [queue_seek MPSEEK_ABSOLUTE p MPSEEK_EXACT MPSEEK_FLAG_DELAY;
             set_osd_function_REW] /\
   (dbl_eq q MP_NOPTS_VALUE = false ->
    let '(s3, c3, calls3) := cmd_revert_seek true 0 q' c2 true in
    s3 = true /\
    calls3 = [queue_seek MPSEEK_ABSOLUTE q MPSEEK_EXACT MPSEEK_FLAG_DELAY;
              set_osd_function_REW] /\
    last_seek_pts c3 = q') /\
   (dbl_eq q MP_NOPTS_VALUE = true ->
    cmd_revert_seek true 0 q' c2 true = (false, c2, []))) /\
  (dbl_eq p MP_NOPTS_VALUE = true ->
   (dbl_eq (last_seek_pts c) MP_NOPTS_VALUE = true ->
    cmd_revert_seek true 0 q c1 true = (false, c1, [])) /\
   (dbl_eq (last_seek_pts c) MP_NOPTS_VALUE = false ->
    exists c2,
      cmd_revert_seek true 0 q c1 true =
      (true, c2,
       [queue_seek MPSEEK_ABSOLUTE (last_seek_pts c) MPSEEK_EXACT MPSEEK_FLAG_DELAY;
        set_osd_function_REW]))).
Proof.
  unfold cmd_revert_seek. simpl.
  split; [done|]. split; [done|]. split; [done|]. split; [done|]. split.
  - intros Np. rewrite Np. simpl. rewrite Np. simpl.
    split; [done|]. split; [done|]. split.
    + intros Nq. rewrite nopts_eq. simpl. by rewrite Nq.
    + intros Nq. rewrite nopts_eq. simpl. by rewrite Nq.
  - intros Np. rewrite Np. simpl. split.
    + intros Nl. by rewrite Nl.
    + intros Nl. rewrite Nl. simpl. by eexists.
Qed.

(** X27: seeks in quick succession count as one.  When a file has started
    and before any seek, revert-seek fails and seeks nowhere.  The first
    seek remembers the position [p1] it starts from.  If [p1] is a time (not
    MP_NOPTS_VALUE), a further seek not more than two seconds later keeps
    that position, and revert-seek then goes back to it, the position before
    the first seek; if [p1] is MP_NOPTS_VALUE, the further seek remembers its
    own position instead. *)
Theorem quick_seeks_revert_to_first (c : seek_ctx) (t1 t2 p1 p2 q : double) :
  dbl_lt (dbl_add t1 dbl_two) t2 = false ->
  let c0 := command_event c MPV_EVENT_START_FILE in
  let c1 := mark_seek c0 t1 p1 in
  let c2 := mark_seek c1 t2 p2 in
  cmd_revert_seek true 0 q c0 true = (false, c0, []) /\
  last_seek_pts c1 = p1 /\
  (dbl_eq p1 MP_NOPTS_VALUE = false ->
   last_seek_pts c2 = p1 /\
   exists c3,
     cmd_revert_seek true 0 q c2 true =
     (true, c3, [queue_seek MPSEEK_ABSOLUTE p1 MPSEEK_EXACT MPSEEK_FLAG_DELAY;
                 set_osd_function_REW])) /\
  (dbl_eq p1 MP_NOPTS_VALUE = true -> last_seek_pts c2 = p2).
Proof.
  intros Lt. unfold cmd_revert_seek, mark_seek, command_event. simpl.
  repeat (rewrite ?nopts_eq, ?Lt, ?orb_true_r; simpl).
  split; [done|]. split; [done|]. split.
  - intros Np. repeat (rewrite ?nopts_eq, ?Np, ?Lt, ?orb_true_r; simpl).
    split; [done|]. by eexists.
  - intros Np. by rewrite Np.
Qed.

End WithDoubleOps.

(** X26, on the example: marked at 5000, reverted from 9000, and back. *)
Lemma revert_seek_toggles_witness :
  exists c3,
    (let '(_, c1, _) := @cmd_revert_seek example_double_ops true 1 5000
                          example_seek_ctx true in
     let '(_, c2, _) := @cmd_revert_seek example_double_ops true 0 9000 c1 true in
     @cmd_revert_seek example_double_ops true 0 5000 c2 true) =
    (true, c3,
     [@queue_seek example_double_ops MPSEEK_ABSOLUTE 9000 MPSEEK_EXACT
                  MPSEEK_FLAG_DELAY;
      set_osd_function_REW]).
Proof.
  pose proof (@revert_seek_toggles example_double_ops eq_refl
                example_seek_ctx 5000 9000 5000) as X.
  destruct (@cmd_revert_seek example_double_ops true 1 5000 _ true) as [[s1 c1] k1].
  destruct X as (_ & _ & _ & _ & X & _). specialize (X eq_refl).
  destruct (@cmd_revert_seek example_double_ops true 0 9000 c1 true) as [[s2 c2] k2].
  destruct X as (_ & _ & X & _). specialize (X eq_refl).
  destruct (@cmd_revert_seek example_double_ops true 0 5000 c2 true) as [[s3 c3] k3].
  destruct X as (-> & -> & _). by exists c3.
Defined.

(** X27, on the example: seeks at 1000 and 2500 from positions 5000 and
    7000. *)
Lemma quick_seeks_revert_to_first_witness :
  @last_seek_pts example_double_ops
    (@mark_seek example_double_ops
       (@mark_seek example_double_ops
          (@command_event example_double_ops example_seek_ctx MPV_EVENT_START_FILE)
          1000 5000) 2500 7000) = 5000.
Proof.
  apply (@quick_seeks_revert_to_first example_double_ops eq_refl
           example_seek_ctx 1000 2500 5000 7000 0); reflexivity.
Defined.

End RevertSeekFacts.

Module ScriptBindingFacts.
Import CStr ScriptBinding NotifyFacts PropertyNamesFacts.

Lemma advance_app k t : advance (k ++ t) (strlen k) = t.
Proof.
  induction k as [|c k IH]; [by destruct t|]. rewrite append_cons. simpl. apply IH.
Qed.

Section WithClients.
Variable MAX_CLIENT_NAME : nat.
Variable clients : Type.
Variable mp_client_send_event_dup :
  clients -> option string -> list string -> clients * Z.

(** X28: a binding name "script/binding" is cut at its first '/': the part
    before it (which has no '/'; it must be shorter than [MAX_CLIENT_NAME])
    is the client the message goes to, the part behind it is the name in the
    message "key-binding", and the two make up the name again; the command
    fails exactly if the client API refuses the message.  A name without '/'
    goes out whole, to no client in particular; without a name nothing is
    sent and the command fails. *)
Theorem script_binding_splits_name (cl : clients) (incmd : mp_cmd_keys)
    (name : string) (success : bool) :
  name <> "" ->
  (forall sep, strchr name "/" = Some sep -> (sep < MAX_CLIENT_NAME)%nat) ->
  exists target binding,
    let event := ["key-binding"; binding; key_state incmd;
                  default "" (key_name incmd)] in
    cmd_script_binding MAX_CLIENT_NAME clients mp_client_send_event_dup
      cl incmd (Some name) success =
    (if snd (mp_client_send_event_dup cl target event) <? 0 then false else success,
     fst (mp_client_send_event_dup cl target event),
     Some (target, event)) /\
    match target with
    | Some t => name = (t ++ String "/" binding)%string /\ strchr t "/" = None
    | None => binding = name /\ strchr name "/" = None
    end /\
    cmd_script_binding MAX_CLIENT_NAME clients mp_client_send_event_dup
      cl incmd None success = (false, cl, None) /\
    cmd_script_binding MAX_CLIENT_NAME clients mp_client_send_event_dup
      cl incmd (Some "") success = (false, cl, None).
Proof.
  intros Ne Len. unfold cmd_script_binding.
  destruct name as [|c name]; [done|].
  destruct (strchr (String c name) "/") as [sep|] eqn:E.
  - specialize (Len sep eq_refl).
    destruct (strchr_split _ _ _ E) as (t & Hp & Hl & Hn).
    exists (Some (first_chars sep (String c name))), t.
    unfold snprintf_prefix. rewrite Nat.min_l by lia.
    assert (advance (String c name) (sep + 1) = t) as ->.
    { rewrite Hp at 1. rewrite <- Hl at 2.
      replace (strlen (first_chars sep (String c name)) + 1)%nat
        with (strlen (first_chars sep (String c name) ++ "/")).
      - change (String "/" t) with ("/" ++ t)%string.
        assert (forall a b d : string, (a ++ (b ++ d) = (a ++ b) ++ d)%string) as Assoc.
        { intros a b d. induction a as [|x a IH]; [done|].
          rewrite !append_cons. by rewrite IH. }
        rewrite Assoc. apply advance_app.
      - rewrite strlen_app. done. }
    split; [|split; [|done]].
    + by destruct (mp_client_send_event_dup _ _ _).
    + done.
  - exists None, (String c name). split; [|split; [|done]].
    + by destruct (mp_client_send_event_dup _ _ _).
    + done.
Qed.

End WithClients.

Lemma script_binding_splits_name_witness :
  exists target binding,
    match target with
    | Some t => "osc/seekbar" = (t ++ String "/" binding)%string /\
                strchr t "/" = None
    | None => binding = "osc/seekbar" /\ strchr "osc/seekbar" "/" = None
    end.
Proof.
  destruct (script_binding_splits_name 64 (list string) example_send_dup
              ["osc"] (mk_mp_cmd_keys false true false false (Some "MBTN_LEFT"))
              "osc/seekbar" true)
    as (target & binding & _ & M & _).
  - discriminate.
  - intros sep S. vm_compute in S. injection S as <-. lia.
  - exists target, binding. exact M.
Defined.

End ScriptBindingFacts.

Module CommandInitFacts.
Import CStr CommandInit.

Section WithPropertyList.
Variable m_property_list_find : list m_property -> string -> option m_property.
Hypothesis find_ok : finds_by_name m_property_list_find.

Lemma add_option_properties_spec opts : forall props,
  NoDup (name <$> props) ->
  Forall (fun co => co_name co <> "") opts ->
  exists props',
    add_option_properties m_property_list_find props opts = Some props' /\
    props `prefix_of` props' /\
    (length props' <= length props + length opts)%nat /\
    NoDup (name <$> props') /\
    (forall co, co ∈ opts -> noprop co = false ->
                exists p, p ∈ props' /\ name p = co_name co) /\
    (forall p, p ∈ props' ->
       p ∈ props \/
       (is_option p = true /\
        exists co, co ∈ opts /\ co_name co = name p /\ noprop co = false)).
Proof.
  induction opts as [|co opts IH]; intros props ND NE; simpl.
  - exists props. split; [done|]. split; [done|]. split; [lia|]. split; [done|].
    split; [intros co X; by apply not_elem_of_nil in X|]. intros p Hp. by left.
  - apply Forall_cons in NE as [Nco NE].
    assert ((strlen (co_name co) =? 0)%nat = false) as ->.
    { apply Nat.eqb_neq. intros E. by destruct (co_name co). }
    destruct (noprop co) eqn:Np.
    + destruct (IH props ND NE) as (props' & E & Pr & Le & ND' & Cov & Or).
      exists props'. split; [done|]. split; [done|]. split; [lia|].
      split; [done|]. split.
      * intros co' I Np'. apply elem_of_cons in I as [->|I]; [congruence|].
        by apply Cov.
      * intros p Hp. destruct (Or p Hp) as [?|(Io & co' & I & Q & Np')]; [by left|].
        right. split; [done|]. exists co'. split; [by apply list_elem_of_further|done].
    + set (prop := if is_alias co then _ else _).
      assert (name prop = co_name co /\ is_option prop = true) as [Nm Io].
      { subst prop. by destruct (is_alias co). }
      rewrite Nm. pose proof (find_ok props (co_name co)) as F.
      destruct (m_property_list_find props (co_name co)) as [q|].
      * destruct F as [Iq Nq].
        destruct (IH props ND NE) as (props' & E & Pr & Le & ND' & Cov & Or).
        exists props'. split; [done|]. split; [done|]. split; [lia|].
        split; [done|]. split.
        -- intros co' I Np'. apply elem_of_cons in I as [->|I]; [|by apply Cov].
           exists q. split; [|done]. destruct Pr as [k ->].
           apply elem_of_app. by left.
        -- intros p Hp. destruct (Or p Hp) as [?|(Io' & co' & I & Q & Np')]; [by left|].
           right. split; [done|]. exists co'.
           split; [by apply list_elem_of_further|done].
      * destruct (IH (props ++ [prop])) as (props' & E & Pr & Le & ND' & Cov & Or).
        { rewrite fmap_app. apply NoDup_app. split; [done|]. split.
          - intros x Hx. simpl. rewrite list_elem_of_singleton. intros ->.
            apply list_elem_of_fmap in Hx as (g & Eg & Hg).
            apply (F g Hg). congruence.
          - simpl. apply NoDup_singleton. }
        { done. }
        exists props'. split; [done|].
        split; [by etrans; [apply prefix_app_r|exact Pr]|].
        rewrite length_app in Le. simpl in Le. split; [lia|]. split; [done|]. split.
        -- intros co' I Np'. apply elem_of_cons in I as [->|I]; [|by apply Cov].
           exists prop. split; [|done]. destruct Pr as [k ->].
           rewrite !elem_of_app, list_elem_of_singleton. auto.
        -- intros p Hp. destruct (Or p Hp) as [I|(Io' & co' & I & Q & Np')].
           ++ apply elem_of_app in I as [?|I]; [by left|].
              apply list_elem_of_singleton in I as ->. right. split; [done|].
              exists co. split; [apply list_elem_of_here|done].
           ++ right. split; [done|]. exists co'.
              split; [by apply list_elem_of_further|done].
Qed.

(** X29: [command_init] builds a property table that begins with
    [mp_properties_base], fits the array allocated for it, and has every name
    once (if the base table has): an option gets an entry of its own, marked
    as option, unless it is flagged [M_OPT_NOPROP] or a property of its name
    is there already, and every option that is not flagged can be found as a
    property. *)
Theorem command_init_table (mp_properties_base : list m_property)
    (opts : list m_config_option) :
  NoDup (name <$> mp_properties_base) ->
  Forall (fun co => co_name co <> "") opts ->
  exists properties,
    command_init m_property_list_find mp_properties_base opts = Some properties /\
    mp_properties_base `prefix_of` properties /\
    (length properties + 1 <= length mp_properties_base + length opts + 1)%nat /\
    NoDup (name <$> properties) /\
    (forall co, co ∈ opts -> noprop co = false ->
                exists p, p ∈ properties /\ name p = co_name co) /\
    (forall p, p ∈ properties ->
       p ∈ mp_properties_base \/
       (is_option p = true /\
        exists co, co ∈ opts /\ co_name co = name p /\ noprop co = false)).
Proof.
  intros ND NE.
  destruct (add_option_properties_spec opts mp_properties_base ND NE)
    as (props' & E & Pr & Le & ND' & Cov & Or).
  exists props'. repeat split; try done. lia.
Qed.

End WithPropertyList.

Lemma example_find_ok : finds_by_name example_find.
Proof.
  intros l n. unfold example_find.
  destruct (List.find _ l) as [p|] eqn:E.
  - apply find_some in E as [I Q]. split; [by apply list_elem_of_In|].
    by apply String.eqb_eq.
  - intros p I Q. apply list_elem_of_In in I.
    pose proof (find_none _ _ E p I) as X. simpl in X.
    rewrite Q, String.eqb_refl in X. done.
Qed.

Lemma command_init_table_witness :
  exists properties,
    command_init example_find example_base example_options = Some properties /\
    NoDup (name <$> properties).
Proof.
  destruct (command_init_table example_find example_find_ok example_base
              example_options)
    as (properties & E & _ & _ & ND & _).
  - apply (bool_decide_unpack _). vm_compute. exact I.
  - repeat (constructor; [discriminate|]). constructor.
  - exists properties. split; [exact E|exact ND].
Defined.

End CommandInitFacts.

Module PlaylistClearFacts.
Import PlaylistClear.

Section WithPlaylist.
Variable playlist_remove : playlist -> nat -> playlist.
Hypothesis remove_ok : removes_entry playlist_remove.

Lemma filter_ne_notin (l : list nat) e : e ∉ l -> filter (fun x => x <> e) l = l.
Proof.
  intros N. induction l as [|x l IH]; [done|].
  apply not_elem_of_cons in N as [Nx Nl].
  rewrite filter_cons_True by done. by rewrite IH.
Qed.

Lemma clear_loop_spec fuel : forall pl,
  (length (entries pl) < fuel)%nat -> NoDup (entries pl) ->
  exists pl',
    clear_loop playlist_remove fuel pl = Some pl' /\
    current pl' = current pl /\
    entries pl' = match current pl with
                  | Some c => if decide (c ∈ entries pl) then [c] else []
                  | None => []
                  end.
Proof.
  induction fuel as [|fuel IH]; intros pl Lt ND; [lia|]. simpl.
  destruct (entries pl) as [|e rest] eqn:E.
  - exists pl. split; [done|]. split; [done|]. rewrite E.
    destruct (current pl) as [c|]; [|done].
    rewrite decide_False; [done|]. apply not_elem_of_nil.
  - apply NoDup_cons in ND as [Ne ND]. simpl in Lt.
    destruct (decide (Some e = current pl)) as [C|C].
    + destruct rest as [|e' rest'].
      * exists pl. split; [done|]. split; [done|]. rewrite E, <- C.
        rewrite decide_True; [done|]. apply list_elem_of_here.
      * apply NoDup_cons in ND as [Ne' ND'].
        assert (e <> e') as Nee by (intros ->; apply Ne, list_elem_of_here).
        destruct (remove_ok pl e') as [Re Rc].
        { rewrite E. apply list_elem_of_further, list_elem_of_here. }
        { rewrite <- C. congruence. }
        rewrite E in Re. rewrite filter_cons_True in Re by done.
        rewrite filter_cons_False in Re by (intros X; by apply X).
        rewrite filter_ne_notin in Re by done.
        destruct (IH (playlist_remove pl e')) as (pl' & L & Cu & En).
        { rewrite Re. simpl in *. lia. }
        { rewrite Re. apply NoDup_cons. split; [|done].
          intros I. apply Ne. by apply list_elem_of_further. }
        exists pl'. split; [done|]. split; [congruence|].
        rewrite En, Rc, Re, <- C.
        rewrite !decide_True by apply list_elem_of_here. done.
    + destruct (remove_ok pl e) as [Re Rc].
      { rewrite E. apply list_elem_of_here. }
      { congruence. }
      rewrite E in Re. rewrite filter_cons_False in Re by (intros X; by apply X).
      rewrite filter_ne_notin in Re by done.
      destruct (IH (playlist_remove pl e)) as (pl' & L & Cu & En).
      { rewrite Re. lia. }
      { by rewrite Re. }
      exists pl'. split; [done|]. split; [congruence|].
      rewrite En, Rc, Re. destruct (current pl) as [c|]; [|done].
      destruct (decide (c ∈ rest)) as [I|I].
      * rewrite decide_True; [done|]. by apply list_elem_of_further.
      * rewrite decide_False; [done|]. intros X.
        apply elem_of_cons in X as [->|X]; [by destruct C|done].
Qed.

(** X30: playlist-clear ends and removes every entry of the playlist but
    the current one: afterwards the playlist holds just the current entry, or
    nothing if there is no current entry or it was replaced; the change of
    the playlist is notified and the core woken. *)
Theorem cmd_playlist_clear_keeps_current (pl : playlist) :
  NoDup (entries pl) ->
  exists pl',
    cmd_playlist_clear playlist_remove pl =
      Some (pl', [mp_notify_MP_EVENT_CHANGE_PLAYLIST; mp_wakeup_core]) /\
    entries pl' =
      match current pl with
      | Some c =>
          if current_was_replaced pl then []
          else if decide (c ∈ entries pl) then [c] else []
      | None => []
      end.
Proof.
  intros ND. unfold cmd_playlist_clear.
  destruct (current_was_replaced pl) eqn:R.
  - destruct (clear_loop_spec (S (length (entries pl)))
                (mk_playlist (entries pl) None true)) as (pl' & L & _ & En);
      [simpl; lia|done|].
    simpl in *. rewrite L. exists pl'. split; [done|].
    rewrite En. by destruct (current pl).
  - destruct (clear_loop_spec (S (length (entries pl))) pl) as (pl' & L & _ & En);
      [lia|done|].
    rewrite L. exists pl'. split; [done|]. rewrite En.
    by destruct (current pl).
Qed.

End WithPlaylist.

Lemma example_playlist_remove_ok : removes_entry example_playlist_remove.
Proof.
  intros pl e I N. unfold example_playlist_remove. simpl. split; [done|].
  by rewrite decide_False.
Qed.

Lemma cmd_playlist_clear_keeps_current_witness :
  exists pl',
    cmd_playlist_clear example_playlist_remove
      (mk_playlist [10; 20; 30]%nat (Some 20%nat) false) =
      Some (pl', [mp_notify_MP_EVENT_CHANGE_PLAYLIST; mp_wakeup_core]) /\
    entries pl' = [20%nat].
Proof.
  destruct (cmd_playlist_clear_keeps_current example_playlist_remove
              example_playlist_remove_ok
              (mk_playlist [10; 20; 30]%nat (Some 20%nat) false))
    as (pl' & E & En).
  - apply (bool_decide_unpack _). vm_compute. exact I.
  - exists pl'. split; [exact E|]. rewrite En. reflexivity.
Defined.

End PlaylistClearFacts.

Module CompletionFacts.
Import CInt Command Completion CommandFacts.

Section WithCommandApi.
Context {mpv_node player : Type}.
Context `{CommandApi mpv_node player}.

Abbreviation mp_cmd_ctx := (mp_cmd_ctx mpv_node).
Abbreviation MPContext := (MPContext mpv_node player).

#[local] Arguments run_command : simpl never.
#[local] Arguments call_handler : simpl never.
#[local] Arguments cmd_list : simpl never.
#[local] Arguments continue_cmd_list : simpl never.
#[local] Arguments on_cmd_list_sub_completion : simpl never.
#[local] Arguments mp_cmd_ctx_complete : simpl never.

(** *** Commands and their weights *)

Lemma wf_cmd_list fl subs :
  wf_cmd (mk_mp_cmd mp_cmd_list fl [arg_p subs]) <-> Forall wf_cmd subs.
Proof.
  simpl. split.
  - intros [_ W]. induction subs as [|s subs IH]; [constructor|].
    destruct W as [W1 W2]. constructor; [done|by apply IH].
  - intros W. split; [done|]. induction W as [|s subs W1 _ IH]; [done|]. by split.
Qed.

Lemma wf_cmd_cases c :
  wf_cmd c ->
  (exists fl subs, c = mk_mp_cmd mp_cmd_list fl [arg_p subs] /\ Forall wf_cmd subs) \/
  ((exists h, handler (def c) = handler_of h) /\ exec_async (def c) = false).
Proof.
  destruct c as [d fl a]. intros W. pose proof W as W'. simpl in W.
  destruct (handler d) as [|h] eqn:Hh.
  - destruct W as [-> Wa]. left.
    destruct a as [|[s|subs|v] [|? ?]]; try done.
    exists fl, subs. split; [done|]. by apply (wf_cmd_list fl).
  - right. simpl. rewrite Hh. split; [by exists h|done].
Qed.

Section Weights.
Variables w_free w_cb : nat.

Lemma cmd_weight_list cb fl subs a :
  cmd_weight w_free w_cb cb (mk_mp_cmd mp_cmd_list fl (arg_p subs :: a)) =
  (w_free + (if cb then w_cb else 0) + subs_weight w_free w_cb subs)%nat.
Proof.
  simpl. f_equal. induction subs as [|s subs IH]; simpl; [done|]. by rewrite IH.
Qed.

Lemma cmd_weight_plain cb c h :
  handler (def c) = handler_of h ->
  cmd_weight w_free w_cb cb c = (w_free + (if cb then w_cb else 0))%nat.
Proof. destruct c as [d fl a]. simpl. intros ->. lia. Qed.

Lemma trace_weight_app t1 t2 :
  trace_weight w_free w_cb (t1 ++ t2) =
  (trace_weight w_free w_cb t1 + trace_weight w_free w_cb t2)%nat.
Proof. induction t1 as [|e t1 IH]; simpl; [done|]. rewrite IH. lia. Qed.

Lemma trace_weight_completion ctx oc ok :
  trace_weight w_free w_cb (completion_events ctx oc ok) =
  (w_free + (if oc is Some _ then w_cb else 0))%nat.
Proof. destruct oc; simpl; lia. Qed.

(** the weight of the contexts, one by one *)
Lemma pot_alloc (st st' : MPContext) x c :
  ctxs st !! x = None -> ctxs st' = <[x := c]> (ctxs st) ->
  pot w_free w_cb st' = (ctx_weight w_free w_cb c + pot w_free w_cb st)%nat.
Proof.
  intros N E. unfold pot. rewrite E, map_fold_insert_L; [done| |done].
  intros. lia.
Qed.

Lemma pot_free (st st' : MPContext) x c :
  ctxs st !! x = Some c -> ctxs st' = delete x (ctxs st) ->
  pot w_free w_cb st = (ctx_weight w_free w_cb c + pot w_free w_cb st')%nat.
Proof.
  intros L E. unfold pot. rewrite E, (map_fold_delete_L _ _ x c (ctxs st)); [done| |done].
  intros. lia.
Qed.

Lemma pot_update (st st' : MPContext) x c c' :
  ctxs st !! x = Some c -> ctxs st' = <[x := c']> (ctxs st) ->
  (pot w_free w_cb st' + ctx_weight w_free w_cb c =
   pot w_free w_cb st + ctx_weight w_free w_cb c')%nat.
Proof.
  intros L E. unfold pot. rewrite E.
  rewrite <- (insert_delete_eq (ctxs st) x c').
  rewrite map_fold_insert_L; [| |apply lookup_delete_eq].
  2:{ intros. lia. }
  rewrite (map_fold_delete_L _ _ x c (ctxs st)); [lia| |done].
  intros. lia.
Qed.

Lemma pot_same (st st' : MPContext) :
  ctxs st' = ctxs st -> pot w_free w_cb st' = pot w_free w_cb st.
Proof. intros E. unfold pot. by rewrite E. Qed.

End Weights.

(** *** Counting in traces *)

Lemma times_freed_app ctx (t1 t2 : list event) :
  times_freed ctx (t1 ++ t2) = (times_freed ctx t1 + times_freed ctx t2)%nat.
Proof.
  induction t1 as [|e t1 IH]; simpl; [done|]. destruct e; simpl; rewrite IH; lia.
Qed.

Lemma freed_after_app t1 t2 :
  freed_after t1 -> freed_after t2 -> freed_after (t1 ++ t2).
Proof.
  induction t1 as [|e t1 IH]; simpl; [done|]. intros [He H1] H2.
  split; [|by apply IH].
  destruct e as [| x [|f] ok | |]; try done.
  - apply elem_of_app. by left.
  - destruct t1; [done|]. done.
Qed.

Lemma silent_nil : silent [].
Proof. by intros x. Qed.

Lemma silent_app t1 t2 : silent t1 -> silent t2 -> silent (t1 ++ t2).
Proof.
  intros S1 S2 x. rewrite times_freed_app, times_completed_app.
  destruct (S1 x), (S2 x). lia.
Qed.

Lemma silent_handler ctx n : silent [ev_handler ctx n].
Proof. by intros x. Qed.

Lemma silent_wakeup : silent [ev_wakeup_core].
Proof. by intros x. Qed.

Lemma times_freed_completion x ctx oc ok :
  times_freed x (completion_events ctx oc ok) = if Nat.eqb ctx x then 1%nat else 0%nat.
Proof. destruct oc; simpl; lia. Qed.

Lemma times_completed_completion_at x ctx oc ok :
  times_completed x (completion_events ctx oc ok) =
  if Nat.eqb ctx x then (if oc is Some _ then 1%nat else 0%nat) else 0%nat.
Proof. destruct oc; simpl; destruct (Nat.eqb ctx x); lia. Qed.

Lemma freed_after_completion ctx oc ok :
  freed_after (completion_events ctx oc ok).
Proof.
  destruct oc as [[|f]|]; simpl; repeat split; try done. apply list_elem_of_here.
Qed.


(** *** What a call does to the contexts *)

Lemma fresh_lt (st : MPContext) x c :
  fresh_from st -> ctxs st !! x = Some c -> (x < next_ptr st)%nat.
Proof.
  intros Fr L. destruct (Nat.lt_ge_cases x (next_ptr st)) as [|Ge]; [done|].
  destruct (Fr x Ge) as [N _]. congruence.
Qed.

Lemma fresh_lt_list (st : MPContext) x l :
  fresh_from st -> lists st !! x = Some l -> (x < next_ptr st)%nat.
Proof.
  intros Fr L. destruct (Nat.lt_ge_cases x (next_ptr st)) as [|Ge]; [done|].
  destruct (Fr x Ge) as [_ N]. congruence.
Qed.

(** a call that frees nothing *)
Lemma step_quiet (st st' : MPContext) new :
  fresh_from st ->
  (next_ptr st <= next_ptr st')%nat ->
  (forall x : ptr, (next_ptr st' <= x)%nat -> ctxs st' !! x = None) ->
  trace st' = trace st ++ new ->
  silent new -> freed_after new ->
  (forall (x : ptr) c, ctxs st !! x = Some c ->
               exists c', ctxs st' !! x = Some c' /\ on_completion c' = on_completion c) ->
  (forall x : ptr, (x < next_ptr st)%nat -> ctxs st !! x = None -> ctxs st' !! x = None) ->
  step st st' new.
Proof.
  intros Fr Hn Hb Ht Hs Hc Hk Hd. split.
  - done.
  - done.
  - intros x c. by apply fresh_lt.
  - intros x Hx. split; [by apply Hb|apply Hs].
  - intros x. destruct (Hs x) as [-> ->]. lia.
  - intros x c _. apply Hs.
  - intros x Hx N. split; [by apply Hd|apply Hs].
  - intros x c L N. destruct (Hk x c L) as (c' & L' & _). congruence.
  - intros x c c' L L'. destruct (Hk x c L) as (c'' & L'' & E). congruence.
  - done.
Qed.

(** the command submitted in [st] ran to its completion *)
Lemma step_root_done (st st' : MPContext) pre oc ok :
  fresh_from st -> ctxs st' = ctxs st -> next_ptr st' = S (next_ptr st) ->
  trace st' = trace st ++ pre ++ completion_events (next_ptr st) oc ok ->
  silent pre -> freed_after pre ->
  step st st' (pre ++ completion_events (next_ptr st) oc ok).
Proof.
  intros Fr Hc Hn Ht Hs Hf.
  assert (forall x : ptr, times_freed x (pre ++ completion_events (next_ptr st) oc ok) =
                    (if Nat.eqb (next_ptr st) x then 1 else 0)%nat) as Fx.
  { intros x. rewrite times_freed_app, times_freed_completion.
    destruct (Hs x) as [-> _]. done. }
  assert (forall x : ptr, times_completed x (pre ++ completion_events (next_ptr st) oc ok) =
                    (if Nat.eqb (next_ptr st) x
                     then (if oc is Some _ then 1 else 0) else 0)%nat) as Cx.
  { intros x. rewrite times_completed_app, times_completed_completion_at.
    destruct (Hs x) as [_ ->]. done. }
  split.
  - done.
  - lia.
  - intros x c. by apply fresh_lt.
  - intros x Hx. rewrite Fx, Cx, Hc.
    destruct (Nat.eqb_spec (next_ptr st) x); [lia|].
    split; [|done]. apply Fr. lia.
  - intros x. rewrite Fx, Cx. destruct (Nat.eqb (next_ptr st) x), oc; lia.
  - intros x c L. rewrite Hc in L. pose proof (fresh_lt _ _ _ Fr L).
    rewrite Fx, Cx. destruct (Nat.eqb_spec (next_ptr st) x); [lia|done].
  - intros x Hx N. rewrite Fx, Cx, Hc.
    destruct (Nat.eqb_spec (next_ptr st) x); [lia|done].
  - intros x c L N. congruence.
  - intros x c c' L L'. congruence.
  - apply freed_after_app; [done|apply freed_after_completion].
Qed.

(** a context that is there is completed, and its callback returns at once *)
Lemma step_complete_at_once (st st' : MPContext) p c ok :
  fresh_from st -> ctxs st !! p = Some c ->
  ctxs st' = delete p (ctxs st) -> next_ptr st' = next_ptr st ->
  trace st' = trace st ++ completion_events p (on_completion c) ok ->
  step st st' (completion_events p (on_completion c) ok).
Proof.
  intros Fr L Hc Hn Ht. pose proof (fresh_lt _ _ _ Fr L) as Hp.
  split.
  - done.
  - lia.
  - intros x c'. by apply fresh_lt.
  - intros x Hx. rewrite times_freed_completion, times_completed_completion_at, Hc.
    destruct (Nat.eqb_spec p x); [lia|]. split; [|done].
    rewrite lookup_delete_ne by done. apply Fr. lia.
  - intros x. rewrite times_freed_completion, times_completed_completion_at.
    destruct (Nat.eqb p x), (on_completion c); lia.
  - intros x c' L'. rewrite Hc in L'. apply lookup_delete_Some in L' as [Ne _].
    rewrite times_freed_completion, times_completed_completion_at.
    destruct (Nat.eqb_spec p x); [done|done].
  - intros x Hx N. rewrite times_freed_completion, times_completed_completion_at, Hc.
    destruct (Nat.eqb_spec p x) as [->|Ne]; [congruence|].
    split; [|done]. by rewrite lookup_delete_ne.
  - intros x c' L' N. rewrite Hc in N. apply lookup_delete_None in N as [<-|N]; [|congruence].
    rewrite L in L'. injection L' as <-.
    rewrite times_freed_completion, times_completed_completion_at, Nat.eqb_refl. done.
  - intros x c1 c2 L1 L2. rewrite Hc in L2. apply lookup_delete_Some in L2 as [_ L2].
    congruence.
  - apply freed_after_completion.
Qed.

(** a context that is there is completed, and its callback goes on with
    the list *)
Lemma step_wrap (st s1 s2 st' : MPContext) p c c1 c2 ok new2 :
  fresh_from st -> ctxs st !! p = Some c ->
  on_completion c = Some callback_on_cmd_list_sub_completion ->
  ctxs s1 = <[p := c1]> (ctxs st) -> on_completion c1 = on_completion c ->
  next_ptr s1 = next_ptr st ->
  trace s1 = trace st ++ [ev_on_completion p callback_on_cmd_list_sub_completion ok] ->
  step s1 s2 new2 -> ctxs s2 !! p = Some c2 ->
  ctxs st' = delete p (ctxs s2) -> next_ptr st' = next_ptr s2 ->
  trace st' = trace s2 ++ [ev_free p] ->
  step st st'
    ([ev_on_completion p callback_on_cmd_list_sub_completion ok] ++ new2 ++ [ev_free p]).
Proof.
  intros Fr L Hoc H1 Hoc1 Hn1 Ht1 S12 L2 Hc' Hn' Ht'.
  pose proof (fresh_lt _ _ _ Fr L) as Hp.
  destruct S12 as [T N Lt B O Li D G K C].
  assert (forall x : ptr, times_freed x ([ev_on_completion p callback_on_cmd_list_sub_completion ok]
                                   ++ new2 ++ [ev_free p]) =
                    (times_freed x new2 + if Nat.eqb p x then 1 else 0)%nat) as Fx.
  { intros x. rewrite !times_freed_app. simpl. lia. }
  assert (forall x : ptr, times_completed x ([ev_on_completion p callback_on_cmd_list_sub_completion ok]
                                       ++ new2 ++ [ev_free p]) =
                    ((if Nat.eqb p x then 1 else 0) + times_completed x new2)%nat) as Cx.
  { intros x. rewrite !times_completed_app. simpl. lia. }
  destruct (Li p c2 L2) as [Fp Cp].
  split.
  - rewrite Ht', T, Ht1, <- !app_assoc. done.
  - lia.
  - intros x c'. by apply fresh_lt.
  - intros x Hx. rewrite Hn' in Hx. destruct (B x Hx) as (B1 & B2 & B3).
    rewrite Fx, Cx, B2, B3, Hc'. destruct (Nat.eqb_spec p x); [lia|].
    split; [|done]. by rewrite lookup_delete_ne.
  - intros x. rewrite Fx, Cx. destruct (Nat.eqb_spec p x) as [<-|Ne].
    + rewrite Fp, Cp. lia.
    + destruct (O x). lia.
  - intros x c' L'. rewrite Hc' in L'. apply lookup_delete_Some in L' as [Ne L'].
    destruct (Li x c' L') as [F1 C1]. rewrite Fx, Cx, F1, C1.
    destruct (Nat.eqb_spec p x); [done|done].
  - intros x Hx Nx. assert (p <> x) as Ne by congruence.
    destruct (D x) as (D1 & D2 & D3).
    { lia. }
    { rewrite H1. by rewrite lookup_insert_ne. }
    rewrite Fx, Cx, D2, D3, Hc'. destruct (Nat.eqb_spec p x); [done|].
    split; [|done]. by rewrite lookup_delete_ne.
  - intros x c' L' N'. rewrite Fx, Cx. destruct (Nat.eqb_spec p x) as [<-|Ne].
    + rewrite Fp, Cp. rewrite L in L'. injection L' as <-. by rewrite Hoc.
    + rewrite Hc', lookup_delete_ne in N' by done.
      destruct (G x c') as [G1 G2]; [by rewrite H1, lookup_insert_ne|done|].
      rewrite G1, G2. lia.
  - intros x c' c'' L' L''. rewrite Hc' in L''.
    apply lookup_delete_Some in L'' as [Ne L''].
    apply (K x c' c''); [by rewrite H1, lookup_insert_ne|done].
  - simpl. split.
    + apply elem_of_app. right. apply list_elem_of_here.
    + apply freed_after_app; [done|]. simpl. done.
Qed.

Lemma step_trans (st st1 st2 : MPContext) n1 n2 :
  step st st1 n1 -> step st1 st2 n2 -> step st st2 (n1 ++ n2).
Proof.
  intros [T1 N1 Lt1 B1 O1 Li1 D1 G1 K1 C1] [T2 N2 Lt2 B2 O2 Li2 D2 G2 K2 C2].
  assert (forall x : ptr, (times_freed x n1 = 0 /\ times_completed x n1 = 0)%nat \/
                    (ctxs st1 !! x = None /\ (x < next_ptr st1)%nat)) as Mid.
  { intros x. destruct (ctxs st1 !! x) as [c|] eqn:L1; [left; by apply (Li1 x c)|].
    destruct (Nat.lt_ge_cases x (next_ptr st1)) as [Hx|Hx]; [by right|].
    left. by apply B1. }
  split.
  - by rewrite T2, T1, app_assoc.
  - lia.
  - done.
  - intros x Hx. destruct (B2 x Hx) as (B21 & B22 & B23).
    destruct (B1 x ltac:(lia)) as (_ & B12 & B13).
    rewrite times_freed_app, times_completed_app. split; [done|lia].
  - intros x. rewrite times_freed_app, times_completed_app.
    destruct (O1 x), (O2 x). destruct (Mid x) as [[? ?]|[M1 M2]]; [lia|].
    destruct (D2 x M2 M1) as (_ & ? & ?). lia.
  - intros x c L2. rewrite times_freed_app, times_completed_app.
    destruct (Li2 x c L2) as [-> ->].
    destruct (Mid x) as [[-> ->]|[M1 M2]]; [done|].
    destruct (D2 x M2 M1) as (N & _). congruence.
  - intros x Hx N. destruct (D1 x Hx N) as (Da & Db & Dc).
    destruct (D2 x ltac:(lia) Da) as (Dd & De & Df).
    rewrite times_freed_app, times_completed_app. split; [done|lia].
  - intros x c L N. rewrite times_freed_app, times_completed_app.
    destruct (ctxs st1 !! x) as [c1|] eqn:L1.
    + destruct (Li1 x c1 L1) as [-> ->]. destruct (G2 x c1 L1 N) as [-> ->].
      by rewrite (K1 x c c1 L L1).
    + destruct (G1 x c L L1) as [-> ->].
      destruct (D2 x) as (_ & -> & ->); [|done|lia].
      pose proof (Lt1 x c L). lia.
  - intros x c c2 L L2. destruct (ctxs st1 !! x) as [c1|] eqn:L1.
    + rewrite (K2 x c1 c2 L1 L2). by apply (K1 x c c1).
    + destruct (D2 x) as (N & _); [|done|congruence].
      pose proof (Lt1 x c L). lia.
  - by apply freed_after_app.
Qed.


(** *** The invariant, move by move *)

Lemma reports_ext (st st' : MPContext) r q :
  ctxs st' !! r = ctxs st !! r -> reports st' r q -> reports st r q.
Proof. intros E (c & L & ?). exists c. by rewrite <- E. Qed.

(** the flags of lists that are going on change *)
Lemma inv_flags E (st st' : MPContext) :
  Inv E st ->
  ctxs st' = ctxs st -> thread_pool st' = thread_pool st ->
  (next_ptr st <= next_ptr st')%nat ->
  (forall x : ptr,
     lists st' !! x = lists st !! x \/
     (x ∈ E /\ exists l l', lists st !! x = Some l /\ lists st' !! x = Some l' /\
                           parent l' = parent l)) ->
  Inv E st'.
Proof.
  intros [Fr He Ap Sh Cb Rp R1 Pa Po Wa Ba] Hc Hp Hn Hl.
  assert (forall x : ptr, is_Some (lists st' !! x) <-> is_Some (lists st !! x)) as Dom.
  { intros x. destruct (Hl x) as [->|(_ & l & l' & -> & -> & _)]; [done|].
    split; by eexists. }
  assert (forall r q : ptr, reports st' r q <-> reports st r q) as Rep.
  { intros r q. unfold reports. by rewrite Hc. }
  split.
  - intros i Hi. destruct (Fr i ltac:(lia)) as [F1 F2]. rewrite Hc. split; [done|].
    destruct (lists st' !! i) eqn:L; [|done].
    assert (is_Some (lists st !! i)) as [? X] by (apply Dom; by eexists). congruence.
  - intros e Hin. specialize (He e Hin). lia.
  - intros p c L. rewrite Hc in L. specialize (Ap p c L).
    destruct (lists st' !! p) eqn:L'; [|done].
    assert (is_Some (lists st !! p)) as [? X] by (apply Dom; by eexists). congruence.
  - intros p c L. rewrite Hc in L. by apply (Sh p c).
  - intros p c L. rewrite Hc in L. by apply (Cb p c).
  - intros r q Hr Hrep. apply Dom. apply (Rp r q Hr). by apply Rep.
  - intros r r' q Hr Hr' H1 H2. apply (R1 r r' q); try done; by apply Rep.
  - intros q l L. destruct (Hl q) as [Eq|(Hq & l0 & l' & L0 & L' & Ep)].
    + rewrite Eq in L. destruct (Pa q l L) as [P1 P2]. split; [done|].
      intros Hq. rewrite Hc. by apply P2.
    + rewrite L' in L. injection L as <-. destruct (Pa q l0 L0) as [P1 _].
      rewrite Ep. split; [done|]. intros N. by destruct N.
  - rewrite Hp, Hc. done.
  - intros q l L Hq. destruct (Hl q) as [Eq|(Hq' & _)]; [|done].
    rewrite Eq in L. destruct (Wa q l L Hq) as (W1 & r & W2).
    split; [done|]. exists r. by apply Rep.
  - intros p c L Hq. rewrite Hc in L. rewrite Hp.
    destruct (Ba p c L Hq) as [B|[B1 B2]]; [by left|right].
    split; [|done]. by apply Dom.
Qed.

Lemma inv_ext E (st st' : MPContext) :
  Inv E st ->
  ctxs st' = ctxs st -> lists st' = lists st -> thread_pool st' = thread_pool st ->
  (next_ptr st <= next_ptr st')%nat ->
  Inv E st'.
Proof.
  intros I Hc Hl Hp Hn. apply (inv_flags E st st'); try done.
  intros x. left. by rewrite Hl.
Qed.

Lemma reports_insert_ne (st st' : MPContext) (x r q : ptr) c :
  ctxs st' = <[x := c]> (ctxs st) -> r <> x ->
  reports st' r q <-> reports st r q.
Proof. intros E N. unfold reports. rewrite E, lookup_insert_ne by done. done. Qed.

Lemma reports_insert_eq (st st' : MPContext) (x q : ptr) c :
  ctxs st' = <[x := c]> (ctxs st) ->
  reports st' x q <->
  on_completion c = Some callback_on_cmd_list_sub_completion /\
  on_completion_priv c = Some q.
Proof.
  intros E. unfold reports. rewrite E, lookup_insert_eq. split.
  - by intros (c' & [= <-] & ?).
  - intros ?. by exists c.
Qed.

Lemma callback_ready_at_once E (st : MPContext) self oc priv :
  callback_ready E st self oc priv -> returns_at_once st self oc priv.
Proof.
  unfold callback_ready, returns_at_once. destruct oc as [[|f]|]; try done.
  intros (q & l & -> & L & Cv & Cs & _). by exists q, l.
Qed.

Lemma lists_after_lookup E (st : MPContext) self oc priv (x : ptr) :
  callback_ready E st self oc priv ->
  lists_after st oc priv !! x = lists st !! x \/
  (x ∈ E /\ exists l l', lists st !! x = Some l /\
                        lists_after st oc priv !! x = Some l' /\
                        parent l' = parent l).
Proof.
  unfold callback_ready, lists_after. destruct oc as [[|f]|]; try (by left).
  intros (q & l & -> & L & Cv & Cs & Hq & _). rewrite L.
  destruct (decide (x = q)) as [->|Ne].
  - right. split; [done|]. eexists _, _. split; [done|].
    split; [apply lookup_insert_eq|done].
  - left. by rewrite lookup_insert_ne.
Qed.

(** a command goes to the pool *)
Lemma inv_queued E (st st' : MPContext) self c :
  Inv E st -> plain c ->
  callback_ready E st self (on_completion c) (on_completion_priv c) ->
  ctxs st' = <[next_ptr st := c]> (ctxs st) -> lists st' = lists st ->
  thread_pool st' = thread_pool st ++ [next_ptr st] ->
  next_ptr st' = S (next_ptr st) ->
  Inv E st'.
Proof.
  intros [Fr He Ap Sh Cb Rp R1 Pa Po Wa Ba] Pl Cr Hc Hl Hp Hn.
  assert (forall (p : ptr) c', ctxs st !! p = Some c' -> p <> next_ptr st) as Old.
  { intros p c' L ->. pose proof (fresh_lt st _ _ Fr L). lia. }
  assert (forall (p : ptr) c', ctxs st !! p = Some c' -> ctxs st' !! p = Some c') as Keep.
  { intros p c' L. rewrite Hc, lookup_insert_ne; [done|]. intros <-. by eapply Old. }
  assert (forall r q : ptr, reports st r q -> r <> next_ptr st) as OldR.
  { intros r q (c' & L & _). by eapply Old. }
  assert (next_ptr st ∉ E) as NE.
  { intros X. specialize (He _ X). lia. }
  split.
  - intros i Hi. rewrite Hn in Hi. destruct (Fr i ltac:(lia)) as [F1 F2].
    rewrite Hc, Hl, lookup_insert_ne by lia. done.
  - intros e Hin. specialize (He e Hin). lia.
  - intros p c' L. rewrite Hl. rewrite Hc in L.
    apply lookup_insert_Some in L as [[<- <-]|[Ne L]].
    + by destruct (Fr (next_ptr st) ltac:(lia)).
    + by apply (Ap p c').
  - intros p c' L. rewrite Hc in L.
    apply lookup_insert_Some in L as [[<- <-]|[Ne L]]; [by right|by apply (Sh p c')].
  - intros p c' L Hoc. rewrite Hc in L.
    apply lookup_insert_Some in L as [[<- <-]|[Ne L]]; [|by apply (Cb p c')].
    unfold callback_ready in Cr. rewrite Hoc in Cr.
    destruct Cr as (q & l & Hq & Lq & _). exists q. split; [done|].
    by apply (fresh_lt_list st q l).
  - intros r q Hr Hrep. rewrite Hl.
    destruct (decide (r = next_ptr st)) as [->|Ne].
    + apply (reports_insert_eq st st' _ _ c Hc) in Hrep as [Hoc Hq].
      unfold callback_ready in Cr. rewrite Hoc in Cr.
      destruct Cr as (q' & l & Hq' & Lq & _). rewrite Hq in Hq'. injection Hq' as <-.
      by eexists.
    + apply (Rp r q Hr). by apply (reports_insert_ne st st' _ _ _ c Hc).
  - intros r r' q Hr Hr' H1 H2.
    assert (forall r0 : ptr, r0 ∉ E -> reports st r0 q -> reports st' (next_ptr st) q -> False)
      as Clash.
    { intros r0 Hr0 Hrep Hx.
      apply (reports_insert_eq st st' _ _ c Hc) in Hx as [Hoc Hq].
      unfold callback_ready in Cr. rewrite Hoc in Cr.
      destruct Cr as (q' & l & Hq' & Lq & _ & _ & _ & No).
      rewrite Hq in Hq'. injection Hq' as <-. by apply (No r0). }
    destruct (decide (r = next_ptr st)) as [->|Ne];
      destruct (decide (r' = next_ptr st)) as [->|Ne']; [done| | |].
    + exfalso. apply (Clash r'); [done| |done].
      by apply (reports_insert_ne st st' _ _ _ c Hc).
    + exfalso. apply (Clash r); [done| |done].
      by apply (reports_insert_ne st st' _ _ _ c Hc).
    + apply (R1 r r' q); try done.
      * by apply (reports_insert_ne st st' _ _ _ c Hc).
      * by apply (reports_insert_ne st st' _ _ _ c Hc).
  - intros q l L. rewrite Hl in L. destruct (Pa q l L) as [P1 P2]. split; [done|].
    intros Hq. destruct (P2 Hq) as (c' & L' & S'). exists c'. split; [|done].
    by apply Keep.
  - destruct Po as [Nd Pj]. rewrite Hp. split.
    + apply NoDup_app. split; [done|]. split; [|apply NoDup_singleton].
      intros j Hj Hx. apply list_elem_of_singleton in Hx. subst j.
      destruct (Pj _ Hj) as (_ & c' & L' & _). by eapply Old.
    + intros j Hj. apply elem_of_app in Hj as [Hj|Hj].
      * destruct (Pj j Hj) as (Hje & c' & L' & P'). split; [done|].
        exists c'. split; [|done]. by apply Keep.
      * apply list_elem_of_singleton in Hj. subst j. split; [done|].
        exists c. split; [|done]. rewrite Hc. apply lookup_insert_eq.
  - intros q l L Hq. rewrite Hl in L. destruct (Wa q l L Hq) as (W1 & r & W2).
    split; [done|]. exists r.
    apply (reports_insert_ne st st' _ _ _ c Hc); [|done]. by eapply OldR.
  - intros p c' L Hq. rewrite Hc in L. rewrite Hp, Hl.
    apply lookup_insert_Some in L as [[<- <-]|[Ne L]].
    + left. apply elem_of_app. right. apply list_elem_of_here.
    + destruct (Ba p c' L Hq) as [B|B]; [|by right].
      left. apply elem_of_app. by left.
Qed.

Lemma silent_weight w_free w_cb t : silent t -> trace_weight w_free w_cb t = 0%nat.
Proof.
  induction t as [|e t IH]; [done|]. intros S.
  assert (silent t) as St.
  { intros x. destruct (S x) as [S1 S2]. destruct e; simpl in *; lia. }
  simpl. rewrite (IH St). destruct e as [|c f ok|c|]; simpl; try done.
  - destruct (S c) as [_ S2]. simpl in S2. rewrite Nat.eqb_refl in S2. lia.
  - destruct (S c) as [S1 _]. simpl in S1. rewrite Nat.eqb_refl in S1. lia.
Qed.

(** the command submitted in [st] is complete when [run_command] returns *)
Lemma spec_done E self (st st' : MPContext) cmd h oc priv pre ok :
  Inv E st -> callback_ready E st self oc priv ->
  handler (def cmd) = handler_of h ->
  ctxs st' = ctxs st -> lists st' = lists_after st oc priv ->
  thread_pool st' = thread_pool st -> next_ptr st' = S (next_ptr st) ->
  trace st' = trace st ++ pre ++ completion_events (next_ptr st) oc ok ->
  silent pre -> freed_after pre ->
  let new := pre ++ completion_events (next_ptr st) oc ok in
  step st st' new /\
  (forall w_free w_cb,
     (trace_weight w_free w_cb new + pot w_free w_cb st' =
      pot w_free w_cb st +
      cmd_weight w_free w_cb (if oc is Some _ then true else false) cmd)%nat) /\
  Inv E st' /\
  (forall x : ptr, (x < next_ptr st)%nat -> ctxs st' !! x = ctxs st !! x) /\
  (forall r q : ptr,
     (next_ptr st < r)%nat -> reports st' r q -> (next_ptr st < q)%nat) /\
  ((ctxs st' !! next_ptr st = None /\
    times_freed (next_ptr st) new = 1%nat /\
    times_completed (next_ptr st) new = (if oc is Some _ then 1 else 0)%nat /\
    forall x : ptr,
      (x < next_ptr st)%nat -> lists st' !! x = lists_after st oc priv !! x) \/
   (exists c,
      ctxs st' !! next_ptr st = Some c /\
      on_completion c = oc /\ on_completion_priv c = priv /\
      forall x : ptr, (x < next_ptr st)%nat -> lists st' !! x = lists st !! x)).
Proof.
  intros I Cr Hh Hc Hl Hp Hn Ht Sp Fp new.
  pose proof (inv_fresh _ _ I) as Fr.
  split; [by apply step_root_done|]. split.
  { intros a b. unfold new. rewrite trace_weight_app, trace_weight_completion.
    rewrite (silent_weight a b pre Sp), (pot_same a b st st' Hc).
    rewrite (cmd_weight_plain a b _ cmd h Hh). destruct oc; simpl; lia. }
  split.
  { apply (inv_flags E st st'); try done; [lia|].
    intros x. rewrite Hl. by apply (lists_after_lookup E st self). }
  split; [intros x _; by rewrite Hc|]. split.
  { intros r q Hr (c & L & _). rewrite Hc in L.
    pose proof (fresh_lt st _ _ Fr L). lia. }
  left. split.
  { rewrite Hc. apply Fr. lia. }
  unfold new. rewrite times_freed_app, times_completed_app.
  destruct (Sp (next_ptr st)) as [-> ->].
  rewrite times_freed_completion, times_completed_completion_at, Nat.eqb_refl.
  split; [done|]. split; [done|]. intros x _. by rewrite Hl.
Qed.

Lemma run_command_plain cmd h :
  handler (def cmd) = handler_of h -> exec_async (def cmd) = false ->
  run_command_spec cmd.
Proof.
  intros Hh Ea E self st abort oc priv I Ab Cr.
  pose proof (callback_ready_at_once _ _ _ _ _ Cr) as R.
  pose proof (inv_fresh _ _ I) as Fr.
  assert (ctxs st !! next_ptr st = None) as Fr0 by (apply Fr; lia).
  destruct (snd (expanded st cmd)) eqn:Ex.
  2:{ eexists _, _. split.
      { exists 3%nat. intros fuel Hf. by apply run_command_expansion_fails. }
      apply (spec_done E self st _ cmd h oc priv [] false); try done.
      all: apply silent_nil. }
  destruct (spawn_thread (def cmd)) eqn:Sp.
  2:{ destruct (handler_body h (fst (expanded st cmd)) (rest st)) as [[p' ok] res] eqn:Eh.
      eexists _, _. split.
      { exists 3%nat. intros fuel Hf.
        rewrite (run_command_inline _ _ _ _ _ _ _ h) by done. rewrite Eh. done. }
      apply (spec_done E self st _ cmd h oc priv [ev_handler (next_ptr st) (name (def cmd))] ok);
        try done.
      all: apply silent_handler. }
  destruct (mp_thread_pool_queue (rest st) (thread_pool st)) eqn:Q.
  2:{ eexists _, _. split.
      { exists 3%nat. intros fuel Hf. by apply run_command_pool_refuses. }
      apply (spec_done E self st _ cmd h oc priv [] false); try done.
      all: apply silent_nil. }
  eexists _, []. split.
  { exists 1%nat. intros fuel Hf. by apply run_command_queued. }
  set (c := new_ctx cmd abort oc priv (fst (expanded st cmd)) true).
  match goal with |- step st ?s _ /\ _ => set (st' := s) end.
  assert (ctxs st' = <[next_ptr st := c]> (ctxs st)) as Hc by done.
  assert (plain c) as Pl by (split; [by exists h|done]).
  split.
  { apply step_quiet.
    - done.
    - simpl. lia.
    - intros x Hx. simpl in Hx. rewrite Hc, lookup_insert_ne by lia. apply Fr. lia.
    - simpl. by rewrite ?app_nil_r.
    - apply silent_nil.
    - done.
    - intros x c' L. exists c'. split; [|done]. rewrite Hc, lookup_insert_ne; [done|].
      intros <-. pose proof (fresh_lt st _ _ Fr L). lia.
    - intros x Hx N. rewrite Hc, lookup_insert_ne by lia. done. }
  split.
  { intros a b. rewrite (pot_alloc a b st st' _ c Fr0 Hc). simpl.
    rewrite (cmd_weight_plain a b _ cmd h Hh). unfold ctx_weight. simpl.
    rewrite Hh. destruct oc; simpl; lia. }
  split.
  { by apply (inv_queued E st st' self c). }
  split.
  { intros x Hx. rewrite Hc, lookup_insert_ne by lia. done. }
  split.
  { intros r q Hr (c' & L & _). rewrite Hc, lookup_insert_ne in L by lia.
    pose proof (fresh_lt st _ _ Fr L). lia. }
  right. exists c. split; [by rewrite Hc, lookup_insert_eq|]. done.
Qed.

Lemma reports_update (st st' : MPContext) (p r q : ptr) c c' :
  ctxs st !! p = Some c -> ctxs st' = <[p := c']> (ctxs st) ->
  on_completion c' = on_completion c ->
  on_completion_priv c' = on_completion_priv c ->
  reports st' r q <-> reports st r q.
Proof.
  intros L E Ho Hp. unfold reports. rewrite E.
  destruct (decide (r = p)) as [->|Ne].
  - rewrite lookup_insert_eq, L. split.
    + intros (c0 & [= <-] & H1 & H2). exists c. split; [done|]. by rewrite <- Ho, <- Hp.
    + intros (c0 & [= <-] & H1 & H2). exists c'. split; [done|]. by rewrite Ho, Hp.
  - by rewrite lookup_insert_ne.
Qed.

(** a context changes, but not its callback nor its kind *)
Lemma inv_update_ctx E (st st' : MPContext) (p : ptr) c c' :
  Inv E st -> ctxs st !! p = Some c ->
  ctxs st' = <[p := c']> (ctxs st) -> lists st' = lists st ->
  thread_pool st' = thread_pool st -> (next_ptr st <= next_ptr st')%nat ->
  on_completion c' = on_completion c ->
  on_completion_priv c' = on_completion_priv c ->
  (list_shaped c -> list_shaped c') -> (plain c -> plain c') ->
  Inv E st'.
Proof.
  intros [Fr He Ap Sh Cb Rp R1 Pa Po Wa Ba] L Hc Hl Hp Hn Ho Hv Hls Hpl.
  pose proof (fresh_lt st _ _ Fr L) as Lt.
  assert (forall r q : ptr, reports st' r q <-> reports st r q) as Rep.
  { intros r q. by apply (reports_update st st' p r q c c'). }
  split.
  - intros i Hi. destruct (Fr i ltac:(lia)) as [F1 F2].
    rewrite Hc, Hl, lookup_insert_ne by lia. done.
  - intros e Hin. specialize (He e Hin). lia.
  - intros x c0 L0. rewrite Hl. rewrite Hc in L0.
    apply lookup_insert_Some in L0 as [[<- <-]|[Ne L0]]; [by apply (Ap p c)|by apply (Ap x c0)].
  - intros x c0 L0. rewrite Hc in L0.
    apply lookup_insert_Some in L0 as [[<- <-]|[Ne L0]]; [|by apply (Sh x c0)].
    destruct (Sh p c L); [left; auto|right; auto].
  - intros x c0 L0 Hoc. rewrite Hc in L0.
    apply lookup_insert_Some in L0 as [[<- <-]|[Ne L0]]; [|by apply (Cb x c0)].
    rewrite Hv. apply (Cb p c L). by rewrite <- Ho.
  - intros r q Hr Hrep. rewrite Hl. apply (Rp r q Hr). by apply Rep.
  - intros r r' q Hr Hr' H1 H2. apply (R1 r r' q); try done; by apply Rep.
  - intros q l Lq. rewrite Hl in Lq. destruct (Pa q l Lq) as [P1 P2]. split; [done|].
    intros Hq. destruct (P2 Hq) as (c0 & L0 & S0). rewrite Hc.
    destruct (decide (parent l = p)) as [Ep|Ne].
    + rewrite Ep in *. rewrite lookup_insert_eq. exists c'. split; [done|].
      apply Hls. congruence.
    + rewrite lookup_insert_ne by done. by exists c0.
  - rewrite Hp. destruct Po as [Nd Pj]. split; [done|]. intros j Hj.
    destruct (Pj j Hj) as (Hje & c0 & L0 & P0). split; [done|]. rewrite Hc.
    destruct (decide (j = p)) as [->|Ne].
    + rewrite lookup_insert_eq. exists c'. split; [done|]. apply Hpl. congruence.
    + rewrite lookup_insert_ne by done. by exists c0.
  - intros q l Lq Hq. rewrite Hl in Lq. destruct (Wa q l Lq Hq) as (W1 & r & W2).
    split; [done|]. exists r. by apply Rep.
  - intros x c0 L0 Hx. rewrite Hp, Hl. rewrite Hc in L0.
    apply lookup_insert_Some in L0 as [[<- <-]|[Ne L0]]; [by apply (Ba p c)|by apply (Ba x c0)].
Qed.

Lemma not_in_diff (E : gset ptr) (q r : ptr) : r ∉ E ∖ {[q]} -> r ∉ E \/ r = q.
Proof.
  intros N. destruct (decide (r = q)) as [->|Ne]; [by right|left].
  intros X. apply N. apply elem_of_difference. split; [done|].
  by intros ->%elem_of_singleton.
Qed.

Lemma in_diff (E : gset ptr) (q e : ptr) : e ∈ E ∖ {[q]} -> e ∈ E.
Proof. by intros [X _]%elem_of_difference. Qed.

Lemma not_in_diff_1 (E : gset ptr) (q r : ptr) : r ∉ E -> r ∉ E ∖ {[q]}.
Proof. intros N X. by apply N, (in_diff E q). Qed.

Lemma not_in_diff_2 (E : gset ptr) (q : ptr) : q ∉ E ∖ {[q]}.
Proof. intros [_ X]%elem_of_difference. by apply X, elem_of_singleton. Qed.

(** a list that was going on waits again *)
Lemma inv_release_list E (st : MPContext) (q r : ptr) l :
  Inv E st -> q ∈ E -> lists st !! q = Some l -> current_valid l = false ->
  reports st r q ->
  (exists c, ctxs st !! parent l = Some c /\ list_shaped c) ->
  Inv (E ∖ {[q]}) st.
Proof.
  intros [Fr He Ap Sh Cb Rp R1 Pa Po Wa Ba] Hq L Cv Hrep Hpar.
  assert (forall x : ptr, x ∉ E ∖ {[q]} -> forall q', reports st x q' -> x ∉ E) as Ctx.
  { intros x Hx q' (c & Lc & _). destruct (not_in_diff _ _ _ Hx) as [N0| ->]; [done|].
    rewrite (Ap q c Lc) in L. done. }
  split; try done.
  - intros e Hin. apply He. by apply (in_diff E q).
  - intros x q' Hx Hrep'. apply (Rp x q'); [|done]. by apply (Ctx x Hx q').
  - intros x x' q' Hx Hx' H1 H2. apply (R1 x x' q'); try done.
    + by apply (Ctx x Hx q').
    + by apply (Ctx x' Hx' q').
  - intros q' l' L'. destruct (Pa q' l' L') as [P1 P2]. split; [done|].
    intros Hq'. destruct (not_in_diff _ _ _ Hq') as [N| ->]; [by apply P2|].
    rewrite L in L'. by injection L' as <-.
  - destruct Po as [Nd Pj]. split; [done|]. intros j Hj.
    destruct (Pj j Hj) as (Hje & X). split; [|done]. by apply not_in_diff_1.
  - intros q' l' L' Hq'. destruct (not_in_diff _ _ _ Hq') as [N| ->].
    + destruct (Wa q' l' L' N) as (W1 & x & W2). split; [done|]. by exists x.
    + rewrite L in L'. injection L' as <-. split; [done|]. by exists r.
  - intros p c Lc Hp.
    assert (p ∉ E) as Hp'.
    { destruct (not_in_diff _ _ _ Hp) as [N0| ->]; [done|]. rewrite (Ap q c Lc) in L. done. }
    destruct (Ba p c Lc Hp') as [B|[B1 B2]]; [by left|right]. split; [done|]. by apply not_in_diff_1.
Qed.

(** a context that a function held is in progress *)
Lemma inv_release_ctx E (st : MPContext) (p : ptr) c :
  Inv E st -> p ∈ E -> ctxs st !! p = Some c ->
  (forall q : ptr, reports st p q ->
     is_Some (lists st !! q) /\ forall r : ptr, r ∉ E -> ~ reports st r q) ->
  (is_Some (lists st !! S p) /\ S p ∉ E) ->
  Inv (E ∖ {[p]}) st.
Proof.
  intros [Fr He Ap Sh Cb Rp R1 Pa Po Wa Ba] Hp L Link Back.
  split; try done.
  - intros e Hin. apply He. by apply (in_diff E p).
  - intros x q' Hx Hrep'. destruct (not_in_diff _ _ _ Hx) as [N| ->]; [by apply (Rp x q')|].
    by apply Link.
  - intros x x' q' Hx Hx' H1 H2.
    destruct (not_in_diff _ _ _ Hx) as [N| ->]; destruct (not_in_diff _ _ _ Hx') as [N'| ->].
    + by apply (R1 x x' q').
    + destruct (Link q' H2) as [_ No]. by destruct (No x N).
    + destruct (Link q' H1) as [_ No]. by destruct (No x' N').
    + done.
  - intros q' l' L'. destruct (Pa q' l' L') as [P1 P2]. split; [done|].
    intros Hq'. destruct (not_in_diff _ _ _ Hq') as [N| ->]; [by apply P2|].
    rewrite (Ap p c L) in L'. done.
  - destruct Po as [Nd Pj]. split; [done|]. intros j Hj.
    destruct (Pj j Hj) as (Hje & X). split; [|done]. by apply not_in_diff_1.
  - intros q' l' L' Hq'.
    assert (q' ∉ E) as N.
    { destruct (not_in_diff _ _ _ Hq') as [N0| ->]; [done|]. rewrite (Ap p c L) in L'. done. }
    destruct (Wa q' l' L' N) as (W1 & x & W2). split; [done|]. by exists x.
  - intros x c' Lc Hx. destruct (not_in_diff _ _ _ Hx) as [N| ->].
    + destruct (Ba x c' Lc N) as [B|[B1 B2]]; [by left|right]. split; [done|]. by apply not_in_diff_1.
    + right. destruct Back as [B1 B2]. split; [done|]. by apply not_in_diff_1.
Qed.

Lemma not_in_union (E : gset ptr) (x r : ptr) : r ∉ E ∪ {[x]} -> (r ∉ E) /\ r <> x.
Proof.
  intros N. split.
  - intros X. apply N. apply elem_of_union. by left.
  - intros ->. apply N. apply elem_of_union. right. by apply elem_of_singleton.
Qed.

Lemma in_union (E : gset ptr) (x e : ptr) : e ∈ E ∪ {[x]} -> e ∈ E \/ e = x.
Proof.
  intros [X|X]%elem_of_union; [by left|right]. by apply elem_of_singleton in X.
Qed.

Lemma in_union_l (E : gset ptr) (x e : ptr) : e ∈ E -> e ∈ E ∪ {[x]}.
Proof. intros X. apply elem_of_union. by left. Qed.

Lemma in_union_r (E : gset ptr) (x : ptr) : x ∈ E ∪ {[x]}.
Proof. apply elem_of_union. right. by apply elem_of_singleton. Qed.

Lemma not_in_union_2 (E : gset ptr) (x r : ptr) : r ∉ E -> r <> x -> r ∉ E ∪ {[x]}.
Proof. intros N Ne [X|X]%in_union; [by apply N|done]. Qed.

(** a context is allocated and held *)
Lemma inv_alloc_ctx E (st st' : MPContext) c :
  Inv E st -> ctxs st' = <[next_ptr st := c]> (ctxs st) -> lists st' = lists st ->
  thread_pool st' = thread_pool st -> next_ptr st' = S (next_ptr st) ->
  list_shaped c \/ plain c ->
  (on_completion c = Some callback_on_cmd_list_sub_completion ->
   exists q : ptr, on_completion_priv c = Some q /\ (q < next_ptr st)%nat) ->
  Inv (E ∪ {[next_ptr st]}) st'.
Proof.
  intros [Fr He Ap Sh Cb Rp R1 Pa Po Wa Ba] Hc Hl Hp Hn Hs Hcb.
  assert (forall (x : ptr) c0, ctxs st !! x = Some c0 -> x <> next_ptr st) as Old.
  { intros x c0 L0. pose proof (fresh_lt st _ _ Fr L0). lia. }
  assert (forall (x : ptr) c0, ctxs st !! x = Some c0 -> ctxs st' !! x = Some c0) as Keep.
  { intros x c0 L0. rewrite Hc, lookup_insert_ne; [done|]. intros E0. by apply (Old _ _ L0). }
  assert (forall r q : ptr, r <> next_ptr st -> reports st' r q <-> reports st r q) as Rep.
  { intros r q Ne. by apply (reports_insert_ne st st' _ _ _ c Hc). }
  split.
  - intros i Hi. rewrite Hn in Hi. destruct (Fr i ltac:(lia)) as [F1 F2].
    rewrite Hc, Hl, lookup_insert_ne by lia. done.
  - intros e [Hin| ->]%in_union; [specialize (He e Hin)|]; lia.
  - intros x c0 L0. rewrite Hl. rewrite Hc in L0.
    apply lookup_insert_Some in L0 as [[<- <-]|[Ne L0]]; [|by apply (Ap x c0)].
    by destruct (Fr (next_ptr st) ltac:(lia)).
  - intros x c0 L0. rewrite Hc in L0.
    apply lookup_insert_Some in L0 as [[<- <-]|[Ne L0]]; [done|by apply (Sh x c0)].
  - intros x c0 L0 Hoc. rewrite Hc in L0.
    apply lookup_insert_Some in L0 as [[<- <-]|[Ne L0]]; [by apply Hcb|by apply (Cb x c0)].
  - intros r q [Hr Ne]%not_in_union Hrep. rewrite Hl. apply (Rp r q Hr). by apply Rep.
  - intros r r' q [Hr Ne]%not_in_union [Hr' Ne']%not_in_union H1 H2.
    apply (R1 r r' q); try done; by apply Rep.
  - intros q l Lq. rewrite Hl in Lq. destruct (Pa q l Lq) as [P1 P2]. split; [done|].
    intros [Hq _]%not_in_union. destruct (P2 Hq) as (c0 & L0 & S0).
    exists c0. split; [by apply Keep|done].
  - rewrite Hp. destruct Po as [Nd Pj]. split; [done|]. intros j Hj.
    destruct (Pj j Hj) as (Hje & c0 & L0 & P0). split.
    + apply not_in_union_2; [done|]. by apply (Old _ _ L0).
    + exists c0. split; [by apply Keep|done].
  - intros q l Lq [Hq _]%not_in_union. rewrite Hl in Lq.
    destruct (Wa q l Lq Hq) as (W1 & r & W2). split; [done|]. exists r.
    apply Rep; [|done]. destruct W2 as (c0 & L0 & _). by apply (Old _ _ L0).
  - intros x c0 L0 [Hx Ne]%not_in_union. rewrite Hp, Hl. rewrite Hc in L0.
    rewrite lookup_insert_ne in L0 by done.
    destruct (Ba x c0 L0 Hx) as [B|[[l B1] B2]]; [by left|right]. split; [by exists l|].
    apply not_in_union_2; [done|]. pose proof (fresh_lt_list st _ _ Fr B1). lia.
Qed.

(** the context of a list is allocated and held *)
Lemma inv_alloc_list E (st st' : MPContext) l :
  Inv E st -> lists st' = <[next_ptr st := l]> (lists st) -> ctxs st' = ctxs st ->
  thread_pool st' = thread_pool st -> next_ptr st' = S (next_ptr st) ->
  next_ptr st = S (parent l) ->
  Inv (E ∪ {[next_ptr st]}) st'.
Proof.
  intros [Fr He Ap Sh Cb Rp R1 Pa Po Wa Ba] Hl Hc Hp Hn Hpar.
  assert (forall r q : ptr, reports st' r q <-> reports st r q) as Rep.
  { intros r q. unfold reports. by rewrite Hc. }
  assert (forall (x : ptr) l0, lists st !! x = Some l0 -> lists st' !! x = Some l0) as Keep.
  { intros x l0 L0. pose proof (fresh_lt_list st _ _ Fr L0).
    rewrite Hl, lookup_insert_ne; [done|lia]. }
  split.
  - intros i Hi. rewrite Hn in Hi. destruct (Fr i ltac:(lia)) as [F1 F2].
    rewrite Hc, Hl, lookup_insert_ne by lia. done.
  - intros e [Hin| ->]%in_union; [specialize (He e Hin)|]; lia.
  - intros x c0 L0. rewrite Hc in L0. pose proof (fresh_lt st _ _ Fr L0).
    rewrite Hl, lookup_insert_ne by lia. by apply (Ap x c0).
  - intros x c0 L0. rewrite Hc in L0. by apply (Sh x c0).
  - intros x c0 L0. rewrite Hc in L0. by apply (Cb x c0).
  - intros r q [Hr Ne]%not_in_union Hrep.
    destruct (Rp r q Hr) as [l0 L0]; [by apply Rep|]. exists l0. by apply Keep.
  - intros r r' q [Hr Ne]%not_in_union [Hr' Ne']%not_in_union H1 H2.
    apply (R1 r r' q); try done; by apply Rep.
  - intros q l0 Lq. rewrite Hl in Lq.
    apply lookup_insert_Some in Lq as [[<- <-]|[Ne Lq]].
    + split; [done|]. intros N. destruct N. apply in_union_r.
    + destruct (Pa q l0 Lq) as [P1 P2]. split; [done|].
      intros [Hq _]%not_in_union. rewrite Hc. by apply P2.
  - rewrite Hp. destruct Po as [Nd Pj]. split; [done|]. intros j Hj.
    destruct (Pj j Hj) as (Hje & c0 & L0 & P0). split.
    + apply not_in_union_2; [done|]. pose proof (fresh_lt st _ _ Fr L0). lia.
    + exists c0. by rewrite Hc.
  - intros q l0 Lq [Hq Ne]%not_in_union. rewrite Hl in Lq.
    rewrite lookup_insert_ne in Lq by done.
    destruct (Wa q l0 Lq Hq) as (W1 & r & W2). split; [done|]. exists r. by apply Rep.
  - intros x c0 L0 [Hx Ne]%not_in_union. rewrite Hp. rewrite Hc in L0.
    destruct (Ba x c0 L0 Hx) as [B|[[l0 B1] B2]]; [by left|right].
    split; [exists l0; by apply Keep|].
    apply not_in_union_2; [done|]. pose proof (fresh_lt_list st _ _ Fr B1). lia.
Qed.

(** a function takes hold of a context or of a list *)
Lemma inv_grow E (st : MPContext) (e : ptr) :
  Inv E st -> (e < next_ptr st)%nat -> e ∉ thread_pool st ->
  (forall p : ptr, p ∉ E -> is_Some (ctxs st !! p) -> is_Some (lists st !! S p) ->
                   S p <> e) ->
  Inv (E ∪ {[e]}) st.
Proof.
  intros [Fr He Ap Sh Cb Rp R1 Pa Po Wa Ba] Lt Np Hch.
  split; try done.
  - intros x [Hin| ->]%in_union; [by apply He|done].
  - intros r q [Hr _]%not_in_union. by apply Rp.
  - intros r r' q [Hr _]%not_in_union [Hr' _]%not_in_union. by apply R1.
  - intros q l Lq. destruct (Pa q l Lq) as [P1 P2]. split; [done|].
    intros [Hq _]%not_in_union. by apply P2.
  - destruct Po as [Nd Pj]. split; [done|]. intros j Hj.
    destruct (Pj j Hj) as (Hje & X). split; [|done].
    apply not_in_union_2; [done|]. by intros ->.
  - intros q l Lq [Hq _]%not_in_union. by apply (Wa q l).
  - intros x c0 L0 [Hx Ne]%not_in_union.
    destruct (Ba x c0 L0 Hx) as [B|[B1 B2]]; [by left|right]. split; [done|].
    apply not_in_union_2; [done|]. by apply Hch.
Qed.

(** a pointer that is gone is held no more *)
Lemma inv_shrink E (st : MPContext) (p : ptr) :
  Inv E st -> ctxs st !! p = None -> lists st !! p = None -> Inv (E ∖ {[p]}) st.
Proof.
  intros [Fr He Ap Sh Cb Rp R1 Pa Po Wa Ba] Nc Nl.
  assert (forall x : ptr, x ∉ E ∖ {[p]} -> is_Some (ctxs st !! x) -> x ∉ E) as Ctx.
  { intros x Hx [c Lc]. destruct (not_in_diff _ _ _ Hx) as [N0| ->]; [done|]. congruence. }
  assert (forall x : ptr, x ∉ E ∖ {[p]} -> is_Some (lists st !! x) -> x ∉ E) as Lst.
  { intros x Hx [c Lc]. destruct (not_in_diff _ _ _ Hx) as [N0| ->]; [done|]. congruence. }
  split; try done.
  - intros e Hin. apply He. by apply (in_diff E p).
  - intros r q Hr Hrep. apply (Rp r q); [|done]. apply Ctx; [done|].
    destruct Hrep as (c & Lc & _). by exists c.
  - intros r r' q Hr Hr' H1 H2. apply (R1 r r' q); try done.
    + apply Ctx; [done|]. destruct H1 as (c & Lc & _). by exists c.
    + apply Ctx; [done|]. destruct H2 as (c & Lc & _). by exists c.
  - intros q l Lq. destruct (Pa q l Lq) as [P1 P2]. split; [done|].
    intros Hq. apply P2. apply Lst; [done|]. by exists l.
  - destruct Po as [Nd Pj]. split; [done|]. intros j Hj.
    destruct (Pj j Hj) as (Hje & X). split; [|done]. by apply not_in_diff_1.
  - intros q l Lq Hq. apply (Wa q l Lq). apply Lst; [done|]. by exists l.
  - intros x c0 L0 Hx.
    destruct (Ba x c0 L0) as [B|[B1 B2]].
    + apply Ctx; [done|]. by exists c0.
    + by left.
    + right. split; [done|]. by apply not_in_diff_1.
Qed.

(** a context that was held is freed *)
Lemma inv_delete_ctx E (st st' : MPContext) (p : ptr) :
  Inv E st -> p ∈ E -> ctxs st' = delete p (ctxs st) -> lists st' = lists st ->
  thread_pool st' = thread_pool st -> (next_ptr st <= next_ptr st')%nat ->
  (forall (q : ptr) l, lists st !! q = Some l -> parent l = p -> q ∈ E) ->
  (forall (q : ptr) l, reports st p q -> lists st !! q = Some l -> q ∉ E ->
                       exists r : ptr, r <> p /\ reports st r q) ->
  Inv E st'.
Proof.
  intros [Fr He Ap Sh Cb Rp R1 Pa Po Wa Ba] Hp Hc Hl Hpo Hn Hch Hrp.
  assert (forall (x : ptr) c0, ctxs st' !! x = Some c0 -> ctxs st !! x = Some c0) as Was.
  { intros x c0 L0. rewrite Hc in L0. by apply lookup_delete_Some in L0 as [_ L0]. }
  assert (forall (x : ptr) c0, ctxs st !! x = Some c0 -> x <> p -> ctxs st' !! x = Some c0) as Keep.
  { intros x c0 L0 Ne. rewrite Hc. apply lookup_delete_Some. done. }
  assert (forall r q : ptr, reports st' r q -> reports st r q) as Rep.
  { intros r q (c0 & L0 & X). exists c0. split; [by apply Was|done]. }
  split.
  - intros i Hi. destruct (Fr i ltac:(lia)) as [F1 F2]. rewrite Hl. split; [|done].
    rewrite Hc. apply lookup_delete_None. by right.
  - intros e Hin. specialize (He e Hin). lia.
  - intros x c0 L0. rewrite Hl. by apply (Ap x c0), Was.
  - intros x c0 L0. by apply (Sh x c0), Was.
  - intros x c0 L0. by apply (Cb x c0), Was.
  - intros r q Hr Hrep. rewrite Hl. apply (Rp r q Hr). by apply Rep.
  - intros r r' q Hr Hr' H1 H2. apply (R1 r r' q); try done; by apply Rep.
  - intros q l Lq. rewrite Hl in Lq. destruct (Pa q l Lq) as [P1 P2]. split; [done|].
    intros Hq. destruct (P2 Hq) as (c0 & L0 & S0). exists c0. split; [|done].
    apply Keep; [done|]. intros Ep. apply Hq. by apply (Hch q l).
  - rewrite Hpo. destruct Po as [Nd Pj]. split; [done|]. intros j Hj.
    destruct (Pj j Hj) as (Hje & c0 & L0 & P0). split; [done|].
    exists c0. split; [|done]. apply Keep; [done|]. by intros ->.
  - intros q l Lq Hq. rewrite Hl in Lq. destruct (Wa q l Lq Hq) as (W1 & r & W2).
    split; [done|]. destruct (decide (r = p)) as [->|Ne].
    + destruct (Hrp q l W2 Lq Hq) as (r & Ne & (c0 & L0 & X)).
      exists r, c0. split; [by apply Keep|done].
    + destruct W2 as (c0 & L0 & X). exists r, c0. split; [by apply Keep|done].
  - intros x c0 L0 Hx. rewrite Hpo, Hl. apply (Ba x c0); [by apply Was|done].
Qed.

(** a list that was going on is freed *)
Lemma inv_delete_list E (st st' : MPContext) (q : ptr) :
  Inv E st -> q ∈ E -> lists st' = delete q (lists st) -> ctxs st' = ctxs st ->
  thread_pool st' = thread_pool st -> (next_ptr st <= next_ptr st')%nat ->
  (forall r : ptr, r ∉ E -> ~ reports st r q) ->
  Inv E st'.
Proof.
  intros [Fr He Ap Sh Cb Rp R1 Pa Po Wa Ba] Hq Hl Hc Hpo Hn Nr.
  assert (forall r q : ptr, reports st' r q <-> reports st r q) as Rep.
  { intros r q0. unfold reports. by rewrite Hc. }
  assert (forall (x : ptr) l0, lists st' !! x = Some l0 -> lists st !! x = Some l0) as Was.
  { intros x l0 L0. rewrite Hl in L0. by apply lookup_delete_Some in L0 as [_ L0]. }
  split.
  - intros i Hi. destruct (Fr i ltac:(lia)) as [F1 F2]. rewrite Hc. split; [done|].
    rewrite Hl. apply lookup_delete_None. by right.
  - intros e Hin. specialize (He e Hin). lia.
  - intros x c0 L0. rewrite Hc in L0. rewrite Hl. apply lookup_delete_None. right.
    by apply (Ap x c0).
  - intros x c0 L0. rewrite Hc in L0. by apply (Sh x c0).
  - intros x c0 L0. rewrite Hc in L0. by apply (Cb x c0).
  - intros r q0 Hr Hrep. apply Rep in Hrep. destruct (Rp r q0 Hr Hrep) as [l0 L0].
    exists l0. rewrite Hl. apply lookup_delete_Some. split; [|done].
    intros <-. by apply (Nr r).
  - intros r r' q0 Hr Hr' H1 H2. apply (R1 r r' q0); try done; by apply Rep.
  - intros q0 l Lq. apply Was in Lq. destruct (Pa q0 l Lq) as [P1 P2]. split; [done|].
    rewrite Hc. done.
  - rewrite Hpo, Hc. done.
  - intros q0 l Lq Hq0. apply Was in Lq. destruct (Wa q0 l Lq Hq0) as (W1 & r & W2).
    split; [done|]. exists r. by apply Rep.
  - intros x c0 L0 Hx. rewrite Hpo. rewrite Hc in L0.
    destruct (Ba x c0 L0 Hx) as [B|[[l0 B1] B2]]; [by left|right]. split; [|done].
    exists l0. rewrite Hl. apply lookup_delete_Some. split; [|done].
    intros Eq. apply B2. by rewrite <- Eq.
Qed.

(** a worker thread takes a job of the pool *)
Lemma inv_take_job E (st st' : MPContext) (k : nat) (j : ptr) :
  Inv E st -> take_job st k = Some (j, st') ->
  (j ∈ thread_pool st) /\ ctxs st' = ctxs st /\ lists st' = lists st /\
  next_ptr st' = next_ptr st /\ trace st' = trace st /\
  (length (thread_pool st) = S (length (thread_pool st')))%nat /\
  Inv (E ∪ {[j]}) st'.
Proof.
  intros [Fr He Ap Sh Cb Rp R1 Pa Po Wa Ba]. unfold take_job.
  set (i := (k mod length (thread_pool st))%nat).
  destruct (thread_pool st !! i) as [j0|] eqn:Lj; [|done]. intros [= -> <-]. simpl.
  pose proof (list_elem_of_lookup_2 _ _ _ Lj) as Hj.
  pose proof (lookup_lt_Some _ _ _ Lj) as Hi.
  destruct Po as [Nd Pj].
  assert (forall x : ptr, x ∈ delete i (thread_pool st) -> (x ∈ thread_pool st) /\ x <> j) as Sub.
  { intros x Hx. apply list_elem_of_lookup_1 in Hx as [n Ln].
    destruct (decide (n < i)%nat) as [Lt|Ge].
    - rewrite list_lookup_delete_lt in Ln by done. split.
      + by apply list_elem_of_lookup_2 in Ln.
      + intros ->. pose proof (NoDup_lookup _ _ _ _ Nd Ln Lj). lia.
    - rewrite list_lookup_delete_ge in Ln by lia. split.
      + by apply list_elem_of_lookup_2 in Ln.
      + intros ->. pose proof (NoDup_lookup _ _ _ _ Nd Ln Lj). lia. }
  assert (forall x : ptr, x ∈ thread_pool st -> x <> j -> x ∈ delete i (thread_pool st)) as Sup.
  { intros x Hx Ne. apply list_elem_of_lookup_1 in Hx as [n Ln].
    destruct (decide (n < i)%nat) as [Lt|Ge].
    - apply (list_elem_of_lookup_2 _ n). by rewrite list_lookup_delete_lt.
    - destruct (decide (n = i)) as [->|Ne']; [congruence|].
      apply (list_elem_of_lookup_2 _ (pred n)).
      rewrite list_lookup_delete_ge by lia. by replace (S (pred n)) with n by lia. }
  split; [done|]. split; [done|]. split; [done|]. split; [done|]. split; [done|].
  split.
  { rewrite length_delete by (by exists j). lia. }
  destruct (Pj j Hj) as (Hje & cj & Lcj & Plj).
  split; simpl; try done.
  - intros x [Hin| ->]%in_union; [by apply He|]. by apply (fresh_lt st _ _ Fr Lcj).
  - intros r q [Hr _]%not_in_union. by apply Rp.
  - intros r r' q [Hr _]%not_in_union [Hr' _]%not_in_union. by apply R1.
  - intros q l Lq. destruct (Pa q l Lq) as [P1 P2]. split; [done|].
    intros [Hq _]%not_in_union. by apply P2.
  - split.
    + rewrite delete_take_drop. rewrite <- (take_drop_middle _ _ _ Lj) in Nd.
      apply NoDup_app in Nd as (N1 & N2 & N3). apply NoDup_cons in N3 as [N3 N4].
      apply NoDup_app. split; [done|]. split; [|done].
      intros x Hx Hx'. apply (N2 x Hx). by apply list_elem_of_further.
    + intros x Hx. destruct (Sub x Hx) as [Hx' Ne].
      destruct (Pj x Hx') as (Hxe & X). split; [|done]. by apply not_in_union_2.
  - intros q l Lq [Hq _]%not_in_union. by apply (Wa q l).
  - intros x c0 L0 [Hx Ne]%not_in_union.
    destruct (Ba x c0 L0 Hx) as [B|[[l0 B1] B2]]; [left; by apply Sup|right].
    split; [by exists l0|]. apply not_in_union_2; [done|].
    intros Ej. pose proof (Ap j cj Lcj) as A0. rewrite <- Ej in A0.
    discriminate (eq_trans (eq_sym B1) A0).
Qed.

(** *** Calls that return *)

Lemma returns_now (st' : MPContext) : returns (fun _ => Ok st') st'.
Proof. by exists 0%nat. Qed.

Lemma reduces_refl (f : nat -> outcome MPContext) : reduces_to f f.
Proof. exists 0%nat. intros fuel _. exists fuel. split; [lia|done]. Qed.

Lemma returns_reduces (f g : nat -> outcome MPContext) st' :
  reduces_to f g -> returns g st' -> returns f st'.
Proof.
  intros [n Hf] [m Hg]. exists (n + m)%nat. intros fuel Hfuel.
  destruct (Hf fuel ltac:(lia)) as (fuel' & Le & ->). apply Hg. lia.
Qed.

Lemma returns_bind (f g : nat -> outcome MPContext)
    (h : MPContext -> nat -> outcome MPContext) s st' :
  (forall fuel, f (S fuel) = match g fuel with
                             | Ok s => h s fuel
                             | Fault => Fault
                             | OutOfFuel => OutOfFuel
                             end) ->
  returns g s -> returns (h s) st' -> returns f st'.
Proof.
  intros Hf [n Hg] [m Hh]. exists (S (n + m)). intros fuel Hfuel.
  destruct fuel as [|fuel]; [lia|]. rewrite Hf, Hg by lia. apply Hh. lia.
Qed.

Lemma reduces_bind (f g k : nat -> outcome MPContext)
    (h : MPContext -> nat -> outcome MPContext) s :
  (forall fuel, f (S fuel) = match g fuel with
                             | Ok s => h s fuel
                             | Fault => Fault
                             | OutOfFuel => OutOfFuel
                             end) ->
  returns g s -> reduces_to (h s) k -> reduces_to f k.
Proof.
  intros Hf [n Hg] [m Hh]. exists (S (n + m)). intros fuel Hfuel.
  destruct fuel as [|fuel]; [lia|]. rewrite Hf, Hg by lia.
  destruct (Hh fuel ltac:(lia)) as (fuel' & Le & ->). exists fuel'. split; [lia|done].
Qed.

(** *** The rounds of [continue_cmd_list] *)

Lemma continue_detached fuel self (st : MPContext) (q : ptr) l c sub rest a :
  lists st !! q = Some l -> ctxs st !! parent l = Some c ->
  args c = arg_p (sub :: rest) :: a -> waited sub = false ->
  continue_cmd_list (S fuel) self st q =
  match run_command fuel self
          (update_ctx st (parent l) (set_args (arg_p rest :: a) c)) sub None None None with
  | Ok s => continue_cmd_list fuel self s q
  | Fault => Fault
  | OutOfFuel => OutOfFuel
  end.
Proof.
  intros L Lc Ha W. rewrite continue_cmd_list_S. unfold continue_cmd_list_body.
  rewrite L, Lc, Ha. unfold waited in W. by rewrite W.
Qed.

Lemma continue_waited fuel self (st : MPContext) (q : ptr) l c sub rest a :
  lists st !! q = Some l -> ctxs st !! parent l = Some c ->
  args c = arg_p (sub :: rest) :: a -> waited sub = true ->
  continue_cmd_list (S fuel) self st q =
  match run_command fuel self
          (update_list (update_ctx st (parent l) (set_args (arg_p rest :: a) c)) q
             {| parent := parent l; current_valid := true; current := self;
                completed_recursive := false |})
          sub None (Some callback_on_cmd_list_sub_completion) (Some q) with
  | Ok s =>
      match lists s !! q with
      | None => Fault
      | Some l2 =>
          let s' := update_list s q
                      {| parent := parent l2; current_valid := false;
                         current := current l2;
                         completed_recursive := completed_recursive l2 |} in
          if negb (completed_recursive l2) then Ok s'
          else continue_cmd_list fuel self s' q
      end
  | Fault => Fault
  | OutOfFuel => OutOfFuel
  end.
Proof.
  intros L Lc Ha W. rewrite continue_cmd_list_S. unfold continue_cmd_list_body.
  rewrite L, Lc, Ha. unfold waited in W. by rewrite W.
Qed.

Lemma continue_end fuel self (st : MPContext) (q : ptr) l c a :
  lists st !! q = Some l -> ctxs st !! parent l = Some c ->
  args c = arg_p [] :: a ->
  continue_cmd_list (S fuel) self st q =
  match mp_cmd_ctx_complete fuel self st (parent l) with
  | Ok s =>
      match lists s !! q with
      | None => Fault
      | Some _ => Ok (set_lists s (delete q (lists s)))
      end
  | Fault => Fault
  | OutOfFuel => OutOfFuel
  end.
Proof.
  intros L Lc Ha. rewrite continue_cmd_list_S. unfold continue_cmd_list_body.
  by rewrite L, Lc, Ha.
Qed.

Lemma ctx_weight_list w_free w_cb (c : mp_cmd_ctx) subs a :
  handler (fst (cmd c)) = handler_cmd_list -> args c = arg_p subs :: a ->
  ctx_weight w_free w_cb c =
  (w_free + (if on_completion c is Some _ then w_cb else 0) +
   subs_weight w_free w_cb subs)%nat.
Proof. intros Hh Ha. unfold ctx_weight. by rewrite Hh, Ha. Qed.

Lemma ctx_weight_plain w_free w_cb (c : mp_cmd_ctx) :
  plain c ->
  ctx_weight w_free w_cb c =
  (w_free + (if on_completion c is Some _ then w_cb else 0))%nat.
Proof. intros [[h Hh] _]. unfold ctx_weight. rewrite Hh. lia. Qed.

Lemma step_refl (st : MPContext) : fresh_from st -> step st st [].
Proof.
  intros Fr. apply step_quiet.
  - done.
  - done.
  - intros x Hx. by destruct (Fr x Hx).
  - by rewrite app_nil_r.
  - apply silent_nil.
  - done.
  - intros x c L. by exists c.
  - done.
Qed.

Lemma step_quiet_then (st s1 st' : MPContext) new :
  ctxs s1 = ctxs st -> next_ptr s1 = next_ptr st -> trace s1 = trace st ->
  step s1 st' new -> step st st' new.
Proof.
  intros Hc Hn Ht [S1 S2 S3 S4 S5 S6 S7 S8 S9 S10].
  rewrite Hc, Hn, Ht in *. by split.
Qed.

Lemma step_then_quiet (st s2 st' : MPContext) new :
  ctxs st' = ctxs s2 -> next_ptr st' = next_ptr s2 -> trace st' = trace s2 ->
  step st s2 new -> step st st' new.
Proof.
  intros Hc Hn Ht [S1 S2 S3 S4 S5 S6 S7 S8 S9 S10].
  rewrite <- Hc, <- Hn, <- Ht in *. by split.
Qed.

(** The loop of [continue_cmd_list] over the sub-commands that are left:
    it stops at a sub-command that is in progress, the list waiting for it,
    or comes to the end of the list with every sub-command submitted. *)
Lemma continue_cmd_list_loop self subs :
  Forall run_command_spec subs ->
  forall (E : gset ptr) (st : MPContext) (q : ptr) l c a,
    Inv E st -> q ∈ E -> parent l ∈ E ->
    lists st !! q = Some l -> ctxs st !! parent l = Some c ->
    handler (fst (cmd c)) = handler_cmd_list -> exec_async (fst (cmd c)) = true ->
    args c = arg_p subs :: a -> Forall wf_cmd subs ->
    (forall r : ptr, r ∉ E -> ~ reports st r q) ->
    exists st' new,
      step st st' new /\
      (forall w_free w_cb,
         (trace_weight w_free w_cb new + pot w_free w_cb st' = pot w_free w_cb st)%nat) /\
      (forall x : ptr, (x < next_ptr st)%nat -> x <> parent l ->
                       ctxs st' !! x = ctxs st !! x) /\
      (forall x : ptr, (x < next_ptr st)%nat -> x <> q ->
                       lists st' !! x = lists st !! x) /\
      (forall r q' : ptr, (next_ptr st <= r)%nat -> reports st' r q' ->
                          q' = q \/ (next_ptr st <= q')%nat) /\
      exists c' l' subs',
        ctxs st' !! parent l = Some c' /\ cmd c' = cmd c /\
        on_completion c' = on_completion c /\
        on_completion_priv c' = on_completion_priv c /\
        args c' = arg_p subs' :: a /\ Forall wf_cmd subs' /\
        lists st' !! q = Some l' /\ parent l' = parent l /\
        ((returns (fun fuel => continue_cmd_list fuel self st q) st' /\
          Inv (E ∖ {[q]}) st' /\
          exists y : ptr, (next_ptr st <= y)%nat /\ reports st' y q) \/
         (reduces_to (fun fuel => continue_cmd_list fuel self st q)
                     (fun fuel => continue_cmd_list fuel self st' q) /\
          Inv E st' /\ subs' = [] /\
          forall r : ptr, r ∉ E -> ~ reports st' r q)).
Proof.
  intros HA. induction HA as [|sub rest Hsub Hrest IH];
    intros E st q l c a Hinv Hq Hp L Lc Hh Hx Ha Hwf NR.
  { exists st, []. pose proof (inv_fresh _ _ Hinv) as Fr.
    split; [by apply step_refl|]. split; [done|]. split; [done|]. split; [done|].
    split.
    { intros r q' Hr (c0 & L0 & _). pose proof (fresh_lt st _ _ Fr L0). lia. }
    exists c, l, []. split; [done|]. split; [done|]. split; [done|]. split; [done|].
    split; [done|]. split; [done|]. split; [done|]. split; [done|].
    right. split; [apply reduces_refl|]. done. }
  pose proof (inv_fresh _ _ Hinv) as Fr.
  pose proof (fresh_lt_list st _ _ Fr L) as Ltq.
  pose proof (fresh_lt st _ _ Fr Lc) as Ltp.
  apply Forall_cons in Hwf as [Hwf1 Hwf].
  set (c_a := set_args (arg_p rest :: a) c).
  set (st_a := update_ctx st (parent l) c_a).
  assert (ctxs st_a = <[parent l := c_a]> (ctxs st)) as Ca by reflexivity.
  assert (Inv E st_a) as Inv_a.
  { apply (inv_update_ctx E st st_a (parent l) c c_a Hinv Lc Ca);
      [done|done|simpl; lia|done|done| |].
    - intros _. split; [done|]. split; [done|]. by exists rest, a.
    - intros [[h Hh'] _]. simpl in Hh'. congruence. }
  assert (step st st_a []) as Step_a.
  { apply step_quiet.
    - done.
    - simpl. lia.
    - intros x Hx'. rewrite Ca, lookup_insert_ne.
      + by destruct (Fr x Hx').
      + change (next_ptr st_a) with (next_ptr st) in Hx'. lia.
    - by rewrite app_nil_r.
    - apply silent_nil.
    - done.
    - intros x c0 L0. rewrite Ca. destruct (decide (x = parent l)) as [->|Ne].
      + rewrite lookup_insert_eq. exists c_a. split; [done|].
        rewrite Lc in L0. by injection L0 as <-.
      + rewrite lookup_insert_ne by done. by exists c0.
    - intros x Hx' N. rewrite Ca, lookup_insert_ne; [done|]. intros <-. congruence. }
  assert (forall w_free w_cb,
            (pot w_free w_cb st_a + cmd_weight w_free w_cb (waited sub) sub =
             pot w_free w_cb st)%nat) as Pot_a.
  { intros w_free w_cb. pose proof (pot_update w_free w_cb st st_a _ c c_a Lc Ca) as P.
    rewrite (ctx_weight_list _ _ c (sub :: rest) a Hh Ha) in P.
    rewrite (ctx_weight_list _ _ c_a rest a) in P by done.
    simpl in P. change (on_completion c_a) with (on_completion c) in P. lia. }
  assert (forall r q' : ptr, reports st_a r q' <-> reports st r q') as Rep_a.
  { intros r q'. by apply (reports_update st st_a (parent l) r q' c c_a). }
  assert (ctxs st_a !! parent l = Some c_a) as Lc_a.
  { rewrite Ca. apply lookup_insert_eq. }
  destruct (waited sub) eqn:W.
  - (* the list waits for the sub-command *)
    set (l_w := {| parent := parent l; current_valid := true; current := self;
                   completed_recursive := false |}).
    set (st_w := update_list st_a q l_w).
    assert (lists st_w = <[q := l_w]> (lists st)) as Lw by reflexivity.
    assert (Inv E st_w) as Inv_w.
    { apply (inv_flags E st_a st_w Inv_a); [done|done|simpl; lia|].
      intros x. destruct (decide (x = q)) as [->|Ne].
      - right. split; [done|]. exists l, l_w. split; [done|]. split; [|done].
        rewrite Lw. apply lookup_insert_eq.
      - left. rewrite Lw. by rewrite lookup_insert_ne. }
    assert (callback_ready E st_w self (Some callback_on_cmd_list_sub_completion)
              (Some q)) as Cr.
    { exists q, l_w. split; [done|]. split; [rewrite Lw; apply lookup_insert_eq|].
      split; [done|]. split; [done|]. split; [done|].
      intros r Hr Hrep. apply (NR r Hr). by apply Rep_a. }
    destruct (Hsub E self st_w None _ _ Inv_w ltac:(by intros X) Cr)
      as (st_b & new_b & Ret_b & Step_b & Pot_b & Inv_b & Fc_b & Nl_b & Root_b).
    pose proof (inv_fresh _ _ Inv_b) as Fr_b.
    pose proof (step_next _ _ _ Step_b) as Nx_b.
    change (next_ptr st_w) with (next_ptr st) in *.
    assert (ctxs st_b !! parent l = Some c_a) as Lc_b.
    { rewrite (Fc_b _ Ltp). done. }
    destruct Root_b as [(Dead & _ & _ & Fl_b)|(c_y & Ly & Hoc & Hpriv & Fl_b)].
    + (* the sub-command is complete *)
      set (l_d := {| parent := parent l; current_valid := true; current := self;
                     completed_recursive := true |}).
      assert (lists st_b !! q = Some l_d) as Lq_b.
      { rewrite (Fl_b _ Ltq). simpl. rewrite ?Lw, lookup_insert_eq. simpl.
        apply lookup_insert_eq. }
      set (l_c := {| parent := parent l; current_valid := false; current := self;
                     completed_recursive := true |}).
      set (st_c := update_list st_b q l_c).
      assert (lists st_c = <[q := l_c]> (lists st_b)) as Lcl by reflexivity.
      assert (Inv E st_c) as Inv_c.
      { apply (inv_flags E st_b st_c Inv_b); [done|done|simpl; lia|].
        intros x. destruct (decide (x = q)) as [->|Ne].
        - right. split; [done|]. exists l_d, l_c. split; [done|]. split; [|done].
          rewrite Lcl. apply lookup_insert_eq.
        - left. rewrite Lcl. by rewrite lookup_insert_ne. }
      assert (forall r : ptr, r ∉ E -> ~ reports st_c r q) as NR_c.
      { intros r Hr (c0 & L0 & Ho & Hv). change (ctxs st_c) with (ctxs st_b) in L0.
        destruct (Nat.lt_trichotomy r (next_ptr st)) as [Lt|[->|Gt]].
        - rewrite (Fc_b _ Lt) in L0. apply (NR r Hr). apply Rep_a. by exists c0.
        - congruence.
        - assert (reports st_b r q) as R by (by exists c0).
          pose proof (Nl_b r q Gt R). lia. }
      assert (lists st_c !! q = Some l_c) as Lq_c.
      { rewrite Lcl. apply lookup_insert_eq. }
      destruct (IH E st_c q l_c c_a a Inv_c Hq Hp Lq_c Lc_b Hh Hx eq_refl Hwf NR_c) as
        (st' & new' & Step' & Pot' & Fc' & Fl' & Nl' & c' & l' & subs' &
         Lc' & Hcmd & Hoc' & Hpr' & Ha' & Hwf' & Lq' & Hpar' & Cases).
      change (next_ptr st_c) with (next_ptr st_b) in *.
      change (parent l_c) with (parent l) in *.
      exists st', (new_b ++ new').
      split.
      { apply (step_trans st st_b st' new_b new'); [|].
        - apply (step_trans st st_a st_b [] new_b Step_a).
          apply (step_quiet_then st_a st_w st_b); done.
        - apply (step_quiet_then st_b st_c st'); done. }
      split.
      { intros w_free w_cb. rewrite trace_weight_app.
        specialize (Pot' w_free w_cb). specialize (Pot_b w_free w_cb).
        specialize (Pot_a w_free w_cb).
        change (pot w_free w_cb st_c) with (pot w_free w_cb st_b) in Pot'.
        change (pot w_free w_cb st_w) with (pot w_free w_cb st_a) in Pot_b.
        simpl in Pot_b. lia. }
      split.
      { intros x Hlt Ne. rewrite (Fc' x) by (done || lia).
        change (ctxs st_c) with (ctxs st_b). rewrite (Fc_b x Hlt).
        change (ctxs st_w) with (ctxs st_a). rewrite Ca. by rewrite lookup_insert_ne. }
      split.
      { intros x Hlt Ne. rewrite (Fl' x) by (done || lia).
        rewrite Lcl, lookup_insert_ne by done. rewrite (Fl_b x Hlt). simpl.
        rewrite ?Lw, lookup_insert_eq. simpl. rewrite lookup_insert_ne by done.
        rewrite ?Lw. by rewrite lookup_insert_ne. }
      split.
      { intros r q' Hr Hrep. destruct (decide (r < next_ptr st_b)%nat) as [Lt|Ge].
        - right. destruct Hrep as (c0 & L0 & Ho & Hv).
          rewrite (Fc' r) in L0 by (done || lia).
          change (ctxs st_c) with (ctxs st_b) in L0.
          destruct (decide (r = next_ptr st)) as [->|Ne]; [congruence|].
          assert (reports st_b r q') as R by (by exists c0).
          pose proof (Nl_b r q' ltac:(lia) R). lia.
        - destruct (Nl' r q' ltac:(lia) Hrep) as [->|Hge]; [by left|right]. lia. }
      exists c', l', subs'. split; [done|]. split; [done|]. split; [done|].
      split; [done|]. split; [done|]. split; [done|]. split; [done|]. split; [done|].
      destruct Cases as [(Ret' & Inv' & y & Hy & Ry)|(Red' & Inv' & Hs' & NR')].
      * left. split; [|split; [done|exists y; split; [lia|done]]].
        apply (returns_bind _ _ _ st_b st' (fun fuel => continue_waited fuel self st q l c sub rest a L Lc Ha W) Ret_b).
        destruct Ret' as [n Hn]. exists n. intros fuel Hfuel. cbv beta. rewrite Lq_b. simpl.
        by apply Hn.
      * right. split; [|done].
        apply (reduces_bind _ _ _ _ st_b (fun fuel => continue_waited fuel self st q l c sub rest a L Lc Ha W) Ret_b).
        destruct Red' as [n Hn]. exists n. intros fuel Hfuel. cbv beta. rewrite Lq_b. simpl.
        by apply Hn.
    + (* the sub-command is in progress *)
      assert (lists st_b !! q = Some l_w) as Lq_b.
      { rewrite (Fl_b _ Ltq). rewrite Lw. apply lookup_insert_eq. }
      set (l_c := {| parent := parent l; current_valid := false; current := self;
                     completed_recursive := false |}).
      set (st_c := update_list st_b q l_c).
      assert (lists st_c = <[q := l_c]> (lists st_b)) as Lcl by reflexivity.
      assert (Inv E st_c) as Inv_c.
      { apply (inv_flags E st_b st_c Inv_b); [done|done|simpl; lia|].
        intros x. destruct (decide (x = q)) as [->|Ne].
        - right. split; [done|]. exists l_w, l_c. split; [done|]. split; [|done].
          rewrite Lcl. apply lookup_insert_eq.
        - left. rewrite Lcl. by rewrite lookup_insert_ne. }
      exists st_c, new_b.
      split.
      { apply (step_trans st st_a st_c [] new_b Step_a).
        apply (step_quiet_then st_a st_w st_c); try done.
        apply (step_then_quiet st_w st_b st_c); done. }
      split.
      { intros w_free w_cb. specialize (Pot_b w_free w_cb).
        specialize (Pot_a w_free w_cb).
        change (pot w_free w_cb st_c) with (pot w_free w_cb st_b).
        change (pot w_free w_cb st_w) with (pot w_free w_cb st_a) in Pot_b.
        simpl in Pot_b. lia. }
      split.
      { intros x Hlt Ne. change (ctxs st_c) with (ctxs st_b). rewrite (Fc_b x Hlt).
        change (ctxs st_w) with (ctxs st_a). rewrite Ca. by rewrite lookup_insert_ne. }
      split.
      { intros x Hlt Ne. rewrite Lcl, lookup_insert_ne by done. rewrite (Fl_b x Hlt).
        rewrite Lw. by rewrite lookup_insert_ne. }
      split.
      { intros r q' Hr (c0 & L0 & Ho & Hv). change (ctxs st_c) with (ctxs st_b) in L0.
        destruct (decide (r = next_ptr st)) as [->|Ne].
        - left. rewrite Ly in L0. injection L0 as <-. congruence.
        - right. assert (reports st_b r q') as R by (by exists c0).
          pose proof (Nl_b r q' ltac:(lia) R). lia. }
      exists c_a, l_c, rest. split; [done|]. split; [done|]. split; [done|].
      split; [done|]. split; [done|]. split; [done|].
      split; [rewrite Lcl; apply lookup_insert_eq|]. split; [done|].
      left. split; [|split].
      * apply (returns_bind _ _ _ st_b st_c (fun fuel => continue_waited fuel self st q l c sub rest a L Lc Ha W) Ret_b).
        exists 0%nat. intros fuel _. cbv beta. by rewrite Lq_b.
      * assert (lists st_c !! q = Some l_c) as Lq_c.
        { rewrite Lcl. apply lookup_insert_eq. }
        apply (inv_release_list E st_c q (next_ptr st) l_c Inv_c Hq Lq_c eq_refl).
        -- by exists c_y.
        -- exists c_a. split; [done|]. split; [done|]. split; [done|]. by exists rest, a.
      * exists (next_ptr st). split; [done|]. by exists c_y.
  - (* the sub-command runs detached *)
    destruct (Hsub E self st_a None None None Inv_a ltac:(by intros X) I)
      as (st_b & new_b & Ret_b & Step_b & Pot_b & Inv_b & Fc_b & Nl_b & Root_b).
    pose proof (inv_fresh _ _ Inv_b) as Fr_b.
    pose proof (step_next _ _ _ Step_b) as Nx_b.
    change (next_ptr st_a) with (next_ptr st) in *.
    assert (ctxs st_b !! parent l = Some c_a) as Lc_b.
    { rewrite (Fc_b _ Ltp). done. }
    assert (forall x : ptr, (x < next_ptr st)%nat -> lists st_b !! x = lists st !! x) as Fl_b.
    { intros x Hlt. destruct Root_b as [(_ & _ & _ & Fl_b)|(c_y & _ & _ & _ & Fl_b)];
        by rewrite (Fl_b x Hlt). }
    assert (forall q' : ptr, ~ reports st_b (next_ptr st) q') as NoRoot.
    { intros q' (c0 & L0 & Ho & _).
      destruct Root_b as [(Dead & _)|(c_y & Ly & Hoc & _)]; congruence. }
    assert (forall r : ptr, r ∉ E -> ~ reports st_b r q) as NR_b.
    { intros r Hr Hrep.
      destruct (Nat.lt_trichotomy r (next_ptr st)) as [Lt|[->|Gt]].
      - destruct Hrep as (c0 & L0 & Ho & Hv).
        rewrite (Fc_b _ Lt) in L0. apply (NR r Hr). apply Rep_a. by exists c0.
      - by apply (NoRoot q).
      - pose proof (Nl_b r q Gt Hrep). lia. }
    assert (lists st_b !! q = Some l) as Lq_b.
    { by rewrite (Fl_b _ Ltq). }
    destruct (IH E st_b q l c_a a Inv_b Hq Hp Lq_b Lc_b Hh Hx eq_refl Hwf NR_b) as
      (st' & new' & Step' & Pot' & Fc' & Fl' & Nl' & c' & l' & subs' &
       Lc' & Hcmd & Hoc' & Hpr' & Ha' & Hwf' & Lq' & Hpar' & Cases).
    exists st', (new_b ++ new').
    split.
    { apply (step_trans st st_b st' new_b new'); [|done].
      by apply (step_trans st st_a st_b [] new_b Step_a). }
    split.
    { intros w_free w_cb. rewrite trace_weight_app.
      specialize (Pot' w_free w_cb). specialize (Pot_b w_free w_cb).
      specialize (Pot_a w_free w_cb). simpl in Pot_b. lia. }
    split.
    { intros x Hlt Ne. rewrite (Fc' x) by (done || lia). rewrite (Fc_b x Hlt).
      rewrite Ca. by rewrite lookup_insert_ne. }
    split.
    { intros x Hlt Ne. rewrite (Fl' x) by (done || lia). by rewrite (Fl_b x Hlt). }
    split.
    { intros r q' Hr Hrep. destruct (decide (r < next_ptr st_b)%nat) as [Lt|Ge].
      - right. destruct Hrep as (c0 & L0 & Ho & Hv).
        rewrite (Fc' r) in L0 by (done || lia).
        assert (reports st_b r q') as R by (by exists c0).
        destruct (decide (r = next_ptr st)) as [->|Ne]; [by destruct (NoRoot q')|].
        pose proof (Nl_b r q' ltac:(lia) R). lia.
      - destruct (Nl' r q' ltac:(lia) Hrep) as [->|Hge]; [by left|right]. lia. }
    exists c', l', subs'. split; [done|]. split; [done|]. split; [done|].
    split; [done|]. split; [done|]. split; [done|]. split; [done|]. split; [done|].
    destruct Cases as [(Ret' & Inv' & y & Hy & Ry)|(Red' & Inv' & Hs' & NR')].
    * left. split; [|split; [done|exists y; split; [lia|done]]].
      by apply (returns_bind _ _ (fun s fuel => continue_cmd_list fuel self s q) st_b st'
                  (fun fuel => continue_detached fuel self st q l c sub rest a L Lc Ha W) Ret_b).
    * right. split; [|done].
      by apply (reduces_bind _ _ _ (fun s fuel => continue_cmd_list fuel self s q) st_b
                  (fun fuel => continue_detached fuel self st q l c sub rest a L Lc Ha W) Ret_b).
Qed.

(** *** The list command *)

Lemma union_diff_1 (E : gset ptr) (x y : ptr) :
  x ∉ E -> y ∉ E -> (E ∪ {[x]} ∪ {[y]}) ∖ {[y]} ∖ {[x]} = E.
Proof.
  intros Nx Ny. apply set_eq. intros e.
  rewrite !elem_of_difference, !elem_of_union, !elem_of_singleton.
  split; [intuition congruence|]. intros He. repeat split; [auto|congruence..].
Qed.

Lemma union_diff_2 (E : gset ptr) (x y : ptr) :
  x ∉ E -> y ∉ E -> (E ∪ {[x]} ∪ {[y]}) ∖ {[x]} ∖ {[y]} = E.
Proof.
  intros Nx Ny. apply set_eq. intros e.
  rewrite !elem_of_difference, !elem_of_union, !elem_of_singleton.
  split; [intuition congruence|]. intros He. repeat split; [auto|congruence..].
Qed.

Lemma returns_shift k (f g : nat -> outcome MPContext) st' :
  (forall fuel, f (k + fuel)%nat = g fuel) -> returns g st' -> returns f st'.
Proof.
  intros Hf [n Hg]. exists (k + n)%nat. intros fuel Hfuel.
  replace fuel with (k + (fuel - k))%nat by lia. rewrite Hf. apply Hg. lia.
Qed.

Lemma expanded_list (st : MPContext) fl subs :
  expanded st (mk_mp_cmd mp_cmd_list fl [arg_p subs]) = ([arg_p subs], true).
Proof. unfold expanded. by destruct (negb _). Qed.

(** the state in which [cmd_list] enters the loop: the context of the list
    command at [next_ptr st], the context of the list right after it *)
Lemma run_command_list_unfold fuel self (st : MPContext) fl subs abort oc priv :
  let cmd := mk_mp_cmd mp_cmd_list fl [arg_p subs] in
  abort_allowed cmd abort ->
  run_command (S (S (S fuel))) self st cmd abort oc priv =
  continue_cmd_list fuel self
    {| rest := rest st;
       ctxs := <[next_ptr st :=
                   set_completed false (new_ctx cmd abort oc priv [arg_p subs] true)]>
                 (ctxs st);
       lists := <[S (next_ptr st) :=
                    {| parent := next_ptr st; current_valid := false;
                       current := 0%nat; completed_recursive := false |}]>
                  (lists st);
       next_ptr := S (S (next_ptr st));
       thread_pool := thread_pool st;
       outstanding_async := outstanding_async st;
       abort_list := abort_list st;
       trace := trace st ++ [ev_handler (next_ptr st) "list"] |}
    (S (next_ptr st)).
Proof.
  intros cmd Ab. rewrite (run_command_unfold _ _ _ _ _ _ _ Ab).
  unfold cmd at 1. rewrite expanded_list. simpl.
  rewrite call_handler_S. unfold call_handler_body. simpl.
  rewrite lookup_insert_eq. simpl.
  rewrite cmd_list_S. unfold cmd_list_body. simpl.
  rewrite lookup_insert_eq. simpl.
  unfold update_ctx, update_list, set_ctxs, set_lists, set_next_ptr, log. simpl.
  rewrite insert_insert_eq, app_nil_r.
  destruct (continue_cmd_list fuel self _ _); reflexivity.
Qed.

Lemma lists_after_frame (st st' : MPContext) oc priv (x : ptr) :
  (oc = Some callback_on_cmd_list_sub_completion ->
   forall q : ptr, priv = Some q -> lists st' !! q = lists st !! q) ->
  lists st' !! x = lists st !! x ->
  lists_after st' oc priv !! x = lists_after st oc priv !! x.
Proof.
  intros Hq Hx. unfold lists_after. destruct oc as [[|f]|]; try done.
  destruct priv as [q|]; [|done]. rewrite (Hq eq_refl q eq_refl).
  destruct (lists st !! q) as [l|]; [|done].
  destruct (decide (x = q)) as [->|Ne].
  - by rewrite !lookup_insert_eq.
  - by rewrite !lookup_insert_ne.
Qed.

Lemma lists_after_none E (st : MPContext) self oc priv (x : ptr) :
  callback_ready E st self oc priv ->
  lists st !! x = None -> lists_after st oc priv !! x = None.
Proof.
  intros Cr N. destruct (lists_after_lookup E st self oc priv x Cr) as [->|(_ & l & l' & L & _)];
    [done|congruence].
Qed.

Lemma lists_after_some E (st : MPContext) self oc priv (x : ptr) :
  callback_ready E st self oc priv ->
  is_Some (lists st !! x) -> is_Some (lists_after st oc priv !! x).
Proof.
  intros Cr [l L].
  destruct (lists_after_lookup E st self oc priv x Cr) as [->|(_ & l0 & l' & _ & L' & _)];
    [by exists l|by exists l'].
Qed.

Lemma run_command_list_spec fl subs :
  Forall run_command_spec subs -> Forall wf_cmd subs ->
  run_command_spec (mk_mp_cmd mp_cmd_list fl [arg_p subs]).
Proof.
  intros HA Hwf E self st abort oc priv Hinv Ab Cr.
  set (cmd := mk_mp_cmd mp_cmd_list fl [arg_p subs]) in *.
  set (x := next_ptr st).
  set (c1 := set_completed false (new_ctx cmd abort oc priv [arg_p subs] true)
             : mp_cmd_ctx).
  set (l0 := {| parent := x; current_valid := false; current := 0%nat;
                completed_recursive := false |}).
  set (s1 := {| rest := rest st;
                ctxs := <[x := c1]> (ctxs st);
                lists := <[S x := l0]> (lists st);
                next_ptr := S (S x);
                thread_pool := thread_pool st;
                outstanding_async := outstanding_async st;
                abort_list := abort_list st;
                trace := trace st ++ [ev_handler x "list"] |}).
  pose proof (inv_fresh _ _ Hinv) as Fr.
  assert (x ∉ E) as Hxe.
  { intros X. pose proof (inv_held _ _ Hinv x X). unfold x in *. lia. }
  assert (S x ∉ E) as Hse.
  { intros X. pose proof (inv_held _ _ Hinv (S x) X). unfold x in *. lia. }
  assert (ctxs st !! x = None) as Nx by (by destruct (Fr x ltac:(unfold x; lia))).
  set (E1 := E ∪ {[x]} ∪ {[S x]}).
  assert (oc = Some callback_on_cmd_list_sub_completion ->
            exists (q : ptr) l, priv = Some q /\ lists st !! q = Some l /\
              current_valid l = true /\ current l = self /\ (q ∈ E) /\
              (q < x)%nat /\ forall r : ptr, r ∉ E -> ~ reports st r q) as Cb0.
  { intros ->. destruct Cr as (q & l & Hp & L & Cv & Cu & Hq & NR).
    exists q, l. repeat (split; [done|]). split; [|done].
    by apply (inv_held _ _ Hinv). }
  set (s_m := set_next_ptr (update_ctx st x c1) (S x)).
  assert (Inv (E ∪ {[x]}) s_m) as Inv_m.
  { apply (inv_alloc_ctx E st s_m c1 Hinv); [done|done|done|done| |].
    - left. split; [done|]. split; [done|]. by exists subs, [].
    - intros Ho. destruct (Cb0 Ho) as (q & l & Hp & _ & _ & _ & _ & Lt & _).
      by exists q. }
  assert (Inv E1 s1) as Inv_1.
  { by apply (inv_alloc_list (E ∪ {[x]}) s_m s1 l0 Inv_m). }
  assert (S x ∈ E1) as HS1 by apply in_union_r.
  assert (x ∈ E1) as Hx1 by apply in_union_l, in_union_r.
  assert (lists s1 !! S x = Some l0) as Ll by apply lookup_insert_eq.
  assert (ctxs s1 !! x = Some c1) as Lc1 by apply lookup_insert_eq.
  assert (forall r : ptr, r ∉ E1 -> ~ reports s1 r (S x)) as NR1.
  { intros r Hr (c0 & L0 & Ho & Hv).
    destruct (inv_cb _ _ Inv_1 r c0 L0 Ho) as (q & Hq & Lt).
    pose proof (fresh_lt s1 _ _ (inv_fresh _ _ Inv_1) L0) as Lt'. simpl in Lt'.
    assert (r <> x) as Ne.
    { intros ->. apply Hr. apply Hx1. }
    rewrite Hv in Hq. injection Hq as <-.
    simpl in L0. rewrite lookup_insert_ne in L0 by done.
    pose proof (fresh_lt st _ _ Fr L0). unfold x in *. lia. }
  destruct (continue_cmd_list_loop self subs HA E1 s1 (S x) l0 c1 [] Inv_1 HS1 Hx1
              Ll Lc1 eq_refl eq_refl eq_refl Hwf NR1)
    as (st' & new & Step' & Pot' & Fc' & Fl' & Nl' & c' & l' & subs' &
        Lc' & Hcmd & Hoc' & Hpr' & Ha' & Hwf' & Lq' & Hpar' & Cases).
  change (parent l0) with x in *. change (next_ptr s1) with (S (S x)) in *.
  change (on_completion c1) with oc in Hoc'.
  change (on_completion_priv c1) with priv in Hpr'.
  assert (forall (p : ptr) c, ctxs st' !! p = Some c -> lists st' !! p = None) as Ap'.
  { destruct Cases as [(_ & I & _)|(_ & I & _)]; exact (inv_apart _ _ I). }
  assert (forall x0 : ptr, (x0 < x)%nat -> ctxs st' !! x0 = ctxs st !! x0) as Fc.
  { intros x0 Lt. rewrite (Fc' x0) by lia. simpl. by rewrite lookup_insert_ne by lia. }
  assert (forall x0 : ptr, (x0 < x)%nat -> lists st' !! x0 = lists st !! x0) as Fl.
  { intros x0 Lt. rewrite (Fl' x0) by lia. simpl. by rewrite lookup_insert_ne by lia. }
  assert (forall r q : ptr, (x < r)%nat -> reports st' r q -> (x < q)%nat) as Nl.
  { intros r q Lt Hrep. destruct (decide (r = S x)) as [->|Ne].
    - destruct Hrep as (c0 & L0 & _). rewrite (Ap' _ _ L0) in Lq'. done.
    - destruct (Nl' r q ltac:(lia) Hrep) as [->|Ge]; lia. }
  assert (callback_ready E1 st' self oc priv) as Cr1.
  { destruct oc as [[|f]|]; try done.
    destruct (Cb0 eq_refl) as (q & l & Hp & L & Cv & Cu & Hq & Lt & NR).
    exists q, l. split; [done|]. split; [by rewrite (Fl q Lt)|].
    split; [done|]. split; [done|]. split; [by apply in_union_l, in_union_l|].
    intros r Hr Hrep. apply not_in_union in Hr as [Hr Ne1].
    apply not_in_union in Hr as [Hr Ne2].
    destruct (Nat.lt_trichotomy r x) as [Lt'|[->|Gt]]; [|done|].
    - destruct Hrep as (c0 & L0 & Ho & Hv). rewrite (Fc r Lt') in L0.
      apply (NR r Hr). by exists c0.
    - pose proof (Nl r q Gt Hrep). lia. }
  assert (step st s1 [ev_handler x "list"]) as Step1.
  { apply step_quiet.
    - done.
    - simpl. unfold x. lia.
    - intros x0 Hx0. simpl in *. rewrite lookup_insert_ne by lia.
      destruct (Fr x0); [unfold x in *; lia|done].
    - done.
    - apply silent_handler.
    - done.
    - intros x0 c0 L0. exists c0. split; [|done]. simpl.
      rewrite lookup_insert_ne; [done|]. intros <-. congruence.
    - intros x0 Lt N. simpl. rewrite lookup_insert_ne; [done|]. unfold x. lia. }
  assert (forall w_free w_cb,
            pot w_free w_cb s1 =
            (cmd_weight w_free w_cb (if oc is Some _ then true else false) cmd +
             pot w_free w_cb st)%nat) as Pot1.
  { intros w_free w_cb. rewrite (pot_alloc w_free w_cb st s1 x c1 Nx eq_refl).
    rewrite (ctx_weight_list _ _ c1 subs []) by done.
    unfold cmd. rewrite cmd_weight_list. simpl. by destruct oc. }
  destruct Cases as [(Ret' & Inv' & _)|(Red' & Inv' & -> & NR')].
  - (* a sub-command is in progress *)
    exists st', ([ev_handler x "list"] ++ new).
    split.
    { apply (returns_shift 3 _ (fun fuel => continue_cmd_list fuel self s1 (S x))); [|done].
      intros fuel. by apply run_command_list_unfold. }
    split; [by apply (step_trans st s1 st')|].
    split.
    { intros w_free w_cb. rewrite trace_weight_app.
      rewrite (silent_weight _ _ _ (silent_handler x "list")).
      specialize (Pot' w_free w_cb). rewrite Pot1 in Pot'. lia. }
    split.
    { rewrite <- (union_diff_1 E x (S x) Hxe Hse).
      apply (inv_release_ctx _ st' x c' Inv').
      - apply elem_of_difference. split; [done|]. intros X%elem_of_singleton. lia.
      - done.
      - intros q Hrep. destruct Hrep as (c0 & L0 & Ho & Hv).
        rewrite Lc' in L0. injection L0 as <-. rewrite Hoc' in Ho. rewrite Hpr' in Hv.
        pose proof Cr1 as Cr2. rewrite Ho in Cr2.
        destruct Cr2 as (q0 & l & Hp & L & Cv & Cu & Hq & NR).
        rewrite Hv in Hp. injection Hp as <-. split; [by exists l|].
        intros r [Hr'| ->]%not_in_diff; [by apply NR|].
        intros (c0 & L0 & _). rewrite (Ap' _ _ L0) in Lq'. done.
      - split; [by exists l'|]. apply not_in_diff_2. }
    split; [done|]. split; [done|].
    right. exists c'. split; [done|]. split; [done|]. split; [done|]. done.
  - (* every sub-command was submitted: the list command is complete *)
    assert (returns_at_once st' self (on_completion c') (on_completion_priv c')) as Rao.
    { rewrite Hoc', Hpr'. by apply (callback_ready_at_once E1). }
    set (s_f := {| rest := rest st';
                   ctxs := delete x (ctxs st');
                   lists := lists_after st' oc priv;
                   next_ptr := next_ptr st';
                   thread_pool := thread_pool st';
                   outstanding_async := outstanding_async st';
                   abort_list := if Command.abort c' is Some _
                                 then filter (fun y => y <> x) (abort_list st')
                                 else abort_list st';
                   trace := trace st' ++ completion_events x oc (success c') |}).
    set (s_g := set_lists s_f (delete (S x) (lists s_f))).
    assert (forall fuel, (2 <= fuel)%nat -> mp_cmd_ctx_complete fuel self st' x = Ok s_f) as Hcomp.
    { intros fuel Hfuel. rewrite (mp_cmd_ctx_complete_at_once fuel self st' x c' Hfuel Lc' Rao).
      unfold s_f. by rewrite Hoc', Hpr'. }
    assert (is_Some (lists s_f !! S x)) as Ls_f.
    { apply (lists_after_some E1 st' self oc priv (S x) Cr1). by exists l'. }
    assert (returns (fun fuel => continue_cmd_list fuel self st' (S x)) s_g) as Ret_g.
    { exists 3%nat. intros fuel Hfuel. destruct fuel as [|fuel]; [lia|].
      rewrite (continue_end fuel self st' (S x) l' c' [] Lq') by (by rewrite ?Hpar').
      rewrite Hpar', Hcomp by lia. destruct Ls_f as [l2 L2]. unfold ptr in *.
      by rewrite L2. }
    set (s_x := set_ctxs st' (delete x (ctxs st'))).
    assert (Inv E1 s_x) as Inv_x.
    { apply (inv_delete_ctx E1 st' s_x x Inv' Hx1); [done|done|done|simpl; lia| |].
      - intros q l L Hp. destruct (inv_par _ _ Inv' q l L) as [-> _]. by rewrite Hp.
      - intros q l (c0 & L0 & Ho & Hv) L Hq. exfalso.
        rewrite Lc' in L0. injection L0 as <-. rewrite Hoc' in Ho. rewrite Hpr' in Hv.
        pose proof Cr1 as Cr2. rewrite Ho in Cr2.
        destruct Cr2 as (q0 & l1 & Hp & _ & _ & _ & Hq0 & _).
        rewrite Hv in Hp. injection Hp as <-. done. }
    assert (Inv E1 s_f) as Inv_f.
    { apply (inv_flags E1 s_x s_f Inv_x); [done|done|simpl; lia|].
      intros x0. by apply (lists_after_lookup E1 st' self oc priv x0). }
    assert (Inv E1 s_g) as Inv_g.
    { apply (inv_delete_list E1 s_f s_g (S x) Inv_f HS1); [done|done|done|simpl; lia|].
      intros r Hr (c0 & L0 & X). apply (NR' r Hr). exists c0. split; [|done].
      simpl in L0. by apply lookup_delete_Some in L0 as [_ L0]. }
    assert (ctxs s_g !! x = None) as Dx by (simpl; apply lookup_delete_eq).
    assert (Inv E s_g) as Inv_e.
    { rewrite <- (union_diff_2 E x (S x) Hxe Hse). apply inv_shrink; [apply inv_shrink|..].
      - done.
      - done.
      - simpl. apply lookup_delete_None. right.
        apply (lists_after_none E1 st' self oc priv x Cr1). by apply (Ap' x c').
      - simpl. apply lookup_delete_None. right.
        destruct (ctxs st' !! S x) as [c0|] eqn:L0; [|done].
        rewrite (Ap' _ _ L0) in Lq'. done.
      - simpl. apply lookup_delete_eq. }
    exists s_g, ([ev_handler x "list"] ++ new ++ completion_events x oc (success c')).
    split.
    { apply (returns_shift 3 _ (fun fuel => continue_cmd_list fuel self s1 (S x))).
      - intros fuel. by apply run_command_list_unfold.
      - by apply (returns_reduces _ _ _ Red'). }
    assert (step st' s_g (completion_events x oc (success c'))) as Step_g.
    { rewrite <- Hoc'. apply (step_complete_at_once st' s_g x c' (success c')); try done.
      - by apply (inv_fresh _ _ Inv').
      - simpl. by rewrite Hoc'. }
    split.
    { apply (step_trans st s1 s_g _ _ Step1). by apply (step_trans s1 st' s_g). }
    split.
    { intros w_free w_cb. rewrite !trace_weight_app.
      rewrite (silent_weight _ _ _ (silent_handler x "list")).
      rewrite trace_weight_completion.
      specialize (Pot' w_free w_cb). rewrite Pot1 in Pot'.
      pose proof (pot_free w_free w_cb st' s_g x c' Lc' eq_refl) as Pf.
      rewrite (ctx_weight_list _ _ c' [] []) in Pf; [|by rewrite Hcmd|done].
      rewrite Hoc' in Pf. simpl in Pf. destruct oc; simpl in *; lia. }
    split; [done|].
    split.
    { intros x0 Lt. simpl. rewrite lookup_delete_ne by lia. by apply Fc. }
    split.
    { intros r q Lt (c0 & L0 & X). apply (Nl r q Lt). exists c0. split; [|done].
      simpl in L0. by apply lookup_delete_Some in L0 as [_ L0]. }
    left. split; [done|].
    destruct (step_live _ _ _ Step' x c' Lc') as [F0 C0].
    split.
    { rewrite !times_freed_app, times_freed_completion, F0, Nat.eqb_refl. done. }
    split.
    { rewrite !times_completed_app, times_completed_completion_at, C0, Nat.eqb_refl.
      simpl. by destruct oc. }
    intros x0 Lt. simpl. rewrite lookup_delete_ne by lia.
    apply lists_after_frame; [|by apply Fl].
    intros Ho q Hp.
    destruct (Cb0 Ho) as (q0 & l & Hp0 & _ & _ & _ & _ & Lt0 & _).
    rewrite Hp in Hp0. injection Hp0 as <-. by apply Fl.
Qed.

Lemma cmd_weight_no_cb w_free cb c :
  cmd_weight w_free 0 cb c = cmd_weight w_free 0 false c.
Proof. destruct c as [d fl a]. by destruct cb. Qed.

Lemma commands_pos c : (1 <= commands c)%nat.
Proof. destruct c as [d fl a]. unfold commands. simpl. lia. Qed.

Lemma commands_sub s subs :
  s ∈ subs -> (commands s <= subs_weight 1 0 subs)%nat.
Proof.
  induction 1 as [s subs|s s' subs Hin IH]; simpl.
  - rewrite cmd_weight_no_cb. unfold commands. lia.
  - lia.
Qed.

(** every command of the table: [run_command] returns, with the command
    complete or in progress *)
Lemma run_command_all cmd : wf_cmd cmd -> run_command_spec cmd.
Proof.
  assert (forall n cmd, (commands cmd <= n)%nat -> wf_cmd cmd -> run_command_spec cmd) as G.
  { clear cmd. induction n as [|n IH]; intros cmd Hn Hwf.
    { pose proof (commands_pos cmd). lia. }
    destruct (wf_cmd_cases cmd Hwf) as [(fl & subs & -> & Hsubs)|[[h Hh] Hx]].
    - apply run_command_list_spec; [|done].
      apply Forall_forall. intros s Hs. apply IH.
      + pose proof (commands_sub s subs Hs) as Le.
        unfold commands in Hn. rewrite cmd_weight_list in Hn. lia.
      + by apply (proj1 (Forall_forall _ _) Hsubs).
    - by apply (run_command_plain cmd h). }
  intros Hwf. by apply (G (commands cmd)).
Qed.

(** *** The completion of a context that a list waits for *)

Lemma list_shaped_not_plain (c : mp_cmd_ctx) : list_shaped c -> plain c -> False.
Proof. intros (Hh & _) [[h Hh'] _]. congruence. Qed.

Lemma completing_fields (c : mp_cmd_ctx) :
  cmd (completing c) = cmd c /\ args (completing c) = args c /\
  on_completion (completing c) = on_completion c /\
  on_completion_priv (completing c) = on_completion_priv c /\
  success (completing c) = success c /\
  Command.abort (completing c) = Command.abort c.
Proof. unfold completing. simpl. destruct (success c) eqn:Hs; simpl; repeat split; done. Qed.

Lemma completable_weight E (st : MPContext) p c w_free w_cb :
  completable E st p c ->
  ctx_weight w_free w_cb c =
  (w_free + (if on_completion c is Some _ then w_cb else 0))%nat.
Proof.
  intros [Pl|(Hh & [a Ha] & _)].
  - by apply ctx_weight_plain.
  - rewrite (ctx_weight_list _ _ c [] a Hh Ha). simpl. lia.
Qed.

Lemma complete_waiting fuel self (st : MPContext) (p q : ptr) c l :
  ctxs st !! p = Some c ->
  on_completion c = Some callback_on_cmd_list_sub_completion ->
  on_completion_priv c = Some q ->
  lists st !! q = Some l -> current_valid l = false ->
  mp_cmd_ctx_complete (S (S fuel)) self st p =
  match continue_cmd_list fuel self
          (log (update_ctx st p (completing c))
               (ev_on_completion p callback_on_cmd_list_sub_completion (success c))) q with
  | Ok s2 =>
      match ctxs s2 !! p with
      | None => Fault
      | Some c3 =>
          let s := if Command.abort c3 is Some _ then mp_abort_remove s2 p else s2 in
          Ok (log (set_ctxs s (delete p (ctxs s))) (ev_free p))
      end
  | Fault => Fault
  | OutOfFuel => OutOfFuel
  end.
Proof.
  intros Lc Hoc Hpr Lq Cv.
  rewrite mp_cmd_ctx_complete_S. unfold mp_cmd_ctx_complete_body. rewrite Lc.
  destruct (completing_fields c) as (_ & _ & Ho & Hv & Hs & _).
  fold (completing c). cbv zeta. rewrite Ho, Hoc, Hs.
  rewrite on_cmd_list_sub_completion_S. unfold on_cmd_list_sub_completion_body.
  simpl. rewrite lookup_insert_eq, Hv, Hpr, Lq, Cv. simpl.
  reflexivity.
Qed.

Lemma returns_bind_2 (f g : nat -> outcome MPContext)
    (h : MPContext -> outcome MPContext) s st' :
  (forall fuel, f (S (S fuel)) = match g fuel with
                                 | Ok s => h s
                                 | Fault => Fault
                                 | OutOfFuel => OutOfFuel
                                 end) ->
  returns g s -> h s = Ok st' -> returns f st'.
Proof.
  intros Hf [n Hg] Hh. exists (S (S n)). intros fuel Hfuel.
  destruct fuel as [|[|fuel]]; [lia|lia|]. rewrite Hf, Hg by lia. done.
Qed.

Lemma returns_bind_1 (f g : nat -> outcome MPContext)
    (h : MPContext -> outcome MPContext) s st' :
  (forall fuel, f (S fuel) = match g fuel with
                             | Ok s => h s
                             | Fault => Fault
                             | OutOfFuel => OutOfFuel
                             end) ->
  returns g s -> h s = Ok st' -> returns f st'.
Proof.
  intros Hf [n Hg] Hh. exists (S n). intros fuel Hfuel.
  destruct fuel as [|fuel]; [lia|]. rewrite Hf, Hg by lia. done.
Qed.

Lemma union_diff_3 (E : gset ptr) (x y p : ptr) :
  x ∉ E -> y ∉ E -> (E ∪ {[x]} ∪ {[y]}) ∖ {[y]} ∖ {[x]} ∖ {[p]} = E ∖ {[p]}.
Proof. intros Nx Ny. by rewrite union_diff_1. Qed.

Lemma union_diff_4 (E : gset ptr) (x y p : ptr) :
  x ∉ E -> y ∉ E -> (E ∪ {[x]} ∪ {[y]}) ∖ {[x]} ∖ {[y]} ∖ {[p]} = E ∖ {[p]}.
Proof. intros Nx Ny. by rewrite union_diff_2. Qed.

(** [mp_cmd_ctx_complete] on a context that a function holds, whatever
    callback it has: it returns, the callback was called once and the
    context is gone.  If a list waited for the context, the list has gone on:
    it waits for another sub-command, or the list command is complete as
    well, and so on upwards. *)
Lemma mp_cmd_ctx_complete_spec self (n : nat) :
  forall (p : ptr) (E : gset ptr) (st : MPContext) c,
    (p < n)%nat ->
    Inv E st -> p ∈ E -> (forall e : ptr, e ∈ E -> (p <= e)%nat) ->
    ctxs st !! p = Some c -> completable E st p c ->
    (forall q : ptr, reports st p q ->
       is_Some (lists st !! q) /\ forall r : ptr, r ∉ E -> ~ reports st r q) ->
    (forall e q : ptr, e ∈ E -> e <> p -> reports st e q -> (p < q)%nat) ->
    exists st' new,
      returns (fun fuel => mp_cmd_ctx_complete fuel self st p) st' /\
      step st st' new /\
      (forall w_free w_cb,
         (trace_weight w_free w_cb new + pot w_free w_cb st' = pot w_free w_cb st)%nat) /\
      Inv (E ∖ {[p]}) st' /\
      ctxs st' !! p = None /\
      (forall x : ptr, (p < x)%nat -> (x < next_ptr st)%nat ->
         ctxs st' !! x = ctxs st !! x /\ lists st' !! x = lists st !! x) /\
      (forall r q : ptr, (next_ptr st <= r)%nat -> reports st' r q ->
         (q < p)%nat \/ (next_ptr st <= q)%nat).
Proof.
  induction n as [|n IH]; intros p E st c Hn Hinv Hp Hmin Lc Hcomp Link Held; [lia|].
  pose proof (inv_fresh _ _ Hinv) as Fr.
  pose proof (fresh_lt st _ _ Fr Lc) as Ltp.
  assert (forall (E0 : gset ptr) (s : MPContext) c0,
            Inv E0 s -> ctxs s !! p = Some c0 -> cmd c0 = cmd c ->
            (S p ∈ E -> S p ∈ E0) ->
            forall (q' : ptr) l, lists s !! q' = Some l -> parent l = p -> q' ∈ E0)
    as ChildOK.
  { intros E0 s c0 I0 L0 Hc0 Sub q' l Lq' Hpar.
    destruct (decide (q' ∈ E0)) as [|N]; [done|].
    destruct (inv_par _ _ I0 q' l Lq') as [-> P2]. rewrite Hpar in *.
    destruct (P2 N) as (c1 & L1 & (Hh & _)). unfold ptr in *.
    rewrite L0 in L1. injection L1 as <-.
    rewrite Hc0 in Hh. destruct Hcomp as [[[h Hh'] _]|(_ & _ & _ & Hin)]; [congruence|].
    by destruct N; apply Sub. }
  assert (on_completion c = Some callback_on_cmd_list_sub_completion \/
          on_completion c <> Some callback_on_cmd_list_sub_completion) as [Hoc|Hoc].
  { destruct (on_completion c) as [[|f]|]; [by left|by right|by right]. }
  2:{ (* no list waits: the callback returns at once *)
    assert (returns_at_once st self (on_completion c) (on_completion_priv c)) as Rao.
    { by destruct (on_completion c) as [[|f]|]. }
    assert (lists_after st (on_completion c) (on_completion_priv c) = lists st) as La.
    { by destruct (on_completion c) as [[|f]|]. }
    set (s' := {| rest := rest st;
                  ctxs := delete p (ctxs st);
                  lists := lists_after st (on_completion c) (on_completion_priv c);
                  next_ptr := next_ptr st;
                  thread_pool := thread_pool st;
                  outstanding_async := outstanding_async st;
                  abort_list := if Command.abort c is Some _
                                then filter (fun y => y <> p) (abort_list st)
                                else abort_list st;
                  trace := trace st ++
                           completion_events p (on_completion c) (success c) |}).
    exists s', (completion_events p (on_completion c) (success c)).
    split.
    { exists 2%nat. intros fuel Hfuel.
      by rewrite (mp_cmd_ctx_complete_at_once fuel self st p c Hfuel Lc Rao). }
    split; [by apply (step_complete_at_once st s' p c)|].
    split.
    { intros w_free w_cb. rewrite trace_weight_completion.
      rewrite (pot_free w_free w_cb st s' p c Lc eq_refl).
      rewrite (completable_weight E st p c _ _ Hcomp). lia. }
    split.
    { apply inv_shrink.
      - apply (inv_delete_ctx E st s' p Hinv Hp); [done|done|done|simpl; lia| |].
        + by apply (ChildOK E st c).
        + intros q l (c0 & L0 & Ho & _). congruence.
      - simpl. apply lookup_delete_eq.
      - simpl. rewrite La. by apply (inv_apart _ _ Hinv p c). }
    split; [simpl; apply lookup_delete_eq|].
    split.
    { intros x Lt Lt'. simpl. rewrite La. split; [|done].
      apply lookup_delete_ne. lia. }
    intros r q Hr (c0 & L0 & _). simpl in L0.
    apply lookup_delete_Some in L0 as [_ L0]. pose proof (fresh_lt st _ _ Fr L0). lia. }
  (* a list waits for the context *)
  destruct (inv_cb _ _ Hinv p c Lc Hoc) as (q & Hpr & Ltq).
  assert (reports st p q) as Rpq by (by exists c).
  destruct (Link q Rpq) as [[l Lq] NRq].
  assert (q ∉ E) as Hqe.
  { intros X. pose proof (Hmin q X). lia. }
  destruct (inv_wait _ _ Hinv q l Lq Hqe) as [Cv _].
  destruct (inv_par _ _ Hinv q l Lq) as [Eq P2].
  destruct (P2 Hqe) as (c1 & Lc1 & Hh1 & Hx1 & subs & a & Ha1 & Hwf1).
  set (p1 := parent l) in *.
  assert (p1 ∉ E) as Hp1e.
  { intros X. pose proof (Hmin p1 X). lia. }
  set (c_2 := completing c).
  destruct (completing_fields c) as (F1 & F2 & F3 & F4 & F5 & F6). fold c_2 in F1, F2, F3, F4, F5, F6.
  set (s_1 := log (update_ctx st p c_2)
                  (ev_on_completion p callback_on_cmd_list_sub_completion (success c))).
  assert (ctxs s_1 = <[p := c_2]> (ctxs st)) as C1 by reflexivity.
  assert (Inv E s_1) as Inv_1.
  { apply (inv_update_ctx E st s_1 p c c_2 Hinv Lc C1); [done|done|simpl; lia|done|done| |].
    - intros (Hh & Hx & subs0 & a0 & Ha0 & Hw0). split; [by rewrite F1|].
      split; [by rewrite F1|]. exists subs0, a0. by rewrite F2.
    - intros [[h Hh] Hx]. split; [exists h; by rewrite F1|by rewrite F1]. }
  assert (forall r q' : ptr, reports s_1 r q' <-> reports st r q') as Rep_1.
  { intros r q'. by apply (reports_update st s_1 p r q' c c_2). }
  assert (ctxs s_1 !! p1 = Some c1) as Lc1_1.
  { rewrite C1, lookup_insert_ne; [done|]. lia. }
  set (E' := E ∪ {[p1]} ∪ {[q]}).
  assert (Inv E' s_1) as Inv_1'.
  { apply inv_grow; [apply inv_grow|..].
    - done.
    - simpl. lia.
    - simpl. intros X. destruct (inv_pool _ _ Hinv) as [_ Pj].
      destruct (Pj p1 X) as (_ & c0 & L0 & Pl). rewrite Lc1 in L0. injection L0 as <-.
      apply (list_shaped_not_plain c1); [|done].
      split; [done|]. split; [done|]. by exists subs, a.
    - intros p' _ _ [l0 L0] Ep. pose proof (inv_apart _ _ Inv_1 p1 c1 Lc1_1) as A0.
      rewrite <- Ep in A0. discriminate (eq_trans (eq_sym L0) A0).
    - simpl. lia.
    - simpl. intros X. destruct (inv_pool _ _ Hinv) as [_ Pj].
      destruct (Pj q X) as (_ & c0 & L0 & _).
      rewrite (inv_apart _ _ Hinv q c0 L0) in Lq. done.
    - intros p' Hp' _ _ Ep. apply Hp'. rewrite Eq in Ep. injection Ep as ->.
      apply in_union_r. }
  assert (q ∈ E') as Hq' by apply in_union_r.
  assert (p1 ∈ E') as Hp1' by apply in_union_l, in_union_r.
  assert (forall e : ptr, e ∈ E -> e ∈ E') as Sub'.
  { intros e X. by apply in_union_l, in_union_l. }
  assert (forall r : ptr, r ∉ E' -> r ∉ E) as NSub'.
  { intros r N X. by apply N, Sub'. }
  assert (forall r : ptr, r ∉ E' -> ~ reports s_1 r q) as NR_1.
  { intros r Hr Hrep. apply (NRq r); [by apply NSub'|]. by apply Rep_1. }
  assert (Forall run_command_spec subs) as HA.
  { apply (Forall_impl _ _ _ Hwf1). intros s. apply run_command_all. }
  destruct (continue_cmd_list_loop self subs HA E' s_1 q l c1 a Inv_1' Hq' Hp1'
              Lq Lc1_1 Hh1 Hx1 Ha1 Hwf1 NR_1)
    as (s' & new' & Step' & Pot' & Fc' & Fl' & Nl' & c' & l' & subs' &
        Lc' & Hcmd & Hoc' & Hpr' & Ha' & Hwf' & Lq' & Hpar' & Cases).
  fold p1 in Fc', Lc', Hpar'. change (next_ptr s_1) with (next_ptr st) in *.
  pose proof (step_next _ _ _ Step') as Nx'. change (next_ptr s_1) with (next_ptr st) in Nx'.
  assert (ctxs s' !! p = Some c_2) as Lp'.
  { rewrite (Fc' p Ltp) by lia. rewrite C1. apply lookup_insert_eq. }
  assert (forall (x : ptr) c0, ctxs s' !! x = Some c0 -> lists s' !! x = None) as Ap'.
  { destruct Cases as [(_ & I & _)|(_ & I & _)]; exact (inv_apart _ _ I). }
  assert (forall x : ptr, (x < next_ptr st)%nat -> x <> p1 -> x <> p ->
                          ctxs s' !! x = ctxs st !! x) as Fc.
  { intros x Lt N1 N2. rewrite (Fc' x Lt N1). rewrite C1. by rewrite lookup_insert_ne. }
  assert (forall q2 : ptr, reports s' p1 q2 ->
            is_Some (lists s' !! q2) /\ forall r : ptr, r ∉ E' -> ~ reports s' r q2)
    as Link1.
  { intros q2 (c0 & L0 & Ho & Hv). rewrite Lc' in L0. injection L0 as <-.
    rewrite Hoc' in Ho. rewrite Hpr' in Hv.
    assert (reports st p1 q2) as R1 by (by exists c1).
    destruct (inv_cb _ _ Hinv p1 c1 Lc1 Ho) as (q2' & Hv' & Lt2).
    rewrite Hv in Hv'. injection Hv' as <-.
    split.
    - rewrite (Fl' q2) by lia. simpl. by apply (inv_rep _ _ Hinv p1 q2).
    - intros r Hr Hrep. destruct (decide (r < next_ptr st)%nat) as [Lt|Ge].
      + assert (r <> p1) as N1 by (intros ->; by apply Hr).
        assert (r <> p) as N2 by (intros ->; by apply Hr, Sub').
        destruct Hrep as (c0 & L0 & X). rewrite (Fc r Lt N1 N2) in L0.
        apply N1. apply (inv_rep1 _ _ Hinv r p1 q2); [by apply NSub'|done| |done].
        by exists c0.
      + destruct (Nl' r q2 ltac:(lia) Hrep) as [->|Ge']; lia. }
  set (fin := fun (s2 : MPContext) (c3 : mp_cmd_ctx) =>
                log (set_ctxs (if Command.abort c3 is Some _
                               then mp_abort_remove s2 p else s2)
                              (delete p (ctxs s2))) (ev_free p)).
  assert (forall s2 c3, ctxs (fin s2 c3) = delete p (ctxs s2)) as FinC.
  { intros s2 c3. unfold fin. by destruct (Command.abort c3). }
  assert (forall s2 c3, lists (fin s2 c3) = lists s2) as FinL.
  { intros s2 c3. unfold fin. by destruct (Command.abort c3). }
  assert (forall s2 c3, thread_pool (fin s2 c3) = thread_pool s2) as FinP.
  { intros s2 c3. unfold fin. by destruct (Command.abort c3). }
  assert (forall s2 c3, next_ptr (fin s2 c3) = next_ptr s2) as FinN.
  { intros s2 c3. unfold fin. by destruct (Command.abort c3). }
  assert (forall s2 c3, trace (fin s2 c3) = trace s2 ++ [ev_free p]) as FinT.
  { intros s2 c3. unfold fin. by destruct (Command.abort c3). }
  assert (forall s2 new2, step s_1 s2 new2 -> ctxs s2 !! p = Some c_2 ->
            step st (fin s2 c_2)
                 ([ev_on_completion p callback_on_cmd_list_sub_completion (success c)] ++
                  new2 ++ [ev_free p])) as Wrap.
  { intros s2 new2 St2 L2.
    apply (step_wrap st s_1 s2 (fin s2 c_2) p c c_2 c_2 (success c) new2); done. }
  assert (forall w_free w_cb s2 new2,
            (trace_weight w_free w_cb new2 + pot w_free w_cb s2 = pot w_free w_cb s_1)%nat ->
            ctxs s2 !! p = Some c_2 ->
            (trace_weight w_free w_cb
               ([ev_on_completion p callback_on_cmd_list_sub_completion (success c)] ++
                new2 ++ [ev_free p]) + pot w_free w_cb (fin s2 c_2) =
             pot w_free w_cb st)%nat) as PotW.
  { intros w_free w_cb s2 new2 P2' L2. rewrite !trace_weight_app. simpl.
    pose proof (pot_free w_free w_cb s2 (fin s2 c_2) p c_2 L2 (FinC _ _)) as Pf.
    pose proof (pot_update w_free w_cb st s_1 p c c_2 Lc C1) as Pu.
    pose proof (completable_weight E st p c w_free w_cb Hcomp) as Hw.
    assert (ctx_weight w_free w_cb c_2 = ctx_weight w_free w_cb c) as Hw2.
    { unfold ctx_weight. by rewrite F1, F2, F3. }
    rewrite Hoc in Hw. lia. }
  destruct Cases as [(Ret' & Inv' & y & Hy & Ry)|(Red' & Inv' & -> & NR')].
  - (* the list waits for another sub-command *)
    exists (fin s' c_2),
      ([ev_on_completion p callback_on_cmd_list_sub_completion (success c)] ++
       new' ++ [ev_free p]).
    split.
    { apply (returns_bind_2 _ _ _ s' _
               (fun fuel => complete_waiting fuel self st p q c l Lc Hoc Hpr Lq Cv) Ret').
      rewrite Lp'. unfold fin. cbv zeta. by destruct (Command.abort c_2). }
    split; [by apply Wrap|].
    split; [intros w_free w_cb; by apply PotW|].
    assert (Inv (E' ∖ {[q]} ∖ {[p1]}) s') as I1.
    { apply (inv_release_ctx _ s' p1 c' Inv').
      - apply elem_of_difference. split; [done|]. intros X%elem_of_singleton. lia.
      - done.
      - intros q2 Hrep. destruct (Link1 q2 Hrep) as [L1 N1]. split; [done|].
        intros r [Hr| ->]%not_in_diff; [by apply N1|].
        intros (c0 & L0 & _). rewrite (Ap' _ _ L0) in Lq'. done.
      - rewrite <- Eq. split; [by exists l'|]. apply not_in_diff_2. }
    assert (p ∈ E' ∖ {[q]} ∖ {[p1]}) as Hp3.
    { apply elem_of_difference. split; [apply elem_of_difference; split|].
      - by apply Sub'.
      - intros X%elem_of_singleton. lia.
      - intros X%elem_of_singleton. lia. }
    split.
    { rewrite <- (union_diff_3 E p1 q p Hp1e Hqe). apply inv_shrink.
      - apply (inv_delete_ctx _ s' (fin s' c_2) p I1 Hp3); [done|done|done| | |].
        + rewrite FinN. lia.
        + apply (ChildOK _ s' c_2 I1 Lp' F1). intros X.
          apply elem_of_difference. split; [apply elem_of_difference; split|].
          * by apply Sub'.
          * intros X'%elem_of_singleton. lia.
          * intros X'%elem_of_singleton. lia.
        + intros q0 l0 (c0 & L0 & Ho & Hv) _ _. rewrite Lp' in L0. injection L0 as <-.
          rewrite F4, Hpr in Hv. injection Hv as <-. exists y. split; [lia|done].
      - rewrite FinC. apply lookup_delete_eq.
      - rewrite FinL. by apply (Ap' p c_2). }
    split; [rewrite FinC; apply lookup_delete_eq|].
    split.
    { intros x Lt Lt'. rewrite FinC, FinL. split.
      - rewrite lookup_delete_ne by lia. apply Fc; lia.
      - rewrite (Fl' x Lt') by lia. done. }
    intros r q0 Hr (c0 & L0 & X). rewrite FinC in L0.
    apply lookup_delete_Some in L0 as [_ L0].
    assert (reports s' r q0) as R by (by exists c0).
    destruct (Nl' r q0 Hr R) as [->|Ge]; [by left|by right].
  - (* every sub-command was submitted: the list command is complete *)
    assert (forall e : ptr, e ∈ E' -> (p1 <= e)%nat) as Hmin'.
    { intros e [[X| ->]%in_union| ->]%in_union; [|lia|lia].
      pose proof (Hmin e X). lia. }
    assert (completable E' s' p1 c') as Hcomp'.
    { right. split; [by rewrite Hcmd|]. split; [by exists a|].
      rewrite <- Eq. split; [by exists l'|done]. }
    assert (forall e q0 : ptr, e ∈ E' -> e <> p1 -> reports s' e q0 -> (p1 < q0)%nat)
      as Held'.
    { intros e q0 [[X| ->]%in_union| ->]%in_union N1 (c0 & L0 & Ho & Hv); [|done|].
      - destruct (decide (e = p)) as [->|N2].
        + rewrite Lp' in L0. injection L0 as <-. rewrite F4, Hpr in Hv.
          injection Hv as <-. lia.
        + pose proof (inv_held _ _ Hinv e X) as Lt. rewrite (Fc e Lt N1 N2) in L0.
          assert (reports st e q0) as R by (by exists c0).
          pose proof (Held e q0 X N2 R). lia.
      - rewrite (Ap' _ _ L0) in Lq'. done. }
    destruct (IH p1 E' s' c' ltac:(lia) Inv' Hp1' Hmin' Lc' Hcomp' Link1 Held')
      as (s_f & new_f & Ret_f & Step_f & Pot_f & Inv_f & Dead_f & Fr_f & Nl_f).
    pose proof (step_next _ _ _ Step_f) as Nx_f.
    assert (lists s_f !! q = Some l') as Lq_f.
    { destruct (Fr_f q ltac:(lia) ltac:(lia)) as [_ ->]. done. }
    assert (ctxs s_f !! p = Some c_2) as Lp_f.
    { destruct (Fr_f p ltac:(lia) ltac:(lia)) as [-> _]. done. }
    set (s_g := set_lists s_f (delete q (lists s_f))).
    assert (returns (fun fuel => continue_cmd_list fuel self s' q) s_g) as Ret_g.
    { apply (returns_bind_1 _ _ _ s_f _
               (fun fuel => continue_end fuel self s' q l' c' a Lq'
                              ltac:(by rewrite Hpar') Ha')).
      - by rewrite Hpar'.
      - unfold ptr in *. by rewrite Lq_f. }
    exists (fin s_g c_2),
      ([ev_on_completion p callback_on_cmd_list_sub_completion (success c)] ++
       (new' ++ new_f) ++ [ev_free p]).
    assert (step s_1 s_g (new' ++ new_f)) as Step_g.
    { apply (step_trans s_1 s' s_g _ _ Step').
      by apply (step_then_quiet s' s_f s_g). }
    split.
    { apply (returns_bind_2 _ _ _ s_g _
               (fun fuel => complete_waiting fuel self st p q c l Lc Hoc Hpr Lq Cv)).
      - by apply (returns_reduces _ _ _ Red').
      - change (ctxs s_g) with (ctxs s_f). rewrite Lp_f. unfold fin. cbv zeta.
        by destruct (Command.abort c_2). }
    split; [by apply Wrap|].
    split.
    { intros w_free w_cb. apply PotW; [|done]. rewrite trace_weight_app.
      specialize (Pot' w_free w_cb). specialize (Pot_f w_free w_cb).
      change (pot w_free w_cb s_g) with (pot w_free w_cb s_f). lia. }
    assert (Inv (E' ∖ {[p1]}) s_g) as J1.
    { apply (inv_delete_list _ s_f s_g q Inv_f); [|done|done|done|simpl; lia|].
      - apply elem_of_difference. split; [done|]. intros X%elem_of_singleton. lia.
      - intros r Hr (c0 & L0 & Ho & Hv).
        destruct (inv_cb _ _ Inv_f r c0 L0 Ho) as (q0 & Hv0 & Lt0).
        rewrite Hv in Hv0. injection Hv0 as <-.
        apply not_in_diff in Hr as [Hr| ->]; [|congruence].
        destruct (decide (r < next_ptr s')%nat) as [Lt|Ge].
        + destruct (Fr_f r ltac:(lia) Lt) as [Er _]. rewrite Er in L0.
          apply (NR' r Hr). by exists c0.
        + assert (reports s_f r q) as R by (by exists c0).
          destruct (Nl_f r q ltac:(lia) R); lia. }
    assert (p ∈ E' ∖ {[p1]}) as Hp3.
    { apply elem_of_difference. split; [by apply Sub'|].
      intros X%elem_of_singleton. lia. }
    split.
    { rewrite <- (union_diff_4 E p1 q p Hp1e Hqe). apply inv_shrink; [apply inv_shrink|..].
      - apply (inv_delete_ctx _ s_g (fin s_g c_2) p J1 Hp3); [done|done|done| | |].
        + rewrite FinN. lia.
        + apply (ChildOK _ s_g c_2 J1 Lp_f F1). intros X.
          apply elem_of_difference. split; [by apply Sub'|].
          intros X'%elem_of_singleton. lia.
        + intros q0 l0 (c0 & L0 & Ho & Hv) L0' _. exfalso.
          change (ctxs s_g) with (ctxs s_f) in L0. rewrite Lp_f in L0. injection L0 as <-.
          rewrite F4, Hpr in Hv. injection Hv as <-.
          simpl in L0'. by rewrite lookup_delete_eq in L0'.
      - rewrite FinC. apply lookup_delete_None. right.
        change (ctxs s_g) with (ctxs s_f).
        destruct (ctxs s_f !! q) as [c0|] eqn:L0; [|done].
        rewrite (inv_apart _ _ Inv_f _ _ L0) in Lq_f. done.
      - rewrite FinL. simpl. apply lookup_delete_eq.
      - rewrite FinC. apply lookup_delete_eq.
      - rewrite FinL. simpl. apply lookup_delete_None. right.
        by apply (inv_apart _ _ Inv_f p c_2). }
    split; [rewrite FinC; apply lookup_delete_eq|].
    split.
    { intros x Lt Lt'. rewrite FinC, FinL. simpl.
      destruct (Fr_f x ltac:(lia) ltac:(lia)) as [Ec El]. split.
      - rewrite lookup_delete_ne by lia. rewrite Ec. apply Fc; lia.
      - rewrite lookup_delete_ne by lia. rewrite El. rewrite (Fl' x Lt') by lia. done. }
    intros r q0 Hr (c0 & L0 & X). rewrite FinC in L0.
    apply lookup_delete_Some in L0 as [_ L0]. change (ctxs s_g) with (ctxs s_f) in L0.
    destruct (decide (r < next_ptr s')%nat) as [Lt|Ge].
    + destruct (Fr_f r ltac:(lia) Lt) as [Er _]. rewrite Er in L0.
      assert (reports s' r q0) as R by (by exists c0).
      destruct (Nl' r q0 Hr R) as [->|Ge]; [by left|by right].
    + assert (reports s_f r q0) as R by (by exists c0).
      destruct (Nl_f r q0 ltac:(lia) R); [left|right]; lia.
Qed.

(** *** The worker threads *)

Lemma empty_union_diff (j : ptr) : ((∅ : gset ptr) ∪ {[j]}) ∖ {[j]} = ∅.
Proof.
  apply set_eq. intros e.
  rewrite elem_of_difference, elem_of_union, elem_of_singleton.
  split; [intuition|]. intros X. by apply not_elem_of_empty in X.
Qed.

Lemma times_freed_le_weight x t : (times_freed x t <= trace_weight 1 0 t)%nat.
Proof.
  induction t as [|e t IH]; [done|]. destruct e; simpl; try lia.
  destruct (Nat.eqb _ _); lia.
Qed.

Lemma pot_pos (st : MPContext) (x : ptr) c :
  ctxs st !! x = Some c -> (1 <= pot 1 0 st)%nat.
Proof.
  intros L.
  pose proof (pot_free 1 0 st (set_ctxs st (delete x (ctxs st))) x c L eq_refl) as P.
  unfold ctx_weight in P. lia.
Qed.

(** A worker thread runs a job of the pool: the handler runs, the context
    is completed and gone, and what waited for it has gone on. *)
Lemma worker_step w (st st_t : MPContext) k (j : ptr) :
  quiescent st -> take_job st k = Some (j, st_t) ->
  exists st' new,
    returns (fun fuel => run_command_on_worker_thread fuel w st_t j) st' /\
    step st st' new /\
    (forall w_free w_cb,
       (trace_weight w_free w_cb new + pot w_free w_cb st' = pot w_free w_cb st)%nat) /\
    quiescent st' /\
    (pot 1 0 st' < pot 1 0 st)%nat.
Proof.
  intros Hq Ht.
  destruct (inv_take_job ∅ st st_t k j Hq Ht) as (Hj & Ec & El & En & Et & _ & Inv_t).
  pose proof (inv_fresh _ _ Hq) as Fr.
  destruct (inv_pool _ _ Hq) as [_ Pj].
  destruct (Pj j Hj) as (_ & c_j & L_j & Pl_j).
  pose proof Pl_j as [[h Hh] Hx].
  assert (ctxs st_t !! j = Some c_j) as L_t by (by rewrite Ec).
  pose proof (fresh_lt st _ _ Fr L_j) as Ltj.
  destruct (handler_body h (args c_j) (rest st_t)) as [[p' ok] res] eqn:Hb.
  set (c_h := set_result res (set_success ok c_j)).
  set (s_h := set_rest (update_ctx (log st_t (ev_handler j (name (fst (cmd c_j))))) j c_h) p').
  assert (ctxs s_h = <[j := c_h]> (ctxs st_t)) as C_h by reflexivity.
  set (E := (∅ : gset ptr) ∪ {[j]}).
  assert (Inv E s_h) as Inv_h.
  { apply (inv_update_ctx E st_t s_h j c_j c_h Inv_t L_t C_h);
      [done|done|simpl; lia|done|done| |].
    - intros Ls. by destruct (list_shaped_not_plain c_j).
    - intros _. split; [by exists h|done]. }
  assert (forall r q : ptr, reports s_h r q <-> reports st r q) as Rep_h.
  { intros r q. rewrite (reports_update st_t s_h j r q c_j c_h L_t C_h eq_refl eq_refl).
    unfold reports. by rewrite Ec. }
  assert (ctxs s_h !! j = Some c_h) as L_h by (rewrite C_h; apply lookup_insert_eq).
  destruct (mp_cmd_ctx_complete_spec w (S j) j E s_h c_h ltac:(lia) Inv_h)
    as (s_c & new_c & Ret_c & Step_c & Pot_c & Inv_c & Dead_c & _ & _).
  { apply in_union_r. }
  { intros e [X| ->]%in_union; [by apply not_elem_of_empty in X|lia]. }
  { done. }
  { left. split; [by exists h|done]. }
  { intros q Hrep. apply Rep_h in Hrep. split.
    - change (lists s_h) with (lists st_t). rewrite El.
      apply (inv_rep _ _ Hq j q); [apply not_elem_of_empty|done].
    - intros r [_ Ne]%not_in_union Hrep'. apply Rep_h in Hrep'. apply Ne.
      apply (inv_rep1 _ _ Hq r j q); try done; apply not_elem_of_empty. }
  { intros e q [X| ->]%in_union Ne; [by apply not_elem_of_empty in X|done]. }
  unfold E in Inv_c. rewrite empty_union_diff in Inv_c.
  set (s_o := set_outstanding_async s_c (to_int (outstanding_async s_c - 1))).
  set (cond := (outstanding_async s_o =? 0) && mp_is_shutting_down (rest s_o)).
  set (s_w := if cond then mp_wakeup_core s_o else s_o).
  set (tail := if cond then [ev_wakeup_core] else []).
  assert (ctxs s_w = ctxs s_c /\ lists s_w = lists s_c /\
          thread_pool s_w = thread_pool s_c /\ next_ptr s_w = next_ptr s_c /\
          trace s_w = trace s_c ++ tail) as (Wc & Wl & Wp & Wn & Wt).
  { unfold s_w, tail. destruct cond; simpl; rewrite ?app_nil_r; done. }
  assert (silent tail /\ freed_after tail) as [Sil_t Fa_t].
  { unfold tail. destruct cond; [split; [apply silent_wakeup|done]|split; [apply silent_nil|done]]. }
  exists s_w, ([ev_handler j (name (fst (cmd c_j)))] ++ new_c ++ tail).
  assert (step st s_w ([ev_handler j (name (fst (cmd c_j)))] ++ new_c ++ tail)) as Step_w.
  { apply (step_trans st s_h s_w).
    - apply step_quiet.
      + done.
      + simpl. lia.
      + intros x Hx'. simpl in Hx'. rewrite C_h, Ec. rewrite lookup_insert_ne by lia.
        destruct (Fr x); [lia|done].
      + simpl. by rewrite Et.
      + apply silent_handler.
      + done.
      + intros x c0 L0. rewrite C_h, Ec. destruct (decide (x = j)) as [->|Ne].
        * rewrite lookup_insert_eq. exists c_h. split; [done|].
          rewrite L_j in L0. by injection L0 as <-.
        * rewrite lookup_insert_ne by done. by exists c0.
      + intros x Lt N. rewrite C_h, Ec, lookup_insert_ne; [done|]. intros <-. congruence.
    - apply (step_trans s_h s_c s_w _ _ Step_c).
      pose proof (inv_fresh _ _ Inv_c) as Fr_c.
      apply step_quiet.
      + done.
      + lia.
      + intros x Hx'. rewrite Wc. destruct (Fr_c x); [lia|done].
      + done.
      + done.
      + done.
      + intros x c0 L0. exists c0. by rewrite Wc.
      + intros x Lt N. by rewrite Wc. }
  assert (forall w_free w_cb,
            (trace_weight w_free w_cb ([ev_handler j (name (fst (cmd c_j)))] ++ new_c ++ tail) +
             pot w_free w_cb s_w = pot w_free w_cb st)%nat) as Pot_w.
  { intros w_free w_cb. rewrite !trace_weight_app.
    rewrite (silent_weight _ _ _ (silent_handler j _)).
    rewrite (silent_weight _ _ tail Sil_t).
    rewrite (pot_same w_free w_cb s_c s_w Wc).
    specialize (Pot_c w_free w_cb).
    pose proof (pot_update w_free w_cb st s_h j c_j c_h L_j) as Pu.
    rewrite C_h, Ec in Pu. specialize (Pu eq_refl).
    assert (ctx_weight w_free w_cb c_h = ctx_weight w_free w_cb c_j) as Hw by done.
    lia. }
  split.
  { destruct Ret_c as [n Hn]. exists (S n). intros fuel Hfuel.
    unfold run_command_on_worker_thread. rewrite L_t, Hx.
    rewrite (call_handler_of_any fuel w st_t j c_j h) by (done || lia).
    rewrite Hb. simpl. fold c_h. fold s_h. rewrite Hn by lia.
    fold s_o. unfold s_w, cond. simpl.
    by destruct ((to_int (outstanding_async s_c - 1) =? 0) && mp_is_shutting_down (rest s_c)). }
  split; [done|]. split; [done|].
  split.
  { apply (inv_ext ∅ s_c s_w Inv_c); [done|done|done|lia]. }
  assert (ctxs s_w !! j = None) as Dead_w by (by rewrite Wc).
  destruct (step_gone _ _ _ Step_w j c_j L_j Dead_w) as [Fj _].
  pose proof (times_freed_le_weight j ([ev_handler j (name (fst (cmd c_j)))] ++ new_c ++ tail)).
  specialize (Pot_w 1%nat 0%nat). lia.
Qed.

Lemma take_job_none (st : MPContext) k :
  take_job st k = None -> thread_pool st = [].
Proof.
  unfold take_job. destruct (thread_pool st) as [|j pool] eqn:Hp; [done|].
  destruct ((j :: pool) !! _) as [j0|] eqn:L; [done|]. intros _.
  apply lookup_ge_None in L.
  pose proof (Nat.mod_upper_bound k (length (j :: pool))) as B. simpl in *. lia.
Qed.

Lemma take_job_empty (st : MPContext) k :
  thread_pool st = [] -> take_job st k = None.
Proof. unfold take_job. by intros ->. Qed.

(** the worker threads run as the schedule has it *)
Lemma run_workers_spec schedule :
  forall st : MPContext,
    quiescent st ->
    exists st' new,
      returns (fun fuel => run_workers fuel schedule st) st' /\
      step st st' new /\
      (forall w_free w_cb,
         (trace_weight w_free w_cb new + pot w_free w_cb st' = pot w_free w_cb st)%nat) /\
      quiescent st' /\
      ((pot 1 0 st <= length schedule)%nat -> thread_pool st' = []).
Proof.
  induction schedule as [|[w k] schedule IH]; intros st Hq.
  { exists st, []. split; [by exists 0%nat|]. split.
    { apply step_refl. by apply (inv_fresh _ _ Hq). }
    split; [done|]. split; [done|].
    simpl. intros Hp. destruct (thread_pool st) as [|j pool] eqn:Hpool; [done|].
    destruct (inv_pool _ _ Hq) as [_ Pj].
    destruct (Pj j) as (_ & c & L & _); [rewrite Hpool; apply list_elem_of_here|].
    pose proof (pot_pos st j c L). lia. }
  destruct (take_job st k) as [[j st_t]|] eqn:Ht.
  - destruct (worker_step w st st_t k j Hq Ht)
      as (st1 & new1 & Ret1 & Step1 & Pot1 & Hq1 & Lt1).
    destruct (IH st1 Hq1) as (st2 & new2 & Ret2 & Step2 & Pot2 & Hq2 & Done2).
    exists st2, (new1 ++ new2).
    split.
    { destruct Ret1 as [n1 Hn1]. destruct Ret2 as [n2 Hn2]. exists (n1 + n2)%nat.
      intros fuel Hfuel. simpl. rewrite Ht, Hn1 by lia. apply Hn2. lia. }
    split; [by apply (step_trans st st1 st2)|].
    split.
    { intros w_free w_cb. rewrite trace_weight_app.
      specialize (Pot1 w_free w_cb). specialize (Pot2 w_free w_cb). lia. }
    split; [done|].
    simpl. intros Hp. apply Done2. lia.
  - destruct (IH st Hq) as (st2 & new2 & Ret2 & Step2 & Pot2 & Hq2 & Done2).
    exists st2, new2.
    split.
    { destruct Ret2 as [n2 Hn2]. exists n2.
      intros fuel Hfuel. simpl. rewrite Ht. by apply Hn2. }
    split; [done|]. split; [done|]. split; [done|].
    intros _. clear Done2.
    (* an idle pool stays idle *)
    pose proof (take_job_none st k Ht) as Hpool.
    destruct Ret2 as [n2 Hn2]. specialize (Hn2 n2 (le_n _)).
    assert (forall (sch : list (pthread_t * nat)) fuel,
              run_workers fuel sch st = Ok st) as Idle.
    { induction sch as [|[w' k'] sch IHs]; intros fuel; [done|].
      simpl. by rewrite (take_job_empty st k' Hpool). }
    rewrite Idle in Hn2. by injection Hn2 as <-.
Qed.

(** when nothing runs and no job is queued, no command is in progress *)
Lemma quiescent_idle (st : MPContext) :
  quiescent st -> thread_pool st = [] -> ctxs st = ∅ /\ lists st = ∅.
Proof.
  intros Hq Hpool. pose proof (inv_fresh _ _ Hq) as Fr.
  assert (forall n (p : ptr) c, (next_ptr st <= p + n)%nat -> ctxs st !! p = Some c -> False)
    as Chain.
  { induction n as [|n IH]; intros p c Hn L.
    { pose proof (fresh_lt st _ _ Fr L). lia. }
    destruct (inv_back _ _ Hq p c L) as [B|[[l B1] B2]]; [apply not_elem_of_empty| |].
    - rewrite Hpool in B. by apply elem_of_nil in B.
    - destruct (inv_wait _ _ Hq (S p) l B1 B2) as (_ & r & (c0 & L0 & Ho & Hv)).
      destruct (inv_cb _ _ Hq r c0 L0 Ho) as (q & Hv' & Lt). rewrite Hv in Hv'.
      injection Hv' as <-. apply (IH r c0); [lia|done]. }
  assert (ctxs st = ∅) as Ec.
  { apply map_empty. intros p. destruct (ctxs st !! p) as [c|] eqn:L; [|done].
    destruct (Chain (next_ptr st) p c); [lia|done]. }
  split; [done|].
  apply map_empty. intros q. destruct (lists st !! q) as [l|] eqn:L; [|done].
  destruct (inv_wait _ _ Hq q l L) as (_ & r & (c0 & L0 & _)); [apply not_elem_of_empty|].
  rewrite Ec in L0. done.
Qed.

Lemma pot_empty w_free w_cb (st : MPContext) :
  ctxs st = ∅ -> pot w_free w_cb st = 0%nat.
Proof. intros E. unfold pot. by rewrite E. Qed.

(** C4: every command of the command table, submitted between two calls
    into the pipeline with the callback of another module or none, while
    other commands may be in progress: [run_command] returns, and so do the
    worker threads, whatever jobs they take in whatever order.  No callback
    is called twice and no context freed twice; the callback of a context
    that is still there has not been called; a call of a callback is
    followed by the end of its context, at once for a callback of another
    module, when the list has gone on and returned for a sub-command of a
    list.  When no job is left in the pool, which is so when the schedule
    has as many steps as there are commands, no context is left: the
    callback of the command was called once if it has one, its context
    freed once, the same for every command that was in progress, and there
    are as many calls of callbacks and ends of contexts as there are
    callbacks and commands, sub-commands of lists included. *)
Theorem completion_exactly_once self (st : MPContext) cmd abort oc priv schedule :
  wf_cmd cmd -> abort_allowed cmd abort -> quiescent st ->
  oc <> Some callback_on_cmd_list_sub_completion ->
  exists st1 st2 new,
    returns (fun fuel => run_command fuel self st cmd abort oc priv) st1 /\
    returns (fun fuel => run_workers fuel schedule st1) st2 /\
    trace st2 = trace st ++ new /\
    (forall x : ptr, (times_completed x new <= 1)%nat /\ (times_freed x new <= 1)%nat) /\
    (forall (x : ptr) c, ctxs st2 !! x = Some c ->
       times_completed x new = 0%nat /\ times_freed x new = 0%nat) /\
    freed_after new /\
    quiescent st2 /\
    (thread_pool st2 = [] ->
       ctxs st2 = ∅ /\
       times_completed (next_ptr st) new = (if oc is Some _ then 1 else 0)%nat /\
       times_freed (next_ptr st) new = 1%nat /\
       (forall (x : ptr) c, ctxs st !! x = Some c ->
          times_completed x new = (if on_completion c is Some _ then 1 else 0)%nat /\
          times_freed x new = 1%nat) /\
       trace_weight 1 0 new = (pot 1 0 st + commands cmd)%nat /\
       trace_weight 0 1 new = (pot 0 1 st + callbacks oc cmd)%nat) /\
    ((pot 1 0 st + commands cmd <= length schedule)%nat -> thread_pool st2 = []).
Proof.
  intros Hwf Ab Hq Hoc.
  assert (callback_ready ∅ st self oc priv) as Cr.
  { by destruct oc as [[|f]|]. }
  destruct (run_command_all cmd Hwf ∅ self st abort oc priv Hq Ab Cr)
    as (st1 & new1 & Ret1 & Step1 & Pot1 & Inv1 & Fc1 & Nl1 & Root1).
  destruct (run_workers_spec schedule st1 Inv1)
    as (st2 & new2 & Ret2 & Step2 & Pot2 & Hq2 & Done2).
  pose proof (step_trans st st1 st2 new1 new2 Step1 Step2) as Step.
  exists st1, st2, (new1 ++ new2).
  split; [done|]. split; [done|].
  split; [by apply (step_trace _ _ _ Step)|].
  split.
  { intros x. destruct (step_once _ _ _ Step x). done. }
  split.
  { intros x c L. destruct (step_live _ _ _ Step x c L). done. }
  split; [by apply (step_closed _ _ _ Step)|].
  split; [done|].
  assert (forall w_free w_cb,
            (trace_weight w_free w_cb (new1 ++ new2) + pot w_free w_cb st2 =
             pot w_free w_cb st +
             cmd_weight w_free w_cb (if oc is Some _ then true else false) cmd)%nat) as Pot.
  { intros w_free w_cb. rewrite trace_weight_app.
    specialize (Pot1 w_free w_cb). specialize (Pot2 w_free w_cb). lia. }
  split.
  { intros Hpool. destruct (quiescent_idle st2 Hq2 Hpool) as [Ec _].
    split; [done|].
    pose proof (inv_fresh _ _ Hq) as Fr.
    pose proof (step_next _ _ _ Step1) as Nx1.
    assert (times_completed (next_ptr st) (new1 ++ new2) =
              (if oc is Some _ then 1 else 0)%nat /\
            times_freed (next_ptr st) (new1 ++ new2) = 1%nat) as [Rc Rf].
    { rewrite times_completed_app, times_freed_app.
      destruct Root1 as [(Dead & Hf & Hc & _)|(c & L & Ho & _)].
      - assert (next_ptr st < next_ptr st1)%nat as Lt.
        { destruct (decide (next_ptr st < next_ptr st1)%nat) as [|Ge]; [done|].
          destruct (step_bound _ _ _ Step1 (next_ptr st) ltac:(lia)) as (_ & F0 & _). lia. }
        destruct (step_dead _ _ _ Step2 (next_ptr st) Lt Dead) as (_ & F2 & C2).
        rewrite Hf, Hc, F2, C2. lia.
      - destruct (step_live _ _ _ Step1 _ _ L) as [F1 C1].
        assert (ctxs st2 !! next_ptr st = None) as D2 by (by rewrite Ec).
        destruct (step_gone _ _ _ Step2 _ _ L D2) as [F2 C2].
        rewrite F1, C1, F2, C2, Ho. lia. }
    split; [done|]. split; [done|].
    split.
    { intros x c L. assert (ctxs st2 !! x = None) as D2 by (by rewrite Ec).
      destruct (step_gone _ _ _ Step x c L D2). done. }
    split.
    - specialize (Pot 1%nat 0%nat). rewrite (pot_empty _ _ st2 Ec) in Pot.
      rewrite cmd_weight_no_cb in Pot. unfold commands. lia.
    - specialize (Pot 0%nat 1%nat). rewrite (pot_empty _ _ st2 Ec) in Pot.
      unfold callbacks. lia. }
  intros Hlen. apply Done2.
  specialize (Pot1 1%nat 0%nat). rewrite cmd_weight_no_cb in Pot1.
  unfold commands in Hlen. lia.
Qed.

End WithCommandApi.

Lemma example_state_quiescent : quiescent example_state.
Proof.
  assert (forall (p : ptr) c, ctxs example_state !! p = Some c -> False) as Nc.
  { intros p c L. change (ctxs example_state) with (∅ : gmap ptr (mp_cmd_ctx Z)) in L.
    by rewrite lookup_empty in L. }
  assert (forall (q : ptr) l, lists example_state !! q = Some l -> False) as Nl.
  { intros q l L. change (lists example_state) with (∅ : gmap ptr cmd_list_ctx) in L.
    by rewrite lookup_empty in L. }
  split.
  - intros i Hi. split; apply lookup_empty.
  - intros e X. by apply not_elem_of_empty in X.
  - intros p c L. by destruct (Nc p c).
  - intros p c L. by destruct (Nc p c).
  - intros p c L. by destruct (Nc p c).
  - intros r q _ (c & L & _). by destruct (Nc r c).
  - intros r r' q _ _ (c & L & _). by destruct (Nc r c).
  - intros q l L. by destruct (Nl q l).
  - split; [constructor|]. intros j X. by apply elem_of_nil in X.
  - intros q l L. by destruct (Nl q l).
  - intros p c L. by destruct (Nc p c).
Qed.

(** C4, on the example: a list command with a callback of another module,
    of a sub-command that a worker thread runs while the list waits, and of
    a sub-command that runs detached.  After three steps of the worker
    threads the pool is empty, no context is left, the callback of the list
    command was called once and its context freed once; three contexts were
    freed and two callbacks called, the one of the list command and the
    one of the sub-command that the list waited for. *)
Lemma completion_exactly_once_witness :
  exists st1 st2 new,
    returns (fun fuel => @run_command _ _ example_api fuel 0%nat example_state
                           example_mixed_list None (Some (callback_of "done")) None) st1 /\
    returns (fun fuel => @run_workers _ _ example_api fuel
                           [(7, 0); (7, 0); (7, 0)]%nat st1) st2 /\
    trace st2 = new /\ thread_pool st2 = [] /\ ctxs st2 = ∅ /\
    times_completed 1%nat new = 1%nat /\ times_freed 1%nat new = 1%nat /\
    trace_weight 1 0 new = 3%nat /\ trace_weight 0 1 new = 2%nat.
Proof.
  destruct (@completion_exactly_once _ _ example_api 0%nat example_state
              example_mixed_list None (Some (callback_of "done")) None
              [(7, 0); (7, 0); (7, 0)]%nat)
    as (st1 & st2 & new & R1 & R2 & T & _ & _ & _ & _ & Idle & Len).
  - simpl. repeat split.
  - intros X. elim X. reflexivity.
  - exact example_state_quiescent.
  - discriminate.
  - assert (thread_pool st2 = []) as Pool.
    { apply Len. vm_compute. lia. }
    destruct (Idle Pool) as (Ec & Rc & Rf & _ & W1 & W2).
    exists st1, st2, new.
    split; [exact R1|]. split; [exact R2|]. split; [exact T|].
    split; [exact Pool|]. split; [exact Ec|]. split; [exact Rc|].
    split; [exact Rf|]. split; [exact W1|exact W2].
Defined.

End CompletionFacts.
